(** * A functional model of the trace-driven out-of-order pipeline simulator

    The development follows the three translation units of the simulator:
    [rat.cpp] (register alias table), [rob.cpp] (re-order buffer) and
    [pipeline.cpp] (the seven stage functions and [pipe_cycle]).

    Conventions of the embedding.
    - C [int] values (register ids, rename tags, ROB indices) are [Z]; the
      sentinel [-1] is the integer [-1].
    - [uint64_t] counters are [Z] with the wrap-around written out ([u64]);
      [uint32_t] conversions in [x % NUM_ROB_ENTRIES] are written [u32].
    - A C array is a total function from its index type to the cell type.
      The cells whose index lies inside the declared bounds are the array;
      the other cells stand for whatever memory an out-of-bounds subscript
      reaches, and are left unconstrained by every initialiser.
    - Loops of the shape [do { ... } while (i != tail)] carry a fuel argument
      and return [None] when it runs out; the theorems about them show that
      [NUM_ROB_ENTRIES] iterations are always enough. *)

From Stdlib Require Import ZArith List Bool Lia Arith.
Import ListNotations.
Open Scope Z_scope.

Set Implicit Arguments.

(** ** Machine integers *)

Definition u32 (z : Z) : Z := z mod 2 ^ 32.
Definition u64 (z : Z) : Z := z mod 2 ^ 64.

(** ** Arrays as total functions *)

Definition upd {A} (f : Z -> A) (i : Z) (v : A) : Z -> A :=
  fun j => if j =? i then v else f j.

Definition updn {A} (f : nat -> A) (i : nat) (v : A) : nat -> A :=
  fun j => if Nat.eqb j i then v else f j.

(** ** Option as the monad of loops that may run out of fuel *)

Definition bind {A B} (m : option A) (k : A -> option B) : option B :=
  match m with
  | Some a => k a
  | None => None
  end.

Notation "x <- m ;; k" := (bind m (fun x => k))
  (at level 61, m at next level, right associativity).

(** ** Instruction records ([trace.h]) *)

(** Modelled from the spec: [trace.h] is not among the sources.  The fields
    are the ones the three translation units read and write; the spec's data
    model lists the same annotations (instruction number, destination tag,
    two source tags, two ready flags, remaining execution cycles). *)
Record InstInfo := mkInst {
  inst_num : Z;
  op_type : Z;
  dest_reg : Z;
  src1_reg : Z;
  src2_reg : Z;
  dr_tag : Z;
  src1_tag : Z;
  src2_tag : Z;
  src1_ready : bool;
  src2_ready : bool;
  exe_wait_cycles : Z
}.

Definition inst_zero : InstInfo := mkInst 0 0 0 0 0 0 0 0 false false 0.

Definition set_dr_tag (v : Z) (x : InstInfo) : InstInfo :=
  mkInst (inst_num x) (op_type x) (dest_reg x) (src1_reg x) (src2_reg x)
         v (src1_tag x) (src2_tag x) (src1_ready x) (src2_ready x)
         (exe_wait_cycles x).

Definition set_src1_tag (v : Z) (x : InstInfo) : InstInfo :=
  mkInst (inst_num x) (op_type x) (dest_reg x) (src1_reg x) (src2_reg x)
         (dr_tag x) v (src2_tag x) (src1_ready x) (src2_ready x)
         (exe_wait_cycles x).

Definition set_src2_tag (v : Z) (x : InstInfo) : InstInfo :=
  mkInst (inst_num x) (op_type x) (dest_reg x) (src1_reg x) (src2_reg x)
         (dr_tag x) (src1_tag x) v (src1_ready x) (src2_ready x)
         (exe_wait_cycles x).

Definition set_src1_ready (v : bool) (x : InstInfo) : InstInfo :=
  mkInst (inst_num x) (op_type x) (dest_reg x) (src1_reg x) (src2_reg x)
         (dr_tag x) (src1_tag x) (src2_tag x) v (src2_ready x)
         (exe_wait_cycles x).

Definition set_src2_ready (v : bool) (x : InstInfo) : InstInfo :=
  mkInst (inst_num x) (op_type x) (dest_reg x) (src1_reg x) (src2_reg x)
         (dr_tag x) (src1_tag x) (src2_tag x) (src1_ready x) v
         (exe_wait_cycles x).

Definition set_exe_wait_cycles (v : Z) (x : InstInfo) : InstInfo :=
  mkInst (inst_num x) (op_type x) (dest_reg x) (src1_reg x) (src2_reg x)
         (dr_tag x) (src1_tag x) (src2_tag x) (src1_ready x) (src2_ready x)
         v.

(** Modelled from the spec: one fixed-layout trace record (section 6 of the
    spec): the op type and, for the destination and each source, a "needed"
    flag and a register id. *)
Record TraceRec := mkTraceRec {
  tr_op_type : Z;
  tr_dest_needed : bool;
  tr_dest_reg : Z;
  tr_src1_needed : bool;
  tr_src1_reg : Z;
  tr_src2_needed : bool;
  tr_src2_reg : Z
}.

(** ** rat.h / rat.cpp *)

Definition MAX_ARF_REGS : Z := 32.

(** [prf_id] is declared [uint64_t], but every value stored in it comes from
    an [int] argument of [rat_set_remap] and is read back through the [int]
    result of [rat_get_remap]: the field is modelled by that [int]. *)
Record RATEntry := mkRATEntry {
  rat_valid : bool;
  prf_id : Z
}.

Record RAT := mkRAT {
  rat_entries : Z -> RATEntry
}.

(** [rat_init]: [calloc] zeroes the 32 entries; [around] is the memory next to
    the array. *)
Definition rat_init (around : Z -> RATEntry) : RAT :=
  mkRAT (fun i => if (0 <=? i) && (i <? MAX_ARF_REGS)
                  then mkRATEntry false 0 else around i).

Definition rat_get_remap (t : RAT) (arf_id : Z) : Z :=
  if rat_valid (rat_entries t arf_id)
  then prf_id (rat_entries t arf_id)
  else -1.

Definition rat_set_remap (t : RAT) (arf_id prf : Z) : RAT :=
  mkRAT (upd (rat_entries t) arf_id (mkRATEntry true prf)).

Definition rat_reset_entry (t : RAT) (arf_id : Z) : RAT :=
  mkRAT (upd (rat_entries t) arf_id
             (mkRATEntry false (prf_id (rat_entries t arf_id)))).

(** ** rob.h / rob.cpp *)

Definition MAX_ROB_ENTRIES : Z := 256.

Record ROBEntry := mkROBEntry {
  valid : bool;
  exec : bool;
  ready : bool;
  inst : InstInfo
}.

Definition set_valid (v : bool) (e : ROBEntry) : ROBEntry :=
  mkROBEntry v (exec e) (ready e) (inst e).
Definition set_exec (v : bool) (e : ROBEntry) : ROBEntry :=
  mkROBEntry (valid e) v (ready e) (inst e).
Definition set_ready (v : bool) (e : ROBEntry) : ROBEntry :=
  mkROBEntry (valid e) (exec e) v (inst e).
Definition set_inst (v : InstInfo) (e : ROBEntry) : ROBEntry :=
  mkROBEntry (valid e) (exec e) (ready e) v.

Record ROB := mkROB {
  entries : Z -> ROBEntry;
  head_ptr : Z;
  tail_ptr : Z
}.

Definition set_entries (es : Z -> ROBEntry) (r : ROB) : ROB :=
  mkROB es (head_ptr r) (tail_ptr r).

Definition rob_init : ROB :=
  mkROB (fun _ => mkROBEntry false false false inst_zero) 0 0.

Section Rob.

(** [extern uint32_t NUM_ROB_ENTRIES;] *)
Variable NUM_ROB_ENTRIES : Z.

Definition rob_check_space (r : ROB) : bool :=
  if u32 (tail_ptr r) =? u32 (head_ptr r)
  then if negb (valid (entries r (head_ptr r))) then true else false
  else true.

Definition rob_insert (r : ROB) (x : InstInfo) : Z * ROB :=
  if rob_check_space r
  then
    let idx := tail_ptr r in
    (idx,
     mkROB (upd (entries r) idx (mkROBEntry true false false x))
           (head_ptr r)
           (u32 (tail_ptr r + 1) mod NUM_ROB_ENTRIES))
  else (-1, r).

Definition rob_mark_exec (r : ROB) (x : InstInfo) : ROB :=
  set_entries (upd (entries r) (dr_tag x)
                   (set_exec true (entries r (dr_tag x)))) r.

Definition rob_mark_ready (r : ROB) (x : InstInfo) : ROB :=
  set_entries (upd (entries r) (dr_tag x)
                   (set_ready true (entries r (dr_tag x)))) r.

Definition rob_check_ready (r : ROB) (tag : Z) : bool :=
  if valid (entries r tag) && ready (entries r tag) then true else false.

Definition rob_check_head (r : ROB) : bool :=
  if rob_check_ready r (head_ptr r) then true else false.

(** The body of the [do]-loop of [rob_wakeup] at slot [i]. *)
Definition rob_wakeup_slot (tag : Z) (e : ROBEntry) : ROBEntry :=
  let e1 :=
    if valid e && (src1_tag (inst e) =? tag)
    then set_inst (set_src1_ready true (inst e)) e else e in
  if valid e1 && (src2_tag (inst e1) =? tag)
  then set_inst (set_src2_ready true (inst e1)) e1 else e1.

(** The [do { ... } while (i != tail)] loop.  Besides the entries it returns
    the slots it visited, oldest first. *)
Fixpoint rob_wakeup_loop (fuel : nat) (tail tag i : Z) (es : Z -> ROBEntry)
  : option ((Z -> ROBEntry) * list Z) :=
  match fuel with
  | O => None
  | S fuel' =>
      let es' := upd es i (rob_wakeup_slot tag (es i)) in
      let i' := u32 (i + 1) mod NUM_ROB_ENTRIES in
      if negb (i' =? tail)
      then
        r <- rob_wakeup_loop fuel' tail tag i' es' ;;
        Some (fst r, i :: snd r)
      else Some (es', [i])
  end.

Definition rob_wakeup_visit (r : ROB) (tag : Z)
  : option ((Z -> ROBEntry) * list Z) :=
  let tail := u32 (tail_ptr r) in
  let head := u32 (head_ptr r) in
  rob_wakeup_loop (Z.to_nat NUM_ROB_ENTRIES) tail tag head (entries r).

Definition rob_wakeup (r : ROB) (tag : Z) : option ROB :=
  v <- rob_wakeup_visit r tag ;;
  Some (set_entries (fst v) r).

(** [headEntry0] is the content of the local [headEntry] before the [if]:
    the declaration has no initialiser. *)
Definition rob_remove_head (headEntry0 : InstInfo) (r : ROB)
  : InstInfo * ROB :=
  let h := head_ptr r in
  if valid (entries r h) && ready (entries r h)
  then
    (inst (entries r h),
     mkROB (upd (entries r) h (mkROBEntry false false false (inst (entries r h))))
           (u32 (h + 1) mod NUM_ROB_ENTRIES)
           (tail_ptr r))
  else (headEntry0, r).

End Rob.

(** ** exeq.h / exeq.cpp *)

Definition MAX_WRITEBACKS : nat := 256.

(** Modelled from the spec: [exeq.h] and [exeq.cpp] are not among the
    sources.  Section 4.3 of the spec: the queue is an unordered set of at
    most [MAX_WRITEBACKS] instructions, each with its remaining-cycles counter
    ([exe_wait_cycles]); [insert] initialises the counter from the op type
    (loads use [LOAD_EXE_CYCLES], all others 1) and fails when the queue is
    full; [cycle] decrements every counter; an entry is done when its counter
    has reached zero; [remove] takes out one done entry, preferring the one
    that finished earlier (the smaller counter, since [cycle] keeps
    decrementing), then the smaller instruction number. *)
Definition EXEQ := list InstInfo.

Definition exeq_init : EXEQ := [].

Definition exeq_insert (op_ld load_exe_cycles : Z) (q : EXEQ) (x : InstInfo)
  : bool * EXEQ :=
  if (length q <? MAX_WRITEBACKS)%nat
  then (true,
        q ++ [set_exe_wait_cycles
                (if op_type x =? op_ld then load_exe_cycles else 1) x])
  else (false, q).

Definition exeq_cycle (q : EXEQ) : EXEQ :=
  map (fun x => set_exe_wait_cycles (exe_wait_cycles x - 1) x) q.

Definition exeq_done (x : InstInfo) : bool := exe_wait_cycles x <=? 0.

Definition exeq_check_done (q : EXEQ) : bool := existsb exeq_done q.

Definition exeq_before (a b : InstInfo) : bool :=
  (exe_wait_cycles a <? exe_wait_cycles b)
  || ((exe_wait_cycles a =? exe_wait_cycles b) && (inst_num a <? inst_num b)).

Fixpoint exeq_extract (q : EXEQ) : option (InstInfo * EXEQ) :=
  match q with
  | [] => None
  | x :: q' =>
      match exeq_extract q' with
      | None => if exeq_done x then Some (x, q') else None
      | Some (y, r) =>
          if exeq_done x && negb (exeq_before y x)
          then Some (x, q') else Some (y, x :: r)
      end
  end.

Definition exeq_remove (q : EXEQ) : InstInfo * EXEQ :=
  match exeq_extract q with
  | Some xr => xr
  | None => (inst_zero, q)
  end.

(** ** pipeline.h *)

Definition MAX_PIPE_WIDTH : nat := 8.

Inductive SchedulingPolicy :=
| SCHED_IN_ORDER
| SCHED_OUT_OF_ORDER
| NUM_SCHED_POLICIES.

Definition SchedulingPolicy_eqb (a b : SchedulingPolicy) : bool :=
  match a, b with
  | SCHED_IN_ORDER, SCHED_IN_ORDER => true
  | SCHED_OUT_OF_ORDER, SCHED_OUT_OF_ORDER => true
  | NUM_SCHED_POLICIES, NUM_SCHED_POLICIES => true
  | _, _ => false
  end.

Record PipelineLatch := mkLatch {
  lvalid : bool;
  lstall : bool;
  linst : InstInfo
}.

Definition set_lvalid (v : bool) (l : PipelineLatch) : PipelineLatch :=
  mkLatch v (lstall l) (linst l).
Definition set_lstall (v : bool) (l : PipelineLatch) : PipelineLatch :=
  mkLatch (lvalid l) v (linst l).
Definition set_linst (v : InstInfo) (l : PipelineLatch) : PipelineLatch :=
  mkLatch (lvalid l) (lstall l) v.

Definition latch_zero : PipelineLatch := mkLatch false false inst_zero.

(** What a run lets an observer see; the model records it next to the state.
    Each stage event carries the cycle number ([stat_num_cycle]) in which it
    happens and the instruction record the stage handled.  [EvRat] records the [arf_id] argument of a call of
    [rat_get_remap], [rat_set_remap] or [rat_reset_entry]. *)
Inductive Event :=
| EvCommit (cycle : Z) (x : InstInfo)
| EvWriteback (cycle : Z) (x : InstInfo)
| EvSchedule (cycle : Z) (x : InstInfo)
| EvRat (arf_id : Z).

(** [trace_fd] is modelled by the records still to be read from it;
    [next_inst_num] is the [static] local of [pipe_cycle_decode]; [events] is
    the observation log. *)
Record Pipeline := mkPipeline {
  FE_latch : nat -> PipelineLatch;
  ID_latch : nat -> PipelineLatch;
  SC_latch : nat -> PipelineLatch;
  EX_latch : nat -> PipelineLatch;
  rob : ROB;
  rat : RAT;
  exeq : EXEQ;
  stat_retired_inst : Z;
  stat_num_cycle : Z;
  trace_fd : list TraceRec;
  last_inst_num : Z;
  halt_inst_num : Z;
  halt : bool;
  next_inst_num : Z;
  events : list Event
}.

Definition set_FE_latch v (p : Pipeline) : Pipeline :=
  mkPipeline v (ID_latch p) (SC_latch p) (EX_latch p) (rob p) (rat p)
    (exeq p) (stat_retired_inst p) (stat_num_cycle p) (trace_fd p)
    (last_inst_num p) (halt_inst_num p) (halt p) (next_inst_num p) (events p).
Definition set_ID_latch v (p : Pipeline) : Pipeline :=
  mkPipeline (FE_latch p) v (SC_latch p) (EX_latch p) (rob p) (rat p)
    (exeq p) (stat_retired_inst p) (stat_num_cycle p) (trace_fd p)
    (last_inst_num p) (halt_inst_num p) (halt p) (next_inst_num p) (events p).
Definition set_SC_latch v (p : Pipeline) : Pipeline :=
  mkPipeline (FE_latch p) (ID_latch p) v (EX_latch p) (rob p) (rat p)
    (exeq p) (stat_retired_inst p) (stat_num_cycle p) (trace_fd p)
    (last_inst_num p) (halt_inst_num p) (halt p) (next_inst_num p) (events p).
Definition set_EX_latch v (p : Pipeline) : Pipeline :=
  mkPipeline (FE_latch p) (ID_latch p) (SC_latch p) v (rob p) (rat p)
    (exeq p) (stat_retired_inst p) (stat_num_cycle p) (trace_fd p)
    (last_inst_num p) (halt_inst_num p) (halt p) (next_inst_num p) (events p).
Definition set_rob v (p : Pipeline) : Pipeline :=
  mkPipeline (FE_latch p) (ID_latch p) (SC_latch p) (EX_latch p) v (rat p)
    (exeq p) (stat_retired_inst p) (stat_num_cycle p) (trace_fd p)
    (last_inst_num p) (halt_inst_num p) (halt p) (next_inst_num p) (events p).
Definition set_rat v (p : Pipeline) : Pipeline :=
  mkPipeline (FE_latch p) (ID_latch p) (SC_latch p) (EX_latch p) (rob p) v
    (exeq p) (stat_retired_inst p) (stat_num_cycle p) (trace_fd p)
    (last_inst_num p) (halt_inst_num p) (halt p) (next_inst_num p) (events p).
Definition set_exeq v (p : Pipeline) : Pipeline :=
  mkPipeline (FE_latch p) (ID_latch p) (SC_latch p) (EX_latch p) (rob p)
    (rat p) v (stat_retired_inst p) (stat_num_cycle p) (trace_fd p)
    (last_inst_num p) (halt_inst_num p) (halt p) (next_inst_num p) (events p).
Definition set_stat_retired_inst v (p : Pipeline) : Pipeline :=
  mkPipeline (FE_latch p) (ID_latch p) (SC_latch p) (EX_latch p) (rob p)
    (rat p) (exeq p) v (stat_num_cycle p) (trace_fd p)
    (last_inst_num p) (halt_inst_num p) (halt p) (next_inst_num p) (events p).
Definition set_stat_num_cycle v (p : Pipeline) : Pipeline :=
  mkPipeline (FE_latch p) (ID_latch p) (SC_latch p) (EX_latch p) (rob p)
    (rat p) (exeq p) (stat_retired_inst p) v (trace_fd p)
    (last_inst_num p) (halt_inst_num p) (halt p) (next_inst_num p) (events p).
Definition set_trace_fd v (p : Pipeline) : Pipeline :=
  mkPipeline (FE_latch p) (ID_latch p) (SC_latch p) (EX_latch p) (rob p)
    (rat p) (exeq p) (stat_retired_inst p) (stat_num_cycle p) v
    (last_inst_num p) (halt_inst_num p) (halt p) (next_inst_num p) (events p).
Definition set_last_inst_num v (p : Pipeline) : Pipeline :=
  mkPipeline (FE_latch p) (ID_latch p) (SC_latch p) (EX_latch p) (rob p)
    (rat p) (exeq p) (stat_retired_inst p) (stat_num_cycle p) (trace_fd p)
    v (halt_inst_num p) (halt p) (next_inst_num p) (events p).
Definition set_halt_inst_num v (p : Pipeline) : Pipeline :=
  mkPipeline (FE_latch p) (ID_latch p) (SC_latch p) (EX_latch p) (rob p)
    (rat p) (exeq p) (stat_retired_inst p) (stat_num_cycle p) (trace_fd p)
    (last_inst_num p) v (halt p) (next_inst_num p) (events p).
Definition set_halt v (p : Pipeline) : Pipeline :=
  mkPipeline (FE_latch p) (ID_latch p) (SC_latch p) (EX_latch p) (rob p)
    (rat p) (exeq p) (stat_retired_inst p) (stat_num_cycle p) (trace_fd p)
    (last_inst_num p) (halt_inst_num p) v (next_inst_num p) (events p).
Definition set_next_inst_num v (p : Pipeline) : Pipeline :=
  mkPipeline (FE_latch p) (ID_latch p) (SC_latch p) (EX_latch p) (rob p)
    (rat p) (exeq p) (stat_retired_inst p) (stat_num_cycle p) (trace_fd p)
    (last_inst_num p) (halt_inst_num p) (halt p) v (events p).
Definition set_events v (p : Pipeline) : Pipeline :=
  mkPipeline (FE_latch p) (ID_latch p) (SC_latch p) (EX_latch p) (rob p)
    (rat p) (exeq p) (stat_retired_inst p) (stat_num_cycle p) (trace_fd p)
    (last_inst_num p) (halt_inst_num p) (halt p) (next_inst_num p) v.

Definition log (e : Event) (p : Pipeline) : Pipeline :=
  set_events (events p ++ [e]) p.

(** The four [extern] tunables of [pipeline.cpp], and the two constants of
    the absent [trace.h] that the engine depends on: the size of the op-type
    enumeration and the op type of loads. *)
Record Config := mkConfig {
  PIPE_WIDTH : nat;
  NUM_ROB_ENTRIES : Z;
  SCHED_POLICY : SchedulingPolicy;
  LOAD_EXE_CYCLES : Z;
  NUM_OP_TYPES : Z;
  OP_LD : Z
}.

(** ** pipeline.cpp *)

Section Engine.

Variable cfg : Config.

(** The content of an uninitialised [InstInfo] local. *)
Variable junk : InstInfo.

Local Abbreviation W := (PIPE_WIDTH cfg).
Local Abbreviation N := (NUM_ROB_ENTRIES cfg).

(** A [for (unsigned int i = 0; i < n; i++)] loop without [break]. *)
Definition for_lanes {S} (n : nat) (body : nat -> S -> S) (s : S) : S :=
  fold_left (fun acc i => body i acc) (seq 0 n) s.

Definition for_lanes_opt {S} (n : nat) (body : nat -> S -> option S) (s : S)
  : option S :=
  fold_left (fun acc i => s' <- acc ;; body i s') (seq 0 n) (Some s).

(** *** Fetch *)

Definition fetch_error (rest : list TraceRec) (i : nat) (p : Pipeline)
  : Pipeline :=
  let p1 := set_FE_latch (updn (FE_latch p) i
                               (set_lvalid false (FE_latch p i))) p in
  let p2 := set_halt_inst_num (last_inst_num p1) (set_trace_fd rest p1) in
  if halt_inst_num p2 <=? stat_retired_inst p2 then set_halt true p2 else p2.

(** [pipe_fetch_inst(p, &p->FE_latch[i])].  A read that returns fewer bytes
    than a record is the end of the stream; a complete record whose op type is
    outside the enumeration is consumed and rejected. *)
Definition pipe_fetch_inst (p : Pipeline) (i : nat) : Pipeline :=
  match trace_fd p with
  | [] => fetch_error [] i p
  | trace_rec :: rest =>
      if NUM_OP_TYPES cfg <=? tr_op_type trace_rec
      then fetch_error rest i p
      else
        let n := u64 (last_inst_num p + 1) in
        let x :=
          mkInst n (tr_op_type trace_rec)
            (if tr_dest_needed trace_rec then tr_dest_reg trace_rec else -1)
            (if tr_src1_needed trace_rec then tr_src1_reg trace_rec else -1)
            (if tr_src2_needed trace_rec then tr_src2_reg trace_rec else -1)
            (-1) (-1) (-1) false false 0 in
        set_FE_latch (updn (FE_latch p) i (mkLatch true false x))
          (set_last_inst_num n (set_trace_fd rest p))
  end.

Definition fetch_lane (i : nat) (p : Pipeline) : Pipeline :=
  if negb (lstall (FE_latch p i)) && negb (lvalid (FE_latch p i))
  then pipe_fetch_inst p i
  else p.

Definition pipe_cycle_fetch (p : Pipeline) : Pipeline :=
  for_lanes W fetch_lane p.

(** *** Decode *)

(** The inner [for (j ...)] loop with its [break]; [count] lanes remain. *)
Fixpoint decode_find (count j i : nat) (p : Pipeline) : Pipeline :=
  match count with
  | O => p
  | S count' =>
      if lvalid (FE_latch p j)
         && (inst_num (linst (FE_latch p j)) =? next_inst_num p)
      then
        set_next_inst_num (u64 (next_inst_num p + 1))
          (set_FE_latch (updn (FE_latch p) j (set_lvalid false (FE_latch p j)))
             (set_ID_latch (updn (ID_latch p) i (FE_latch p j)) p))
      else decode_find count' (S j) i p
  end.

Definition decode_lane (i : nat) (p : Pipeline) : Pipeline :=
  if negb (lstall (ID_latch p i)) && negb (lvalid (ID_latch p i))
  then decode_find W 0%nat i p
  else p.

Definition pipe_cycle_decode (p : Pipeline) : Pipeline :=
  for_lanes W decode_lane p.

(** *** Execute *)

Definition exe_copy_lane (i : nat) (p : Pipeline) : Pipeline :=
  if lvalid (SC_latch p i)
  then set_SC_latch (updn (SC_latch p) i (set_lvalid false (SC_latch p i)))
         (set_EX_latch (updn (EX_latch p) i (SC_latch p i)) p)
  else p.

(** The loop that drains the SC latches into the EXEQ, lanes [i .. i+count).
    The flag of the result is [true] when the function returned from inside
    the loop (EXEQ full). *)
Fixpoint exe_drain (count i : nat) (p : Pipeline) : bool * Pipeline :=
  match count with
  | O => (false, p)
  | S count' =>
      if lvalid (SC_latch p i)
      then
        let (ok, q) :=
          exeq_insert (OP_LD cfg) (LOAD_EXE_CYCLES cfg) (exeq p)
                      (linst (SC_latch p i)) in
        if negb ok
        then (true, set_halt true (set_exeq q p))
        else
          exe_drain count' (S i)
            (set_SC_latch (updn (SC_latch p) i
                                (set_lvalid false (SC_latch p i)))
                          (set_exeq q p))
      else exe_drain count' (S i) p
  end.

(** [for (i = 0; i < MAX_WRITEBACKS && exeq_check_done(p->exeq); i++)]. *)
Fixpoint exe_transfer (count i : nat) (p : Pipeline) : Pipeline :=
  match count with
  | O => p
  | S count' =>
      if exeq_check_done (exeq p)
      then
        let (x, q) := exeq_remove (exeq p) in
        exe_transfer count' (S i)
          (set_exeq q (set_EX_latch (updn (EX_latch p) i (mkLatch true false x)) p))
      else p
  end.

Definition pipe_cycle_exe (p : Pipeline) : Pipeline :=
  if LOAD_EXE_CYCLES cfg =? 1
  then for_lanes W exe_copy_lane p
  else
    let (returned, p1) := exe_drain W 0%nat p in
    if returned then p1
    else
      let p2 := set_exeq (exeq_cycle (exeq p1)) p1 in
      exe_transfer MAX_WRITEBACKS 0%nat p2.

(** *** Issue *)

Definition swap_latches (f : nat -> PipelineLatch) (j : nat)
  : nat -> PipelineLatch :=
  let temp := f j in
  updn (updn f j (f (S j))) (S j) temp.

Definition sort_inner (j : nat) (f : nat -> PipelineLatch)
  : nat -> PipelineLatch :=
  if inst_num (linst (f j)) >? inst_num (linst (f (S j)))
  then swap_latches f j else f.

Definition sort_outer (i : nat) (f : nat -> PipelineLatch)
  : nat -> PipelineLatch :=
  for_lanes (W - i - 1) sort_inner f.

(** The bubble sort at the top of [pipe_cycle_issue]. *)
Definition issue_sort (f : nat -> PipelineLatch) : nat -> PipelineLatch :=
  for_lanes (W - 1) sort_outer f.

(** Renaming of source 1 of the entry at [idx]. *)
Definition rename_src1 (idx : Z) (p : Pipeline) : Pipeline :=
  let e := entries (rob p) idx in
  if negb (src1_reg (inst e) =? -1)
  then
    let tag := rat_get_remap (rat p) (src1_reg (inst e)) in
    let e1 := set_inst (set_src1_tag tag (inst e)) e in
    let r1 := set_entries (upd (entries (rob p)) idx e1) (rob p) in
    let rdy := (tag =? -1) || rob_check_ready r1 tag in
    let e2 := set_inst (set_src1_ready rdy (inst e1)) e1 in
    log (EvRat (src1_reg (inst e)))
        (set_rob (set_entries (upd (entries r1) idx e2) r1) p)
  else p.

Definition rename_src2 (idx : Z) (p : Pipeline) : Pipeline :=
  let e := entries (rob p) idx in
  if negb (src2_reg (inst e) =? -1)
  then
    let tag := rat_get_remap (rat p) (src2_reg (inst e)) in
    let e1 := set_inst (set_src2_tag tag (inst e)) e in
    let r1 := set_entries (upd (entries (rob p)) idx e1) (rob p) in
    let rdy := (tag =? -1) || rob_check_ready r1 tag in
    let e2 := set_inst (set_src2_ready rdy (inst e1)) e1 in
    log (EvRat (src2_reg (inst e)))
        (set_rob (set_entries (upd (entries r1) idx e2) r1) p)
  else p.

Definition rename_dest (idx : Z) (p : Pipeline) : Pipeline :=
  let e := entries (rob p) idx in
  let e1 := set_inst (set_dr_tag idx (inst e)) e in
  let p1 := set_rob (set_entries (upd (entries (rob p)) idx e1) (rob p)) p in
  if negb (dest_reg (inst e1) =? -1)
  then log (EvRat (dest_reg (inst e1)))
           (set_rat (rat_set_remap (rat p1) (dest_reg (inst e1))
                                   (dr_tag (inst e1))) p1)
  else p1.

(** One iteration of the lane loop of [pipe_cycle_issue]; the second
    component is the local [prev_ID_stall]. *)
Definition issue_lane (i : nat) (st : Pipeline * bool) : Pipeline * bool :=
  let (p, prev_ID_stall) := st in
  let p0 := set_ID_latch (updn (ID_latch p) i
                               (set_lstall prev_ID_stall (ID_latch p i))) p in
  if lstall (ID_latch p0 i) then (p0, prev_ID_stall)
  else
    if lvalid (ID_latch p0 i) && negb (lstall (ID_latch p0 i))
    then
      let p3 :=
        if rob_check_space (rob p0)
        then
          let (idx, r1) := rob_insert N (rob p0) (linst (ID_latch p0 i)) in
          let p1 := set_rob r1 p0 in
          if negb (idx =? -1)
          then
            let p2 := set_ID_latch (updn (ID_latch p1) i
                                         (set_lvalid false (ID_latch p1 i)))
                                   p1 in
            rename_dest idx (rename_src2 idx (rename_src1 idx p2))
          else p1
        else set_ID_latch (updn (ID_latch p0) i
                                (set_lstall true (ID_latch p0 i))) p0 in
      (p3, lstall (ID_latch p3 i))
    else (p0, prev_ID_stall).

Definition pipe_cycle_issue (p : Pipeline) : Pipeline :=
  fst (for_lanes W issue_lane
         (set_ID_latch (issue_sort (ID_latch p)) p, false)).

(** *** Schedule *)

Definition srcs_ready (e : ROBEntry) : bool * bool :=
  ((src1_reg (inst e) =? -1) || src1_ready (inst e),
   (src2_reg (inst e) =? -1) || src2_ready (inst e)).

(** "Send it to the next latch": the [else] branch shared by both policies. *)
Definition sched_send (i : nat) (j : Z) (p : Pipeline) : Pipeline :=
  let r1 := rob_mark_exec (rob p) (inst (entries (rob p) j)) in
  let p1 := set_rob r1 p in
  let l1 := set_linst (inst (entries (rob p1) j)) (SC_latch p1 i) in
  log (EvSchedule (stat_num_cycle p) (inst (entries (rob p1) j)))
      (set_SC_latch (updn (SC_latch p1) i (set_lvalid true l1)) p1).

Definition sched_hold (i : nat) (p : Pipeline) : Pipeline :=
  set_SC_latch (updn (SC_latch p) i (set_lvalid false (SC_latch p i))) p.

(** The [do]-loop of lane [i] under [SCHED_IN_ORDER], entered at slot [j]. *)
Fixpoint sched_in_order_scan (fuel i : nat) (j : Z) (p : Pipeline)
  : option Pipeline :=
  match fuel with
  | O => None
  | S fuel' =>
      let e := entries (rob p) j in
      if valid e && negb (exec e)
      then
        let (s1, s2) := srcs_ready e in
        if negb s1 || negb s2
        then Some (sched_hold i p)
        else Some (sched_send i j p)
      else
        let j' := u32 (j + 1) mod N in
        if negb (j' =? tail_ptr (rob p))
        then sched_in_order_scan fuel' i j' p
        else Some p
  end.

(** The [do]-loop of lane [i] under [SCHED_OUT_OF_ORDER]. *)
Fixpoint sched_out_of_order_scan (fuel i : nat) (j : Z) (p : Pipeline)
  : option Pipeline :=
  match fuel with
  | O => None
  | S fuel' =>
      let e := entries (rob p) j in
      let continue (q : Pipeline) :=
        let j' := u32 (j + 1) mod N in
        if negb (j' =? tail_ptr (rob q))
        then sched_out_of_order_scan fuel' i j' q
        else Some q in
      if valid e && negb (exec e)
      then
        let (s1, s2) := srcs_ready e in
        if negb s1 || negb s2
        then continue (sched_hold i p)
        else Some (sched_send i j p)
      else continue p
  end.

Definition sched_lane_in_order (i : nat) (p : Pipeline) : option Pipeline :=
  sched_in_order_scan (Z.to_nat N) i (head_ptr (rob p)) p.

Definition sched_lane_out_of_order (i : nat) (p : Pipeline)
  : option Pipeline :=
  sched_out_of_order_scan (Z.to_nat N) i (head_ptr (rob p)) p.

Definition pipe_cycle_schedule (p : Pipeline) : option Pipeline :=
  p1 <- (if SchedulingPolicy_eqb (SCHED_POLICY cfg) SCHED_IN_ORDER
         then for_lanes_opt W sched_lane_in_order p
         else Some p) ;;
  if SchedulingPolicy_eqb (SCHED_POLICY cfg) SCHED_OUT_OF_ORDER
  then for_lanes_opt W sched_lane_out_of_order p1
  else Some p1.

(** *** Writeback *)

Definition writeback_lane (i : nat) (p : Pipeline) : option Pipeline :=
  let l := EX_latch p i in
  if negb (lstall l) && lvalid l
  then
    r1 <- rob_wakeup N (rob p) (dr_tag (linst l)) ;;
    let r2 := rob_mark_ready r1 (linst l) in
    Some (log (EvWriteback (stat_num_cycle p) (linst l))
              (set_EX_latch (updn (EX_latch p) i (set_lvalid false l))
                            (set_rob r2 p)))
  else Some p.

Definition pipe_cycle_writeback (p : Pipeline) : option Pipeline :=
  for_lanes_opt MAX_WRITEBACKS writeback_lane p.

(** *** Commit *)

Definition pipe_commit_inst (p : Pipeline) (x : InstInfo) : Pipeline :=
  let p1 := log (EvCommit (stat_num_cycle p) x)
                (set_stat_retired_inst (u64 (stat_retired_inst p + 1)) p) in
  if halt_inst_num p1 <=? inst_num x then set_halt true p1 else p1.

(** "Update rat" in [pipe_cycle_commit]. *)
Definition commit_rat (headEntry : InstInfo) (p : Pipeline) : Pipeline :=
  let idx := rat_get_remap (rat p) (dest_reg headEntry) in
  let p1 := log (EvRat (dest_reg headEntry)) p in
  if idx =? dr_tag headEntry
  then log (EvRat (dest_reg headEntry))
           (set_rat (rat_reset_entry (rat p1) (dest_reg headEntry)) p1)
  else p1.

Definition commit_lane (i : nat) (p : Pipeline) : Pipeline :=
  if rob_check_head (rob p)
  then
    let (headEntry, r1) := rob_remove_head N junk (rob p) in
    let p1 := set_rob r1 p in
    let p2 := pipe_commit_inst p1 headEntry in
    let p3 := commit_rat headEntry p2 in
    set_ID_latch (updn (ID_latch p3) i
                       (set_lstall (negb (rob_check_space (rob p3)))
                                   (ID_latch p3 i))) p3
  else p.

Definition pipe_cycle_commit (p : Pipeline) : Pipeline :=
  for_lanes W commit_lane p.

(** *** The cycle *)

Definition pipe_cycle (p : Pipeline) : option Pipeline :=
  let p0 := set_stat_num_cycle (u64 (stat_num_cycle p + 1)) p in
  let p1 := pipe_cycle_commit p0 in
  p2 <- pipe_cycle_writeback p1 ;;
  let p3 := pipe_cycle_exe p2 in
  p4 <- pipe_cycle_schedule p3 ;;
  let p5 := pipe_cycle_issue p4 in
  let p6 := pipe_cycle_decode p5 in
  Some (pipe_cycle_fetch p6).

(** [n] calls of [pipe_cycle]. *)
Fixpoint cycles (n : nat) (p : Pipeline) : option Pipeline :=
  match n with
  | O => Some p
  | S n' => p' <- pipe_cycle p ;; cycles n' p'
  end.


End Engine.

(** [pipe_init]: [calloc] zeroes the structure; the static [next_inst_num] of
    the decode stage starts at 1.  [around] is the memory next to the RAT's
    array and [trace] the records behind [trace_fd]. *)
Definition pipe_init (around : Z -> RATEntry) (trace : list TraceRec)
  : Pipeline :=
  mkPipeline (fun _ => latch_zero) (fun _ => latch_zero)
             (fun _ => latch_zero) (fun _ => latch_zero)
             rob_init (rat_init around) exeq_init
             0 0 trace 0 (u64 (-1) - 3) false 1 [].

(** * Specification vocabulary *)

(** ** The ring structure of the ROB *)

(** [rob_ring n r len]: the ROB [r] of capacity [n] holds [len] instructions,
    in the slots [head, head+1, ..., head+len-1] (modulo [n]); no other cell
    is valid. *)
Definition rob_ring (n : Z) (r : ROB) (len : Z) : Prop :=
  0 <= len <= n
  /\ 0 <= head_ptr r < n
  /\ tail_ptr r = (head_ptr r + len) mod n
  /\ (forall k, 0 <= k < len ->
                valid (entries r ((head_ptr r + k) mod n)) = true)
  /\ (forall j, valid (entries r j) = true ->
                exists k, 0 <= k < len /\ j = (head_ptr r + k) mod n).

(** Fullness and emptiness as section 3 of the spec defines them. *)
Definition rob_full (r : ROB) : Prop :=
  head_ptr r = tail_ptr r /\ valid (entries r (head_ptr r)) = true.

Definition rob_empty (r : ROB) : Prop :=
  head_ptr r = tail_ptr r /\ valid (entries r (head_ptr r)) = false.

Definition rob_ptrs_ok (n : Z) (r : ROB) : Prop :=
  0 <= head_ptr r < n /\ 0 <= tail_ptr r < n.


(** ** Wakeup *)

(** The ring slots at offsets [k, k+1, ..., k+m-1] from [h]. *)
Definition ring_slots (n h : Z) (k m : nat) : list Z :=
  map (fun o => (h + Z.of_nat o) mod n) (seq k m).

(** The number of slots between head (inclusive) and tail (exclusive) as a
    [do]-[while] traversal sees it: when [head == tail] the traversal goes
    all the way round. *)
Definition traversal_length (n len : Z) : nat :=
  Z.to_nat (if len =? 0 then n else len).

(** What [rob_wakeup] does to one slot, as section 4.2 of the spec words it. *)
Definition woken_slot (tag : Z) (e : ROBEntry) : ROBEntry :=
  set_inst
    (set_src2_ready
       (src2_ready (inst e) || (valid e && (src2_tag (inst e) =? tag)))
       (set_src1_ready
          (src1_ready (inst e) || (valid e && (src1_tag (inst e) =? tag)))
          (inst e)))
    e.

(** No valid entry waits for [tag]. *)
Definition woken (r : ROB) (tag : Z) : Prop :=
  forall j, valid (entries r j) = true ->
    (src1_tag (inst (entries r j)) = tag ->
     src1_ready (inst (entries r j)) = true)
    /\ (src2_tag (inst (entries r j)) = tag ->
        src2_ready (inst (entries r j)) = true).

(** [cell_grows e e']: from [e] to [e'] the slot kept its validity, its
    instruction number and its source tags, and no source-ready flag was
    cleared. *)
Definition cell_grows (e e' : ROBEntry) : Prop :=
  valid e' = valid e
  /\ inst_num (inst e') = inst_num (inst e)
  /\ src1_tag (inst e') = src1_tag (inst e)
  /\ src2_tag (inst e') = src2_tag (inst e)
  /\ (src1_ready (inst e) = true -> src1_ready (inst e') = true)
  /\ (src2_ready (inst e) = true -> src2_ready (inst e') = true).

(** [rob_grows r r']: neither pointer moved and every slot grew. *)
Definition rob_grows (r r' : ROB) : Prop :=
  head_ptr r' = head_ptr r
  /\ tail_ptr r' = tail_ptr r
  /\ forall j, cell_grows (entries r j) (entries r' j).

(** ** Renaming *)

(** Register [d] is aliased to exactly [tag]. *)
Definition aliased_to (t : RAT) (d tag : Z) : Prop :=
  rat_valid (rat_entries t d) = true /\ prf_id (rat_entries t d) = tag.

(** ** Issue *)

(** The state of the lane loop of [pipe_cycle_issue] on reaching lane [i]:
    the pipeline, and the local [prev_ID_stall]. *)
Definition issue_reach (cfg : Config) (p : Pipeline) (i : nat)
  : Pipeline * bool :=
  for_lanes i (issue_lane cfg)
            (set_ID_latch (issue_sort cfg (ID_latch p)) p, false).

(** [issue_frozen q q']: from [q] to [q'] nothing was inserted or renamed —
    ROB, RAT and the event log are the same. *)
Definition issue_frozen (q q' : Pipeline) : Prop :=
  rob q' = rob q /\ rat q' = rat q /\ events q' = events q.

(** ** Execute *)



(** ** Runs *)

(** The instruction numbers of the committed instructions, in commit order. *)
Definition retired_seq (evs : list Event) : list Z :=
  flat_map (fun e => match e with
                     | EvCommit _ x => [inst_num x]
                     | _ => []
                     end) evs.

(** The RAT indices used, in call order. *)
Definition rat_indices (evs : list Event) : list Z :=
  flat_map (fun e => match e with
                     | EvRat a => [a]
                     | _ => []
                     end) evs.

(** [1; 2; ...; k]. *)
Definition count_up (k : nat) : list Z := map Z.of_nat (seq 1 k).

(** The front end (fetch and decode state) is the same in [p] and [p']. *)
Definition same_front (p p' : Pipeline) : Prop :=
  FE_latch p' = FE_latch p
  /\ ID_latch p' = ID_latch p
  /\ trace_fd p' = trace_fd p
  /\ last_inst_num p' = last_inst_num p
  /\ next_inst_num p' = next_inst_num p.

(** Nothing was committed between [p] and [p']. *)
Definition same_commits (p p' : Pipeline) : Prop :=
  stat_retired_inst p' = stat_retired_inst p
  /\ stat_num_cycle p' = stat_num_cycle p
  /\ retired_seq (events p') = retired_seq (events p).

(** What the schedule and writeback stages may change: flags in the ROB, the
    SC and EX latches, and the log of schedule and writeback events. *)
Definition back_end_step (p p' : Pipeline) : Prop :=
  same_front p p'
  /\ same_commits p p'
  /\ halt p' = halt p
  /\ rat p' = rat p
  /\ rat_indices (events p') = rat_indices (events p)
  /\ rob_grows (rob p) (rob p').

(** What the execute stage may change: the SC and EX latches, the EXEQ, and
    the halt flag (which it can only set). *)
Definition exe_step (p p' : Pipeline) : Prop :=
  same_front p p'
  /\ same_commits p p'
  /\ rob p' = rob p
  /\ rat p' = rat p
  /\ events p' = events p
  /\ (halt p = true -> halt p' = true).

(** ** The commit-order invariant *)

(** The tunables are in the ranges section 6 of the spec gives. *)
Definition config_ok (cfg : Config) : Prop :=
  (1 <= PIPE_WIDTH cfg <= MAX_PIPE_WIDTH)%nat
  /\ 1 <= NUM_ROB_ENTRIES cfg <= MAX_ROB_ENTRIES.

(** [rob_shape r r']: neither pointer moved, and no slot changed its validity
    or its instruction number. *)
Definition rob_shape (r r' : ROB) : Prop :=
  head_ptr r' = head_ptr r
  /\ tail_ptr r' = tail_ptr r
  /\ forall j,
       valid (entries r' j) = valid (entries r j)
       /\ inst_num (inst (entries r' j)) = inst_num (inst (entries r j)).

(** [rob_fifo n r retired len]: the ROB is a ring of [len] instructions whose
    numbers, from the head on, are [retired+1, retired+2, ...]. *)
Definition rob_fifo (n : Z) (r : ROB) (retired len : Z) : Prop :=
  rob_ring n r len
  /\ forall k, 0 <= k < len ->
       inst_num (inst (entries r ((head_ptr r + k) mod n))) = retired + 1 + k.

(** [id_window w f lo hi]: the valid slots among the first [w] ID latches
    hold exactly the instruction numbers strictly between [lo] and [hi], each
    once. *)
Definition id_window (w : nat) (f : nat -> PipelineLatch) (lo hi : Z) : Prop :=
  lo < hi
  /\ (forall i, (i < w)%nat -> lvalid (f i) = true ->
                lo < inst_num (linst (f i)) < hi)
  /\ (forall m, lo < m < hi ->
                exists i, (i < w)%nat /\ lvalid (f i) = true
                          /\ inst_num (linst (f i)) = m)
  /\ (forall i j, (i < w)%nat -> (j < w)%nat ->
                  lvalid (f i) = true -> lvalid (f j) = true ->
                  inst_num (linst (f i)) = inst_num (linst (f j)) -> i = j).

(** The lane that [swap_latches f j] reads lane [a] from. *)
Definition swapped (j a : nat) : nat :=
  if Nat.eqb a j then S j else if Nat.eqb a (S j) then j else a.

(** The first [w] latches are in ascending order of instruction number. *)
Definition lanes_sorted (w : nat) (f : nat -> PipelineLatch) : Prop :=
  forall a b, (a <= b < w)%nat ->
    inst_num (linst (f a)) <= inst_num (linst (f b)).

(** The invariant of a run on a trace of at most [bound] records: the
    committed instruction numbers are [1 .. stat_retired_inst]; the ROB holds
    the next [len] numbers in order; the valid ID latches hold the numbers
    after those up to (excluding) the decode stage's [next_inst_num]; and no
    counter has come near its wrap-around. *)
Definition pipe_inv (cfg : Config) (bound : Z) (p : Pipeline) : Prop :=
  exists len,
    rob_fifo (NUM_ROB_ENTRIES cfg) (rob p) (stat_retired_inst p) len
    /\ 0 <= stat_retired_inst p
    /\ retired_seq (events p) = count_up (Z.to_nat (stat_retired_inst p))
    /\ id_window (PIPE_WIDTH cfg) (ID_latch p)
                 (stat_retired_inst p + len) (next_inst_num p)
    /\ next_inst_num p <= last_inst_num p + 1
    /\ (forall j, (j < PIPE_WIDTH cfg)%nat -> lvalid (FE_latch p j) = true ->
                  inst_num (linst (FE_latch p j)) <= last_inst_num p)
    /\ 0 <= last_inst_num p
    /\ last_inst_num p + Z.of_nat (length (trace_fd p)) <= bound
    /\ bound + 1 < 2 ^ 64.

(** Renaming rewrites tags and ready flags of one ROB entry, the RAT and the
    event log, and nothing else. *)
Definition rename_step (q q' : Pipeline) : Prop :=
  rob_shape (rob q) (rob q') /\ same_front q q' /\ same_commits q q'.

(** [rob_extends r r']: the head did not move and no valid slot was
    invalidated. *)
Definition rob_extends (r r' : ROB) : Prop :=
  head_ptr r' = head_ptr r
  /\ forall j, valid (entries r j) = true -> valid (entries r' j) = true.

(** Between [p] and [p'] nothing was committed and nothing was removed from
    the ROB. *)
Definition no_removal (p p' : Pipeline) : Prop :=
  same_commits p p' /\ rob_extends (rob p) (rob p').

(** The loop invariant of the lane loop of [pipe_cycle_issue], started in
    [p], on reaching lane [i] in state [st]. *)
Definition issue_inv (cfg : Config) (p : Pipeline) (i : nat)
           (st : Pipeline * bool) : Prop :=
  exists len,
    rob_fifo (NUM_ROB_ENTRIES cfg) (rob (fst st)) (stat_retired_inst p) len
    /\ id_window (PIPE_WIDTH cfg) (ID_latch (fst st))
                 (stat_retired_inst p + len) (next_inst_num p)
    /\ lanes_sorted (PIPE_WIDTH cfg) (ID_latch (fst st))
    /\ (snd st = false ->
        forall k, (k < i)%nat -> lvalid (ID_latch (fst st) k) = false)
    /\ FE_latch (fst st) = FE_latch p
    /\ trace_fd (fst st) = trace_fd p
    /\ last_inst_num (fst st) = last_inst_num p
    /\ next_inst_num (fst st) = next_inst_num p
    /\ same_commits p (fst st)
    /\ rob_extends (rob p) (rob (fst st)).

(** What one iteration of the commit loop does to the ROB and to the
    sequence of retired instructions: when the head slot is valid and ready
    it invalidates that slot, advances the head and retires the head's
    instruction; otherwise it does nothing. *)
Definition commit_removes_ready_head
           (cfg : Config) (junk : InstInfo) (i : nat) (q : Pipeline) : Prop :=
  let q' := commit_lane cfg junk i q in
  let h := head_ptr (rob q) in
  if valid (entries (rob q) h) && ready (entries (rob q) h)
  then
    rob q'
    = mkROB (upd (entries (rob q)) h
                 (mkROBEntry false false false (inst (entries (rob q) h))))
            (u32 (h + 1) mod NUM_ROB_ENTRIES cfg)
            (tail_ptr (rob q))
    /\ retired_seq (events q')
       = retired_seq (events q) ++ [inst_num (inst (entries (rob q) h))]
  else q' = q.

(** The stages after commit retire nothing and remove nothing from the ROB:
    [p'] is the state at the end of the cycle started in [p]. *)
Definition only_commit_removes
           (cfg : Config) (junk : InstInfo) (p p' : Pipeline) : Prop :=
  no_removal
    (pipe_cycle_commit cfg junk
       (set_stat_num_cycle (u64 (stat_num_cycle p + 1)) p))
    p'.

(** ** Scenarios of section 8 of the spec *)

(** Width 1, ROB 4, in-order, load-cycles 1.  The op-type enumeration is
    taken with five members, loads being op type 1. *)
Definition cfg_scalar : Config := mkConfig 1 4 SCHED_IN_ORDER 1 5 1.

(** The memory next to the RAT's array, here holding no alias. *)
Definition around_clear : Z -> RATEntry := fun _ => mkRATEntry false 0.

(** Scenario (a): one record, op 0, no register needed. *)
Definition trace_nop : list TraceRec :=
  [mkTraceRec 0 false 0 false 0 false 0].

(** Scenario (b): I1 writes r1 and reads nothing; I2 reads r1 and writes
    nothing. *)
Definition trace_raw : list TraceRec :=
  [mkTraceRec 0 true 1 false 0 false 0;
   mkTraceRec 0 false 0 true 1 false 0].

(** The consumer [c] waits for the value of [producer]: one of its needed
    sources carries the producer's destination tag. *)
Definition depends_on (c producer : InstInfo) : Prop :=
  (src1_reg c <> -1 /\ src1_tag c = dr_tag producer)
  \/ (src2_reg c <> -1 /\ src2_tag c = dr_tag producer).

(** No instruction is scheduled in the cycle in which a producer it depends
    on is written back. *)
Definition no_same_cycle_wakeup (evs : list Event) : Prop :=
  forall t producer c,
    In (EvWriteback t producer) evs ->
    In (EvSchedule t c) evs ->
    ~ depends_on c producer.

(** Instruction number [a] is written back in cycle [t]. *)
Definition written_back_in (evs : list Event) (a t : Z) : Prop :=
  exists x, In (EvWriteback t x) evs /\ inst_num x = a.

(** Instruction number [a] is scheduled in cycle [t]. *)
Definition scheduled_in (evs : list Event) (a t : Z) : Prop :=
  exists x, In (EvSchedule t x) evs /\ inst_num x = a.

(** I1 and I2 of scenario (b) as the issue stage renames them: I1 sits in ROB
    slot 0, I2 in slot 1 and reads r1 from tag 0. *)
Definition inst_I1 : InstInfo :=
  mkInst 1 0 1 (-1) (-1) 0 (-1) (-1) false false 0.
Definition inst_I2 : InstInfo :=
  mkInst 2 0 (-1) 1 (-1) 1 0 (-1) true false 0.

(** The outcome of scenario (b) with the total cycle count and the distance
    between I1's writeback and I2's schedule left open: the halt flag is set
    for the first time at the end of cycle [total], with 2 instructions
    retired, and I2 is scheduled [delay] cycles after I1's writeback. *)
Definition scenario_b_outcome (total : nat) (delay : Z) : Prop :=
  exists p,
    cycles cfg_scalar inst_zero total (pipe_init around_clear trace_raw)
    = Some p
    /\ halt p = true
    /\ (forall m q, (m < total)%nat ->
          cycles cfg_scalar inst_zero m (pipe_init around_clear trace_raw)
          = Some q -> halt q = false)
    /\ stat_retired_inst p = 2
    /\ stat_num_cycle p = Z.of_nat total
    /\ exists t, written_back_in (events p) 1 t
                 /\ scheduled_in (events p) 2 (t + delay).

(** In the cycle started in [p], the schedule stage reads the ROB as the
    writeback stage of that same cycle left it: every instruction found
    finished in the EX latches after commit is written back in this cycle, and
    when the schedule stage runs no valid ROB entry is still waiting for its
    tag. *)
Definition schedule_sees_writeback
           (cfg : Config) (junk : InstInfo) (p : Pipeline) : Prop :=
  let p1 := pipe_cycle_commit cfg junk
              (set_stat_num_cycle (u64 (stat_num_cycle p + 1)) p) in
  exists p2 p4,
    pipe_cycle_writeback cfg p1 = Some p2
    /\ pipe_cycle_schedule cfg (pipe_cycle_exe cfg p2) = Some p4
    /\ pipe_cycle cfg junk p
       = Some (pipe_cycle_fetch cfg
                 (pipe_cycle_decode cfg (pipe_cycle_issue cfg p4)))
    /\ rob (pipe_cycle_exe cfg p2) = rob p2
    /\ forall i, (i < MAX_WRITEBACKS)%nat ->
         lstall (EX_latch p1 i) = false -> lvalid (EX_latch p1 i) = true ->
         In (EvWriteback (stat_num_cycle p1) (linst (EX_latch p1 i)))
            (events p2)
         /\ woken (rob (pipe_cycle_exe cfg p2))
                  (dr_tag (linst (EX_latch p1 i))).

(** ** Sample states *)

(** The state after [n] cycles of a run ([inst_zero] for the uninitialised
    local, no alias next to the RAT). *)
Definition after (cfg : Config) (n : nat) (trace : list TraceRec)
  : Pipeline :=
  match cycles cfg inst_zero n (pipe_init around_clear trace) with
  | Some p => p
  | None => pipe_init around_clear trace
  end.

(** A ROB of capacity 4 holding I1 (executing) in slot 0 and an I2 that still
    waits for tag 0 in slot 1, with I1 finished in EX latch 0. *)
Definition inst_I2_waiting : InstInfo :=
  mkInst 2 0 (-1) 1 (-1) 1 0 (-1) false false 0.

Definition rob_two : ROB :=
  mkROB (upd (upd (entries rob_init) 0 (mkROBEntry true true false inst_I1))
             1 (mkROBEntry true false false inst_I2_waiting))
        0 2.

Definition state_writeback : Pipeline :=
  set_EX_latch (updn (fun _ => latch_zero) 0%nat (mkLatch true false inst_I1))
               (set_rob rob_two (pipe_init around_clear [])).

(** Load latency 4, so that the EXEQ is in use; a full EXEQ and one more
    scheduled instruction in SC latch 0. *)
Definition cfg_load : Config := mkConfig 1 4 SCHED_IN_ORDER 4 5 1.

Definition state_overflow : Pipeline :=
  set_SC_latch (updn (fun _ => latch_zero) 0%nat (mkLatch true false inst_I1))
               (set_exeq (repeat (set_exe_wait_cycles 4 inst_I1) MAX_WRITEBACKS)
                         (pipe_init around_clear [])).

Definition state_overflow_exe : Pipeline :=
  match pipe_cycle_writeback cfg_load
          (pipe_cycle_commit cfg_load inst_zero
             (set_stat_num_cycle (u64 (stat_num_cycle state_overflow + 1))
                                 state_overflow)) with
  | Some q => q
  | None => state_overflow
  end.


(** Width 2 and a one-entry ROB, with two decoded instructions waiting in
    the ID latches. *)
Definition cfg_narrow : Config := mkConfig 2 1 SCHED_IN_ORDER 1 5 1.

Definition fetched (k : Z) : InstInfo :=
  mkInst k 0 (-1) (-1) (-1) (-1) (-1) (-1) false false 0.

Definition state_two_decoded : Pipeline :=
  set_ID_latch (updn (updn (fun _ => latch_zero) 0%nat
                           (mkLatch true false (fetched 1)))
                     1%nat (mkLatch true false (fetched 2)))
               (pipe_init around_clear []).

(** ** Further vocabulary *)

(** The instructions a ring of [len] entries holds, oldest (head) first. *)
Definition rob_contents (n : Z) (r : ROB) (len : Z) : list InstInfo :=
  map (fun k => inst (entries r ((head_ptr r + Z.of_nat k) mod n)))
      (seq 0 (Z.to_nat len)).

(** What [rob_wakeup(tag)] does to the instruction of a valid slot. *)
Definition woken_inst (tag : Z) (x : InstInfo) : InstInfo :=
  inst (woken_slot tag (mkROBEntry true false false x)).

(** [lane_perm w f g]: the first [w] latches of [g] are those of [f] in
    another order, and the latches from [w] on are the same. *)
Definition lane_perm (w : nat) (f g : nat -> PipelineLatch) : Prop :=
  exists s t : nat -> nat,
    (forall i, (i < w)%nat ->
       (s i < w)%nat /\ (t i < w)%nat /\ s (t i) = i /\ t (s i) = i)
    /\ (forall i, (i < w)%nat -> g i = f (s i))
    /\ (forall i, (w <= i)%nat -> g i = f i).

(** The ROB slot at offset [k] from the head. *)
Definition rob_slot (n : Z) (r : ROB) (k : Z) : Z := (head_ptr r + k) mod n.

(** The entry waits to be scheduled: it is valid and not yet executing. *)
Definition unscheduled (e : ROBEntry) : bool := valid e && negb (exec e).

(** Each source of the entry is ready or not needed. *)
Definition sources_ready (e : ROBEntry) : bool :=
  fst (srcs_ready e) && snd (srcs_ready e).

(** Lane [i] of the schedule stage, run from [p] to [p'], sent nothing: ROB
    and event log are the same; of the SC latches only the valid flag of lane
    [i] may differ, and it was not set. *)
Definition sched_idle (i : nat) (p p' : Pipeline) : Prop :=
  set_SC_latch (SC_latch p) p' = p
  /\ (forall l, l <> i -> SC_latch p' l = SC_latch p l)
  /\ lstall (SC_latch p' i) = lstall (SC_latch p i)
  /\ linst (SC_latch p' i) = linst (SC_latch p i)
  /\ (lvalid (SC_latch p' i) = true -> lvalid (SC_latch p i) = true).

(** Lane [i] of the schedule stage, run from [p] to [p'], sent the
    instruction of ROB slot [j]: the slot is marked as executing, SC latch
    [i] is valid and holds the instruction, one schedule event is logged,
    and nothing else differs. *)
Definition sched_sent (i : nat) (j : Z) (p p' : Pipeline) : Prop :=
  let x := inst (entries (rob p) j) in
  rob p' = rob_mark_exec (rob p) x
  /\ SC_latch p' i = mkLatch true (lstall (SC_latch p i)) x
  /\ (forall l, l <> i -> SC_latch p' l = SC_latch p l)
  /\ events p' = events p ++ [EvSchedule (stat_num_cycle p) x]
  /\ set_events (events p) (set_rob (rob p) (set_SC_latch (SC_latch p) p'))
     = p.



(** What the single-cycle execute stage does to lane [l], from [p] to [p']:
    a valid SC latch is copied whole into the EX latch of the same lane and
    then made invalid; without one, both latches of the lane stay. *)
Definition exe_lane_moved (p p' : Pipeline) (l : nat) : Prop :=
  if lvalid (SC_latch p l)
  then EX_latch p' l = SC_latch p l
       /\ SC_latch p' l = set_lvalid false (SC_latch p l)
  else EX_latch p' l = EX_latch p l /\ SC_latch p' l = SC_latch p l.

(** I1 scheduled into SC latch 0, nothing else in the machine. *)
Definition state_scheduled : Pipeline :=
  set_SC_latch (updn (fun _ => latch_zero) 0%nat (mkLatch true false inst_I1))
               (pipe_init around_clear []).

(** ** Instructions and the trace *)

(** The committed instructions, in commit order. *)
Definition retired_insts (evs : list Event) : list InstInfo :=
  flat_map (fun e => match e with
                     | EvCommit _ x => [x]
                     | _ => []
                     end) evs.

(** The records of a trace that [pipe_fetch_inst] turns into instructions:
    those whose op type is inside the enumeration. *)
Definition accepted (cfg : Config) (trace : list TraceRec) : list TraceRec :=
  filter (fun r => negb (NUM_OP_TYPES cfg <=? tr_op_type r)) trace.

(** What an instruction has from the trace: its number, its op type and its
    three register ids. *)
Definition arch_of (x : InstInfo) : Z * Z * Z * Z * Z :=
  (inst_num x, op_type x, dest_reg x, src1_reg x, src2_reg x).

(** The same for the record at position [k] (from 0) among the accepted
    ones, as [pipe_fetch_inst] decodes it. *)
Definition arch_of_rec (k : nat) (r : TraceRec) : Z * Z * Z * Z * Z :=
  (Z.of_nat k + 1, tr_op_type r,
   if tr_dest_needed r then tr_dest_reg r else -1,
   if tr_src1_needed r then tr_src1_reg r else -1,
   if tr_src2_needed r then tr_src2_reg r else -1).

Fixpoint decoded_from (k : nat) (recs : list TraceRec)
  : list (Z * Z * Z * Z * Z) :=
  match recs with
  | [] => []
  | r :: rest => arch_of_rec k r :: decoded_from (S k) rest
  end.

(** The instruction stream of a list of accepted records. *)
Definition decoded_stream (recs : list TraceRec) : list (Z * Z * Z * Z * Z) :=
  decoded_from 0 recs.

(** The instruction [x] is one of the stream of [recs]. *)
Definition from_trace (recs : list TraceRec) (x : InstInfo) : Prop :=
  exists k r, nth_error recs k = Some r /\ arch_of x = arch_of_rec k r.

(** From [e] to [e'] the slot kept its validity and what its instruction has
    from the trace, and its destination tag. *)
Definition cell_static (e e' : ROBEntry) : Prop :=
  valid e' = valid e
  /\ arch_of (inst e') = arch_of (inst e)
  /\ dr_tag (inst e') = dr_tag (inst e).

(** From [p] to [p'] only the EX latches, the SC latches, the ROB and the
    event log may differ. *)
Definition back_frame (p p' : Pipeline) : Prop :=
  set_events (events p)
    (set_rob (rob p)
       (set_SC_latch (SC_latch p) (set_EX_latch (EX_latch p) p'))) = p.

(** What writeback and schedule keep besides that: the ROB pointers, every
    slot's validity and instruction, and the committed instructions. *)
Definition back_keeps (p p' : Pipeline) : Prop :=
  back_frame p p'
  /\ head_ptr (rob p') = head_ptr (rob p)
  /\ tail_ptr (rob p') = tail_ptr (rob p)
  /\ (forall j, cell_static (entries (rob p) j) (entries (rob p') j))
  /\ retired_insts (events p') = retired_insts (events p).

(** Everything in flight and everything committed in [p] is an instruction
    of the stream of [recs], and the fetch stage stands at the right place
    of the trace. *)
Definition traced (cfg : Config) (recs : list TraceRec) (p : Pipeline)
  : Prop :=
  (forall i, lvalid (FE_latch p i) = true ->
             from_trace recs (linst (FE_latch p i)))
  /\ (forall i, lvalid (ID_latch p i) = true ->
                from_trace recs (linst (ID_latch p i)))
  /\ (forall j, valid (entries (rob p) j) = true ->
                from_trace recs (inst (entries (rob p) j)))
  /\ Forall (from_trace recs) (retired_insts (events p))
  /\ 0 <= last_inst_num p
  /\ accepted cfg (trace_fd p) = skipn (Z.to_nat (last_inst_num p)) recs.

(** A piece of event log that holds RAT accesses only. *)
Definition rat_events (l : list Event) : Prop :=
  forall e, In e l -> exists a, e = EvRat a.

(** A piece of event log without a schedule event. *)
Definition no_schedule (l : list Event) : Prop :=
  forall c x, ~ In (EvSchedule c x) l.

(** What one iteration of the commit loop changes when it finds the head
    [h] ready (section 4.6 of the spec), from [p] to [p']. *)
Definition commit_effect (cfg : Config) (junk : InstInfo) (p p' : Pipeline)
  : Prop :=
  let h := inst (entries (rob p) (head_ptr (rob p))) in
  rob p' = snd (rob_remove_head (NUM_ROB_ENTRIES cfg) junk (rob p))
  /\ stat_retired_inst p' = u64 (stat_retired_inst p + 1)
  /\ retired_insts (events p') = retired_insts (events p) ++ [h]
  /\ halt p' = halt p || (halt_inst_num p <=? inst_num h)
  /\ rat p'
     = (if rat_get_remap (rat p) (dest_reg h) =? dr_tag h
        then rat_reset_entry (rat p) (dest_reg h) else rat p)
  /\ (forall k, lvalid (ID_latch p' k) = lvalid (ID_latch p k)
                /\ linst (ID_latch p' k) = linst (ID_latch p k))
  /\ set_ID_latch (ID_latch p)
       (set_rob (rob p)
          (set_rat (rat p)
             (set_stat_retired_inst (stat_retired_inst p)
                (set_halt (halt p) (set_events (events p) p'))))) = p
  /\ exists c rest,
       events p' = events p ++ EvCommit c h :: rest /\ rat_events rest.

(** What renaming the entry at [idx] may change, from [q] to [q']: that
    entry's tags and ready flags, the RAT and the event log (without any
    commit). *)
Definition rename_effect (idx : Z) (q q' : Pipeline) : Prop :=
  set_events (events q) (set_rat (rat q) (set_rob (rob q) q')) = q
  /\ retired_insts (events q') = retired_insts (events q)
  /\ head_ptr (rob q') = head_ptr (rob q)
  /\ tail_ptr (rob q') = tail_ptr (rob q)
  /\ (forall j, j <> idx -> entries (rob q') j = entries (rob q) j)
  /\ valid (entries (rob q') idx) = valid (entries (rob q) idx)
  /\ arch_of (inst (entries (rob q') idx))
     = arch_of (inst (entries (rob q) idx))
  /\ exec (entries (rob q') idx) = exec (entries (rob q) idx)
  /\ ready (entries (rob q') idx) = ready (entries (rob q) idx)
  /\ exists extra, events q' = events q ++ extra /\ rat_events extra.

(** How the issue stage renames a source register [a]: the tag is what the
    RAT answers, and the source is ready when the RAT has no alias or the
    aliased ROB entry is valid and ready.  (A source that is not needed,
    [a = -1], is not renamed.) *)
Definition renamed_src (t : RAT) (r : ROB) (a tag : Z) (rdy : bool) : Prop :=
  a <> -1 ->
  tag = rat_get_remap t a
  /\ rdy = ((tag =? -1) || (valid (entries r tag) && ready (entries r tag))).

(** The iteration of the issue loop inserted [x] at the tail [idx] of the
    ROB and renamed it. *)
Definition inserted_at (cfg : Config) (idx : Z) (x : InstInfo)
           (q q' : Pipeline) : Prop :=
  head_ptr (rob q') = head_ptr (rob q)
  /\ tail_ptr (rob q') = u32 (idx + 1) mod NUM_ROB_ENTRIES cfg
  /\ (forall j, j <> idx -> entries (rob q') j = entries (rob q) j)
  /\ valid (entries (rob q') idx) = true
  /\ arch_of (inst (entries (rob q') idx)) = arch_of x
  /\ dr_tag (inst (entries (rob q') idx)) = idx
  /\ rat q' = (if dest_reg x =? -1 then rat q
               else rat_set_remap (rat q) (dest_reg x) idx)
  /\ exec (entries (rob q') idx) = false
  /\ ready (entries (rob q') idx) = false
  /\ renamed_src (rat q) (rob q') (src1_reg x)
        (src1_tag (inst (entries (rob q') idx)))
        (src1_ready (inst (entries (rob q') idx)))
  /\ renamed_src (rat q) (rob q') (src2_reg x)
        (src2_tag (inst (entries (rob q') idx)))
        (src2_ready (inst (entries (rob q') idx))).

(** What one iteration of the lane loop of [pipe_cycle_issue] changes, from
    [q] to [q'], at lane [i]. *)
Definition issue_effect (cfg : Config) (i : nat) (q q' : Pipeline) : Prop :=
  set_events (events q)
    (set_rat (rat q) (set_rob (rob q) (set_ID_latch (ID_latch q) q'))) = q
  /\ retired_insts (events q') = retired_insts (events q)
  /\ (forall l, linst (ID_latch q' l) = linst (ID_latch q l)
                /\ (lvalid (ID_latch q' l) = true ->
                    lvalid (ID_latch q l) = true))
  /\ ((rob q' = rob q /\ rat q' = rat q)
      \/ (lvalid (ID_latch q i) = true
          /\ rob_check_space (rob q) = true
          /\ inserted_at cfg (tail_ptr (rob q)) (linst (ID_latch q i)) q q'))
  /\ exists extra, events q' = events q ++ extra /\ rat_events extra.

(** What one iteration of the lane loop of [pipe_cycle_decode] does, from
    [p] to [p'], at lane [i]: nothing, or it moves the FE latch that holds
    the next instruction in program order into the (empty) ID latch [i]. *)
Definition decode_effect (i : nat) (p p' : Pipeline) : Prop :=
  p' = p
  \/ exists j,
       lvalid (FE_latch p j) = true
       /\ inst_num (linst (FE_latch p j)) = next_inst_num p
       /\ lvalid (ID_latch p i) = false
       /\ p' = set_next_inst_num (u64 (next_inst_num p + 1))
                 (set_FE_latch
                    (updn (FE_latch p) j (set_lvalid false (FE_latch p j)))
                    (set_ID_latch (updn (ID_latch p) i (FE_latch p j)) p)).

(** ** The end of a run *)

(** Where the halt logic stands in a run over [total] records, all of them
    accepted: either the fetch stage has not met the end of the trace yet
    ([halt_inst_num] still has its initial value and the flag is clear), or
    it has, and then [halt_inst_num] is the number of the last instruction
    and the flag is set exactly when that instruction has been retired. *)
Definition halt_inv (cfg : Config) (total : Z) (p : Pipeline) : Prop :=
  Forall (fun r => (NUM_OP_TYPES cfg <=? tr_op_type r) = false) (trace_fd p)
  /\ ((halt_inst_num p = u64 (-1) - 3
       /\ halt p = false
       /\ last_inst_num p + Z.of_nat (length (trace_fd p)) = total)
      \/ (trace_fd p = []
          /\ last_inst_num p = total
          /\ halt_inst_num p = total
          /\ (halt p = true <-> stat_retired_inst p = total))).

(** ** The RAT and the ROB *)

(** The RAT agrees with the ROB on the architectural registers: every valid
    ROB entry carries its own slot as destination tag; an aliased register
    names a valid ROB entry that writes it; and a register that a valid ROB
    entry writes is aliased, to an entry at least as young. *)
Definition rat_inv (p : Pipeline) : Prop :=
  (forall j, valid (entries (rob p) j) = true ->
             dr_tag (inst (entries (rob p) j)) = j)
  /\ (forall a, 0 <= a < MAX_ARF_REGS ->
        rat_valid (rat_entries (rat p) a) = true ->
        valid (entries (rob p) (prf_id (rat_entries (rat p) a))) = true
        /\ dest_reg (inst (entries (rob p) (prf_id (rat_entries (rat p) a))))
           = a)
  /\ (forall a j, 0 <= a < MAX_ARF_REGS ->
        valid (entries (rob p) j) = true ->
        dest_reg (inst (entries (rob p) j)) = a ->
        rat_valid (rat_entries (rat p) a) = true
        /\ inst_num (inst (entries (rob p) j))
           <= inst_num
                (inst (entries (rob p) (prf_id (rat_entries (rat p) a))))).

(** ** Writeback *)

(** EX latch [i] of [p] holds a finished instruction that the writeback
    stage will process. *)
Definition wb_active (p : Pipeline) (i : nat) : bool :=
  negb (lstall (EX_latch p i)) && lvalid (EX_latch p i).

(** ** Data dependences *)

(** The registers that a trace record needs are architectural registers. *)
Definition regs_ok (r : TraceRec) : Prop :=
  (tr_dest_needed r = true -> 0 <= tr_dest_reg r < MAX_ARF_REGS)
  /\ (tr_src1_needed r = true -> 0 <= tr_src1_reg r < MAX_ARF_REGS)
  /\ (tr_src2_needed r = true -> 0 <= tr_src2_reg r < MAX_ARF_REGS).

(** Instruction number [m] of the stream of [recs] writes register [a]. *)
Definition writes (recs : list TraceRec) (m a : Z) : Prop :=
  exists k r,
    nth_error recs k = Some r /\ m = Z.of_nat k + 1
    /\ (if tr_dest_needed r then tr_dest_reg r else -1) = a.

(** [m] is the producer of register [a] for instruction [n]: the last
    instruction before [n] in program order that writes [a]. *)
Definition is_producer (recs : list TraceRec) (n a m : Z) : Prop :=
  m < n /\ writes recs m a
  /\ forall m', m < m' < n -> ~ writes recs m' a.

(** The log has a writeback of instruction number [m]. *)
Definition written_back (evs : list Event) (m : Z) : Prop :=
  exists c x, In (EvWriteback c x) evs /\ inst_num x = m.

(** Every schedule event of the log comes after the writeback of the
    producer of each source register of the scheduled instruction. *)
Definition raw_respected (recs : list TraceRec) (evs : list Event) : Prop :=
  forall i c x, nth_error evs i = Some (EvSchedule c x) ->
    forall a m, a <> -1 -> src1_reg x = a \/ src2_reg x = a ->
      is_producer recs (inst_num x) a m ->
      written_back (firstn i evs) m.

(** What the ROB knows about source register [a] of instruction [n], renamed
    to [tag] with ready flag [rdy]: when the flag is set the producer, if
    there is one, has been written back; when it is clear, [tag] names the
    ROB entry of the producer, which is valid and not yet written back. *)
Definition src_state (recs : list TraceRec) (p : Pipeline)
           (n a tag : Z) (rdy : bool) : Prop :=
  a <> -1 ->
  if rdy
  then forall m, is_producer recs n a m -> written_back (events p) m
  else valid (entries (rob p) tag) = true
       /\ ready (entries (rob p) tag) = false
       /\ is_producer recs n a (inst_num (inst (entries (rob p) tag))).

(** The instruction [x] of a valid SC or EX latch is the one in the ROB slot
    of its destination tag, and that slot is executing and not yet ready. *)
Definition latch_ok (p : Pipeline) (x : InstInfo) : Prop :=
  valid (entries (rob p) (dr_tag x)) = true
  /\ inst_num (inst (entries (rob p) (dr_tag x))) = inst_num x
  /\ exec (entries (rob p) (dr_tag x)) = true
  /\ ready (entries (rob p) (dr_tag x)) = false.

(** No two valid SC or EX latches hold the same destination tag. *)
Definition latches_distinct (p : Pipeline) : Prop :=
  (forall i i', lvalid (SC_latch p i) = true -> lvalid (SC_latch p i') = true ->
     dr_tag (linst (SC_latch p i)) = dr_tag (linst (SC_latch p i')) -> i = i')
  /\ (forall i i', lvalid (EX_latch p i) = true ->
        lvalid (EX_latch p i') = true ->
        dr_tag (linst (EX_latch p i)) = dr_tag (linst (EX_latch p i')) ->
        i = i')
  /\ (forall i i', lvalid (SC_latch p i) = true ->
        lvalid (EX_latch p i') = true ->
        dr_tag (linst (SC_latch p i)) <> dr_tag (linst (EX_latch p i'))).

(** The invariant of dependence tracking. *)
Definition dep_inv (recs : list TraceRec) (p : Pipeline) : Prop :=
  (forall m, 1 <= m <= stat_retired_inst p -> written_back (events p) m)
  /\ (forall j, valid (entries (rob p) j) = true ->
        ready (entries (rob p) j) = true ->
        exec (entries (rob p) j) = true
        /\ written_back (events p) (inst_num (inst (entries (rob p) j))))
  /\ (forall j, valid (entries (rob p) j) = true ->
        src_state recs p (inst_num (inst (entries (rob p) j)))
          (src1_reg (inst (entries (rob p) j)))
          (src1_tag (inst (entries (rob p) j)))
          (src1_ready (inst (entries (rob p) j)))
        /\ src_state recs p (inst_num (inst (entries (rob p) j)))
             (src2_reg (inst (entries (rob p) j)))
             (src2_tag (inst (entries (rob p) j)))
             (src2_ready (inst (entries (rob p) j))))
  /\ (forall i, lvalid (SC_latch p i) = true ->
        latch_ok p (linst (SC_latch p i)))
  /\ (forall i, lvalid (EX_latch p i) = true ->
        latch_ok p (linst (EX_latch p i)))
  /\ latches_distinct p
  /\ raw_respected recs (events p).

(** What one lane of the writeback stage that broadcasts tag [t] does to a
    ROB slot; [hit] tells whether the slot is the one named by the tag. *)
Definition cell_woken (t : Z) (e e' : ROBEntry) (hit : bool) : Prop :=
  valid e' = valid e
  /\ exec e' = exec e
  /\ ready e' = ready e || hit
  /\ inst_num (inst e') = inst_num (inst e)
  /\ src1_reg (inst e') = src1_reg (inst e)
  /\ src2_reg (inst e') = src2_reg (inst e)
  /\ src1_tag (inst e') = src1_tag (inst e)
  /\ src2_tag (inst e') = src2_tag (inst e)
  /\ src1_ready (inst e')
     = src1_ready (inst e) || (valid e && (src1_tag (inst e) =? t))
  /\ src2_ready (inst e')
     = src2_ready (inst e) || (valid e && (src2_tag (inst e) =? t)).

(** ** The life of an instruction *)

(** The log has a schedule of instruction number [m]. *)
Definition scheduled (evs : list Event) (m : Z) : Prop :=
  exists c x, In (EvSchedule c x) evs /\ inst_num x = m.

(** What must hold of the log [evs] before an event [e] is added: an
    instruction is scheduled at most once, written back once and only after
    it was scheduled, and committed only after it was written back. *)
Definition event_ok (evs : list Event) (e : Event) : Prop :=
  match e with
  | EvSchedule _ x => ~ scheduled evs (inst_num x)
  | EvWriteback _ x =>
      scheduled evs (inst_num x) /\ ~ written_back evs (inst_num x)
  | EvCommit _ x => written_back evs (inst_num x)
  | EvRat _ => True
  end.

Definition lifecycle_ordered (evs : list Event) : Prop :=
  forall i e, nth_error evs i = Some e -> event_ok (firstn i evs) e.

(** A piece of event log without schedule and writeback events. *)
Definition quiet (l : list Event) : Prop :=
  forall e, In e l ->
    match e with
    | EvSchedule _ _ | EvWriteback _ _ => False
    | _ => True
    end.

(** What the log says about an instruction is reflected in the machine: a
    scheduled instruction has retired or sits in the ROB marked executing; a
    written-back one has retired or sits in the ROB marked ready; and an
    instruction in a valid SC or EX latch has been scheduled. *)
Definition life_inv (p : Pipeline) : Prop :=
  (forall m, scheduled (events p) m ->
     m <= stat_retired_inst p
     \/ exists j, valid (entries (rob p) j) = true
                  /\ inst_num (inst (entries (rob p) j)) = m
                  /\ exec (entries (rob p) j) = true)
  /\ (forall m, written_back (events p) m ->
        m <= stat_retired_inst p
        \/ exists j, valid (entries (rob p) j) = true
                     /\ inst_num (inst (entries (rob p) j)) = m
                     /\ ready (entries (rob p) j) = true)
  /\ (forall i, lvalid (SC_latch p i) = true ->
        scheduled (events p) (inst_num (linst (SC_latch p i))))
  /\ (forall i, lvalid (EX_latch p i) = true ->
        scheduled (events p) (inst_num (linst (EX_latch p i))))
  /\ lifecycle_ordered (events p).

(** ** Progress *)

(** No FE, SC or EX latch is stalled. *)
Definition no_stall (p : Pipeline) : Prop :=
  forall i, lstall (FE_latch p i) = false
            /\ lstall (SC_latch p i) = false
            /\ lstall (EX_latch p i) = false.

(** The valid FE latches hold exactly the instructions that are fetched and
    not yet decoded, each once. *)
Definition fe_window (cfg : Config) (p : Pipeline) : Prop :=
  id_window (PIPE_WIDTH cfg) (FE_latch p)
            (next_inst_num p - 1) (last_inst_num p + 1).

Definition front_inv (cfg : Config) (p : Pipeline) : Prop :=
  no_stall p /\ fe_window cfg p.

(** What holds between any two stages of a run over [total] records, all of
    them accepted. *)
Definition live_inv (cfg : Config) (total : Z) (recs : list TraceRec)
           (p : Pipeline) : Prop :=
  pipe_inv cfg total p
  /\ traced cfg recs p
  /\ rat_inv p
  /\ dep_inv recs p
  /\ halt_inv cfg total p
  /\ front_inv cfg p.

(** Among the first [w] latches of [f], one is valid and holds an
    instruction that passes [test]. *)
Definition lane_has (w : nat) (f : nat -> PipelineLatch)
           (test : InstInfo -> bool) : bool :=
  existsb (fun i => lvalid (f i) && test (linst (f i))) (seq 0 w).

(** An instruction that executes is in an SC latch. *)
Definition located_sc (cfg : Config) (p : Pipeline) : Prop :=
  forall j, valid (entries (rob p) j) = true ->
            exec (entries (rob p) j) = true ->
            ready (entries (rob p) j) = false ->
    exists i, (i < PIPE_WIDTH cfg)%nat
              /\ lvalid (SC_latch p i) = true
              /\ dr_tag (linst (SC_latch p i)) = j.

(** An instruction that executes is in an EX latch. *)
Definition located_ex (cfg : Config) (p : Pipeline) : Prop :=
  forall j, valid (entries (rob p) j) = true ->
            exec (entries (rob p) j) = true ->
            ready (entries (rob p) j) = false ->
    exists i, (i < PIPE_WIDTH cfg)%nat
              /\ lvalid (EX_latch p i) = true
              /\ dr_tag (linst (EX_latch p i)) = j.

(** An instruction that executes is in an SC latch or in an EX latch. *)
Definition located (cfg : Config) (p : Pipeline) : Prop :=
  forall j, valid (entries (rob p) j) = true ->
            exec (entries (rob p) j) = true ->
            ready (entries (rob p) j) = false ->
    exists i, (i < PIPE_WIDTH cfg)%nat
              /\ ((lvalid (SC_latch p i) = true
                   /\ dr_tag (linst (SC_latch p i)) = j)
                  \/ (lvalid (EX_latch p i) = true
                      /\ dr_tag (linst (EX_latch p i)) = j)).

(** How far the oldest instruction that is not retired has come: 0 when it
    is not fetched, 1 in an FE latch, 2 in an ID latch, 3 in the ROB, 4
    scheduled, 5 in an EX latch, 6 ready to commit. *)
Definition progress_stage (cfg : Config) (p : Pipeline) : Z :=
  let e := entries (rob p) (head_ptr (rob p)) in
  let m := stat_retired_inst p + 1 in
  if valid e
  then if ready e then 6
       else if exec e
            then if lane_has (PIPE_WIDTH cfg) (EX_latch p)
                             (fun x => dr_tag x =? head_ptr (rob p))
                 then 5 else 4
            else 3
  else if lane_has (PIPE_WIDTH cfg) (ID_latch p) (fun x => inst_num x =? m)
       then 2
       else if lane_has (PIPE_WIDTH cfg) (FE_latch p)
                        (fun x => inst_num x =? m)
            then 1 else 0.

(** The measure that every cycle decreases until the run halts. *)
Definition remaining (cfg : Config) (total : Z) (p : Pipeline) : Z :=
  7 * (total - stat_retired_inst p) + 6 - progress_stage cfg p.

(** All SC latches, or all EX latches, of the lanes in use are free. *)
Definition sc_free (cfg : Config) (p : Pipeline) : Prop :=
  forall i, (i < PIPE_WIDTH cfg)%nat -> lvalid (SC_latch p i) = false.

Definition ex_free (cfg : Config) (p : Pipeline) : Prop :=
  forall i, (i < PIPE_WIDTH cfg)%nat -> lvalid (EX_latch p i) = false.

(** From [q] to [q'] the head of the ROB did not move and no slot lost its
    validity or a flag. *)
Definition rob_kept (q q' : Pipeline) : Prop :=
  head_ptr (rob q') = head_ptr (rob q)
  /\ forall j, valid (entries (rob q) j) = true ->
       valid (entries (rob q') j) = true
       /\ (exec (entries (rob q) j) = true ->
           exec (entries (rob q') j) = true)
       /\ (ready (entries (rob q) j) = true ->
           ready (entries (rob q') j) = true).
(** * Properties *)

(** ** Machine integers and arrays *)

Lemma u32_small z : 0 <= z < 2 ^ 32 -> u32 z = z.
Proof. intros H; unfold u32; now apply Z.mod_small. Qed.

Lemma u64_small z : 0 <= z < 2 ^ 64 -> u64 z = z.
Proof. intros H; unfold u64; now apply Z.mod_small. Qed.

Lemma upd_same {A} (f : Z -> A) i v : upd f i v i = v.
Proof. unfold upd; now rewrite Z.eqb_refl. Qed.

Lemma upd_other {A} (f : Z -> A) i j v : j <> i -> upd f i v j = f j.
Proof. intros H; unfold upd; destruct (Z.eqb_spec j i); congruence. Qed.

Lemma updn_same {A} (f : nat -> A) i v : updn f i v i = v.
Proof. unfold updn; now rewrite Nat.eqb_refl. Qed.

Lemma updn_other {A} (f : nat -> A) i j v : j <> i -> updn f i v j = f j.
Proof. intros H; unfold updn; destruct (Nat.eqb_spec j i); congruence. Qed.


(** ** Loop rules *)

Lemma for_lanes_S {S} (n : nat) (body : nat -> S -> S) (s : S) :
  for_lanes (Datatypes.S n) body s = body n (for_lanes n body s).
Proof.
  unfold for_lanes. rewrite seq_S, fold_left_app. reflexivity.
Qed.

Lemma for_lanes_opt_S {S} (n : nat) (body : nat -> S -> option S) (s : S) :
  for_lanes_opt (Datatypes.S n) body s
  = (s' <- for_lanes_opt n body s ;; body n s').
Proof.
  unfold for_lanes_opt. rewrite seq_S, fold_left_app. reflexivity.
Qed.

(** Invariant rule for a [for] loop: [P i] holds before iteration [i]. *)
Lemma for_lanes_inv {S} (P : nat -> S -> Prop) (n : nat)
      (body : nat -> S -> S) (s : S) :
  P 0%nat s ->
  (forall i t, (i < n)%nat -> P i t -> P (Datatypes.S i) (body i t)) ->
  P n (for_lanes n body s).
Proof.
  intros H0 Hstep. induction n as [|n IH].
  - exact H0.
  - rewrite for_lanes_S. apply Hstep; [lia|]. apply IH.
    intros i t Hi. apply Hstep. lia.
Qed.

Lemma for_lanes_opt_inv {S} (P : nat -> S -> Prop) (n : nat)
      (body : nat -> S -> option S) (s : S) :
  P 0%nat s ->
  (forall i t, (i < n)%nat -> P i t ->
               exists t', body i t = Some t' /\ P (Datatypes.S i) t') ->
  exists s', for_lanes_opt n body s = Some s' /\ P n s'.
Proof.
  intros H0 Hstep. induction n as [|n IH].
  - exists s. split; [reflexivity | exact H0].
  - destruct IH as [s1 [E1 P1]].
    { intros i t Hi. apply Hstep. lia. }
    destruct (Hstep n s1) as [s2 [E2 P2]]; [lia | exact P1 |].
    exists s2. split; [|exact P2].
    rewrite for_lanes_opt_S, E1. exact E2.
Qed.

(** ** The ring structure of the ROB *)

Section RobFacts.

Variable n : Z.
Hypothesis n_range : 1 <= n <= MAX_ROB_ENTRIES.

Lemma n_lt_u32 : n < 2 ^ 32.
Proof. unfold MAX_ROB_ENTRIES in n_range. lia. Qed.

Lemma next_slot i : 0 <= i < n -> u32 (i + 1) mod n = (i + 1) mod n.
Proof.
  intros Hi. rewrite u32_small; [reflexivity|].
  pose proof n_lt_u32. lia.
Qed.

Lemma slot_range h k : 0 <= (h + k) mod n < n.
Proof. apply Z.mod_pos_bound. lia. Qed.

Lemma slot_succ h k : ((h + k) mod n + 1) mod n = (h + (k + 1)) mod n.
Proof.
  rewrite Z.add_mod_idemp_l by lia. f_equal. lia.
Qed.

Lemma slot_inj h k1 k2 :
  0 <= k1 < n -> 0 <= k2 < n ->
  (h + k1) mod n = (h + k2) mod n -> k1 = k2.
Proof.
  intros H1 H2 E.
  assert (D : (k1 - k2) mod n = 0).
  { replace (k1 - k2) with ((h + k1) - (h + k2)) by lia.
    rewrite Zminus_mod, E, Z.sub_diag. apply Z.mod_0_l. lia. }
  apply Z.mod_divide in D; [|lia].
  destruct D as [c Hc].
  assert (c = 0) by nia. lia.
Qed.

Lemma slot_surj h j :
  0 <= j < n -> exists k, 0 <= k < n /\ j = (h + k) mod n.
Proof.
  intros Hj. exists ((j - h) mod n). split.
  - apply Z.mod_pos_bound. lia.
  - rewrite Z.add_mod_idemp_r by lia.
    replace (h + (j - h)) with j by lia.
    symmetry. apply Z.mod_small. exact Hj.
Qed.

Lemma ring_ptrs r len : rob_ring n r len -> rob_ptrs_ok n r.
Proof.
  intros (Hl & Hh & Ht & _). split; [exact Hh|].
  rewrite Ht. apply slot_range.
Qed.

Lemma ring_head_eq_tail r len :
  rob_ring n r len -> (head_ptr r = tail_ptr r <-> len = 0 \/ len = n).
Proof.
  intros (Hl & Hh & Ht & _). rewrite Ht. split.
  - intros E.
    destruct (Z.eq_dec len n) as [|D]; [now right|left].
    apply (slot_inj (head_ptr r)); [lia | lia |].
    rewrite <- E, Z.add_0_r. symmetry. apply Z.mod_small. exact Hh.
  - intros [-> | ->].
    + rewrite Z.add_0_r. symmetry. now apply Z.mod_small.
    + rewrite <- (Z.mul_1_l n) at 1. rewrite Z.mod_add by lia.
      symmetry. now apply Z.mod_small.
Qed.

Lemma ring_head_valid r len :
  rob_ring n r len -> (valid (entries r (head_ptr r)) = true <-> 0 < len).
Proof.
  intros (Hl & Hh & Ht & Hv & Hi). split.
  - intros V. destruct (Hi _ V) as [k [Hk _]]. lia.
  - intros Hpos. specialize (Hv 0). rewrite Z.add_0_r, Z.mod_small in Hv by lia.
    apply Hv. lia.
Qed.

Lemma check_space_ptrs r :
  rob_ptrs_ok n r ->
  rob_check_space r
  = negb ((tail_ptr r =? head_ptr r) && valid (entries r (head_ptr r))).
Proof.
  intros [Hh Ht]. unfold rob_check_space. pose proof n_lt_u32.
  rewrite !u32_small by lia.
  destruct (tail_ptr r =? head_ptr r); [|reflexivity].
  destruct (valid (entries r (head_ptr r))); reflexivity.
Qed.

Lemma check_space_ring r len :
  rob_ring n r len -> (rob_check_space r = true <-> len < n).
Proof.
  intros R. rewrite (check_space_ptrs (ring_ptrs R)).
  pose proof (ring_head_eq_tail R) as HT.
  pose proof (ring_head_valid R) as HV.
  destruct R as (Hl & _). split; intros G.
  - destruct (Z.eq_dec len n) as [->|]; [exfalso|lia].
    assert (E : head_ptr r = tail_ptr r) by (apply HT; now right).
    assert (V : valid (entries r (head_ptr r)) = true) by (apply HV; lia).
    rewrite E, Z.eqb_refl in G. rewrite <- E, V in G. discriminate.
  - destruct (Z.eqb_spec (tail_ptr r) (head_ptr r)) as [E|E]; [|reflexivity].
    destruct (valid (entries r (head_ptr r))) eqn:V; [exfalso|reflexivity].
    assert (0 < len) by (now apply HV).
    assert (len = 0 \/ len = n) by (apply HT; congruence). lia.
Qed.

End RobFacts.

(** ** [rob_check_space], [rob_insert] and [rob_remove_head] *)

(** C5. On a ROB whose pointers are in range, [rob_check_space] is true
    exactly when the ROB is not full, where full means [head == tail] with a
    valid head slot (so the empty ROB, [head == tail] with an invalid head
    slot, has space; on a ring holding [len] instructions that is
    [len < NUM_ROB_ENTRIES]).  On a ROB that is not full [rob_insert] returns
    the old tail index, writes the instruction there with [valid] set and
    [exec] and [ready] cleared, leaves every other slot and the head alone and
    advances the tail by one modulo [NUM_ROB_ENTRIES]; on a full ROB it
    returns [-1] and the ROB is unchanged. *)
Theorem rob_insert_check_space_spec (n : Z) (r : ROB) (x : InstInfo) :
  1 <= n <= MAX_ROB_ENTRIES ->
  rob_ptrs_ok n r ->
  (rob_check_space r = true <-> ~ rob_full r)
  /\ (rob_empty r -> rob_check_space r = true)
  /\ (forall len, rob_ring n r len -> (rob_check_space r = true <-> len < n))
  /\ (~ rob_full r ->
      fst (rob_insert n r x) = tail_ptr r
      /\ entries (snd (rob_insert n r x)) (tail_ptr r)
         = mkROBEntry true false false x
      /\ (forall j, j <> tail_ptr r ->
                    entries (snd (rob_insert n r x)) j = entries r j)
      /\ tail_ptr (snd (rob_insert n r x)) = (tail_ptr r + 1) mod n
      /\ head_ptr (snd (rob_insert n r x)) = head_ptr r)
  /\ (rob_full r -> rob_insert n r x = (-1, r)).
Proof.
  intros Hn Hp.
  assert (CS : rob_check_space r = true <-> ~ rob_full r).
  { rewrite (check_space_ptrs Hn Hp). unfold rob_full.
    destruct (Z.eqb_spec (tail_ptr r) (head_ptr r)) as [E|E];
      destruct (valid (entries r (head_ptr r))); simpl;
      split; intros G; try reflexivity; try discriminate;
      try (intros [F1 F2]; congruence).
    exfalso. apply G. split; congruence. }
  split; [exact CS|]. split; [|split; [|split]].
  - intros [E V]. apply CS. intros [_ F]. congruence.
  - intros len R. now apply check_space_ring.
  - intros NF. apply CS in NF. unfold rob_insert. rewrite NF. simpl.
    repeat split.
    + apply upd_same.
    + intros j Hj. now apply upd_other.
    + apply next_slot; [exact Hn | apply Hp].
  - intros F. unfold rob_insert.
    destruct (rob_check_space r) eqn:S; [|reflexivity].
    exfalso. exact (proj1 CS eq_refl F).
Qed.

Lemma rob_insert_check_space_spec_witness :
  let r := mkROB (upd (entries rob_init) 0
                      (mkROBEntry true false false inst_zero)) 0 1 in
  (rob_check_space r = true <-> ~ rob_full r)
  /\ (rob_empty r -> rob_check_space r = true)
  /\ (forall len, rob_ring 4 r len -> (rob_check_space r = true <-> len < 4))
  /\ (~ rob_full r ->
      fst (rob_insert 4 r inst_zero) = tail_ptr r
      /\ entries (snd (rob_insert 4 r inst_zero)) (tail_ptr r)
         = mkROBEntry true false false inst_zero
      /\ (forall j, j <> tail_ptr r ->
                    entries (snd (rob_insert 4 r inst_zero)) j = entries r j)
      /\ tail_ptr (snd (rob_insert 4 r inst_zero)) = (tail_ptr r + 1) mod 4
      /\ head_ptr (snd (rob_insert 4 r inst_zero)) = head_ptr r)
  /\ (rob_full r -> rob_insert 4 r inst_zero = (-1, r)).
Proof.
  intros r. apply (@rob_insert_check_space_spec 4 r inst_zero).
  - unfold MAX_ROB_ENTRIES. lia.
  - unfold rob_ptrs_ok, r. simpl. lia.
Defined.

(** C10. When the head slot is not both valid and ready, [rob_remove_head]
    leaves the ROB as it is (pointers and every entry) and returns the
    content of its uninitialised local, whatever that is, not the head's
    instruction. *)
Theorem rob_remove_head_not_ready (n : Z) (headEntry0 : InstInfo) (r : ROB) :
  valid (entries r (head_ptr r)) && ready (entries r (head_ptr r)) = false ->
  rob_remove_head n headEntry0 r = (headEntry0, r).
Proof.
  intros H. unfold rob_remove_head. rewrite H. reflexivity.
Qed.

Lemma rob_remove_head_not_ready_witness :
  rob_remove_head 4 (set_dr_tag 7 inst_zero) rob_init
  = (set_dr_tag 7 inst_zero, rob_init).
Proof.
  apply (@rob_remove_head_not_ready 4 (set_dr_tag 7 inst_zero) rob_init).
  reflexivity.
Defined.

Lemma rob_remove_head_ready (n : Z) (headEntry0 : InstInfo) (r : ROB) :
  valid (entries r (head_ptr r)) && ready (entries r (head_ptr r)) = true ->
  rob_remove_head n headEntry0 r
  = (inst (entries r (head_ptr r)),
     mkROB (upd (entries r) (head_ptr r)
                (mkROBEntry false false false (inst (entries r (head_ptr r)))))
           (u32 (head_ptr r + 1) mod n) (tail_ptr r)).
Proof.
  intros H. unfold rob_remove_head. rewrite H. reflexivity.
Qed.

(** ** [rob_wakeup] *)

Lemma rob_wakeup_slot_spec tag e : rob_wakeup_slot tag e = woken_slot tag e.
Proof.
  destruct e as [v ex rd [a b c d f g t1 t2 r1 r2 w]].
  unfold rob_wakeup_slot, woken_slot.
  destruct v; cbn; [|destruct r1, r2; reflexivity].
  destruct (t1 =? tag); cbn; destruct (t2 =? tag); cbn;
    destruct r1, r2; reflexivity.
Qed.

Lemma woken_slot_flags tag e :
  valid (woken_slot tag e) = valid e
  /\ exec (woken_slot tag e) = exec e
  /\ ready (woken_slot tag e) = ready e
  /\ inst_num (inst (woken_slot tag e)) = inst_num (inst e)
  /\ src1_tag (inst (woken_slot tag e)) = src1_tag (inst e)
  /\ src2_tag (inst (woken_slot tag e)) = src2_tag (inst e).
Proof. repeat split. Qed.

Lemma woken_slot_mono tag e :
  (src1_ready (inst e) = true -> src1_ready (inst (woken_slot tag e)) = true)
  /\ (src2_ready (inst e) = true ->
      src2_ready (inst (woken_slot tag e)) = true).
Proof. simpl. split; intros ->; reflexivity. Qed.

Lemma woken_slot_hit tag e :
  valid e = true ->
  (src1_tag (inst e) = tag -> src1_ready (inst (woken_slot tag e)) = true)
  /\ (src2_tag (inst e) = tag -> src2_ready (inst (woken_slot tag e)) = true).
Proof.
  intros V. simpl. rewrite V. split; intros <-; rewrite Z.eqb_refl;
    apply orb_true_r.
Qed.

Section Wakeup.

Variable n : Z.
Hypothesis n_range : 1 <= n <= MAX_ROB_ENTRIES.

Lemma ring_slots_S h k m :
  ring_slots n h k (S m) = (h + Z.of_nat k) mod n :: ring_slots n h (S k) m.
Proof. reflexivity. Qed.

Lemma in_ring_slots h k m j :
  In j (ring_slots n h k m) <->
  exists o, (k <= o < k + m)%nat /\ j = (h + Z.of_nat o) mod n.
Proof.
  unfold ring_slots. rewrite in_map_iff. split.
  - intros [o [E I]]. apply in_seq in I. exists o. split; [lia|congruence].
  - intros [o [I E]]. exists o. split; [congruence|]. apply in_seq. lia.
Qed.

Lemma ring_slots_NoDup h k m :
  (k + m <= Z.to_nat n)%nat -> NoDup (ring_slots n h k m).
Proof.
  revert k. induction m as [|m IH]; intros k Hk.
  - constructor.
  - rewrite ring_slots_S. constructor.
    + rewrite in_ring_slots. intros [o [Ho E]].
      apply (slot_inj n_range) in E; lia.
    + apply IH. lia.
Qed.

(** The loop entered at offset [k] with [m] slots to go visits exactly those
    [m] slots and applies the slot update to each of them. *)
Lemma rob_wakeup_loop_spec h tag (total : nat) :
  0 <= h < n -> (1 <= total <= Z.to_nat n)%nat ->
  forall m k fuel es,
    (k + m = total)%nat -> (1 <= m)%nat -> (m <= fuel)%nat ->
    exists es',
      rob_wakeup_loop n fuel ((h + Z.of_nat total) mod n) tag
                      ((h + Z.of_nat k) mod n) es
      = Some (es', ring_slots n h k m)
      /\ (forall j, In j (ring_slots n h k m) ->
                    es' j = woken_slot tag (es j))
      /\ (forall j, ~ In j (ring_slots n h k m) -> es' j = es j).
Proof.
  intros Hh Ht m. induction m as [|m IH]; intros k fuel es Hkm Hm Hf; [lia|].
  destruct fuel as [|fuel]; [lia|]. simpl rob_wakeup_loop.
  rewrite (next_slot n_range) by (apply slot_range; lia).
  rewrite slot_succ by lia.
  replace (Z.of_nat k + 1) with (Z.of_nat (S k)) by lia.
  destruct (Z.eqb_spec ((h + Z.of_nat (S k)) mod n)
                       ((h + Z.of_nat total) mod n)) as [E|E]; simpl negb; cbv iota.
  - (* the loop stops: this was the last slot *)
    assert (m = 0%nat).
    { destruct (Nat.eq_dec total (Z.to_nat n)) as [T|T].
      - (* total = n: offsets S k and 0 coincide *)
        replace (h + Z.of_nat total) with (h + 0 + 1 * n) in E by lia.
        rewrite Z.mod_add in E by lia.
        destruct (Nat.eq_dec (S k) (Z.to_nat n)) as [K|K]; [lia|].
        apply (slot_inj n_range) in E; lia.
      - apply (slot_inj n_range) in E; lia. }
    subst m. exists (upd es ((h + Z.of_nat k) mod n)
                         (rob_wakeup_slot tag (es ((h + Z.of_nat k) mod n)))).
    split; [reflexivity|]. split.
    + intros j [<-|[]]. rewrite upd_same. apply rob_wakeup_slot_spec.
    + intros j Hj. apply upd_other. intros ->. apply Hj. now left.
  - (* one more slot at least *)
    assert (1 <= m)%nat.
    { destruct m; [|lia]. exfalso. apply E. f_equal. lia. }
    destruct (IH (S k) fuel
                 (upd es ((h + Z.of_nat k) mod n)
                      (rob_wakeup_slot tag (es ((h + Z.of_nat k) mod n)))))
      as [es' [E1 [In1 Out1]]]; try lia.
    rewrite E1. simpl. exists es'. split; [reflexivity|].
    assert (ND : NoDup (ring_slots n h k (S m)))
      by (apply ring_slots_NoDup; lia).
    rewrite ring_slots_S in ND. inversion ND as [|? ? Hnotin ND']; subst.
    split.
    + intros j [<-|Hj].
      * rewrite Out1 by exact Hnotin. rewrite upd_same.
        apply rob_wakeup_slot_spec.
      * rewrite In1 by exact Hj. rewrite upd_other; [reflexivity|].
        intros ->. contradiction.
    + intros j Hj. rewrite Out1.
      * apply upd_other. intros ->. apply Hj. now left.
      * intros Hin. apply Hj. now right.
Qed.

Lemma traversal_length_range len :
  0 <= len <= n -> (1 <= traversal_length n len <= Z.to_nat n)%nat.
Proof.
  intros Hl. unfold traversal_length.
  destruct (Z.eqb_spec len 0); lia.
Qed.

Lemma traversal_tail h len :
  0 <= len <= n ->
  (h + Z.of_nat (traversal_length n len)) mod n = (h + len) mod n.
Proof.
  intros Hl. unfold traversal_length.
  destruct (Z.eqb_spec len 0) as [->|D].
  - rewrite Z2Nat.id by lia.
    replace (h + n) with (h + 0 + 1 * n) by lia.
    rewrite Z.mod_add by lia. reflexivity.
  - rewrite Z2Nat.id by lia. reflexivity.
Qed.

(** The traversal of [rob_wakeup] on a ring. *)
Lemma rob_wakeup_visit_spec r len tag :
  rob_ring n r len ->
  exists es',
    rob_wakeup_visit n r tag
    = Some (es', ring_slots n (head_ptr r) 0 (traversal_length n len))
    /\ (forall j, In j (ring_slots n (head_ptr r) 0 (traversal_length n len)) ->
                  es' j = woken_slot tag (entries r j))
    /\ (forall j, ~ In j (ring_slots n (head_ptr r) 0
                                     (traversal_length n len)) ->
                  es' j = entries r j).
Proof.
  intros R. pose proof (ring_ptrs n_range R) as [Hh Ht].
  destruct R as (Hl & _ & Et & _).
  pose proof (traversal_length_range Hl) as TL.
  pose proof (n_lt_u32 n_range) as Hn.
  unfold rob_wakeup_visit. rewrite !u32_small by lia.
  destruct (@rob_wakeup_loop_spec (head_ptr r) tag (traversal_length n len)
              Hh TL (traversal_length n len) 0%nat (Z.to_nat n) (entries r))
    as [es' [E [I O]]]; try lia.
  rewrite traversal_tail, <- Et in E by exact Hl.
  simpl Z.of_nat in E. rewrite Z.add_0_r, Z.mod_small in E by exact Hh.
  exists es'. auto.
Qed.

(** Every valid slot of a ring is visited. *)
Lemma ring_valid_visited r len j :
  rob_ring n r len -> valid (entries r j) = true ->
  In j (ring_slots n (head_ptr r) 0 (traversal_length n len)).
Proof.
  intros (Hl & Hh & Et & Hv & Hi) V.
  destruct (Hi j V) as [k [Hk ->]].
  apply in_ring_slots. exists (Z.to_nat k). split.
  - unfold traversal_length. destruct (Z.eqb_spec len 0); lia.
  - rewrite Z2Nat.id by lia. reflexivity.
Qed.

Lemma rob_wakeup_spec r len tag :
  rob_ring n r len ->
  exists r',
    rob_wakeup n r tag = Some r'
    /\ head_ptr r' = head_ptr r /\ tail_ptr r' = tail_ptr r
    /\ (forall j, valid (entries r j) = true ->
                  entries r' j = woken_slot tag (entries r j))
    /\ (forall j, valid (entries r j) = false -> entries r' j = entries r j).
Proof.
  intros R. destruct (rob_wakeup_visit_spec tag R) as [es' [E [I O]]].
  unfold rob_wakeup. rewrite E. simpl.
  exists (set_entries es' r). repeat split.
  - intros j V. simpl. apply I. now apply (ring_valid_visited j R).
  - intros j V. simpl.
    destruct (in_dec Z.eq_dec j
                (ring_slots n (head_ptr r) 0 (traversal_length n len)))
      as [Hin|Hout].
    + rewrite I by exact Hin. destruct (entries r j) as [v ex rd x].
      simpl in V. subst v. unfold woken_slot. simpl.
      rewrite !orb_false_r. destruct x; reflexivity.
    + now apply O.
Qed.

Lemma rob_wakeup_ring r r' len tag :
  rob_ring n r len -> rob_wakeup n r tag = Some r' -> rob_ring n r' len.
Proof.
  intros R E. destruct (rob_wakeup_spec tag R) as [r2 [E2 [Hh [Ht [Hv Hi]]]]].
  rewrite E in E2. inversion E2; subst r2. clear E2.
  assert (V : forall j, valid (entries r' j) = valid (entries r j)).
  { intros j. destruct (valid (entries r j)) eqn:Vj.
    - rewrite Hv by exact Vj. simpl. exact Vj.
    - rewrite Hi by exact Vj. exact Vj. }
  destruct R as (Hl & Hhd & Et & Hval & Hinv).
  unfold rob_ring. rewrite Hh, Ht. repeat split; try lia; try assumption.
  - intros k Hk. rewrite V. now apply Hval.
  - intros j Vj. rewrite V in Vj. now apply Hinv.
Qed.

End Wakeup.

(** ** Monotone evolution of the ROB *)

Lemma cell_grows_refl e : cell_grows e e.
Proof. repeat split; auto. Qed.

Lemma cell_grows_trans e1 e2 e3 :
  cell_grows e1 e2 -> cell_grows e2 e3 -> cell_grows e1 e3.
Proof.
  intros (a1 & b1 & c1 & d1 & f1 & g1) (a2 & b2 & c2 & d2 & f2 & g2).
  repeat split; try congruence; auto.
Qed.

Lemma woken_slot_grows tag e : cell_grows e (woken_slot tag e).
Proof.
  repeat split; simpl; intros ->; reflexivity.
Qed.

Lemma rob_grows_refl r : rob_grows r r.
Proof. repeat split; auto. Qed.

Lemma rob_grows_trans r1 r2 r3 :
  rob_grows r1 r2 -> rob_grows r2 r3 -> rob_grows r1 r3.
Proof.
  intros (H1 & T1 & E1) (H2 & T2 & E2). split; [congruence|].
  split; [congruence|]. intros j.
  eapply cell_grows_trans; eauto.
Qed.

Lemma rob_grows_ring n r r' len :
  rob_grows r r' -> rob_ring n r len -> rob_ring n r' len.
Proof.
  intros (H & T & E) (Hl & Hh & Et & Hv & Hi).
  unfold rob_ring. rewrite H, T. repeat split; try lia; try assumption.
  - intros k Hk. destruct (E ((head_ptr r + k) mod n)) as [-> _]. now apply Hv.
  - intros j Vj. destruct (E j) as [V _]. rewrite V in Vj. now apply Hi.
Qed.

Lemma rob_grows_woken r r' tag :
  rob_grows r r' -> woken r tag -> woken r' tag.
Proof.
  intros (_ & _ & E) Wk j Vj.
  destruct (E j) as (V & _ & T1 & T2 & R1 & R2).
  rewrite V in Vj. destruct (Wk j Vj) as [W1 W2].
  split; intros Et; [apply R1, W1 | apply R2, W2]; congruence.
Qed.

Lemma rob_mark_ready_grows r x : rob_grows r (rob_mark_ready r x).
Proof.
  unfold rob_mark_ready. repeat split; simpl;
    unfold upd; destruct (j =? dr_tag x) eqn:E; try reflexivity;
    try (apply Z.eqb_eq in E; subst j; reflexivity); auto;
    apply Z.eqb_eq in E; subst j; auto.
Qed.

Lemma rob_mark_exec_grows r x : rob_grows r (rob_mark_exec r x).
Proof.
  unfold rob_mark_exec. repeat split; simpl;
    unfold upd; destruct (j =? dr_tag x) eqn:E; try reflexivity;
    try (apply Z.eqb_eq in E; subst j; reflexivity); auto;
    apply Z.eqb_eq in E; subst j; auto.
Qed.


(** ** What each stage leaves alone *)

Lemma retired_seq_app a b :
  retired_seq (a ++ b) = retired_seq a ++ retired_seq b.
Proof. unfold retired_seq. apply flat_map_app. Qed.

Lemma rat_indices_app a b :
  rat_indices (a ++ b) = rat_indices a ++ rat_indices b.
Proof. unfold rat_indices. apply flat_map_app. Qed.

Lemma same_front_refl p : same_front p p.
Proof. repeat split. Qed.

Lemma same_commits_refl p : same_commits p p.
Proof. repeat split. Qed.

Lemma same_front_trans p q r :
  same_front p q -> same_front q r -> same_front p r.
Proof.
  intros (a1 & a2 & a3 & a4 & a5) (b1 & b2 & b3 & b4 & b5).
  repeat split; congruence.
Qed.

Lemma same_commits_trans p q r :
  same_commits p q -> same_commits q r -> same_commits p r.
Proof.
  intros (a1 & a2 & a3) (b1 & b2 & b3). repeat split; congruence.
Qed.

Lemma back_end_step_refl p : back_end_step p p.
Proof.
  split; [apply same_front_refl|]. split; [apply same_commits_refl|].
  repeat split; auto.
Qed.

Lemma back_end_step_trans p q r :
  back_end_step p q -> back_end_step q r -> back_end_step p r.
Proof.
  intros (a1 & a2 & a3 & a4 & a5 & a6) (b1 & b2 & b3 & b4 & b5 & b6).
  split; [eapply same_front_trans; eauto|].
  split; [eapply same_commits_trans; eauto|].
  split; [congruence|]. split; [congruence|]. split; [congruence|].
  eapply rob_grows_trans; eauto.
Qed.


(** ** The writeback stage *)

Section Writeback.

Variable cfg : Config.
Hypothesis n_range : 1 <= NUM_ROB_ENTRIES cfg <= MAX_ROB_ENTRIES.

Local Abbreviation N := (NUM_ROB_ENTRIES cfg).

Lemma rob_wakeup_loop_cells tail tag fuel :
  forall i es es' vis,
    rob_wakeup_loop N fuel tail tag i es = Some (es', vis) ->
    forall j, cell_grows (es j) (es' j).
Proof.
  induction fuel as [|fuel IH]; intros i es es' vis E j; [discriminate|].
  cbn [rob_wakeup_loop] in E.
  assert (G1 : cell_grows (es j)
                 (upd es i (rob_wakeup_slot tag (es i)) j)).
  { unfold upd. destruct (Z.eqb_spec j i) as [->|D].
    - rewrite rob_wakeup_slot_spec. apply woken_slot_grows.
    - apply cell_grows_refl. }
  destruct (negb (u32 (i + 1) mod N =? tail)).
  - destruct (rob_wakeup_loop N fuel tail tag (u32 (i + 1) mod N)
                (upd es i (rob_wakeup_slot tag (es i)))) as [[es2 v2]|] eqn:E2;
      [|discriminate].
    simpl in E. inversion E; subst.
    eapply cell_grows_trans; [exact G1|]. eapply IH; eauto.
  - inversion E; subst. exact G1.
Qed.

Lemma rob_wakeup_some_grows r r' tag :
  rob_wakeup N r tag = Some r' -> rob_grows r r'.
Proof.
  unfold rob_wakeup, rob_wakeup_visit. intros E.
  destruct (rob_wakeup_loop N (Z.to_nat N) (u32 (tail_ptr r)) tag
              (u32 (head_ptr r)) (entries r)) as [[es v]|] eqn:E1;
    [|discriminate].
  simpl in E. inversion E; subst. split; [reflexivity|].
  split; [reflexivity|]. simpl. eapply rob_wakeup_loop_cells; eauto.
Qed.

Lemma writeback_lane_step i p p' :
  writeback_lane cfg i p = Some p' -> back_end_step p p'.
Proof.
  unfold writeback_lane.
  destruct (negb (lstall (EX_latch p i)) && lvalid (EX_latch p i)).
  - destruct (rob_wakeup N (rob p) (dr_tag (linst (EX_latch p i))))
      as [r1|] eqn:E1; [|discriminate].
    simpl. intros E. inversion E; subst.
    unfold back_end_step, same_front, same_commits. simpl.
    rewrite retired_seq_app, rat_indices_app. simpl. rewrite !app_nil_r.
    repeat split; auto;
      (eapply rob_grows_trans;
       [apply (rob_wakeup_some_grows _ _ E1) | apply rob_mark_ready_grows]).
  - intros E. inversion E; subst. apply back_end_step_refl.
Qed.

Lemma for_lanes_opt_step n body p p' :
  (forall i t t', body i t = Some t' -> back_end_step t t') ->
  for_lanes_opt n body p = Some p' -> back_end_step p p'.
Proof.
  intros Hb. revert p'. induction n as [|n IH]; intros p' E.
  - inversion E; subst. apply back_end_step_refl.
  - rewrite for_lanes_opt_S in E.
    destruct (for_lanes_opt n body p) as [q|]; [|discriminate].
    simpl in E. eapply back_end_step_trans; [apply IH; reflexivity|].
    eapply Hb; eauto.
Qed.

Lemma pipe_cycle_writeback_step p p' :
  pipe_cycle_writeback cfg p = Some p' -> back_end_step p p'.
Proof.
  apply for_lanes_opt_step. intros i t t'. apply writeback_lane_step.
Qed.

Lemma rob_wakeup_grows r r' len tag :
  rob_ring N r len -> rob_wakeup N r tag = Some r' ->
  rob_grows r r' /\ woken r' tag.
Proof.
  intros R E.
  destruct (rob_wakeup_spec n_range tag R) as [r2 [E2 [Hh [Ht [Hv Hi]]]]].
  rewrite E in E2. inversion E2; subst r2. clear E2. split.
  - split; [exact Hh|]. split; [exact Ht|]. intros j.
    destruct (valid (entries r j)) eqn:Vj.
    + rewrite Hv by exact Vj. repeat split; try exact Vj;
        intros G; simpl; rewrite G; reflexivity.
    + rewrite Hi by exact Vj. repeat split; auto.
  - intros j Vj.
    assert (V : valid (entries r j) = true).
    { destruct (valid (entries r j)) eqn:V0; [reflexivity|].
      rewrite Hi in Vj by exact V0. congruence. }
    rewrite Hv by exact V.
    destruct (woken_slot_hit tag (entries r j) V) as [W1 W2].
    split; intros G; [apply W1 | apply W2]; exact G.
Qed.

(** One lane of the writeback stage that holds a finished instruction. *)
Lemma writeback_lane_active i p len :
  rob_ring N (rob p) len ->
  lstall (EX_latch p i) = false -> lvalid (EX_latch p i) = true ->
  exists p',
    writeback_lane cfg i p = Some p'
    /\ rob_grows (rob p) (rob p')
    /\ woken (rob p') (dr_tag (linst (EX_latch p i)))
    /\ EX_latch p' = updn (EX_latch p) i (set_lvalid false (EX_latch p i)).
Proof.
  intros R S V. unfold writeback_lane. rewrite S, V. simpl.
  destruct (rob_wakeup_spec n_range (dr_tag (linst (EX_latch p i))) R)
    as [r1 [E1 _]].
  rewrite E1. simpl.
  destruct (rob_wakeup_grows _ R E1) as [G W].
  eexists. split; [reflexivity|]. simpl. split; [|split; [|reflexivity]].
  - eapply rob_grows_trans; [exact G | apply rob_mark_ready_grows].
  - eapply rob_grows_woken; [apply rob_mark_ready_grows | exact W].
Qed.

Lemma writeback_lane_idle i p :
  negb (lstall (EX_latch p i)) && lvalid (EX_latch p i) = false ->
  writeback_lane cfg i p = Some p.
Proof. intros H. unfold writeback_lane. now rewrite H. Qed.

(** The whole stage: it terminates, keeps the ring, and leaves every tag it
    broadcast woken. *)
Lemma pipe_cycle_writeback_spec p len :
  rob_ring N (rob p) len ->
  exists p',
    pipe_cycle_writeback cfg p = Some p'
    /\ rob_grows (rob p) (rob p')
    /\ (forall i, (i < MAX_WRITEBACKS)%nat ->
          lstall (EX_latch p i) = false -> lvalid (EX_latch p i) = true ->
          woken (rob p') (dr_tag (linst (EX_latch p i)))).
Proof.
  intros R. unfold pipe_cycle_writeback.
  destruct (@for_lanes_opt_inv Pipeline
              (fun i q =>
                 rob_grows (rob p) (rob q)
                 /\ (forall k, (i <= k)%nat -> EX_latch q k = EX_latch p k)
                 /\ (forall k, (k < i)%nat ->
                       lstall (EX_latch p k) = false ->
                       lvalid (EX_latch p k) = true ->
                       woken (rob q) (dr_tag (linst (EX_latch p k)))))
              MAX_WRITEBACKS (writeback_lane cfg) p) as [p' [E [G [_ Wk]]]].
  - split; [apply rob_grows_refl|]. split; [reflexivity|]. intros k Hk. lia.
  - intros i q Hi (G & Same & Wk).
    assert (Rq : rob_ring N (rob q) len) by (eapply rob_grows_ring; eauto).
    destruct (negb (lstall (EX_latch q i)) && lvalid (EX_latch q i)) eqn:A.
    + apply andb_true_iff in A. destruct A as [A1 A2].
      apply negb_true_iff in A1.
      destruct (writeback_lane_active i q Rq A1 A2) as [q' [E [G' [W' EX']]]].
      exists q'. split; [exact E|]. split; [|split].
      * eapply rob_grows_trans; eauto.
      * intros k Hk. rewrite EX', updn_other by lia. apply Same. lia.
      * intros k Hk S V.
        destruct (Nat.eq_dec k i) as [->|D].
        -- rewrite <- (Same i) by lia. exact W'.
        -- eapply rob_grows_woken; [exact G'|]. apply Wk; [lia|exact S|exact V].
    + exists q. split; [now apply writeback_lane_idle|].
      split; [exact G|]. split.
      * intros k Hk. apply Same. lia.
      * intros k Hk S V.
        destruct (Nat.eq_dec k i) as [->|D].
        -- rewrite (Same i) in A by lia. rewrite S, V in A. discriminate.
        -- apply Wk; [lia|exact S|exact V].
  - exists p'. split; [exact E|]. split; [exact G|]. exact Wk.
Qed.

(** The writeback stage logs every instruction it processes. *)
Lemma writeback_lane_log i p p' :
  writeback_lane cfg i p = Some p' ->
  stat_num_cycle p' = stat_num_cycle p
  /\ (forall k, k <> i -> EX_latch p' k = EX_latch p k)
  /\ (forall e, In e (events p) -> In e (events p'))
  /\ (lstall (EX_latch p i) = false -> lvalid (EX_latch p i) = true ->
      In (EvWriteback (stat_num_cycle p) (linst (EX_latch p i))) (events p')).
Proof.
  unfold writeback_lane.
  destruct (lstall (EX_latch p i)); destruct (lvalid (EX_latch p i)); simpl;
    try (intros E; inversion E; subst; repeat split; auto; discriminate).
  destruct (rob_wakeup N (rob p) (dr_tag (linst (EX_latch p i)))) as [r1|];
    [|discriminate].
  simpl. intros E. inversion E; subst. simpl. split; [reflexivity|].
  split; [intros k Hk; now apply updn_other|]. split.
  - intros e He. apply in_or_app. now left.
  - intros _ _. apply in_or_app. right. now left.
Qed.

Lemma pipe_cycle_writeback_log p p' :
  pipe_cycle_writeback cfg p = Some p' ->
  forall i, (i < MAX_WRITEBACKS)%nat ->
    lstall (EX_latch p i) = false -> lvalid (EX_latch p i) = true ->
    In (EvWriteback (stat_num_cycle p) (linst (EX_latch p i))) (events p').
Proof.
  unfold pipe_cycle_writeback. generalize MAX_WRITEBACKS. intros n.
  assert (G : forall q,
            for_lanes_opt n (writeback_lane cfg) p = Some q ->
            stat_num_cycle q = stat_num_cycle p
            /\ (forall k, (n <= k)%nat -> EX_latch q k = EX_latch p k)
            /\ (forall e, In e (events p) -> In e (events q))
            /\ (forall i, (i < n)%nat ->
                  lstall (EX_latch p i) = false ->
                  lvalid (EX_latch p i) = true ->
                  In (EvWriteback (stat_num_cycle p) (linst (EX_latch p i)))
                     (events q))).
  { induction n as [|n IH]; intros q E.
    - inversion E; subst. repeat split; auto. intros i Hi. lia.
    - rewrite for_lanes_opt_S in E.
      destruct (for_lanes_opt n (writeback_lane cfg) p) as [t|];
        [|discriminate].
      simpl in E. destruct (IH t eq_refl) as (C & Same & Mono & Log).
      destruct (writeback_lane_log _ _ E) as (C' & Same' & Mono' & Log').
      split; [congruence|]. split; [|split].
      + intros k Hk. rewrite Same' by lia. apply Same. lia.
      + auto.
      + intros i Hi S V. destruct (Nat.eq_dec i n) as [->|D].
        * rewrite <- C, <- (Same n) by lia. apply Log'.
          -- rewrite Same by lia. exact S.
          -- rewrite Same by lia. exact V.
        * apply Mono'. apply Log; [lia | exact S | exact V]. }
  intros E. apply (G p' E).
Qed.

End Writeback.

(** C6. On a ring of [len] instructions, the traversal of [rob_wakeup(tag)]
    terminates and visits the slots [head, head+1, ...] up to the one before
    [tail] (modulo [NUM_ROB_ENTRIES]), each exactly once; when the ROB is full
    ([head == tail]) these are all [NUM_ROB_ENTRIES] slots.  A visited slot
    gets [src1_ready] (resp. [src2_ready]) set when it is valid and its
    [src1_tag] (resp. [src2_tag]) equals [tag] and is otherwise unchanged; a
    slot that is not visited is unchanged.  Consequently, after the writeback
    stage, for every EX-latch instruction it processed, no valid ROB entry
    whose source tag is that instruction's destination tag has the source's
    ready flag false. *)
Theorem wakeup_totality (cfg : Config) (p : Pipeline) (len tag : Z) :
  1 <= NUM_ROB_ENTRIES cfg <= MAX_ROB_ENTRIES ->
  rob_ring (NUM_ROB_ENTRIES cfg) (rob p) len ->
  let n := NUM_ROB_ENTRIES cfg in
  let visited := ring_slots n (head_ptr (rob p)) 0 (traversal_length n len) in
  (exists es',
     rob_wakeup_visit n (rob p) tag = Some (es', visited)
     /\ (forall j, In j visited -> es' j = woken_slot tag (entries (rob p) j))
     /\ (forall j, ~ In j visited -> es' j = entries (rob p) j))
  /\ NoDup visited
  /\ (head_ptr (rob p) + Z.of_nat (length visited)) mod n = tail_ptr (rob p)
  /\ (forall j, valid (entries (rob p) j) = true -> In j visited)
  /\ (len = n -> forall j, 0 <= j < n -> In j visited)
  /\ (exists p',
        pipe_cycle_writeback cfg p = Some p'
        /\ forall i, (i < MAX_WRITEBACKS)%nat ->
             lstall (EX_latch p i) = false -> lvalid (EX_latch p i) = true ->
             woken (rob p') (dr_tag (linst (EX_latch p i)))).
Proof.
  intros Hn R n visited. subst visited n.
  pose proof R as (Hl & Hh & Et & Hv & Hi).
  pose proof (traversal_length_range Hn Hl) as TL.
  split; [apply (rob_wakeup_visit_spec Hn tag R)|].
  split; [apply (ring_slots_NoDup Hn); lia|].
  split.
  { unfold ring_slots. rewrite length_map, length_seq.
    rewrite (traversal_tail Hn) by exact Hl. now symmetry. }
  split; [intros j V; now apply (ring_valid_visited Hn j R)|].
  split.
  { intros Hfull j Hj. destruct (slot_surj Hn (head_ptr (rob p)) Hj) as [k [Hk ->]].
    apply in_ring_slots. exists (Z.to_nat k). split.
    - unfold traversal_length. destruct (Z.eqb_spec len 0); lia.
    - rewrite Z2Nat.id by lia. reflexivity. }
  destruct (@pipe_cycle_writeback_spec cfg Hn p len R) as [p' [E [_ W]]].
  exists p'. split; [exact E | exact W].
Qed.

(** ** The commit stage *)

Lemma rob_check_head_true r :
  rob_check_head r = true <->
  valid (entries r (head_ptr r)) && ready (entries r (head_ptr r)) = true.
Proof.
  unfold rob_check_head, rob_check_ready.
  destruct (valid (entries r (head_ptr r)) && ready (entries r (head_ptr r)));
    split; auto.
Qed.

Lemma aliased_to_get_remap t d tag :
  tag <> -1 -> (aliased_to t d tag <-> rat_get_remap t d = tag).
Proof.
  intros Ht. unfold aliased_to, rat_get_remap.
  destruct (rat_valid (rat_entries t d)); split.
  - intros [_ E]. exact E.
  - intros E. split; [reflexivity | exact E].
  - intros [F _]. discriminate.
  - intros E. exfalso. apply Ht. now symmetry.
Qed.

(** One iteration of the commit loop that finds the head ready. *)
Lemma commit_lane_ready cfg junk i p :
  rob_check_head (rob p) = true ->
  let h := inst (entries (rob p) (head_ptr (rob p))) in
  let r1 := snd (rob_remove_head (NUM_ROB_ENTRIES cfg) junk (rob p)) in
  let p2 := pipe_commit_inst (set_rob r1 p) h in
  let p3 := commit_rat h p2 in
  commit_lane cfg junk i p
  = set_ID_latch (updn (ID_latch p3) i
                       (set_lstall (negb (rob_check_space (rob p3)))
                                   (ID_latch p3 i))) p3.
Proof.
  intros H. unfold commit_lane. rewrite H.
  apply rob_check_head_true in H.
  rewrite (rob_remove_head_ready _ _ _ H). reflexivity.
Qed.

Lemma pipe_commit_inst_fields p x :
  rat (pipe_commit_inst p x) = rat p
  /\ rob (pipe_commit_inst p x) = rob p
  /\ events (pipe_commit_inst p x)
     = events p ++ [EvCommit (stat_num_cycle p) x]
  /\ stat_retired_inst (pipe_commit_inst p x) = u64 (stat_retired_inst p + 1).
Proof.
  unfold pipe_commit_inst. simpl.
  destruct (halt_inst_num p <=? inst_num x); simpl; auto.
Qed.

(** C7. When the commit stage retires the (ready) head instruction [h], whose
    destination register [d] is an architectural register and whose tag is a
    ROB index: if RAT[d] is still aliased to exactly [h]'s tag, the stage
    calls [rat_reset_entry] on [d] and RAT[d] becomes unaliased; otherwise
    (RAT[d] unaliased, or re-aliased to another tag by a younger writer of
    [d]) it calls no [rat_reset_entry] and the RAT is unchanged.  No other
    RAT entry changes in either case. *)
Theorem commit_resets_rat_iff_aliased
        (cfg : Config) (junk : InstInfo) (i : nat) (p : Pipeline) :
  let h := inst (entries (rob p) (head_ptr (rob p))) in
  let d := dest_reg h in
  let p' := commit_lane cfg junk i p in
  rob_check_head (rob p) = true ->
  0 <= d < MAX_ARF_REGS ->
  dr_tag h <> -1 ->
  (aliased_to (rat p) d (dr_tag h) ->
     rat p' = rat_reset_entry (rat p) d
     /\ rat_get_remap (rat p') d = -1
     /\ events p'
        = events p ++ [EvCommit (stat_num_cycle p) h; EvRat d; EvRat d])
  /\ (~ aliased_to (rat p) d (dr_tag h) ->
     rat p' = rat p
     /\ events p' = events p ++ [EvCommit (stat_num_cycle p) h; EvRat d])
  /\ (forall a, a <> d ->
        rat_entries (rat p') a = rat_entries (rat p) a).
Proof.
  intros h d p' Hhead Hd Htag. subst p'.
  rewrite (commit_lane_ready cfg junk i p Hhead). fold h. simpl rat. simpl events.
  destruct (pipe_commit_inst_fields
              (set_rob (snd (rob_remove_head (NUM_ROB_ENTRIES cfg) junk (rob p))) p) h)
    as (Erat & _ & Eev & _).
  simpl in Erat, Eev.
  remember (pipe_commit_inst
              (set_rob (snd (rob_remove_head (NUM_ROB_ENTRIES cfg) junk (rob p))) p)
              h) as q eqn:Eq.
  clear Eq.
  unfold commit_rat. simpl rat. rewrite Erat. fold d.
  pose proof (aliased_to_get_remap (rat p) d Htag) as AL.
  destruct (Z.eqb_spec (rat_get_remap (rat p) d) (dr_tag h)) as [E|E];
    simpl; rewrite ?Erat, ?Eev, <- ?app_assoc; simpl.
  - split; [|split].
    + intros _. split; [reflexivity|]. split; [|reflexivity].
      unfold rat_get_remap, rat_reset_entry. simpl. now rewrite upd_same.
    + intros NA. exfalso. apply NA, AL, E.
    + intros a Ha. now apply upd_other.
  - split; [|split].
    + intros A. exfalso. apply E, AL, A.
    + intros _. split; reflexivity.
    + intros a Ha. reflexivity.
Qed.

(** ** The issue stage *)

Lemma for_lanes_split {S} (a b : nat) (body : nat -> S -> S) (s : S) :
  for_lanes (a + b) body s
  = fold_left (fun acc i => body i acc) (seq a b) (for_lanes a body s).
Proof.
  unfold for_lanes. rewrite seq_app, fold_left_app. reflexivity.
Qed.

Section Issue.

Variable cfg : Config.

Local Abbreviation W := (PIPE_WIDTH cfg).

(** The only ID slot an iteration writes is its own. *)
Lemma issue_lane_other_lanes i k q b :
  k <> i -> ID_latch (fst (issue_lane cfg i (q, b))) k = ID_latch q k.
Proof.
  intros Hk. unfold issue_lane. simpl. rewrite !updn_same. simpl.
  destruct b; simpl; [now apply updn_other|].
  destruct (lvalid (ID_latch q i)); simpl; [|now apply updn_other].
  destruct (rob_check_space (rob q)) eqn:S; simpl.
  - unfold rob_insert. rewrite S. simpl.
    destruct (tail_ptr (rob q) =? -1); simpl.
    + now apply updn_other.
    + unfold rename_dest, rename_src2, rename_src1. simpl.
      repeat match goal with
             | |- context [if ?c then _ else _] => destruct c; simpl
             end; rewrite !updn_other by exact Hk; reflexivity.
  - rewrite !updn_other by exact Hk. reflexivity.
Qed.

(** A lane reached with [prev_ID_stall] set is marked stalled and skipped. *)
Lemma issue_lane_stalled i q :
  let st := issue_lane cfg i (q, true) in
  snd st = true
  /\ issue_frozen q (fst st)
  /\ ID_latch (fst st) i = set_lstall true (ID_latch q i).
Proof.
  unfold issue_lane, issue_frozen. simpl. rewrite updn_same. simpl.
  rewrite updn_same. auto.
Qed.

(** A valid lane that finds the ROB without space stalls. *)
Lemma issue_lane_no_space i q :
  lvalid (ID_latch q i) = true ->
  rob_check_space (rob q) = false ->
  let st := issue_lane cfg i (q, false) in
  snd st = true
  /\ issue_frozen q (fst st)
  /\ ID_latch (fst st) i = set_lstall true (ID_latch q i).
Proof.
  intros V S. unfold issue_lane, issue_frozen. simpl. rewrite !updn_same. simpl.
  rewrite V, S. simpl. rewrite !updn_same. simpl. auto.
Qed.

(** Once [prev_ID_stall] is set, the rest of the lane loop only marks lanes
    stalled. *)
Lemma issue_stalled_suffix m :
  forall a q,
    let st := fold_left (fun acc i => issue_lane cfg i acc) (seq a m) (q, true) in
    snd st = true
    /\ issue_frozen q (fst st)
    /\ (forall k, (a <= k < a + m)%nat ->
                  ID_latch (fst st) k = set_lstall true (ID_latch q k))
    /\ (forall k, ~ (a <= k < a + m)%nat -> ID_latch (fst st) k = ID_latch q k).
Proof.
  induction m as [|m IH]; intros a q.
  - simpl. unfold issue_frozen. repeat split; auto. intros k Hk. lia.
  - cbn [seq fold_left].
    destruct (issue_lane_stalled a q) as (Hs & (Fr1 & Fr2 & Fr3) & Hi).
    destruct (issue_lane cfg a (q, true)) as [q1 b1] eqn:E1.
    simpl in Hs, Fr1, Fr2, Fr3, Hi. subst b1.
    specialize (IH (S a) q1). cbv zeta in IH.
    destruct IH as (Hs' & (Fr1' & Fr2' & Fr3') & Hin & Hout).
    cbv zeta. split; [exact Hs'|]. split.
    + unfold issue_frozen. repeat split; congruence.
    + assert (Oth : forall k, k <> a -> ID_latch q1 k = ID_latch q k).
      { intros k Hk. pose proof (@issue_lane_other_lanes a k q true Hk) as O.
        rewrite E1 in O. exact O. }
      split.
      * intros k Hk. destruct (Nat.eq_dec k a) as [->|D].
        -- rewrite Hout by lia. exact Hi.
        -- rewrite Hin by lia. rewrite Oth by exact D. reflexivity.
      * intros k Hk. rewrite Hout by lia. apply Oth. lia.
Qed.

(** Stall flags after the lane loop has passed lane [j]: monotone across the
    lanes below [j], and [prev_ID_stall] is set as soon as one is stalled. *)
Lemma issue_reach_monotone p j :
  let st := issue_reach cfg p j in
  (forall a b, (a <= b < j)%nat ->
     lstall (ID_latch (fst st) a) = true -> lstall (ID_latch (fst st) b) = true)
  /\ (forall a, (a < j)%nat ->
        lstall (ID_latch (fst st) a) = true -> snd st = true).
Proof.
  unfold issue_reach.
  apply (@for_lanes_inv (Pipeline * bool)
           (fun j st =>
              (forall a b, (a <= b < j)%nat ->
                 lstall (ID_latch (fst st) a) = true ->
                 lstall (ID_latch (fst st) b) = true)
              /\ (forall a, (a < j)%nat ->
                    lstall (ID_latch (fst st) a) = true -> snd st = true))).
  - split; intros; lia.
  - intros i [q b] Hi [Mono Prev]. simpl in Mono, Prev.
    assert (Oth : forall k, k <> i ->
              ID_latch (fst (issue_lane cfg i (q, b))) k = ID_latch q k)
      by (intros k Hk; now apply issue_lane_other_lanes).
    assert (Own : b = true ->
              lstall (ID_latch (fst (issue_lane cfg i (q, b))) i) = true
              /\ snd (issue_lane cfg i (q, b)) = true).
    { intros ->. destruct (issue_lane_stalled i q) as (Hs & _ & Hl).
      rewrite Hl. auto. }
    assert (Snd : lstall (ID_latch (fst (issue_lane cfg i (q, b))) i) = true ->
                  snd (issue_lane cfg i (q, b)) = true).
    { destruct b; [intros _; now apply Own|].
      unfold issue_lane. simpl. rewrite !updn_same. simpl.
      destruct (lvalid (ID_latch q i)); simpl; [auto|].
      rewrite updn_same. simpl. auto. }
    split.
    + intros a c Hac Ha.
      destruct (Nat.eq_dec c i) as [->|Dc].
      * destruct (Nat.eq_dec a i) as [->|Da]; [exact Ha|].
        rewrite Oth in Ha by exact Da.
        apply Own. apply (Prev a); [lia | exact Ha].
      * rewrite Oth by exact Dc. rewrite Oth in Ha by lia.
        apply (Mono a c); [lia | exact Ha].
    + intros a Ha Hst.
      destruct (Nat.eq_dec a i) as [->|Da]; [now apply Snd|].
      rewrite Oth in Hst by exact Da.
      apply Own. apply (Prev a); [lia | exact Hst].
Qed.

End Issue.

(** C9. Within one issue stage: if the lane loop reaches a valid ID slot [i]
    (not yet stalled) and the ROB has no space, then at the end of the stage
    slot [i] and every later slot are marked stalled and still hold their
    instructions, and nothing was inserted or renamed from lane [i] on (ROB,
    RAT and event log are those found on reaching lane [i]).  Stalling is
    monotone across lanes: if a lane is stalled at the end of the stage, so
    is every later lane. *)
Theorem issue_stall_monotone (cfg : Config) (p : Pipeline) (i : nat) :
  let st := issue_reach cfg p i in
  let p' := pipe_cycle_issue cfg p in
  (i < PIPE_WIDTH cfg)%nat ->
  snd st = false ->
  lvalid (ID_latch (fst st) i) = true ->
  rob_check_space (rob (fst st)) = false ->
  issue_frozen (fst st) p'
  /\ (forall k, (i <= k < PIPE_WIDTH cfg)%nat ->
        ID_latch p' k = set_lstall true (ID_latch (fst st) k))
  /\ (forall a b, (a <= b < PIPE_WIDTH cfg)%nat ->
        lstall (ID_latch p' a) = true -> lstall (ID_latch p' b) = true).
Proof.
  intros st p' Hi Hprev V S.
  assert (Hsplit : p' = fst (fold_left (fun acc k => issue_lane cfg k acc)
                                       (seq i (Datatypes.S (PIPE_WIDTH cfg - i - 1)))
                                       st)).
  { subst p' st. unfold pipe_cycle_issue, issue_reach.
    rewrite <- for_lanes_split. do 2 f_equal. lia. }
  split; [|split].
  3: { intros a b Hab. apply (issue_reach_monotone cfg p (PIPE_WIDTH cfg)).
       exact Hab. }
  all: rewrite Hsplit; clear Hsplit;
    destruct st as [q b] eqn:Est; simpl in Hprev, V, S; subst b;
    cbn [seq fold_left];
    destruct (issue_lane_no_space cfg i q V S) as (Hs & (F1 & F2 & F3) & Hl);
    destruct (issue_lane cfg i (q, false)) as [q1 b1] eqn:E1;
    simpl in Hs, F1, F2, F3, Hl; subst b1;
    destruct (issue_stalled_suffix cfg (PIPE_WIDTH cfg - i - 1) (Datatypes.S i) q1)
      as (_ & (G1 & G2 & G3) & Hin & Hout).
  - unfold issue_frozen. simpl. repeat split; congruence.
  - intros k Hk. simpl. destruct (Nat.eq_dec k i) as [->|D].
    + rewrite Hout by lia. exact Hl.
    + rewrite Hin by lia. f_equal.
      pose proof (@issue_lane_other_lanes cfg i k q false D) as O.
      rewrite E1 in O. exact O.
Qed.

(** ** The execute stage *)




Section Execute.

Variable cfg : Config.



End Execute.

Section ExecuteFrame.

Variable cfg : Config.

Lemma exe_step_refl p : exe_step p p.
Proof. repeat split; auto. Qed.

Lemma exe_step_trans p q r : exe_step p q -> exe_step q r -> exe_step p r.
Proof.
  intros (a1 & a2 & a3 & a4 & a5 & a6) (b1 & b2 & b3 & b4 & b5 & b6).
  split; [eapply same_front_trans; eauto|].
  split; [eapply same_commits_trans; eauto|].
  repeat split; try congruence. auto.
Qed.

Lemma exe_copy_lane_step i p : exe_step p (exe_copy_lane i p).
Proof.
  unfold exe_copy_lane. destruct (lvalid (SC_latch p i)).
  - repeat split; auto.
  - apply exe_step_refl.
Qed.

Lemma exe_drain_step count :
  forall i p, exe_step p (snd (exe_drain cfg count i p)).
Proof.
  induction count as [|count IH]; intros i p; [apply exe_step_refl|].
  cbn [exe_drain]. destruct (lvalid (SC_latch p i)); [|apply IH].
  destruct (exeq_insert _ _ _ _) as [ok q]. destruct ok; cbn [negb].
  - eapply exe_step_trans; [|apply IH]. repeat split; auto.
  - repeat split; auto.
Qed.

Lemma exe_transfer_step count :
  forall i p, exe_step p (exe_transfer count i p).
Proof.
  induction count as [|count IH]; intros i p; [apply exe_step_refl|].
  cbn [exe_transfer]. destruct (exeq_check_done (exeq p));
    [|apply exe_step_refl].
  destruct (exeq_remove (exeq p)) as [x q].
  eapply exe_step_trans; [|apply IH]. repeat split; auto.
Qed.

Lemma pipe_cycle_exe_step p : exe_step p (pipe_cycle_exe cfg p).
Proof.
  unfold pipe_cycle_exe. destruct (LOAD_EXE_CYCLES cfg =? 1).
  - apply (@for_lanes_inv Pipeline (fun _ q => exe_step p q)).
    + apply exe_step_refl.
    + intros i t _ H. eapply exe_step_trans; [exact H|].
      apply exe_copy_lane_step.
  - pose proof (exe_drain_step (PIPE_WIDTH cfg) 0 p) as D.
    destruct (exe_drain cfg (PIPE_WIDTH cfg) 0 p) as [returned p1].
    simpl in D. destruct returned; [exact D|].
    eapply exe_step_trans; [exact D|].
    eapply exe_step_trans; [|apply exe_transfer_step].
    repeat split; auto.
Qed.

End ExecuteFrame.

(** ** The schedule stage *)

Section Frames.

Variable cfg : Config.
Hypothesis n_range : 1 <= NUM_ROB_ENTRIES cfg <= MAX_ROB_ENTRIES.

Local Abbreviation N := (NUM_ROB_ENTRIES cfg).

(** *** Schedule *)

Lemma sched_hold_step i p : back_end_step p (sched_hold i p).
Proof.
  unfold sched_hold. repeat split; auto.
Qed.

Lemma sched_send_step i j p : back_end_step p (sched_send i j p).
Proof.
  unfold sched_send, back_end_step, same_front, same_commits. simpl.
  rewrite retired_seq_app, rat_indices_app. simpl. rewrite !app_nil_r.
  repeat split; auto; apply rob_mark_exec_grows.
Qed.

Lemma sched_in_order_scan_step fuel i :
  forall j p p',
    sched_in_order_scan cfg fuel i j p = Some p' -> back_end_step p p'.
Proof.
  induction fuel as [|fuel IH]; intros j p p' E; [discriminate|].
  cbn [sched_in_order_scan] in E.
  destruct (valid (entries (rob p) j) && negb (exec (entries (rob p) j))).
  - destruct (srcs_ready (entries (rob p) j)) as [s1 s2].
    destruct (negb s1 || negb s2); inversion E; subst.
    + apply sched_hold_step.
    + apply sched_send_step.
  - destruct (negb (u32 (j + 1) mod N =? tail_ptr (rob p))).
    + eapply IH; eauto.
    + inversion E; subst. apply back_end_step_refl.
Qed.

Lemma sched_out_of_order_scan_step fuel i :
  forall j p p',
    sched_out_of_order_scan cfg fuel i j p = Some p' -> back_end_step p p'.
Proof.
  induction fuel as [|fuel IH]; intros j p p' E; [discriminate|].
  cbn [sched_out_of_order_scan] in E.
  destruct (valid (entries (rob p) j) && negb (exec (entries (rob p) j))).
  - destruct (srcs_ready (entries (rob p) j)) as [s1 s2].
    destruct (negb s1 || negb s2).
    + destruct (negb (u32 (j + 1) mod N =? tail_ptr (rob (sched_hold i p)))).
      * eapply back_end_step_trans; [apply (sched_hold_step i)|].
        eapply IH; eauto.
      * inversion E; subst. apply sched_hold_step.
    + inversion E; subst. apply sched_send_step.
  - destruct (negb (u32 (j + 1) mod N =? tail_ptr (rob p))).
    + eapply IH; eauto.
    + inversion E; subst. apply back_end_step_refl.
Qed.

(** On a ring the scans come back to the tail within [NUM_ROB_ENTRIES]
    iterations. *)
Lemma sched_in_order_scan_total i len h (total : nat) :
  0 <= h < N -> (1 <= total <= Z.to_nat N)%nat ->
  forall m k fuel p,
    (k + m = total)%nat -> (1 <= m)%nat -> (m <= fuel)%nat ->
    rob_ring N (rob p) len ->
    tail_ptr (rob p) = (h + Z.of_nat total) mod N ->
    exists p', sched_in_order_scan cfg fuel i ((h + Z.of_nat k) mod N) p
               = Some p'.
Proof.
  intros Hh Ht m. induction m as [|m IH]; intros k fuel p Hkm Hm Hf R Et; [lia|].
  destruct fuel as [|fuel]; [lia|]. cbn [sched_in_order_scan].
  destruct (valid _ && negb _).
  - destruct (srcs_ready _) as [s1 s2]. destruct (negb s1 || negb s2); eauto.
  - rewrite (next_slot n_range) by (apply slot_range; lia).
    rewrite slot_succ by lia.
    replace (Z.of_nat k + 1) with (Z.of_nat (S k)) by lia.
    destruct (Z.eqb_spec ((h + Z.of_nat (S k)) mod N) (tail_ptr (rob p)))
      as [E|E]; cbn [negb]; [eauto|].
    apply IH; try lia; try assumption.
    destruct m; [|lia]. exfalso. apply E. rewrite Et. f_equal. lia.
Qed.

Lemma sched_out_of_order_scan_total i len h (total : nat) :
  0 <= h < N -> (1 <= total <= Z.to_nat N)%nat ->
  forall m k fuel p,
    (k + m = total)%nat -> (1 <= m)%nat -> (m <= fuel)%nat ->
    rob_ring N (rob p) len ->
    tail_ptr (rob p) = (h + Z.of_nat total) mod N ->
    exists p', sched_out_of_order_scan cfg fuel i ((h + Z.of_nat k) mod N) p
               = Some p'.
Proof.
  intros Hh Ht m. induction m as [|m IH]; intros k fuel p Hkm Hm Hf R Et; [lia|].
  destruct fuel as [|fuel]; [lia|]. cbn [sched_out_of_order_scan].
  rewrite (next_slot n_range) by (apply slot_range; lia).
  rewrite slot_succ by lia.
  replace (Z.of_nat k + 1) with (Z.of_nat (S k)) by lia.
  assert (Next : forall q, rob q = rob p ->
            exists p',
              (if negb ((h + Z.of_nat (S k)) mod N =? tail_ptr (rob q))
               then sched_out_of_order_scan cfg fuel i
                      ((h + Z.of_nat (S k)) mod N) q
               else Some q) = Some p').
  { intros q Eq. rewrite Eq.
    destruct (Z.eqb_spec ((h + Z.of_nat (S k)) mod N) (tail_ptr (rob p)))
      as [E|E]; cbn [negb]; [eauto|].
    apply IH; try lia; rewrite ?Eq; try assumption.
    destruct m; [|lia]. exfalso. apply E. rewrite Et. f_equal. lia. }
  destruct (valid _ && negb _).
  - destruct (srcs_ready _) as [s1 s2]. destruct (negb s1 || negb s2).
    + apply Next. reflexivity.
    + eauto.
  - apply Next. reflexivity.
Qed.

Lemma ring_traversal r len :
  rob_ring N r len ->
  tail_ptr r = (head_ptr r + Z.of_nat (traversal_length N len)) mod N
  /\ (1 <= traversal_length N len <= Z.to_nat N)%nat
  /\ 0 <= head_ptr r < N.
Proof.
  intros (Hl & Hh & Et & _). split; [|split].
  - rewrite (traversal_tail n_range) by exact Hl. exact Et.
  - now apply traversal_length_range.
  - exact Hh.
Qed.

Lemma sched_lane_in_order_spec i p len :
  rob_ring N (rob p) len ->
  exists p', sched_lane_in_order cfg i p = Some p'
             /\ back_end_step p p' /\ rob_ring N (rob p') len.
Proof.
  intros R. destruct (ring_traversal R) as (Et & Tl & Hh).
  unfold sched_lane_in_order.
  destruct (@sched_in_order_scan_total i len (head_ptr (rob p))
              (traversal_length N len) Hh Tl
              (traversal_length N len) 0%nat (Z.to_nat N) p) as [p' E];
    try lia; try assumption.
  simpl Z.of_nat in E. rewrite Z.add_0_r, Z.mod_small in E by exact Hh.
  exists p'. split; [exact E|].
  pose proof (sched_in_order_scan_step _ _ _ _ E) as B.
  split; [exact B|]. eapply rob_grows_ring; [apply B | exact R].
Qed.

Lemma sched_lane_out_of_order_spec i p len :
  rob_ring N (rob p) len ->
  exists p', sched_lane_out_of_order cfg i p = Some p'
             /\ back_end_step p p' /\ rob_ring N (rob p') len.
Proof.
  intros R. destruct (ring_traversal R) as (Et & Tl & Hh).
  unfold sched_lane_out_of_order.
  destruct (@sched_out_of_order_scan_total i len (head_ptr (rob p))
              (traversal_length N len) Hh Tl
              (traversal_length N len) 0%nat (Z.to_nat N) p) as [p' E];
    try lia; try assumption.
  simpl Z.of_nat in E. rewrite Z.add_0_r, Z.mod_small in E by exact Hh.
  exists p'. split; [exact E|].
  pose proof (sched_out_of_order_scan_step _ _ _ _ E) as B.
  split; [exact B|]. eapply rob_grows_ring; [apply B | exact R].
Qed.

(** The schedule stage terminates on a ring and is a back-end step. *)
Lemma pipe_cycle_schedule_spec p len :
  rob_ring N (rob p) len ->
  exists p', pipe_cycle_schedule cfg p = Some p'
             /\ back_end_step p p' /\ rob_ring N (rob p') len.
Proof.
  intros R. unfold pipe_cycle_schedule.
  assert (Loop : forall body q,
            (forall i t, rob_ring N (rob t) len ->
               exists t', body i t = Some t' /\ back_end_step t t'
                          /\ rob_ring N (rob t') len) ->
            rob_ring N (rob q) len ->
            exists q', for_lanes_opt (PIPE_WIDTH cfg) body q = Some q'
                       /\ back_end_step q q' /\ rob_ring N (rob q') len).
  { intros body q Hb Rq.
    destruct (@for_lanes_opt_inv Pipeline
                (fun _ t => back_end_step q t /\ rob_ring N (rob t) len)
                (PIPE_WIDTH cfg) body q) as [q' [E [B R']]].
    - split; [apply back_end_step_refl | exact Rq].
    - intros i t _ [B Rt]. destruct (Hb i t Rt) as [t' [E [B' R']]].
      exists t'. split; [exact E|]. split; [|exact R'].
      eapply back_end_step_trans; eauto.
    - eauto. }
  assert (First : exists p1,
            (if SchedulingPolicy_eqb (SCHED_POLICY cfg) SCHED_IN_ORDER
             then for_lanes_opt (PIPE_WIDTH cfg) (sched_lane_in_order cfg) p
             else Some p) = Some p1
            /\ back_end_step p p1 /\ rob_ring N (rob p1) len).
  { destruct (SchedulingPolicy_eqb _ _).
    - apply Loop; [|exact R]. intros i t. apply sched_lane_in_order_spec.
    - exists p. split; [reflexivity|]. split; [apply back_end_step_refl|exact R]. }
  destruct First as [p1 [E1 [B1 R1]]]. rewrite E1. simpl.
  destruct (SchedulingPolicy_eqb _ SCHED_OUT_OF_ORDER).
  - destruct (Loop (sched_lane_out_of_order cfg) p1) as [p2 [E2 [B2 R2]]].
    + intros i t. apply sched_lane_out_of_order_spec.
    + exact R1.
    + exists p2. split; [exact E2|]. split; [|exact R2].
      eapply back_end_step_trans; eauto.
  - exists p1. auto.
Qed.

End Frames.

(** ** The halt flag *)

Section Halt.

Variable cfg : Config.
Variable junk : InstInfo.

Lemma issue_lane_halt i st :
  halt (fst (issue_lane cfg i st)) = halt (fst st).
Proof.
  destruct st as [q b]. unfold issue_lane. simpl. rewrite !updn_same. simpl.
  destruct b; simpl; [reflexivity|].
  destruct (lvalid (ID_latch q i)); simpl; [|reflexivity].
  destruct (rob_check_space (rob q)) eqn:S; simpl; [|reflexivity].
  unfold rob_insert. rewrite S. simpl.
  destruct (tail_ptr (rob q) =? -1); simpl; [reflexivity|].
  unfold rename_dest, rename_src2, rename_src1. simpl.
  repeat match goal with
         | |- context [if ?c then _ else _] => destruct c; simpl
         end; reflexivity.
Qed.

Lemma pipe_cycle_issue_halt p : halt (pipe_cycle_issue cfg p) = halt p.
Proof.
  unfold pipe_cycle_issue.
  apply (@for_lanes_inv (Pipeline * bool)
           (fun _ st => halt (fst st) = halt p)).
  - reflexivity.
  - intros i t _ H. now rewrite issue_lane_halt.
Qed.

Lemma decode_find_halt count : forall j i p,
  halt (decode_find count j i p) = halt p.
Proof.
  induction count as [|count IH]; intros j i p; [reflexivity|].
  cbn [decode_find]. destruct (_ && _); [reflexivity | apply IH].
Qed.

Lemma pipe_cycle_decode_halt p : halt (pipe_cycle_decode cfg p) = halt p.
Proof.
  unfold pipe_cycle_decode.
  apply (@for_lanes_inv Pipeline (fun _ q => halt q = halt p)).
  - reflexivity.
  - intros i t _ H. unfold decode_lane.
    destruct (_ && _); [|exact H]. now rewrite decode_find_halt.
Qed.

Lemma fetch_lane_halt i p : halt p = true -> halt (fetch_lane cfg i p) = true.
Proof.
  intros H. unfold fetch_lane. destruct (_ && _); [|exact H].
  unfold pipe_fetch_inst, fetch_error.
  destruct (trace_fd p) as [|rec rest]; simpl.
  - destruct (_ <=? _); simpl; auto.
  - destruct (NUM_OP_TYPES cfg <=? tr_op_type rec); simpl; [|exact H].
    destruct (_ <=? _); simpl; auto.
Qed.

Lemma pipe_cycle_fetch_halt p :
  halt p = true -> halt (pipe_cycle_fetch cfg p) = true.
Proof.
  intros H. unfold pipe_cycle_fetch.
  apply (@for_lanes_inv Pipeline (fun _ q => halt q = true)).
  - exact H.
  - intros i t _. apply fetch_lane_halt.
Qed.

(** Once the flag is set inside the execute stage, it is still set at the
    end of the cycle. *)
Lemma halt_after_exe p3 p4 :
  halt p3 = true ->
  pipe_cycle_schedule cfg p3 = Some p4 ->
  halt (pipe_cycle_fetch cfg (pipe_cycle_decode cfg (pipe_cycle_issue cfg p4)))
  = true.
Proof.
  intros H E. apply pipe_cycle_fetch_halt.
  rewrite pipe_cycle_decode_halt, pipe_cycle_issue_halt.
  assert (B : back_end_step p3 p4).
  { revert E. unfold pipe_cycle_schedule.
    destruct (SchedulingPolicy_eqb (SCHED_POLICY cfg) SCHED_IN_ORDER).
    - destruct (for_lanes_opt (PIPE_WIDTH cfg) (sched_lane_in_order cfg) p3)
        as [p1|] eqn:E1; [|discriminate].
      simpl.
      assert (B1 : back_end_step p3 p1).
      { eapply for_lanes_opt_step; [|exact E1]. intros i t t'.
        apply sched_in_order_scan_step. }
      destruct (SchedulingPolicy_eqb (SCHED_POLICY cfg) SCHED_OUT_OF_ORDER).
      + intros E2. eapply back_end_step_trans; [exact B1|].
        eapply for_lanes_opt_step; [|exact E2]. intros i t t'.
        apply sched_out_of_order_scan_step.
      + intros E2. inversion E2; subst. exact B1.
    - simpl.
      destruct (SchedulingPolicy_eqb (SCHED_POLICY cfg) SCHED_OUT_OF_ORDER).
      + intros E2. eapply for_lanes_opt_step; [|exact E2]. intros i t t'.
        apply sched_out_of_order_scan_step.
      + intros E2. inversion E2; subst. apply back_end_step_refl. }
  destruct B as (_ & _ & Hh & _). congruence.
Qed.


End Halt.

(** ** The ROB as a FIFO of consecutive instruction numbers *)

Lemma count_up_S k : count_up (S k) = count_up k ++ [Z.of_nat (S k)].
Proof. unfold count_up. now rewrite seq_S, map_app. Qed.

Lemma rob_grows_shape r r' : rob_grows r r' -> rob_shape r r'.
Proof.
  intros (H & T & E). split; [exact H|]. split; [exact T|].
  intros j. destruct (E j) as (V & I & _). auto.
Qed.

Lemma rob_shape_refl r : rob_shape r r.
Proof. repeat split. Qed.

Lemma rob_shape_trans r1 r2 r3 :
  rob_shape r1 r2 -> rob_shape r2 r3 -> rob_shape r1 r3.
Proof.
  intros (H1 & T1 & E1) (H2 & T2 & E2).
  split; [congruence|]. split; [congruence|]. intros j.
  destruct (E1 j), (E2 j). split; congruence.
Qed.

Section Fifo.

Variable n : Z.
Hypothesis n_range : 1 <= n <= MAX_ROB_ENTRIES.

Lemma rob_shape_fifo r r' retired len :
  rob_shape r r' -> rob_fifo n r retired len -> rob_fifo n r' retired len.
Proof.
  intros (H & T & E) [(Hl & Hh & Et & Hv & Hi) Hn].
  split.
  - unfold rob_ring. rewrite H, T. repeat split; try lia; try assumption.
    + intros k Hk. destruct (E ((head_ptr r + k) mod n)) as [-> _].
      now apply Hv.
    + intros j Vj. destruct (E j) as [V _]. rewrite V in Vj. now apply Hi.
  - intros k Hk. rewrite H.
    destruct (E ((head_ptr r + k) mod n)) as [_ ->]. now apply Hn.
Qed.

Lemma rob_fifo_init retired : rob_fifo n rob_init retired 0.
Proof.
  split.
  - unfold rob_ring, rob_init. simpl. repeat split; try lia.
    all: try (intros j V; discriminate).
  - intros k Hk. lia.
Qed.

Lemma slot_shift h k : ((h + 1) mod n + k) mod n = (h + (k + 1)) mod n.
Proof.
  rewrite Z.add_mod_idemp_l by lia. f_equal. lia.
Qed.

(** Removing the ready head of a FIFO leaves the FIFO of the next numbers. *)
Lemma rob_remove_head_fifo junk r retired len :
  rob_fifo n r retired len ->
  valid (entries r (head_ptr r)) && ready (entries r (head_ptr r)) = true ->
  0 < len
  /\ inst_num (fst (rob_remove_head n junk r)) = retired + 1
  /\ rob_fifo n (snd (rob_remove_head n junk r)) (retired + 1) (len - 1).
Proof.
  intros [R Hn] Hready.
  pose proof R as (Hl & Hh & Et & Hv & Hi).
  assert (Hpos : 0 < len).
  { apply (ring_head_valid R).
    apply andb_true_iff in Hready. tauto. }
  rewrite (rob_remove_head_ready _ _ _ Hready). simpl fst. simpl snd.
  split; [exact Hpos|]. split.
  { specialize (Hn 0). rewrite Z.add_0_r, Z.mod_small in Hn by lia.
    rewrite Hn by lia. lia. }
  rewrite (next_slot n_range) by exact Hh.
  assert (Other : forall k, 0 <= k < len - 1 ->
            (head_ptr r + (k + 1)) mod n <> head_ptr r).
  { intros k Hk E.
    rewrite <- (Z.mod_small (head_ptr r) n) in E at 2 by exact Hh.
    rewrite <- (Z.add_0_r (head_ptr r)) in E at 2.
    apply (slot_inj n_range) in E; lia. }
  split.
  - unfold rob_ring. simpl.
    split; [lia|]. split; [apply Z.mod_pos_bound; lia|].
    split; [|split].
    + rewrite slot_shift, Et. f_equal. lia.
    + intros k Hk. rewrite slot_shift.
      rewrite upd_other by (now apply Other). apply Hv. lia.
    + intros j Vj. unfold upd in Vj.
      destruct (Z.eqb_spec j (head_ptr r)) as [E0|D]; [discriminate|].
      destruct (Hi j Vj) as [k [Hk ->]].
      assert (k <> 0).
      { intros ->. apply D. rewrite Z.add_0_r. now apply Z.mod_small. }
      exists (k - 1). split; [lia|]. rewrite slot_shift. f_equal. lia.
  - intros k Hk. simpl. rewrite slot_shift.
    rewrite upd_other by (now apply Other). rewrite Hn by lia. lia.
Qed.

(** Inserting the next number at the tail of a FIFO with space. *)
Lemma rob_insert_fifo r retired len x :
  rob_fifo n r retired len ->
  rob_check_space r = true ->
  inst_num x = retired + 1 + len ->
  fst (rob_insert n r x) = tail_ptr r
  /\ 0 <= tail_ptr r < n
  /\ rob_fifo n (snd (rob_insert n r x)) retired (len + 1).
Proof.
  intros [R Hn] Hs Hx.
  pose proof R as (Hl & Hh & Et & Hv & Hi).
  assert (Hlt : len < n) by (now apply (check_space_ring n_range R)).
  pose proof (ring_ptrs n_range R) as [_ Ht].
  unfold rob_insert. rewrite Hs. simpl fst. simpl snd.
  split; [reflexivity|]. split; [exact Ht|].
  rewrite (next_slot n_range) by exact Ht.
  assert (Other : forall k, 0 <= k < len ->
            (head_ptr r + k) mod n <> tail_ptr r).
  { intros k Hk E. rewrite Et in E. apply (slot_inj n_range) in E; lia. }
  split.
  - unfold rob_ring. simpl.
    split; [lia|]. split; [lia|]. split; [|split].
    + rewrite Et, slot_succ by exact n_range. reflexivity.
    + intros k Hk. destruct (Z.eq_dec k len) as [->|D].
      * rewrite <- Et, upd_same. reflexivity.
      * rewrite upd_other by (apply Other; lia). apply Hv. lia.
    + intros j Vj. unfold upd in Vj.
      destruct (Z.eqb_spec j (tail_ptr r)) as [E0|D].
      * exists len. split; [lia | now rewrite E0].
      * destruct (Hi j Vj) as [k [Hk ->]]. exists k. split; [lia|reflexivity].
  - intros k Hk. simpl. destruct (Z.eq_dec k len) as [->|D].
    + rewrite <- Et, upd_same. simpl. exact Hx.
    + rewrite upd_other by (apply Other; lia). apply Hn. lia.
Qed.

End Fifo.

(** ** The bubble sort of the issue stage *)

Lemma swap_latches_at f j :
  swap_latches f j j = f (S j)
  /\ swap_latches f j (S j) = f j
  /\ forall a, a <> j -> a <> S j -> swap_latches f j a = f a.
Proof.
  unfold swap_latches. split; [|split].
  - rewrite updn_other by lia. apply updn_same.
  - apply updn_same.
  - intros a H1 H2. now rewrite !updn_other by assumption.
Qed.

Lemma swapped_spec f j a : swap_latches f j a = f (swapped j a).
Proof.
  destruct (swap_latches_at f j) as (A & B & C). unfold swapped.
  destruct (Nat.eqb_spec a j) as [->|D1]; [exact A|].
  destruct (Nat.eqb_spec a (S j)) as [->|D2]; [exact B|].
  now apply C.
Qed.

Lemma swapped_invol j a : swapped j (swapped j a) = a.
Proof.
  unfold swapped.
  destruct (Nat.eqb_spec a j) as [->|D1].
  - destruct (Nat.eqb_spec (S j) j); [lia|]. now rewrite Nat.eqb_refl.
  - destruct (Nat.eqb_spec a (S j)) as [->|D2].
    + now rewrite Nat.eqb_refl.
    + destruct (Nat.eqb_spec a j); [lia|].
      destruct (Nat.eqb_spec a (S j)); [lia|]. reflexivity.
Qed.

Lemma swapped_lt w j a : (S j < w)%nat -> (a < w)%nat -> (swapped j a < w)%nat.
Proof.
  intros Hj Ha. unfold swapped.
  destruct (Nat.eqb a j); [lia|]. destruct (Nat.eqb a (S j)); lia.
Qed.

(** The window is a property of the set of valid latches, not of their
    order. *)
Lemma id_window_swap w f j lo hi :
  (S j < w)%nat ->
  id_window w f lo hi -> id_window w (swap_latches f j) lo hi.
Proof.
  intros Hj (Hlt & Hin & Hall & Hinj).
  split; [exact Hlt|]. split; [|split].
  - intros i Hi V. rewrite swapped_spec in *. apply Hin; [|exact V].
    now apply swapped_lt.
  - intros m Hm. destruct (Hall m Hm) as [i [Hi [V E]]].
    exists (swapped j i). split; [now apply swapped_lt|].
    rewrite swapped_spec, swapped_invol. auto.
  - intros a b Ha Hb Va Vb E. rewrite !swapped_spec in *.
    assert (swapped j a = swapped j b)
      by (apply Hinj; auto using swapped_lt).
    rewrite <- (swapped_invol j a), <- (swapped_invol j b). congruence.
Qed.

Lemma id_window_ext w f g lo hi :
  (forall i, (i < w)%nat ->
     lvalid (g i) = lvalid (f i)
     /\ inst_num (linst (g i)) = inst_num (linst (f i))) ->
  id_window w f lo hi -> id_window w g lo hi.
Proof.
  intros E (Hlt & Hin & Hall & Hinj).
  split; [exact Hlt|]. split; [|split].
  - intros i Hi V. destruct (E i Hi) as [Ev En]. rewrite En.
    apply Hin; [exact Hi | congruence].
  - intros m Hm. destruct (Hall m Hm) as [i [Hi [V En]]].
    destruct (E i Hi) as [Ev En']. exists i. repeat split; congruence.
  - intros a b Ha Hb Va Vb En.
    destruct (E a Ha) as [Eva Ena]. destruct (E b Hb) as [Evb Enb].
    apply Hinj; congruence.
Qed.

Lemma sort_inner_spec j f :
  let g := sort_inner j f in
  (forall a, a <> j -> a <> S j -> g a = f a)
  /\ inst_num (linst (g j)) <= inst_num (linst (g (S j)))
  /\ ((g j = f j /\ g (S j) = f (S j)) \/ (g j = f (S j) /\ g (S j) = f j)).
Proof.
  unfold sort_inner. rewrite Z.gtb_ltb.
  destruct (Z.ltb_spec (inst_num (linst (f (S j)))) (inst_num (linst (f j))))
    as [L|L]; cbv zeta.
  - destruct (swap_latches_at f j) as (A & B & C).
    rewrite A, B. split; [exact C|]. split; [lia|]. right. auto.
  - split; [auto|]. split; [exact L|]. left. auto.
Qed.

Lemma id_window_sort_inner w f j lo hi :
  (S j < w)%nat ->
  id_window w f lo hi -> id_window w (sort_inner j f) lo hi.
Proof.
  intros Hj H. unfold sort_inner.
  destruct (_ >? _); [now apply id_window_swap | exact H].
Qed.

(** One pass of [m] comparisons bubbles the largest of lanes [0..m] up to
    lane [m] and keeps the lanes above [m]. *)
Lemma sort_pass_spec m f :
  let g := for_lanes m sort_inner f in
  (forall a, (a <= m)%nat ->
     inst_num (linst (g a)) <= inst_num (linst (g m)))
  /\ (forall a, (m < a)%nat -> g a = f a)
  /\ (forall a, (a <= m)%nat -> exists a', (a' <= m)%nat /\ g a = f a').
Proof.
  apply (@for_lanes_inv (nat -> PipelineLatch)
           (fun t g =>
              (forall a, (a <= t)%nat ->
                 inst_num (linst (g a)) <= inst_num (linst (g t)))
              /\ (forall a, (t < a)%nat -> g a = f a)
              /\ (forall a, (a <= t)%nat ->
                    exists a', (a' <= t)%nat /\ g a = f a'))).
  - split; [|split].
    + intros a Ha. assert (a = 0)%nat by lia. subst. lia.
    + auto.
    + intros a Ha. exists a. auto.
  - intros t g Ht (Max & Above & Mem).
    destruct (sort_inner_spec t g) as (Oth & Ord & Cases).
    cbv zeta in Oth, Ord, Cases.
    split; [|split].
    + intros a Ha.
      destruct (Nat.eq_dec a (S t)) as [->|D1]; [lia|].
      destruct (Nat.eq_dec a t) as [->|D2]; [exact Ord|].
      rewrite Oth by assumption.
      specialize (Max a ltac:(lia)).
      destruct Cases as [[E1 E2]|[E1 E2]].
      * rewrite E1 in Ord. rewrite E2 in *. lia.
      * rewrite E2. exact Max.
    + intros a Ha. rewrite Oth by lia. apply Above. lia.
    + intros a Ha.
      assert (St : g (S t) = f (S t)) by (apply Above; lia).
      destruct (Nat.eq_dec a (S t)) as [->|D1].
      { destruct Cases as [[E1 E2]|[E1 E2]]; rewrite E2.
        - exists (S t). split; [lia | exact St].
        - destruct (Mem t ltac:(lia)) as [a' [Ha' E]].
          exists a'. split; [lia | exact E]. }
      destruct (Nat.eq_dec a t) as [->|D2].
      { destruct Cases as [[E1 E2]|[E1 E2]]; rewrite E1.
        - destruct (Mem t ltac:(lia)) as [a' [Ha' E]].
          exists a'. split; [lia | exact E].
        - exists (S t). split; [lia | exact St]. }
      rewrite Oth by assumption.
      destruct (Mem a ltac:(lia)) as [a' [Ha' E]].
      exists a'. split; [lia | exact E].
Qed.

Lemma id_window_sort_pass w m f lo hi :
  (m < w)%nat ->
  id_window w f lo hi -> id_window w (for_lanes m sort_inner f) lo hi.
Proof.
  intros Hm H.
  apply (@for_lanes_inv (nat -> PipelineLatch)
           (fun _ g => id_window w g lo hi)); [exact H|].
  intros i g Hi Hg. apply id_window_sort_inner; [lia | exact Hg].
Qed.

Section Sort.

Variable cfg : Config.

Local Abbreviation W := (PIPE_WIDTH cfg).

(** After the sort the first [PIPE_WIDTH] ID latches are in ascending order
    of instruction number. *)
Lemma issue_sort_sorted f : lanes_sorted W (issue_sort cfg f).
Proof.
  assert (Inv : forall a b, (a <= b < W)%nat -> (W - (W - 1) <= b)%nat ->
            inst_num (linst (issue_sort cfg f a))
            <= inst_num (linst (issue_sort cfg f b))).
  { unfold issue_sort.
    apply (@for_lanes_inv (nat -> PipelineLatch)
             (fun i g =>
                forall a b, (a <= b < W)%nat -> (W - i <= b)%nat ->
                  inst_num (linst (g a)) <= inst_num (linst (g b)))).
    - intros a b Hab Hb. lia.
    - intros i g Hi Sorted a b Hab Hb. unfold sort_outer.
      destruct (sort_pass_spec (W - i - 1) g) as (Max & Above & Mem).
      cbv zeta in Max, Above, Mem.
      destruct (Nat.eq_dec b (W - i - 1)) as [->|Db].
      + apply Max. lia.
      + rewrite (Above b) by lia.
        destruct (le_lt_dec a (W - i - 1)) as [La|La].
        * destruct (Mem a La) as [a' [Ha' ->]]. apply Sorted; lia.
        * rewrite (Above a) by lia. apply Sorted; lia. }
  intros a b Hab.
  destruct (Nat.eq_dec b 0) as [->|Db].
  - assert (a = 0)%nat by lia. subst. lia.
  - apply Inv; lia.
Qed.

Lemma issue_sort_window f lo hi :
  id_window W f lo hi -> id_window W (issue_sort cfg f) lo hi.
Proof.
  intros H. unfold issue_sort.
  apply (@for_lanes_inv (nat -> PipelineLatch)
           (fun _ g => id_window W g lo hi)); [exact H|].
  intros i g Hi Hg. unfold sort_outer.
  apply id_window_sort_pass; [lia | exact Hg].
Qed.

End Sort.

(** ** The window of instruction numbers in the ID latches *)

(** The first valid latch of a sorted window holds its smallest number. *)
Lemma window_first w f lo hi i :
  id_window w f lo hi -> lanes_sorted w f ->
  (i < w)%nat ->
  (forall k, (k < i)%nat -> lvalid (f k) = false) ->
  lvalid (f i) = true ->
  inst_num (linst (f i)) = lo + 1.
Proof.
  intros (Hlt & Hin & Hall & Hinj) Sorted Hi Before V.
  pose proof (Hin i Hi V) as Hr.
  destruct (Hall (lo + 1)) as [j [Hj [Vj Ej]]]; [lia|].
  assert (i <= j)%nat.
  { destruct (le_lt_dec i j) as [L|L]; [exact L|].
    rewrite (Before j L) in Vj. discriminate. }
  pose proof (Sorted i j ltac:(lia)). lia.
Qed.

(** Taking the smallest number out of the window. *)
Lemma window_pop w f g lo hi i :
  id_window w f lo hi ->
  (i < w)%nat -> lvalid (f i) = true -> inst_num (linst (f i)) = lo + 1 ->
  lvalid (g i) = false ->
  (forall k, (k < w)%nat -> k <> i ->
     lvalid (g k) = lvalid (f k)
     /\ inst_num (linst (g k)) = inst_num (linst (f k))) ->
  id_window w g (lo + 1) hi.
Proof.
  intros (Hlt & Hin & Hall & Hinj) Hi V E Vg Same.
  pose proof (Hin i Hi V) as Hr.
  split; [lia|]. split; [|split].
  - intros k Hk Vk.
    destruct (Nat.eq_dec k i) as [->|D]; [congruence|].
    destruct (Same k Hk D) as [Ev En]. rewrite Ev in Vk. rewrite En.
    pose proof (Hin k Hk Vk).
    assert (inst_num (linst (f k)) <> lo + 1).
    { intros Ek. apply D. apply Hinj; auto. congruence. }
    lia.
  - intros m Hm. destruct (Hall m) as [k [Hk [Vk Ek]]]; [lia|].
    assert (D : k <> i) by (intros ->; lia).
    destruct (Same k Hk D) as [Ev En].
    exists k. repeat split; congruence.
  - intros a b Ha Hb Va Vb Eab.
    destruct (Nat.eq_dec a i) as [->|Da]; [congruence|].
    destruct (Nat.eq_dec b i) as [->|Db]; [congruence|].
    destruct (Same a Ha Da) as [Eva Ena].
    destruct (Same b Hb Db) as [Evb Enb].
    apply Hinj; congruence.
Qed.

(** Putting the next number into an empty latch. *)
Lemma window_push w f lo hi i x :
  id_window w f lo hi ->
  (i < w)%nat -> lvalid (f i) = false ->
  lvalid x = true -> inst_num (linst x) = hi ->
  id_window w (updn f i x) lo (hi + 1).
Proof.
  intros (Hlt & Hin & Hall & Hinj) Hi Vi Vx Ex.
  split; [lia|]. split; [|split].
  - intros k Hk Vk. unfold updn in *.
    destruct (Nat.eqb_spec k i) as [->|D]; [lia|].
    pose proof (Hin k Hk Vk). lia.
  - intros m Hm. destruct (Z.eq_dec m hi) as [->|D].
    + exists i. rewrite updn_same. auto.
    + destruct (Hall m) as [k [Hk [Vk Ek]]]; [lia|].
      assert (k <> i) by (intros ->; congruence).
      exists k. rewrite updn_other by assumption. auto.
  - intros a b Ha Hb Va Vb Eab. unfold updn in *.
    destruct (Nat.eqb_spec a i) as [->|Da];
      destruct (Nat.eqb_spec b i) as [->|Db]; try reflexivity.
    + pose proof (Hin b Hb Vb). lia.
    + pose proof (Hin a Ha Va). lia.
    + now apply Hinj.
Qed.

Lemma lanes_sorted_ext w f g :
  (forall i, (i < w)%nat ->
     inst_num (linst (g i)) = inst_num (linst (f i))) ->
  lanes_sorted w f -> lanes_sorted w g.
Proof.
  intros E S a b Hab. rewrite !E by lia. now apply S.
Qed.

(** ** Every stage keeps the invariant *)

Section StageInv.

Variable cfg : Config.
Variable junk : InstInfo.
Variable bound : Z.
Hypothesis cfg_ok : config_ok cfg.

Local Abbreviation W := (PIPE_WIDTH cfg).
Local Abbreviation N := (NUM_ROB_ENTRIES cfg).

Lemma n_ok : 1 <= N <= MAX_ROB_ENTRIES.
Proof. apply cfg_ok. Qed.

(** Stages that keep the front end, commit nothing and keep the shape of the
    ROB keep the invariant. *)
Lemma pipe_inv_transfer p p' :
  rob_shape (rob p) (rob p') -> same_front p p' -> same_commits p p' ->
  pipe_inv cfg bound p -> pipe_inv cfg bound p'.
Proof.
  intros Sh (F1 & F2 & F3 & F4 & F5) (C1 & C2 & C3)
         (len & Fifo & R0 & Seq & Win & Nx & Fe & L0 & Lb & Bd).
  exists len. rewrite C1, C3, F1, F2, F3, F4, F5.
  split; [apply (rob_shape_fifo Sh Fifo)|].
  repeat (split; [assumption|]). assumption.
Qed.

Lemma back_end_step_inv p p' :
  back_end_step p p' -> pipe_inv cfg bound p -> pipe_inv cfg bound p'.
Proof.
  intros (F & C & _ & _ & _ & G). apply pipe_inv_transfer; auto.
  now apply rob_grows_shape.
Qed.

Lemma exe_step_inv p p' :
  exe_step p p' -> pipe_inv cfg bound p -> pipe_inv cfg bound p'.
Proof.
  intros (F & C & R & _). apply pipe_inv_transfer; auto.
  rewrite R. apply rob_shape_refl.
Qed.

Lemma tick_inv p :
  pipe_inv cfg bound p ->
  pipe_inv cfg bound (set_stat_num_cycle (u64 (stat_num_cycle p + 1)) p).
Proof. intros H. exact H. Qed.

(** *** Commit *)

(** What one iteration of the commit loop does when the head is ready. *)
Lemma commit_lane_fields i p :
  rob_check_head (rob p) = true ->
  let h := inst (entries (rob p) (head_ptr (rob p))) in
  let p' := commit_lane cfg junk i p in
  rob p' = snd (rob_remove_head N junk (rob p))
  /\ stat_retired_inst p' = u64 (stat_retired_inst p + 1)
  /\ retired_seq (events p') = retired_seq (events p) ++ [inst_num h]
  /\ (forall k, lvalid (ID_latch p' k) = lvalid (ID_latch p k)
                /\ linst (ID_latch p' k) = linst (ID_latch p k))
  /\ FE_latch p' = FE_latch p
  /\ trace_fd p' = trace_fd p
  /\ last_inst_num p' = last_inst_num p
  /\ next_inst_num p' = next_inst_num p
  /\ stat_num_cycle p' = stat_num_cycle p.
Proof.
  intros Hh h p'. subst p'. rewrite (commit_lane_ready cfg junk i p Hh).
  fold h. unfold commit_rat, pipe_commit_inst.
  destruct (_ <=? inst_num h); destruct (_ =? dr_tag h); simpl;
    rewrite ?retired_seq_app; simpl; rewrite ?app_nil_r;
    (repeat split; try reflexivity;
     unfold updn; destruct (Nat.eqb_spec k i) as [->|]; reflexivity).
Qed.

Lemma commit_lane_idle i p :
  rob_check_head (rob p) = false -> commit_lane cfg junk i p = p.
Proof. intros H. unfold commit_lane. now rewrite H. Qed.

Lemma commit_lane_inv i p :
  pipe_inv cfg bound p -> pipe_inv cfg bound (commit_lane cfg junk i p).
Proof.
  intros Inv. destruct (rob_check_head (rob p)) eqn:Hh;
    [|now rewrite commit_lane_idle].
  destruct (commit_lane_fields i p Hh)
    as (Er & Es & Ev & Eid & Efe & Etr & Ela & Enx & _).
  cbv zeta in *.
  destruct Inv as (len & Fifo & R0 & Seq & Win & Nx & Fe & L0 & Lb & Bd).
  apply rob_check_head_true in Hh.
  destruct (rob_remove_head_fifo n_ok junk Fifo Hh) as (Hpos & Hnum & Fifo').
  assert (Hlt : stat_retired_inst p + 1 < 2 ^ 64).
  { destruct Win as (Hw & _). lia. }
  rewrite u64_small in Es by lia.
  assert (Hh' : inst_num (inst (entries (rob p) (head_ptr (rob p))))
                = stat_retired_inst p + 1).
  { rewrite (rob_remove_head_ready _ _ _ Hh) in Hnum. exact Hnum. }
  exists (len - 1). rewrite Er, Es, Ev, Efe, Etr, Ela, Enx.
  split; [exact Fifo'|]. split; [lia|]. split.
  { rewrite Seq, Hh'.
    replace (Z.to_nat (stat_retired_inst p + 1))
      with (S (Z.to_nat (stat_retired_inst p))) by lia.
    rewrite count_up_S. do 2 f_equal. lia. }
  split.
  { replace (stat_retired_inst p + 1 + (len - 1))
      with (stat_retired_inst p + len) by lia.
    apply (@id_window_ext _ (ID_latch p)); [|exact Win].
    intros k _. destruct (Eid k) as [A B]. split; congruence. }
  repeat (split; [assumption|]). assumption.
Qed.

Lemma pipe_cycle_commit_inv p :
  pipe_inv cfg bound p -> pipe_inv cfg bound (pipe_cycle_commit cfg junk p).
Proof.
  intros Inv. unfold pipe_cycle_commit.
  apply (@for_lanes_inv Pipeline (fun _ q => pipe_inv cfg bound q));
    [exact Inv|].
  intros i t _. apply commit_lane_inv.
Qed.

(** *** Decode *)

Lemma decode_find_inv count :
  forall j i p,
    (i < W)%nat -> (j + count <= W)%nat ->
    lvalid (ID_latch p i) = false ->
    pipe_inv cfg bound p -> pipe_inv cfg bound (decode_find count j i p).
Proof.
  induction count as [|count IH]; intros j i p Hi Hj Vi Inv; [exact Inv|].
  cbn [decode_find].
  destruct (lvalid (FE_latch p j)
            && (inst_num (linst (FE_latch p j)) =? next_inst_num p)) eqn:Found.
  - apply andb_true_iff in Found. destruct Found as [Vj Ej].
    apply Z.eqb_eq in Ej.
    destruct Inv as (len & Fifo & R0 & Seq & Win & Nx & Fe & L0 & Lb & Bd).
    pose proof (Fe j ltac:(lia) Vj) as Hle.
    assert (Hnext : u64 (next_inst_num p + 1) = next_inst_num p + 1).
    { apply u64_small. destruct Win as (Hw & _).
      destruct Fifo as [(Hlen & _) _]. lia. }
    exists len. simpl. rewrite Hnext.
    split; [exact Fifo|]. split; [exact R0|]. split; [exact Seq|].
    split; [now apply window_push|]. split; [lia|]. split.
    { intros k Hk Vk. unfold updn in Vk.
      destruct (Nat.eqb_spec k j) as [->|D]; [discriminate|].
      rewrite updn_other by exact D. now apply Fe. }
    repeat (split; [assumption|]). assumption.
  - apply IH; auto. lia.
Qed.

Lemma decode_lane_inv i p :
  (i < W)%nat ->
  pipe_inv cfg bound p -> pipe_inv cfg bound (decode_lane cfg i p).
Proof.
  intros Hi Inv. unfold decode_lane.
  destruct (negb (lstall (ID_latch p i)) && negb (lvalid (ID_latch p i)))
    eqn:C; [|exact Inv].
  apply andb_true_iff in C. destruct C as [_ C]. apply negb_true_iff in C.
  apply decode_find_inv; auto.
Qed.

Lemma pipe_cycle_decode_inv p :
  pipe_inv cfg bound p -> pipe_inv cfg bound (pipe_cycle_decode cfg p).
Proof.
  intros Inv. unfold pipe_cycle_decode.
  apply (@for_lanes_inv Pipeline (fun _ q => pipe_inv cfg bound q));
    [exact Inv|].
  intros i t Hi. now apply decode_lane_inv.
Qed.

(** *** Fetch *)

Lemma fetch_error_inv rest i p :
  (length rest <= length (trace_fd p))%nat ->
  pipe_inv cfg bound p -> pipe_inv cfg bound (fetch_error rest i p).
Proof.
  intros Hr (len & Fifo & R0 & Seq & Win & Nx & Fe & L0 & Lb & Bd).
  unfold fetch_error.
  match goal with
  | |- context [if ?c then _ else _] => destruct c
  end; exists len; simpl;
    (split; [exact Fifo|]; split; [exact R0|]; split; [exact Seq|];
     split; [exact Win|]; split; [exact Nx|]; split;
     [ intros k Hk Vk; unfold updn in *;
       destruct (Nat.eqb_spec k i) as [->|D]; [discriminate | now apply Fe]
     | split; [exact L0|]; split; [lia | exact Bd] ]).
Qed.

Lemma pipe_fetch_inst_inv i p :
  pipe_inv cfg bound p -> pipe_inv cfg bound (pipe_fetch_inst cfg p i).
Proof.
  intros Inv. unfold pipe_fetch_inst.
  destruct (trace_fd p) as [|trace_rec rest] eqn:Et.
  - apply fetch_error_inv; [simpl; lia | exact Inv].
  - destruct (NUM_OP_TYPES cfg <=? tr_op_type trace_rec).
    + apply fetch_error_inv; [rewrite Et; simpl; lia | exact Inv].
    + destruct Inv as (len & Fifo & R0 & Seq & Win & Nx & Fe & L0 & Lb & Bd).
      rewrite Et in Lb. simpl length in Lb.
      assert (Hl : u64 (last_inst_num p + 1) = last_inst_num p + 1)
        by (apply u64_small; lia).
      exists len. simpl. rewrite Hl.
      split; [exact Fifo|]. split; [exact R0|]. split; [exact Seq|].
      split; [exact Win|]. split; [lia|]. split.
      { intros k Hk Vk. unfold updn in *.
        destruct (Nat.eqb_spec k i) as [->|D]; [simpl; lia|].
        pose proof (Fe k Hk Vk). lia. }
      split; [lia|]. split; [lia | exact Bd].
Qed.

Lemma pipe_cycle_fetch_inv p :
  pipe_inv cfg bound p -> pipe_inv cfg bound (pipe_cycle_fetch cfg p).
Proof.
  intros Inv. unfold pipe_cycle_fetch.
  apply (@for_lanes_inv Pipeline (fun _ q => pipe_inv cfg bound q));
    [exact Inv|].
  intros i t _ H. unfold fetch_lane.
  destruct (_ && _); [now apply pipe_fetch_inst_inv | exact H].
Qed.

End StageInv.

(** ** The issue stage keeps the invariant *)

Lemma rob_shape_set_at r idx e :
  valid e = valid (entries r idx) ->
  inst_num (inst e) = inst_num (inst (entries r idx)) ->
  rob_shape r (set_entries (upd (entries r) idx e) r).
Proof.
  intros V I. split; [reflexivity|]. split; [reflexivity|].
  intros j. simpl. unfold upd.
  destruct (Z.eqb_spec j idx) as [->|D]; auto.
Qed.

Lemma rename_step_trans p q r :
  rename_step p q -> rename_step q r -> rename_step p r.
Proof.
  intros (a1 & a2 & a3) (b1 & b2 & b3). split; [|split].
  - eapply rob_shape_trans; eauto.
  - eapply same_front_trans; eauto.
  - eapply same_commits_trans; eauto.
Qed.

Lemma rename_src1_step idx q : rename_step q (rename_src1 idx q).
Proof.
  unfold rename_src1. destruct (negb _).
  - split; [|split].
    + simpl. eapply rob_shape_trans.
      * apply (@rob_shape_set_at (rob q) idx
                 (set_inst (set_src1_tag
                              (rat_get_remap (rat q)
                                 (src1_reg (inst (entries (rob q) idx))))
                              (inst (entries (rob q) idx)))
                           (entries (rob q) idx))); reflexivity.
      * apply rob_shape_set_at; simpl; now rewrite upd_same.
    + repeat split.
    + unfold same_commits. simpl. rewrite retired_seq_app. simpl.
      rewrite app_nil_r. auto.
  - split; [apply rob_shape_refl|]. split; [apply same_front_refl|].
    apply same_commits_refl.
Qed.

Lemma rename_src2_step idx q : rename_step q (rename_src2 idx q).
Proof.
  unfold rename_src2. destruct (negb _).
  - split; [|split].
    + simpl. eapply rob_shape_trans.
      * apply (@rob_shape_set_at (rob q) idx
                 (set_inst (set_src2_tag
                              (rat_get_remap (rat q)
                                 (src2_reg (inst (entries (rob q) idx))))
                              (inst (entries (rob q) idx)))
                           (entries (rob q) idx))); reflexivity.
      * apply rob_shape_set_at; simpl; now rewrite upd_same.
    + repeat split.
    + unfold same_commits. simpl. rewrite retired_seq_app. simpl.
      rewrite app_nil_r. auto.
  - split; [apply rob_shape_refl|]. split; [apply same_front_refl|].
    apply same_commits_refl.
Qed.

Lemma rename_dest_step idx q : rename_step q (rename_dest idx q).
Proof.
  unfold rename_dest. destruct (negb _).
  - split; [|split].
    + simpl. apply rob_shape_set_at; reflexivity.
    + repeat split.
    + unfold same_commits. simpl. rewrite retired_seq_app. simpl.
      rewrite app_nil_r. auto.
  - split; [|split].
    + simpl. apply rob_shape_set_at; reflexivity.
    + repeat split.
    + repeat split.
Qed.

Lemma rename_all_step idx q :
  rename_step q (rename_dest idx (rename_src2 idx (rename_src1 idx q))).
Proof.
  eapply rename_step_trans; [apply rename_src1_step|].
  eapply rename_step_trans; [apply rename_src2_step|].
  apply rename_dest_step.
Qed.

Section IssueInv.

Variable cfg : Config.
Variable bound : Z.
Hypothesis cfg_ok : config_ok cfg.

Local Abbreviation W := (PIPE_WIDTH cfg).
Local Abbreviation N := (NUM_ROB_ENTRIES cfg).

(** The iteration that inserts lane [i]. *)
Lemma issue_lane_insert i q :
  lvalid (ID_latch q i) = true ->
  rob_check_space (rob q) = true ->
  tail_ptr (rob q) <> -1 ->
  let x := linst (ID_latch q i) in
  let p2 :=
    set_ID_latch (updn (updn (ID_latch q) i (set_lstall false (ID_latch q i)))
                       i (mkLatch false false x))
                 (set_rob (snd (rob_insert N (rob q) x)) q) in
  let idx := tail_ptr (rob q) in
  issue_lane cfg i (q, false)
  = (rename_dest idx (rename_src2 idx (rename_src1 idx p2)), false).
Proof.
  intros V S T x p2 idx. subst p2. unfold issue_lane.
  assert (Eid : forall t,
            ID_latch (rename_dest idx (rename_src2 idx (rename_src1 idx t)))
            = ID_latch t).
  { intros t. destruct (rename_all_step idx t) as (_ & (_ & E & _) & _).
    exact E. }
  Opaque rename_src1 rename_src2 rename_dest.
  simpl. rewrite !updn_same. simpl. rewrite V, S. simpl.
  unfold rob_insert. rewrite S. fold idx. fold x.
  destruct (Z.eqb_spec idx (-1)) as [E|_]; [contradiction|].
  simpl. f_equal.
  rewrite Eid. simpl. rewrite updn_same. reflexivity.
  Transparent rename_src1 rename_src2 rename_dest.
Qed.

(** An iteration that inserts nothing keeps the loop invariant. *)
Lemma issue_inv_skip p i q prev g b :
  issue_inv cfg p i (q, prev) ->
  (forall k, lvalid (g k) = lvalid (ID_latch q k)
             /\ linst (g k) = linst (ID_latch q k)) ->
  (b = false -> prev = false /\ lvalid (ID_latch q i) = false) ->
  issue_inv cfg p (S i) (set_ID_latch g q, b).
Proof.
  intros (len & Fifo & Win & Sorted & Before & Rest) Same Hb.
  simpl fst in *. simpl snd in *.
  exists len. simpl fst. simpl snd. simpl.
  split; [exact Fifo|]. split; [|split; [|split]].
  - apply (@id_window_ext _ (ID_latch q)); [|exact Win].
    intros k _. destruct (Same k) as [A B]. split; congruence.
  - apply (@lanes_sorted_ext _ (ID_latch q)); [|exact Sorted].
    intros k _. destruct (Same k) as [A B]. congruence.
  - intros Eb k Hk. destruct (Hb Eb) as [Ep Vi].
    destruct (Same k) as [A _]. rewrite A.
    destruct (Nat.eq_dec k i) as [->|D]; [exact Vi|].
    apply Before; [exact Ep | lia].
  - exact Rest.
Qed.

Lemma updn_stall_same f i b k :
  lvalid (updn f i (set_lstall b (f i)) k) = lvalid (f k)
  /\ linst (updn f i (set_lstall b (f i)) k) = linst (f k).
Proof.
  unfold updn. destruct (Nat.eqb_spec k i) as [->|D]; auto.
Qed.

(** One iteration of the lane loop keeps the loop invariant. *)
Lemma issue_lane_inv p i st :
  (i < W)%nat ->
  issue_inv cfg p i st -> issue_inv cfg p (S i) (issue_lane cfg i st).
Proof.
  intros Hi Inv. destruct st as [q prev].
  destruct prev.
  { (* already stalled *)
    unfold issue_lane. simpl. rewrite updn_same. simpl.
    apply (@issue_inv_skip p i q true
             (updn (ID_latch q) i (set_lstall true (ID_latch q i))) true Inv).
    - intros k. apply updn_stall_same.
    - discriminate. }
  destruct (lvalid (ID_latch q i)) eqn:V.
  2: { (* empty lane *)
    unfold issue_lane. simpl. rewrite !updn_same. simpl. rewrite V. simpl.
    apply (@issue_inv_skip p i q false
             (updn (ID_latch q) i (set_lstall false (ID_latch q i))) false Inv).
    - intros k. apply updn_stall_same.
    - auto. }
  destruct (rob_check_space (rob q)) eqn:S.
  2: { (* no space: stall *)
    unfold issue_lane. simpl. rewrite !updn_same. simpl. rewrite V, S. simpl.
    rewrite updn_same. simpl.
    apply (@issue_inv_skip p i q false
             (updn (updn (ID_latch q) i (set_lstall false (ID_latch q i))) i
                   (set_lstall true (set_lstall false (ID_latch q i))))
             true Inv).
    - intros k. unfold updn. destruct (Nat.eqb_spec k i) as [->|D]; auto.
    - discriminate. }
  (* insertion *)
  destruct Inv as (len & Fifo & Win & Sorted & Before & Efe & Etr & Ela & Enx
                   & Com & Hd & Ext).
  simpl fst in *. simpl snd in *.
  pose proof (ring_ptrs (proj2 cfg_ok) (proj1 Fifo)) as [_ Ht].
  rewrite issue_lane_insert by (auto; lia).
  assert (Ex : inst_num (linst (ID_latch q i))
               = stat_retired_inst p + len + 1)
    by (apply (window_first Win Sorted Hi (Before eq_refl) V)).
  destruct (rob_insert_fifo (proj2 cfg_ok) (linst (ID_latch q i)) Fifo S)
    as (_ & _ & Fifo'); [lia|].
  match goal with
  | |- issue_inv _ _ _ (rename_dest ?idx (rename_src2 _ (rename_src1 _ ?p2)), _) =>
      destruct (rename_all_step idx p2)
        as (Sh & (F1 & F2 & F3 & F4 & F5) & (C1 & C2 & C3));
      set (p3 := rename_dest idx (rename_src2 idx (rename_src1 idx p2))) in *
  end.
  cbn [FE_latch ID_latch trace_fd last_inst_num next_inst_num
       stat_retired_inst stat_num_cycle events rob set_ID_latch set_rob]
    in Sh, F1, F2, F3, F4, F5, C1, C2, C3.
  exists (len + 1). simpl fst. simpl snd.
  rewrite F1, F2, F3, F4, F5.
  split; [apply (rob_shape_fifo Sh Fifo')|]. split; [|split; [|split]].
  - replace (stat_retired_inst p + (len + 1))
      with (stat_retired_inst p + len + 1) by lia.
    apply (@window_pop _ (ID_latch q) _ _ _ i Win Hi V Ex).
    + now rewrite updn_same.
    + intros k Hk D. rewrite !updn_other by exact D. auto.
  - apply (@lanes_sorted_ext _ (ID_latch q)); [|exact Sorted].
    intros k _. unfold updn. destruct (Nat.eqb_spec k i) as [->|D]; auto.
  - intros _ k Hk. unfold updn.
    destruct (Nat.eqb_spec k i) as [->|D]; [reflexivity|].
    apply Before; [reflexivity | lia].
  - repeat (split; [assumption|]). split.
    + destruct Com as (A & B & C). repeat split; congruence.
    + destruct Sh as (Sh1 & _ & Sh3).
      unfold rob_insert in Sh1, Sh3. rewrite S in Sh1, Sh3.
      cbn [snd head_ptr entries] in Sh1, Sh3.
      split; [now rewrite Sh1|].
      intros j Vj. destruct (Sh3 j) as [-> _]. unfold upd.
      destruct (j =? tail_ptr (rob q)); [reflexivity | now apply Ext].
Qed.

Lemma pipe_cycle_issue_inv p :
  pipe_inv cfg bound p ->
  pipe_inv cfg bound (pipe_cycle_issue cfg p)
  /\ no_removal p (pipe_cycle_issue cfg p).
Proof.
  intros (len & Fifo & R0 & Seq & Win & Nx & Fe & L0 & Lb & Bd).
  unfold pipe_cycle_issue.
  destruct (@for_lanes_inv (Pipeline * bool) (issue_inv cfg p) W
              (issue_lane cfg)
              (set_ID_latch (issue_sort cfg (ID_latch p)) p, false))
    as (len' & Fifo' & Win' & _ & _ & Efe & Etr & Ela & Enx & (C1 & C2 & C3)
        & Ext).
  - exists len. simpl.
    split; [exact Fifo|]. split; [now apply issue_sort_window|].
    split; [apply issue_sort_sorted|]. split; [intros _ k Hk; lia|].
    repeat split; auto.
  - intros i t Hi. now apply issue_lane_inv.
  - split; [|split; [repeat split; assumption | exact Ext]].
    exists len'. rewrite C1, C3, Efe, Etr, Ela, Enx.
    split; [exact Fifo'|]. repeat (split; [assumption|]). assumption.
Qed.

End IssueInv.

(** ** The whole cycle keeps the invariant *)

Lemma no_removal_refl p : no_removal p p.
Proof. split; [apply same_commits_refl|]. split; auto. Qed.

Lemma no_removal_trans p q r :
  no_removal p q -> no_removal q r -> no_removal p r.
Proof.
  intros [C1 [H1 V1]] [C2 [H2 V2]]. split; [|split].
  - eapply same_commits_trans; eauto.
  - congruence.
  - auto.
Qed.

Lemma back_end_step_no_removal p p' : back_end_step p p' -> no_removal p p'.
Proof.
  intros (_ & C & _ & _ & _ & (H & _ & G)). split; [exact C|].
  split; [exact H|]. intros j Vj. destruct (G j) as [-> _]. exact Vj.
Qed.

Lemma exe_step_no_removal p p' : exe_step p p' -> no_removal p p'.
Proof.
  intros (_ & C & R & _). split; [exact C|]. rewrite R. split; auto.
Qed.

Section Cycle.

Variable cfg : Config.
Variable junk : InstInfo.
Variable bound : Z.
Hypothesis cfg_ok : config_ok cfg.

Lemma decode_find_no_removal count :
  forall j i p, no_removal p (decode_find count j i p).
Proof.
  induction count as [|count IH]; intros j i p; [apply no_removal_refl|].
  cbn [decode_find]. destruct (_ && _); [|apply IH].
  split; [|split]; repeat split; auto.
Qed.

Lemma pipe_cycle_decode_no_removal p :
  no_removal p (pipe_cycle_decode cfg p).
Proof.
  unfold pipe_cycle_decode.
  apply (@for_lanes_inv Pipeline (fun _ q => no_removal p q)).
  - apply no_removal_refl.
  - intros i t _ H. eapply no_removal_trans; [exact H|].
    unfold decode_lane. destruct (_ && _); [|apply no_removal_refl].
    apply decode_find_no_removal.
Qed.

Lemma pipe_cycle_fetch_no_removal p :
  no_removal p (pipe_cycle_fetch cfg p).
Proof.
  unfold pipe_cycle_fetch.
  apply (@for_lanes_inv Pipeline (fun _ q => no_removal p q)).
  - apply no_removal_refl.
  - intros i t _ H. eapply no_removal_trans; [exact H|].
    unfold fetch_lane. destruct (_ && _); [|apply no_removal_refl].
    unfold pipe_fetch_inst, fetch_error.
    destruct (trace_fd t) as [|trace_rec rest].
    + destruct (_ <=? _); split; [|split| |split]; repeat split; auto.
    + destruct (NUM_OP_TYPES cfg <=? _).
      * destruct (_ <=? _); split; [|split| |split]; repeat split; auto.
      * split; [|split]; repeat split; auto.
Qed.

(** One cycle from a state that satisfies the invariant: every loop
    terminates, the invariant holds again, and after the commit stage
    nothing is retired or removed from the ROB. *)
Lemma pipe_cycle_inv p :
  pipe_inv cfg bound p ->
  exists p',
    pipe_cycle cfg junk p = Some p'
    /\ pipe_inv cfg bound p'
    /\ only_commit_removes cfg junk p p'.
Proof.
  intros Inv. unfold pipe_cycle, only_commit_removes.
  set (p1 := pipe_cycle_commit cfg junk
               (set_stat_num_cycle (u64 (stat_num_cycle p + 1)) p)).
  assert (Inv1 : pipe_inv cfg bound p1)
    by (apply pipe_cycle_commit_inv; [exact cfg_ok | exact Inv]).
  pose proof (proj2 cfg_ok) as Hn.
  assert (Ring : forall q, pipe_inv cfg bound q ->
            exists len, rob_ring (NUM_ROB_ENTRIES cfg) (rob q) len).
  { intros q (len & [R _] & _). eauto. }
  destruct (Ring p1 Inv1) as [len1 R1].
  destruct (@pipe_cycle_writeback_spec cfg Hn p1 len1 R1) as [p2 [E2 _]].
  pose proof (@pipe_cycle_writeback_step cfg p1 p2 E2) as B2.
  rewrite E2. cbn [bind].
  assert (Inv2 : pipe_inv cfg bound p2)
    by (eapply back_end_step_inv; eauto).
  pose proof (pipe_cycle_exe_step cfg p2) as B3.
  set (p3 := pipe_cycle_exe cfg p2) in *.
  assert (Inv3 : pipe_inv cfg bound p3) by (eapply exe_step_inv; eauto).
  destruct (Ring p3 Inv3) as [len3 R3].
  destruct (@pipe_cycle_schedule_spec cfg Hn p3 len3 R3) as [p4 [E4 [B4 _]]].
  rewrite E4. cbn [bind].
  assert (Inv4 : pipe_inv cfg bound p4)
    by (eapply back_end_step_inv; eauto).
  destruct (@pipe_cycle_issue_inv cfg bound cfg_ok p4 Inv4) as [Inv5 B5].
  set (p5 := pipe_cycle_issue cfg p4) in *.
  assert (Inv6 : pipe_inv cfg bound (pipe_cycle_decode cfg p5))
    by (apply pipe_cycle_decode_inv; assumption).
  pose proof (pipe_cycle_decode_no_removal p5) as B6.
  set (p6 := pipe_cycle_decode cfg p5) in *.
  eexists. split; [reflexivity|]. split.
  - apply pipe_cycle_fetch_inv; assumption.
  - eapply no_removal_trans; [apply back_end_step_no_removal; exact B2|].
    eapply no_removal_trans; [apply exe_step_no_removal; exact B3|].
    eapply no_removal_trans; [apply back_end_step_no_removal; exact B4|].
    eapply no_removal_trans; [exact B5|].
    eapply no_removal_trans; [exact B6|].
    apply pipe_cycle_fetch_no_removal.
Qed.

Lemma pipe_init_inv around trace :
  Z.of_nat (length trace) + 1 < 2 ^ 64 ->
  pipe_inv cfg (Z.of_nat (length trace)) (pipe_init around trace).
Proof.
  intros Hb. exists 0. unfold pipe_init. simpl.
  split; [apply rob_fifo_init; apply cfg_ok|]. split; [lia|].
  split; [reflexivity|].
  split.
  { split; [lia|]. split; [|split].
    - intros i _ V. discriminate.
    - intros m Hm. lia.
    - intros i j _ _ V. discriminate. }
  split; [lia|]. split; [intros j _ V; discriminate|].
  split; [lia|]. split; [lia | exact Hb].
Qed.

End Cycle.

Lemma cycles_inv cfg junk bound n :
  config_ok cfg ->
  forall p, pipe_inv cfg bound p ->
  exists p', cycles cfg junk n p = Some p' /\ pipe_inv cfg bound p'.
Proof.
  intros Hc. induction n as [|n IH]; intros p Inv.
  - exists p. split; [reflexivity | exact Inv].
  - cbn [cycles].
    destruct (@pipe_cycle_inv cfg junk bound Hc p Inv) as [p1 [E1 [Inv1 _]]].
    rewrite E1. cbn [bind]. now apply IH.
Qed.

Lemma commit_lane_removes_ready_head cfg junk i q :
  commit_removes_ready_head cfg junk i q.
Proof.
  unfold commit_removes_ready_head.
  destruct (valid (entries (rob q) (head_ptr (rob q)))
            && ready (entries (rob q) (head_ptr (rob q)))) eqn:Hr.
  - assert (Hh : rob_check_head (rob q) = true)
      by (now apply rob_check_head_true).
    destruct (commit_lane_fields cfg junk i q Hh) as (Er & _ & Ev & _).
    cbv zeta in Er, Ev. split; [|exact Ev].
    rewrite Er, (rob_remove_head_ready _ _ _ Hr). reflexivity.
  - apply commit_lane_idle.
    destruct (rob_check_head (rob q)) eqn:Hh; [|reflexivity].
    apply rob_check_head_true in Hh. congruence.
Qed.

(** C1. For every configuration in the specified ranges and every trace
    (shorter than the 64-bit instruction counter can count), after any number
    of cycles from the initial state: the run has not run out of fuel in any
    loop, and the instruction numbers of the committed instructions, in
    commit order, are exactly 1, 2, ..., [stat_retired_inst].  The next cycle
    runs too, and in it the stages after commit retire nothing and remove
    nothing from the ROB; an iteration of the commit loop, in any state,
    removes the head slot and retires its instruction when that slot is valid
    and ready, and otherwise does nothing. *)
Theorem commit_order
        (cfg : Config) (junk : InstInfo) (around : Z -> RATEntry)
        (trace : list TraceRec) (n : nat) :
  config_ok cfg ->
  Z.of_nat (length trace) + 1 < 2 ^ 64 ->
  exists p,
    cycles cfg junk n (pipe_init around trace) = Some p
    /\ retired_seq (events p) = count_up (Z.to_nat (stat_retired_inst p))
    /\ (exists p', pipe_cycle cfg junk p = Some p'
                   /\ only_commit_removes cfg junk p p')
    /\ forall i q, commit_removes_ready_head cfg junk i q.
Proof.
  intros Hc Hb.
  destruct (@cycles_inv cfg junk (Z.of_nat (length trace)) n Hc
              (pipe_init around trace)) as [p [E Inv]].
  { now apply pipe_init_inv. }
  exists p. split; [exact E|]. split.
  { destruct Inv as (len & _ & _ & Seq & _). exact Seq. }
  split.
  { destruct (@pipe_cycle_inv cfg junk _ Hc p Inv) as [p' [E' [_ O]]].
    eauto. }
  intros i q. apply commit_lane_removes_ready_head.
Qed.

(** ** Runs of the scenarios *)

Lemma cfg_scalar_ok : config_ok cfg_scalar.
Proof.
  unfold config_ok, cfg_scalar, MAX_PIPE_WIDTH, MAX_ROB_ENTRIES. simpl. lia.
Qed.

(** After six cycles of scenario (b) the log shows I1 written back and I2
    scheduled, both in cycle 6. *)
Lemma scenario_b_cycle_6 :
  exists p,
    cycles cfg_scalar inst_zero 6 (pipe_init around_clear trace_raw) = Some p
    /\ In (EvWriteback 6 inst_I1) (events p)
    /\ In (EvSchedule 6 inst_I2) (events p).
Proof.
  eexists. split; [vm_compute; reflexivity|].
  split; vm_compute; tauto.
Qed.

Lemma inst_I2_depends_on_I1 : depends_on inst_I2 inst_I1.
Proof. left. split; [discriminate | reflexivity]. Qed.

(** C2 (the code departs from the claim).  In scenario (a) the only
    instruction has no destination register ([dest_reg = -1]); when it
    commits, in cycle 7, [pipe_cycle_commit] calls [rat_get_remap] with that
    [-1]: the one RAT index the run uses is outside [0, MAX_ARF_REGS). *)
Theorem commit_indexes_rat_with_sentinel :
  exists p,
    cycles cfg_scalar inst_zero 7 (pipe_init around_clear trace_nop) = Some p
    /\ halt p = true
    /\ stat_retired_inst p = 1
    /\ rat_indices (events p) = [-1]
    /\ ~ Forall (fun a => 0 <= a < MAX_ARF_REGS) (rat_indices (events p)).
Proof.
  eexists. split; [vm_compute; reflexivity|].
  split; [reflexivity|]. split; [reflexivity|]. split; [reflexivity|].
  intros F. inversion F as [|a l Ha _]. lia.
Qed.

(** C3, as claimed, fails: in scenario (b) I2, which reads r1 from I1's tag,
    is scheduled in cycle 6, the cycle in which I1 is written back. *)
Lemma same_cycle_wakeup_happens :
  ~ (forall cfg junk around trace n p,
       config_ok cfg ->
       cycles cfg junk n (pipe_init around trace) = Some p ->
       no_same_cycle_wakeup (events p)).
Proof.
  intros H. destruct scenario_b_cycle_6 as [p [E [Hw Hs]]].
  apply (H cfg_scalar inst_zero around_clear trace_raw 6%nat p
           cfg_scalar_ok E 6 inst_I1 inst_I2 Hw Hs).
  apply inst_I2_depends_on_I1.
Qed.

(** C3, amended.  In every cycle of every run, the schedule stage reads the
    ROB as the writeback stage of the same cycle left it (the execute stage
    in between does not touch the ROB): every finished instruction in the EX
    latches is written back in that cycle, and when the schedule stage runs
    no valid ROB entry whose source tag is that instruction's destination
    tag has the source's ready flag false.  So an instruction whose producer
    is written back in cycle [t] can be scheduled in cycle [t]: in scenario
    (b) I2, which depends on I1, is scheduled in cycle 6, the cycle of I1's
    writeback. *)
Theorem writeback_visible_to_schedule_of_same_cycle
        (cfg : Config) (junk : InstInfo) (around : Z -> RATEntry)
        (trace : list TraceRec) (n : nat) :
  config_ok cfg ->
  Z.of_nat (length trace) + 1 < 2 ^ 64 ->
  (exists p,
     cycles cfg junk n (pipe_init around trace) = Some p
     /\ schedule_sees_writeback cfg junk p)
  /\ (exists p,
        cycles cfg_scalar inst_zero 6 (pipe_init around_clear trace_raw)
        = Some p
        /\ In (EvWriteback 6 inst_I1) (events p)
        /\ In (EvSchedule 6 inst_I2) (events p)
        /\ depends_on inst_I2 inst_I1).
Proof.
  intros Hc Hb. split.
  - destruct (@cycles_inv cfg junk (Z.of_nat (length trace)) n Hc
                (pipe_init around trace)) as [p [E Inv]].
    { now apply pipe_init_inv. }
    exists p. split; [exact E|].
    unfold schedule_sees_writeback.
    set (p1 := pipe_cycle_commit cfg junk
                 (set_stat_num_cycle (u64 (stat_num_cycle p + 1)) p)).
    assert (Inv1 : pipe_inv cfg (Z.of_nat (length trace)) p1)
      by (apply pipe_cycle_commit_inv; [exact Hc | exact Inv]).
    pose proof (proj2 Hc) as Hn.
    destruct Inv1 as (len1 & [R1 F1] & Rest1).
    destruct (@pipe_cycle_writeback_spec cfg Hn p1 len1 R1)
      as [p2 [E2 [G2 W2]]].
    pose proof (pipe_cycle_exe_step cfg p2) as (_ & _ & Er & _).
    assert (R3 : rob_ring (NUM_ROB_ENTRIES cfg)
                          (rob (pipe_cycle_exe cfg p2)) len1).
    { rewrite Er. eapply rob_grows_ring; eauto. }
    destruct (@pipe_cycle_schedule_spec cfg Hn _ len1 R3) as [p4 [E4 _]].
    exists p2, p4. split; [exact E2|]. split; [exact E4|]. split.
    { unfold pipe_cycle. fold p1. rewrite E2. cbn [bind]. rewrite E4.
      reflexivity. }
    split; [exact Er|].
    intros i Hi S V. split.
    + now apply (pipe_cycle_writeback_log cfg p1 E2).
    + rewrite Er. now apply W2.
  - destruct scenario_b_cycle_6 as [p [E [Hw Hs]]].
    exists p. repeat split; try assumption. apply inst_I2_depends_on_I1.
Qed.

(** C4, as claimed, fails: after 8 cycles of scenario (b) the pipeline has
    not halted. *)
Lemma scenario_b_is_not_8_cycles : ~ scenario_b_outcome 8 1.
Proof.
  intros (p & E & H & _).
  assert (F : option_map halt
                (cycles cfg_scalar inst_zero 8
                   (pipe_init around_clear trace_raw)) = Some false)
    by (vm_compute; reflexivity).
  rewrite E in F. simpl in F. congruence.
Qed.

(** Before its ninth cycle scenario (b) has not halted. *)
Lemma scenario_b_runs_on junk around m q :
  (m < 9)%nat ->
  cycles cfg_scalar junk m (pipe_init around trace_raw) = Some q ->
  halt q = false.
Proof.
  intros Hm E.
  assert (F : option_map halt
                (cycles cfg_scalar junk m (pipe_init around trace_raw))
              = Some false).
  { do 9 (destruct m as [|m]; [vm_compute; reflexivity|]). lia. }
  rewrite E in F. simpl in F. congruence.
Qed.

(** C4, amended.  In scenario (b) the halt flag is set for the first time at
    the end of cycle 9, with exactly 2 instructions retired (numbers 1 and
    2), and I2 is scheduled in cycle 6, the very cycle of I1's writeback —
    whatever the memory next to the RAT holds ([cell] at index -1, [rest]
    elsewhere) and whatever an uninitialised local holds. *)
Theorem scenario_b_runs_9_cycles
        (junk : InstInfo) (cell : RATEntry) (rest : Z -> RATEntry) :
  let around := fun i => if i =? -1 then cell else rest i in
  (exists p,
     cycles cfg_scalar junk 9 (pipe_init around trace_raw) = Some p
     /\ halt p = true
     /\ (forall m q, (m < 9)%nat ->
           cycles cfg_scalar junk m (pipe_init around trace_raw) = Some q ->
           halt q = false)
     /\ stat_retired_inst p = 2
     /\ stat_num_cycle p = 9
     /\ retired_seq (events p) = [1; 2]
     /\ written_back_in (events p) 1 6
     /\ scheduled_in (events p) 2 6)
  /\ scenario_b_outcome 9 0.
Proof.
  intros around. split.
  - subst around. destruct cell as [v pid].
    destruct v; [destruct pid as [|[q|q|]|q]|].
    all: eexists; split; [vm_compute; reflexivity|].
    all: split; [reflexivity|].
    all: split; [intros m q' Hm E; exact (scenario_b_runs_on _ _ Hm E)|].
    all: split; [reflexivity|]; split; [reflexivity|]; split; [reflexivity|].
    all: split; [exists inst_I1 | exists inst_I2];
      (split; [vm_compute; tauto | reflexivity]).
  - eexists. split; [vm_compute; reflexivity|].
    split; [reflexivity|].
    split; [intros m q Hm E; exact (scenario_b_runs_on _ _ Hm E)|].
    split; [reflexivity|]. split; [reflexivity|]. exists 6.
    split; [exists inst_I1 | exists inst_I2];
      (split; [vm_compute; tauto | reflexivity]).
Qed.

(** ** The theorems at concrete inputs *)

Lemma commit_order_witness :
  exists p,
    cycles cfg_scalar inst_zero 9 (pipe_init around_clear trace_raw) = Some p
    /\ retired_seq (events p) = count_up (Z.to_nat (stat_retired_inst p))
    /\ (exists p', pipe_cycle cfg_scalar inst_zero p = Some p'
                   /\ only_commit_removes cfg_scalar inst_zero p p')
    /\ forall i q, commit_removes_ready_head cfg_scalar inst_zero i q.
Proof.
  apply (@commit_order cfg_scalar inst_zero around_clear trace_raw 9).
  - unfold config_ok, MAX_PIPE_WIDTH, MAX_ROB_ENTRIES. simpl. lia.
  - vm_compute. reflexivity.
Defined.

Lemma writeback_visible_to_schedule_of_same_cycle_witness :
  exists p,
    cycles cfg_scalar inst_zero 5 (pipe_init around_clear trace_raw) = Some p
    /\ schedule_sees_writeback cfg_scalar inst_zero p.
Proof.
  apply (@writeback_visible_to_schedule_of_same_cycle
           cfg_scalar inst_zero around_clear trace_raw 5).
  - unfold config_ok, MAX_PIPE_WIDTH, MAX_ROB_ENTRIES. simpl. lia.
  - vm_compute. reflexivity.
Defined.

Lemma rob_two_ring : rob_ring 4 rob_two 2.
Proof.
  unfold rob_ring, rob_two. simpl.
  split; [lia|]. split; [lia|]. split; [reflexivity|]. split.
  - intros k Hk. assert (k = 0 \/ k = 1) as [->| ->] by lia; reflexivity.
  - intros j V. unfold upd in V.
    destruct (Z.eqb_spec j 1) as [E1|D1];
      [exists 1; split; [lia | rewrite E1; reflexivity]|].
    destruct (Z.eqb_spec j 0) as [E0|D0];
      [exists 0; split; [lia | rewrite E0; reflexivity]|].
    discriminate.
Defined.

Lemma wakeup_totality_witness :
  exists p',
    pipe_cycle_writeback cfg_scalar state_writeback = Some p'
    /\ woken (rob p') 0.
Proof.
  destruct (@wakeup_totality cfg_scalar state_writeback 2 0)
    as (_ & _ & _ & _ & _ & p' & E & Wk).
  - unfold MAX_ROB_ENTRIES. simpl. lia.
  - exact rob_two_ring.
  - exists p'. split; [exact E|].
    apply (Wk 0%nat); [unfold MAX_WRITEBACKS; lia | reflexivity | reflexivity].
Defined.

Lemma commit_resets_rat_iff_aliased_witness :
  rat_get_remap
    (rat (commit_lane cfg_scalar inst_zero 0 (after cfg_scalar 6 trace_raw)))
    1 = -1.
Proof.
  destruct (@commit_resets_rat_iff_aliased cfg_scalar inst_zero 0
              (after cfg_scalar 6 trace_raw)) as [A _].
  - vm_compute. reflexivity.
  - vm_compute. split; [discriminate | reflexivity].
  - vm_compute. discriminate.
  - apply A. vm_compute. split; reflexivity.
Defined.

Lemma issue_stall_monotone_witness :
  lstall (ID_latch (pipe_cycle_issue cfg_narrow state_two_decoded) 1) = true.
Proof.
  destruct (@issue_stall_monotone cfg_narrow state_two_decoded 1)
    as (_ & A & _).
  - simpl. lia.
  - vm_compute. reflexivity.
  - vm_compute. reflexivity.
  - vm_compute. reflexivity.
  - rewrite (A 1%nat); [reflexivity | simpl; lia].
Defined.

(** * Further properties of the code *)

(** ** The RAT as a map from registers to tags *)

(** X1. [rat_get_remap] reads back what [rat_set_remap] stored last for the
    same register, a later [rat_set_remap] replaces an alias,
    [rat_reset_entry] makes the register read as unaliased ([-1]), neither
    writer disturbs another register, and after [rat_init] every
    architectural register is unaliased. *)
Theorem rat_remap_round_trip
        (t : RAT) (around : Z -> RATEntry) (a b c tag tag' : Z) :
  b <> a ->
  0 <= c < MAX_ARF_REGS ->
  rat_get_remap (rat_set_remap t a tag) a = tag
  /\ rat_get_remap (rat_set_remap (rat_set_remap t a tag) a tag') a = tag'
  /\ rat_get_remap (rat_reset_entry (rat_set_remap t a tag) a) a = -1
  /\ rat_get_remap (rat_set_remap t a tag) b = rat_get_remap t b
  /\ rat_get_remap (rat_reset_entry t a) b = rat_get_remap t b
  /\ rat_get_remap (rat_init around) c = -1.
Proof.
  intros Hb Hc. unfold rat_get_remap, rat_set_remap, rat_reset_entry. simpl.
  rewrite !upd_same. simpl. rewrite !upd_other by exact Hb.
  repeat split; try reflexivity.
  unfold MAX_ARF_REGS in *.
  destruct (Z.leb_spec 0 c); [|lia]. destruct (Z.ltb_spec c 32); [|lia].
  reflexivity.
Qed.

Lemma rat_remap_round_trip_witness :
  rat_get_remap (rat_set_remap (rat_init around_clear) 3 7) 3 = 7
  /\ rat_get_remap (rat_set_remap (rat_init around_clear) 3 7) 4 = -1.
Proof.
  destruct (@rat_remap_round_trip (rat_init around_clear) around_clear
              3 4 5 7 9) as (A & _ & _ & B & _).
  - lia.
  - unfold MAX_ARF_REGS. lia.
  - split; [exact A|]. rewrite B. reflexivity.
Defined.

(** ** The ROB as a bounded FIFO *)

Section RobQueue.

Variable n : Z.
Hypothesis n_range : 1 <= n <= MAX_ROB_ENTRIES.

Lemma rob_contents_ext r r' len :
  head_ptr r' = head_ptr r ->
  (forall k, 0 <= k < len ->
     inst (entries r' ((head_ptr r + k) mod n))
     = inst (entries r ((head_ptr r + k) mod n))) ->
  rob_contents n r' len = rob_contents n r len.
Proof.
  intros H E. unfold rob_contents. rewrite H. apply map_ext_in.
  intros k Hk. apply in_seq in Hk. apply E. lia.
Qed.

Lemma rob_insert_ring r len x :
  rob_ring n r len -> len < n ->
  rob_insert n r x
  = (tail_ptr r,
     mkROB (upd (entries r) (tail_ptr r) (mkROBEntry true false false x))
           (head_ptr r) ((tail_ptr r + 1) mod n))
  /\ 0 <= tail_ptr r < n
  /\ rob_ring n (snd (rob_insert n r x)) (len + 1)
  /\ rob_contents n (snd (rob_insert n r x)) (len + 1)
     = rob_contents n r len ++ [x].
Proof.
  intros R Hlt.
  assert (Hs : rob_check_space r = true)
    by (now apply (check_space_ring n_range R)).
  pose proof R as (Hl & Hh & Et & Hv & Hi).
  pose proof (ring_ptrs n_range R) as [_ Ht].
  unfold rob_insert. rewrite Hs. simpl fst. simpl snd.
  rewrite (next_slot n_range) by exact Ht.
  assert (Other : forall k, 0 <= k < len ->
            (head_ptr r + k) mod n <> tail_ptr r).
  { intros k Hk E. rewrite Et in E. apply (slot_inj n_range) in E; lia. }
  split; [reflexivity|]. split; [exact Ht|]. split.
  - unfold rob_ring. simpl.
    split; [lia|]. split; [lia|]. split; [|split].
    + rewrite Et, slot_succ by exact n_range. reflexivity.
    + intros k Hk. destruct (Z.eq_dec k len) as [->|D].
      * rewrite <- Et, upd_same. reflexivity.
      * rewrite upd_other by (apply Other; lia). apply Hv. lia.
    + intros j Vj. unfold upd in Vj.
      destruct (Z.eqb_spec j (tail_ptr r)) as [E0|D].
      * exists len. split; [lia | now rewrite E0].
      * destruct (Hi j Vj) as [k [Hk ->]]. exists k. split; [lia|reflexivity].
  - unfold rob_contents. simpl head_ptr. simpl entries.
    replace (Z.to_nat (len + 1)) with (S (Z.to_nat len)) by lia.
    rewrite seq_S, map_app. simpl. f_equal.
    + apply map_ext_in. intros k Hk. apply in_seq in Hk.
      rewrite upd_other by (apply Other; lia). reflexivity.
    + rewrite Z2Nat.id by lia. rewrite <- Et, upd_same. reflexivity.
Qed.

Lemma rob_remove_head_ring junk r len :
  rob_ring n r len ->
  rob_check_head r = true ->
  0 < len
  /\ rob_ring n (snd (rob_remove_head n junk r)) (len - 1)
  /\ rob_contents n r len
     = fst (rob_remove_head n junk r)
       :: rob_contents n (snd (rob_remove_head n junk r)) (len - 1).
Proof.
  intros R Hc. apply rob_check_head_true in Hc.
  pose proof R as (Hl & Hh & Et & Hv & Hi).
  assert (Hpos : 0 < len).
  { apply (ring_head_valid R). apply andb_true_iff in Hc. tauto. }
  rewrite (rob_remove_head_ready _ _ _ Hc). simpl fst. simpl snd.
  rewrite (next_slot n_range) by exact Hh.
  assert (Other : forall k, 0 <= k < len - 1 ->
            (head_ptr r + (k + 1)) mod n <> head_ptr r).
  { intros k Hk E.
    rewrite <- (Z.mod_small (head_ptr r) n) in E at 2 by exact Hh.
    rewrite <- (Z.add_0_r (head_ptr r)) in E at 2.
    apply (slot_inj n_range) in E; lia. }
  split; [exact Hpos|]. split.
  - unfold rob_ring. simpl.
    split; [lia|]. split; [apply Z.mod_pos_bound; lia|].
    split; [|split].
    + rewrite (slot_shift n_range), Et. f_equal. lia.
    + intros k Hk. rewrite (slot_shift n_range).
      rewrite upd_other by (now apply Other). apply Hv. lia.
    + intros j Vj. unfold upd in Vj.
      destruct (Z.eqb_spec j (head_ptr r)) as [E0|D]; [discriminate|].
      destruct (Hi j Vj) as [k [Hk ->]].
      assert (k <> 0).
      { intros ->. apply D. rewrite Z.add_0_r. now apply Z.mod_small. }
      exists (k - 1). split; [lia|]. rewrite (slot_shift n_range).
      f_equal. lia.
  - unfold rob_contents. simpl head_ptr. simpl entries.
    replace (Z.to_nat len) with (S (Z.to_nat (len - 1))) by lia.
    cbn [seq map]. f_equal.
    + simpl Z.of_nat. rewrite Z.add_0_r, Z.mod_small by exact Hh.
      reflexivity.
    + rewrite <- seq_shift, map_map. apply map_ext_in.
      intros k Hk. apply in_seq in Hk.
      rewrite (slot_shift n_range).
      rewrite upd_other by (apply Other; lia).
      do 3 f_equal. lia.
Qed.

End RobQueue.

(** X2. On a ring of [len < NUM_ROB_ENTRIES] instructions [rob_insert]
    returns the old tail index, which lies in [0, NUM_ROB_ENTRIES), and leaves
    a ring of [len + 1] instructions whose contents are the old ones followed
    by the new instruction: insertion is at the back of the queue. *)
Theorem rob_insert_appends (n : Z) (r : ROB) (len : Z) (x : InstInfo) :
  1 <= n <= MAX_ROB_ENTRIES ->
  rob_ring n r len ->
  len < n ->
  fst (rob_insert n r x) = tail_ptr r
  /\ 0 <= fst (rob_insert n r x) < n
  /\ rob_ring n (snd (rob_insert n r x)) (len + 1)
  /\ rob_contents n (snd (rob_insert n r x)) (len + 1)
     = rob_contents n r len ++ [x].
Proof.
  intros Hn R Hlt. destruct (rob_insert_ring Hn x R Hlt) as (E & Ht & R' & C).
  rewrite E in *. simpl fst. auto.
Qed.

Lemma rob_insert_appends_witness :
  rob_contents 4 (snd (rob_insert 4 rob_two (fetched 3))) 3
  = rob_contents 4 rob_two 2 ++ [fetched 3].
Proof.
  destruct (@rob_insert_appends 4 rob_two 2 (fetched 3)) as (_ & _ & _ & C).
  - unfold MAX_ROB_ENTRIES. lia.
  - exact rob_two_ring.
  - lia.
  - exact C.
Defined.

(** X3. When the head of a ring is ready, [rob_remove_head] returns the
    oldest instruction of the queue and leaves a ring holding the remaining
    ones in the same order: removal is from the front, so the ROB hands
    instructions back in the order [rob_insert] received them. *)
Theorem rob_remove_head_takes_oldest
        (n : Z) (junk : InstInfo) (r : ROB) (len : Z) :
  1 <= n <= MAX_ROB_ENTRIES ->
  rob_ring n r len ->
  rob_check_head r = true ->
  0 < len
  /\ rob_ring n (snd (rob_remove_head n junk r)) (len - 1)
  /\ rob_contents n r len
     = fst (rob_remove_head n junk r)
       :: rob_contents n (snd (rob_remove_head n junk r)) (len - 1).
Proof.
  intros Hn R Hc. now apply rob_remove_head_ring.
Qed.

Lemma rob_remove_head_takes_oldest_witness :
  rob_contents 4 (rob_mark_ready rob_two inst_I1) 2
  = fst (rob_remove_head 4 inst_zero (rob_mark_ready rob_two inst_I1))
    :: rob_contents 4
         (snd (rob_remove_head 4 inst_zero (rob_mark_ready rob_two inst_I1)))
         (2 - 1).
Proof.
  destruct (@rob_remove_head_takes_oldest 4 inst_zero
              (rob_mark_ready rob_two inst_I1) 2) as (_ & _ & C).
  - unfold MAX_ROB_ENTRIES. lia.
  - exact (rob_grows_ring (rob_mark_ready_grows rob_two inst_I1) rob_two_ring).
  - reflexivity.
  - exact C.
Defined.

Lemma woken_inst_of_valid tag e :
  valid e = true -> inst (woken_slot tag e) = woken_inst tag (inst e).
Proof.
  intros V. unfold woken_inst, woken_slot. simpl. rewrite V. reflexivity.
Qed.

(** X4. The flag operations never move, add or drop an instruction.  On a
    ring, [rob_mark_exec] and [rob_mark_ready] leave a ring with the same
    contents; after [rob_mark_ready] the marked slot passes
    [rob_check_ready] exactly when it is valid, and the answer for every
    other slot is unchanged.  [rob_wakeup] terminates and leaves a ring of the
    same length in which each instruction differs from the old one only by
    the source-ready flags the broadcast sets. *)
Theorem rob_flag_operations_keep_queue
        (n : Z) (r : ROB) (len : Z) (x : InstInfo) (tag other : Z) :
  1 <= n <= MAX_ROB_ENTRIES ->
  rob_ring n r len ->
  other <> dr_tag x ->
  rob_ring n (rob_mark_exec r x) len
  /\ rob_contents n (rob_mark_exec r x) len = rob_contents n r len
  /\ rob_ring n (rob_mark_ready r x) len
  /\ rob_contents n (rob_mark_ready r x) len = rob_contents n r len
  /\ rob_check_ready (rob_mark_ready r x) (dr_tag x)
     = valid (entries r (dr_tag x))
  /\ rob_check_ready (rob_mark_ready r x) other = rob_check_ready r other
  /\ exists r',
       rob_wakeup n r tag = Some r'
       /\ rob_ring n r' len
       /\ rob_contents n r' len = map (woken_inst tag) (rob_contents n r len).
Proof.
  intros Hn R Ho.
  assert (Same : forall f,
            (forall e, inst (f e) = inst e) ->
            rob_contents n
              (set_entries (upd (entries r) (dr_tag x)
                                (f (entries r (dr_tag x)))) r) len
            = rob_contents n r len).
  { intros f Hf. apply rob_contents_ext; [reflexivity|].
    intros k Hk. simpl. unfold upd.
    destruct (Z.eqb_spec ((head_ptr r + k) mod n) (dr_tag x)) as [E|D];
      [rewrite Hf, E|]; reflexivity. }
  split; [exact (rob_grows_ring (rob_mark_exec_grows r x) R)|].
  split; [apply (Same (set_exec true)); reflexivity|].
  split; [exact (rob_grows_ring (rob_mark_ready_grows r x) R)|].
  split; [apply (Same (set_ready true)); reflexivity|].
  split.
  { unfold rob_check_ready, rob_mark_ready. simpl. rewrite upd_same. simpl.
    destruct (valid (entries r (dr_tag x))); reflexivity. }
  split.
  { unfold rob_check_ready, rob_mark_ready. simpl.
    rewrite upd_other by exact Ho. reflexivity. }
  destruct (rob_wakeup_spec Hn tag R) as [r' [E [Hh [Ht [Hv Hi]]]]].
  exists r'. split; [exact E|].
  split; [exact (@rob_wakeup_ring n Hn r r' len tag R E)|].
  unfold rob_contents. rewrite Hh, map_map. apply map_ext_in.
  intros k Hk. apply in_seq in Hk.
  destruct R as (_ & _ & _ & Hval & _).
  assert (V : valid (entries r ((head_ptr r + Z.of_nat k) mod n)) = true)
    by (apply Hval; lia).
  rewrite (Hv _ V). now apply woken_inst_of_valid.
Qed.

Lemma rob_flag_operations_keep_queue_witness :
  exists r',
    rob_wakeup 4 rob_two 0 = Some r'
    /\ rob_ring 4 r' 2
    /\ rob_contents 4 r' 2 = map (woken_inst 0) (rob_contents 4 rob_two 2).
Proof.
  destruct (@rob_flag_operations_keep_queue 4 rob_two 2 inst_I1 0 1)
    as (_ & _ & _ & _ & _ & _ & W).
  - unfold MAX_ROB_ENTRIES. lia.
  - exact rob_two_ring.
  - discriminate.
  - exact W.
Defined.

(** ** An EXEQ overflow ends the run *)

Section Overflow.

Variable cfg : Config.
Variable junk : InstInfo.
Hypothesis n_range : 1 <= NUM_ROB_ENTRIES cfg <= MAX_ROB_ENTRIES.

Local Abbreviation N := (NUM_ROB_ENTRIES cfg).





End Overflow.



(** ** The sort at the top of the issue stage *)

Lemma lane_perm_refl w f : lane_perm w f f.
Proof.
  exists (fun i => i), (fun i => i). repeat split; auto.
Qed.

Lemma lane_perm_swap w f g j :
  (S j < w)%nat -> lane_perm w f g -> lane_perm w f (swap_latches g j).
Proof.
  intros Hj (s & t & Hst & Hs & Hout).
  exists (fun i => s (swapped j i)), (fun i => swapped j (t i)).
  split; [|split].
  - intros i Hi.
    destruct (Hst i Hi) as (A & B & C & D).
    destruct (Hst (swapped j i) (swapped_lt Hj Hi)) as (A' & B' & C' & D').
    split; [exact A'|]. split; [now apply swapped_lt|].
    split.
    + rewrite swapped_invol. exact C.
    + rewrite D'. apply swapped_invol.
  - intros i Hi. rewrite swapped_spec. apply Hs. now apply swapped_lt.
  - intros i Hi. rewrite swapped_spec.
    assert (E : swapped j i = i).
    { unfold swapped. destruct (Nat.eqb_spec i j); [lia|].
      destruct (Nat.eqb_spec i (S j)); [lia|]. reflexivity. }
    rewrite E. now apply Hout.
Qed.

Lemma lane_perm_sort_inner w f g j :
  (S j < w)%nat -> lane_perm w f g -> lane_perm w f (sort_inner j g).
Proof.
  intros Hj H. unfold sort_inner.
  destruct (_ >? _); [now apply lane_perm_swap | exact H].
Qed.

Lemma issue_sort_perm cfg f :
  lane_perm (PIPE_WIDTH cfg) f (issue_sort cfg f).
Proof.
  unfold issue_sort.
  apply (@for_lanes_inv (nat -> PipelineLatch)
           (fun _ g => lane_perm (PIPE_WIDTH cfg) f g));
    [apply lane_perm_refl|].
  intros i g Hi Hg. unfold sort_outer.
  apply (@for_lanes_inv (nat -> PipelineLatch)
           (fun _ h => lane_perm (PIPE_WIDTH cfg) f h)); [exact Hg|].
  intros j h Hj Hh. apply lane_perm_sort_inner; [lia | exact Hh].
Qed.

(** X5. The bubble sort at the top of [pipe_cycle_issue] leaves the first
    [PIPE_WIDTH] ID latches in ascending order of instruction number and is a
    rearrangement of those latches: each latch of the result is a latch of
    the input and the other way round, whole (valid flag, stall flag and
    instruction move together), and the latches from [PIPE_WIDTH] on are not
    touched.  The order is by instruction number alone: the valid flag plays
    no part in it. *)
Theorem issue_sort_sorts (cfg : Config) (f : nat -> PipelineLatch) :
  (1 <= PIPE_WIDTH cfg)%nat ->
  lanes_sorted (PIPE_WIDTH cfg) (issue_sort cfg f)
  /\ lane_perm (PIPE_WIDTH cfg) f (issue_sort cfg f).
Proof.
  intros _. split; [apply issue_sort_sorted | apply issue_sort_perm].
Qed.

Lemma issue_sort_sorts_witness :
  lanes_sorted 2
    (issue_sort cfg_narrow
       (updn (updn (fun _ => latch_zero) 0%nat (mkLatch true false (fetched 7)))
             1%nat (mkLatch false false (fetched 3))))
  /\ inst_num
       (linst
          (issue_sort cfg_narrow
             (updn (updn (fun _ => latch_zero) 0%nat
                         (mkLatch true false (fetched 7)))
                   1%nat (mkLatch false false (fetched 3))) 0%nat)) = 3.
Proof.
  split.
  - apply (@issue_sort_sorts cfg_narrow
             (updn (updn (fun _ => latch_zero) 0%nat
                         (mkLatch true false (fetched 7)))
                   1%nat (mkLatch false false (fetched 3)))).
    simpl. lia.
  - reflexivity.
Defined.

(** ** The halt flag over a cycle *)

Lemma commit_lane_keeps_halt cfg junk i p :
  halt p = true -> halt (commit_lane cfg junk i p) = true.
Proof.
  intros H. unfold commit_lane. destruct (rob_check_head (rob p)); [|exact H].
  destruct (rob_remove_head (NUM_ROB_ENTRIES cfg) junk (rob p)) as [x r1].
  unfold commit_rat, pipe_commit_inst. cbn.
  destruct (halt_inst_num p <=? inst_num x); cbn;
    destruct (_ =? dr_tag x); cbn; auto.
Qed.

Lemma pipe_cycle_commit_keeps_halt cfg junk p :
  halt p = true -> halt (pipe_cycle_commit cfg junk p) = true.
Proof.
  intros H. unfold pipe_cycle_commit.
  apply (@for_lanes_inv Pipeline (fun _ q => halt q = true)); [exact H|].
  intros i t _. apply commit_lane_keeps_halt.
Qed.

Lemma pipe_cycle_keeps_halt cfg junk p p' :
  halt p = true -> pipe_cycle cfg junk p = Some p' -> halt p' = true.
Proof.
  intros H E. unfold pipe_cycle in E.
  set (p1 := pipe_cycle_commit cfg junk
               (set_stat_num_cycle (u64 (stat_num_cycle p + 1)) p)) in E.
  assert (H1 : halt p1 = true)
    by (apply pipe_cycle_commit_keeps_halt; exact H).
  destruct (pipe_cycle_writeback cfg p1) as [p2|] eqn:E2; [|discriminate].
  cbn [bind] in E.
  destruct (pipe_cycle_writeback_step cfg p1 E2) as (_ & _ & Hh & _).
  destruct (pipe_cycle_exe_step cfg p2) as (_ & _ & _ & _ & _ & Hx).
  destruct (pipe_cycle_schedule cfg (pipe_cycle_exe cfg p2)) as [p4|] eqn:E4;
    [|discriminate].
  cbn [bind] in E. inversion E; subst p'.
  apply (halt_after_exe cfg (pipe_cycle_exe cfg p2)); [|exact E4].
  apply Hx. congruence.
Qed.

(** X6. No stage clears the halt flag: once it is set, it is still set after
    any number of further calls of [pipe_cycle], under every configuration
    and from every state. *)
Theorem halt_is_sticky
        (cfg : Config) (junk : InstInfo) (n : nat) (p p' : Pipeline) :
  halt p = true -> cycles cfg junk n p = Some p' -> halt p' = true.
Proof.
  revert p. induction n as [|n IH]; intros p H E.
  - cbn [cycles] in E. inversion E; subst. exact H.
  - cbn [cycles] in E.
    destruct (pipe_cycle cfg junk p) as [p1|] eqn:E1; [|discriminate].
    cbn [bind] in E. apply (IH p1); [|exact E].
    eapply pipe_cycle_keeps_halt; eauto.
Qed.

Lemma halt_is_sticky_witness :
  halt (after cfg_scalar 9 trace_nop) = true.
Proof.
  apply (@halt_is_sticky cfg_scalar inst_zero 2
           (after cfg_scalar 7 trace_nop) (after cfg_scalar 9 trace_nop)).
  - vm_compute. reflexivity.
  - vm_compute. reflexivity.
Defined.

(** ** Counters of a run *)

Lemma pipe_inv_retired_small cfg bound p :
  pipe_inv cfg bound p ->
  0 <= stat_retired_inst p /\ stat_retired_inst p + 1 < 2 ^ 64
  /\ stat_retired_inst p <= last_inst_num p <= bound.
Proof.
  intros (len & ((Hl & _) & _) & R0 & _ & (Hw & _) & Nx & _ & L0 & Lb & Bd).
  lia.
Qed.

Lemma pipe_cycle_commit_count cfg junk bound p :
  config_ok cfg -> pipe_inv cfg bound p ->
  let p1 := pipe_cycle_commit cfg junk p in
  stat_retired_inst p <= stat_retired_inst p1
                      <= stat_retired_inst p + Z.of_nat (PIPE_WIDTH cfg)
  /\ stat_num_cycle p1 = stat_num_cycle p.
Proof.
  intros Hc Inv p1. subst p1. unfold pipe_cycle_commit.
  apply (@for_lanes_inv Pipeline
           (fun i q => pipe_inv cfg bound q
                       /\ stat_retired_inst p <= stat_retired_inst q
                                              <= stat_retired_inst p + Z.of_nat i
                       /\ stat_num_cycle q = stat_num_cycle p)).
  - split; [exact Inv|]. split; [cbn; lia | reflexivity].
  - intros i t _ (It & Ht & Ct).
    split; [now apply commit_lane_inv|].
    destruct (rob_check_head (rob t)) eqn:Hh.
    + destruct (commit_lane_fields cfg junk i t Hh)
        as (_ & Es & _ & _ & _ & _ & _ & _ & Ec).
      cbv zeta in Es, Ec.
      destruct (pipe_inv_retired_small It) as (A & B & _).
      rewrite u64_small in Es by lia. rewrite Es, Ec. split; [lia | exact Ct].
    + rewrite commit_lane_idle by exact Hh. split; [lia | exact Ct].
Qed.

Lemma pipe_cycle_counters cfg junk bound p :
  config_ok cfg -> pipe_inv cfg bound p ->
  exists p',
    pipe_cycle cfg junk p = Some p'
    /\ pipe_inv cfg bound p'
    /\ stat_num_cycle p' = u64 (stat_num_cycle p + 1)
    /\ stat_retired_inst p <= stat_retired_inst p'
                           <= stat_retired_inst p + Z.of_nat (PIPE_WIDTH cfg).
Proof.
  intros Hc Inv.
  destruct (@pipe_cycle_inv cfg junk bound Hc p Inv)
    as (p' & E & Inv' & (Sr & Sc & _) & _).
  exists p'. split; [exact E|]. split; [exact Inv'|].
  destruct (@pipe_cycle_commit_count cfg junk bound
              (set_stat_num_cycle (u64 (stat_num_cycle p + 1)) p) Hc Inv)
    as (A & B).
  cbv zeta in A, B. rewrite Sr, Sc, B. split; [reflexivity | exact A].
Qed.

Lemma u64_succ z : u64 (u64 z + 1) = u64 (z + 1).
Proof. unfold u64. rewrite Zplus_mod_idemp_l. reflexivity. Qed.

Lemma cycles_counters cfg junk bound n :
  config_ok cfg ->
  forall p, pipe_inv cfg bound p ->
  0 <= stat_num_cycle p < 2 ^ 64 ->
  exists p',
    cycles cfg junk n p = Some p'
    /\ pipe_inv cfg bound p'
    /\ stat_num_cycle p' = u64 (stat_num_cycle p + Z.of_nat n)
    /\ stat_retired_inst p <= stat_retired_inst p'
       <= stat_retired_inst p + Z.of_nat n * Z.of_nat (PIPE_WIDTH cfg).
Proof.
  intros Hc. induction n as [|n IH]; intros p Inv Hr.
  - exists p. split; [reflexivity|]. split; [exact Inv|].
    split; [|lia]. rewrite Z.add_0_r. now rewrite u64_small.
  - cbn [cycles].
    destruct (@pipe_cycle_counters cfg junk bound p Hc Inv)
      as (p1 & E1 & Inv1 & C1 & R1).
    rewrite E1. cbn [bind].
    destruct (IH p1 Inv1) as (p' & E & Inv' & C & R).
    { rewrite C1. unfold u64. apply Z.mod_pos_bound. lia. }
    exists p'. split; [exact E|]. split; [exact Inv'|]. split.
    + rewrite C, C1. unfold u64.
      rewrite Zplus_mod_idemp_l. f_equal. lia.
    + nia.
Qed.

(** X7. A run from [pipe_init] never gets stuck and its counters are sound:
    for every configuration in the ranges of the tunables and every trace
    short enough for the 64-bit instruction counter, [n] calls of
    [pipe_cycle] all return (the [do]-[while] loops of wakeup and scheduling
    terminate), the cycle counter has counted them (modulo 2^64), at most
    [PIPE_WIDTH] instructions were retired per cycle, and the number of
    retired instructions is the number of commits made, never above the
    number of instructions fetched, which is never above the length of the
    trace. *)
Theorem run_counters
        (cfg : Config) (junk : InstInfo) (around : Z -> RATEntry)
        (trace : list TraceRec) (n : nat) :
  config_ok cfg ->
  Z.of_nat (length trace) + 1 < 2 ^ 64 ->
  exists p,
    cycles cfg junk n (pipe_init around trace) = Some p
    /\ stat_num_cycle p = u64 (Z.of_nat n)
    /\ 0 <= stat_retired_inst p <= Z.of_nat n * Z.of_nat (PIPE_WIDTH cfg)
    /\ Z.of_nat (length (retired_seq (events p))) = stat_retired_inst p
    /\ stat_retired_inst p <= last_inst_num p
    /\ last_inst_num p + Z.of_nat (length (trace_fd p))
       <= Z.of_nat (length trace).
Proof.
  intros Hc Hb.
  destruct (@cycles_counters cfg junk (Z.of_nat (length trace)) n Hc
              (pipe_init around trace) (@pipe_init_inv cfg Hc around trace Hb))
    as (p & E & Inv & C & R); [cbn; lia|].
  exists p. split; [exact E|].
  destruct (pipe_inv_retired_small Inv) as (A & _ & B & _).
  destruct Inv as (len & _ & _ & Seq & _ & _ & _ & _ & Lb & _).
  cbn in C, R.
  split; [exact C|]. split; [lia|]. split; [|split; [exact B | exact Lb]].
  rewrite Seq. unfold count_up. rewrite length_map, length_seq. lia.
Qed.

Lemma run_counters_witness :
  exists p,
    cycles cfg_scalar inst_zero 9 (pipe_init around_clear trace_raw) = Some p
    /\ stat_num_cycle p = u64 9
    /\ 0 <= stat_retired_inst p <= 9 * 1
    /\ Z.of_nat (length (retired_seq (events p))) = stat_retired_inst p
    /\ stat_retired_inst p <= last_inst_num p
    /\ last_inst_num p + Z.of_nat (length (trace_fd p)) <= 2.
Proof.
  apply (@run_counters cfg_scalar inst_zero around_clear trace_raw 9).
  - unfold config_ok, MAX_PIPE_WIDTH, MAX_ROB_ENTRIES. simpl. lia.
  - vm_compute. reflexivity.
Defined.

(** ** The instructions in flight *)

(** X8. At every cycle boundary of a run from [pipe_init] the instructions
    between decode and commit are all there, once each and in program order:
    the ROB is a ring whose slots from head to tail hold the instruction
    numbers that follow the retired ones, one by one, and the valid ID
    latches hold, each once, exactly the numbers between the youngest ROB
    entry and the next number the decode stage will hand out. *)
Theorem in_flight_in_program_order
        (cfg : Config) (junk : InstInfo) (around : Z -> RATEntry)
        (trace : list TraceRec) (n : nat) :
  config_ok cfg ->
  Z.of_nat (length trace) + 1 < 2 ^ 64 ->
  exists p len,
    cycles cfg junk n (pipe_init around trace) = Some p
    /\ rob_ring (NUM_ROB_ENTRIES cfg) (rob p) len
    /\ rob_ptrs_ok (NUM_ROB_ENTRIES cfg) (rob p)
    /\ map inst_num (rob_contents (NUM_ROB_ENTRIES cfg) (rob p) len)
       = map (fun k => stat_retired_inst p + 1 + Z.of_nat k)
             (seq 0 (Z.to_nat len))
    /\ id_window (PIPE_WIDTH cfg) (ID_latch p)
                 (stat_retired_inst p + len) (next_inst_num p)
    /\ next_inst_num p <= last_inst_num p + 1.
Proof.
  intros Hc Hb.
  destruct (@cycles_inv cfg junk (Z.of_nat (length trace)) n Hc
              (pipe_init around trace) (@pipe_init_inv cfg Hc around trace Hb))
    as (p & E & Inv).
  destruct Inv as (len & (R & Fifo) & _ & _ & Win & Nx & _).
  exists p, len. split; [exact E|]. split; [exact R|].
  split; [|split; [|split; [exact Win | exact Nx]]].
  - destruct R as (Hl & Hh & Et & _). split; [exact Hh|].
    rewrite Et. apply Z.mod_pos_bound. lia.
  - unfold rob_contents. rewrite map_map. apply map_ext_in.
    intros k Hk. apply in_seq in Hk. destruct R as (Hl & _).
    apply Fifo. lia.
Qed.

Lemma in_flight_in_program_order_witness :
  exists p len,
    cycles cfg_scalar inst_zero 4 (pipe_init around_clear trace_raw) = Some p
    /\ rob_ring 4 (rob p) len
    /\ rob_ptrs_ok 4 (rob p)
    /\ map inst_num (rob_contents 4 (rob p) len)
       = map (fun k => stat_retired_inst p + 1 + Z.of_nat k)
             (seq 0 (Z.to_nat len))
    /\ id_window 1 (ID_latch p) (stat_retired_inst p + len) (next_inst_num p)
    /\ next_inst_num p <= last_inst_num p + 1.
Proof.
  apply (@in_flight_in_program_order cfg_scalar inst_zero around_clear
           trace_raw 4).
  - unfold config_ok, MAX_PIPE_WIDTH, MAX_ROB_ENTRIES. simpl. lia.
  - vm_compute. reflexivity.
Defined.

(** ** Which instruction a schedule lane picks *)

Section Pick.

Variable cfg : Config.
Hypothesis n_range : 1 <= NUM_ROB_ENTRIES cfg <= MAX_ROB_ENTRIES.

Local Abbreviation N := (NUM_ROB_ENTRIES cfg).

Lemma slot_before_tail h (o total : nat) :
  (0 < o < total)%nat -> (total <= Z.to_nat N)%nat ->
  (h + Z.of_nat o) mod N <> (h + Z.of_nat total) mod N.
Proof.
  intros Ho Ht E.
  destruct (Nat.eq_dec total (Z.to_nat N)) as [Et|Et].
  - assert (E2 : (h + Z.of_nat total) mod N = (h + 0) mod N).
    { replace (Z.of_nat total) with N by lia.
      rewrite Z.add_0_r. replace (h + N) with (h + 1 * N) by lia.
      apply Z_mod_plus_full. }
    rewrite E2 in E. apply (slot_inj n_range) in E; lia.
  - apply (slot_inj n_range) in E; lia.
Qed.

(** Beyond the occupied part of a ring every slot that the traversal visits
    is invalid. *)
Lemma ring_rest_invalid r len (o : nat) :
  rob_ring N r len ->
  len <= Z.of_nat o -> (o < traversal_length N len)%nat ->
  valid (entries r ((head_ptr r + Z.of_nat o) mod N)) = false.
Proof.
  intros (Hl & Hh & Et & Hv & Hi) Ho Hlt.
  destruct (valid _) eqn:V; [|reflexivity].
  destruct (Hi _ V) as (k & Hk & E).
  pose proof (@traversal_length_range N n_range len Hl) as Tr.
  apply (slot_inj n_range) in E; lia.
Qed.

Lemma srcs_ready_cases (A : Type) e (a b : A) :
  (let (s1, s2) := srcs_ready e in if negb s1 || negb s2 then a else b)
  = if sources_ready e then b else a.
Proof.
  unfold sources_ready. destruct (srcs_ready e) as [s1 s2].
  destruct s1, s2; reflexivity.
Qed.

(** *** In order *)

Lemma sched_in_order_scan_skip i h (total : nat) :
  0 <= h < N -> (total <= Z.to_nat N)%nat ->
  forall (m k fuel : nat) p,
    tail_ptr (rob p) = (h + Z.of_nat total) mod N ->
    (k + m < total)%nat ->
    (forall o, (k <= o < k + m)%nat ->
       unscheduled (entries (rob p) ((h + Z.of_nat o) mod N)) = false) ->
    sched_in_order_scan cfg (m + fuel) i ((h + Z.of_nat k) mod N) p
    = sched_in_order_scan cfg fuel i ((h + Z.of_nat (k + m)) mod N) p.
Proof.
  intros Hh Ht m. induction m as [|m IH]; intros k fuel p Et Hk Hu.
  - rewrite Nat.add_0_r. reflexivity.
  - cbn [Nat.add sched_in_order_scan].
    pose proof (Hu k ltac:(lia)) as U. unfold unscheduled in U. rewrite U.
    rewrite (next_slot n_range) by (apply slot_range; lia).
    rewrite (slot_succ n_range).
    replace (Z.of_nat k + 1) with (Z.of_nat (S k)) by lia.
    destruct (Z.eqb_spec ((h + Z.of_nat (S k)) mod N) (tail_ptr (rob p)))
      as [E|E]; cbn [negb].
    + exfalso. rewrite Et in E. revert E. apply slot_before_tail; lia.
    + rewrite (IH (S k) fuel p Et) by (try lia; intros o Ho; apply Hu; lia).
      f_equal. f_equal. lia.
Qed.

Lemma sched_in_order_scan_none i h (total : nat) :
  0 <= h < N -> (total <= Z.to_nat N)%nat ->
  forall (m k fuel : nat) p,
    tail_ptr (rob p) = (h + Z.of_nat total) mod N ->
    (k + m = total)%nat -> (1 <= m <= fuel)%nat ->
    (forall o, (k <= o < total)%nat ->
       unscheduled (entries (rob p) ((h + Z.of_nat o) mod N)) = false) ->
    sched_in_order_scan cfg fuel i ((h + Z.of_nat k) mod N) p = Some p.
Proof.
  intros Hh Ht m. induction m as [|m IH]; intros k fuel p Et Hk Hm Hu; [lia|].
  destruct fuel as [|fuel]; [lia|]. cbn [sched_in_order_scan].
  pose proof (Hu k ltac:(lia)) as U. unfold unscheduled in U. rewrite U.
  rewrite (next_slot n_range) by (apply slot_range; lia).
  rewrite (slot_succ n_range).
  replace (Z.of_nat k + 1) with (Z.of_nat (S k)) by lia.
  destruct (Z.eqb_spec ((h + Z.of_nat (S k)) mod N) (tail_ptr (rob p)))
    as [E|E]; cbn [negb]; [reflexivity|].
  apply IH; try lia; try assumption.
  - destruct m; [|lia]. exfalso. apply E. rewrite Et. f_equal. lia.
  - intros o Ho. apply Hu. lia.
Qed.

Lemma sched_lane_in_order_pick i p len k :
  rob_ring N (rob p) len ->
  0 <= k < len ->
  (forall k', 0 <= k' < k ->
     exec (entries (rob p) (rob_slot N (rob p) k')) = true) ->
  exec (entries (rob p) (rob_slot N (rob p) k)) = false ->
  sched_lane_in_order cfg i p
  = Some (if sources_ready (entries (rob p) (rob_slot N (rob p) k))
          then sched_send i (rob_slot N (rob p) k) p
          else sched_hold i p).
Proof.
  intros R Hk Hold Hex. destruct (@ring_traversal cfg n_range _ _ R) as (Et & Tl & Hh).
  pose proof R as (Hl & _ & _ & Hv & _).
  assert (Tlen : traversal_length N len = Z.to_nat len).
  { unfold traversal_length. destruct (Z.eqb_spec len 0); [lia | reflexivity]. }
  unfold sched_lane_in_order, rob_slot in *.
  replace (head_ptr (rob p))
    with ((head_ptr (rob p) + Z.of_nat 0) mod N) at 1
    by (cbn; rewrite Z.add_0_r; now apply Z.mod_small).
  replace (Z.to_nat N)
    with (Z.to_nat k + S (Z.to_nat N - Z.to_nat k - 1))%nat by lia.
  rewrite (@sched_in_order_scan_skip i (head_ptr (rob p))
             (traversal_length N len) Hh ltac:(lia)); try assumption; try lia.
  - cbn [Nat.add sched_in_order_scan]. rewrite Z2Nat.id by lia.
    rewrite (Hv k Hk), Hex. cbn [andb negb].
    rewrite srcs_ready_cases. now destruct (sources_ready _).
  - intros o Ho. unfold unscheduled.
    rewrite (Hold (Z.of_nat o)) by lia. apply andb_false_r.
Qed.

Lemma sched_lane_in_order_none i p len :
  rob_ring N (rob p) len ->
  (forall k, 0 <= k < len ->
     exec (entries (rob p) (rob_slot N (rob p) k)) = true) ->
  sched_lane_in_order cfg i p = Some p.
Proof.
  intros R Hall. destruct (@ring_traversal cfg n_range _ _ R) as (Et & Tl & Hh).
  unfold sched_lane_in_order, rob_slot in *.
  replace (head_ptr (rob p))
    with ((head_ptr (rob p) + Z.of_nat 0) mod N) at 1
    by (cbn; rewrite Z.add_0_r; now apply Z.mod_small).
  apply (@sched_in_order_scan_none i (head_ptr (rob p))
           (traversal_length N len) Hh ltac:(lia)
           (traversal_length N len)); try assumption; try lia.
  intros o Ho. unfold unscheduled.
  destruct (Z_lt_le_dec (Z.of_nat o) len) as [Lt|Ge].
  - rewrite (Hall (Z.of_nat o)) by lia. apply andb_false_r.
  - rewrite (ring_rest_invalid R Ge) by lia. reflexivity.
Qed.

(** *** Out of order *)

Lemma sched_idle_refl i p : sched_idle i p p.
Proof.
  unfold sched_idle. destruct p. cbn. repeat split; auto.
Qed.

Lemma sched_idle_rob i p q : sched_idle i p q -> rob q = rob p.
Proof. intros (E & _). rewrite <- E. reflexivity. Qed.

Lemma sched_idle_hold i p q :
  sched_idle i p q -> sched_idle i p (sched_hold i q).
Proof.
  intros (E & Ho & Hs & Hi & Hv). unfold sched_idle, sched_hold.
  split; [exact E|]. cbn.
  split; [intros l Hl; rewrite updn_other by exact Hl; now apply Ho|].
  rewrite updn_same. cbn. split; [exact Hs|]. split; [exact Hi|].
  discriminate.
Qed.

Lemma inst_after_mark_exec (es : Z -> ROBEntry) t j :
  inst (upd es t (set_exec true (es t)) j) = inst (es j).
Proof.
  unfold upd. destruct (Z.eqb_spec j t) as [E|E]; [rewrite E|]; reflexivity.
Qed.

Lemma sched_idle_send i j p q :
  sched_idle i p q -> sched_sent i j p (sched_send i j q).
Proof.
  intros (E & Ho & Hs & Hi & Hv).
  assert (Er : rob q = rob p) by (rewrite <- E; reflexivity).
  assert (Ee : events q = events p) by (rewrite <- E; reflexivity).
  assert (Ec : stat_num_cycle q = stat_num_cycle p)
    by (rewrite <- E; reflexivity).
  unfold sched_sent, sched_send. cbn.
  rewrite !inst_after_mark_exec, updn_same. cbn. rewrite Er, Ee, Ec.
  split; [reflexivity|]. split; [unfold set_lvalid, set_linst; cbn; now rewrite Hs|].
  split; [intros l Hl; rewrite updn_other by exact Hl; now apply Ho|].
  split; [reflexivity|].
  transitivity (set_SC_latch (SC_latch p) q); [|exact E].
  unfold set_events, set_rob, set_SC_latch, log. cbn.
  rewrite Er, Ee. reflexivity.
Qed.

Lemma sched_out_of_order_scan_skip i p h (total : nat) :
  0 <= h < N -> (total <= Z.to_nat N)%nat ->
  tail_ptr (rob p) = (h + Z.of_nat total) mod N ->
  forall (m k fuel : nat) q,
    sched_idle i p q ->
    (k + m < total)%nat ->
    (forall o, (k <= o < k + m)%nat ->
       unscheduled (entries (rob p) ((h + Z.of_nat o) mod N))
       && sources_ready (entries (rob p) ((h + Z.of_nat o) mod N)) = false) ->
    exists q',
      sched_idle i p q'
      /\ sched_out_of_order_scan cfg (m + fuel) i ((h + Z.of_nat k) mod N) q
         = sched_out_of_order_scan cfg fuel i
             ((h + Z.of_nat (k + m)) mod N) q'.
Proof.
  intros Hh Ht Et m. induction m as [|m IH]; intros k fuel q Iq Hk Hu.
  - exists q. rewrite Nat.add_0_r. split; [exact Iq | reflexivity].
  - cbn [Nat.add sched_out_of_order_scan].
    pose proof (Hu k ltac:(lia)) as U. unfold unscheduled in U.
    rewrite (sched_idle_rob Iq).
    rewrite (next_slot n_range) by (apply slot_range; lia).
    rewrite (slot_succ n_range).
    replace (Z.of_nat k + 1) with (Z.of_nat (S k)) by lia.
    assert (Next : forall q1 t, sched_idle i p q1 -> t = tail_ptr (rob p) ->
              exists q',
                sched_idle i p q'
                /\ (if negb ((h + Z.of_nat (S k)) mod N =? t)
                    then sched_out_of_order_scan cfg (m + fuel) i
                           ((h + Z.of_nat (S k)) mod N) q1
                    else Some q1)
                   = sched_out_of_order_scan cfg fuel i
                       ((h + Z.of_nat (k + S m)) mod N) q').
    { intros q1 t I1 ->. rewrite Et.
      destruct (Z.eqb_spec ((h + Z.of_nat (S k)) mod N)
                           ((h + Z.of_nat total) mod N)) as [E|E]; cbn [negb].
      - exfalso. revert E. apply slot_before_tail; lia.
      - destruct (IH (S k) fuel q1 I1) as (q' & I' & E');
          [lia | intros o Ho; apply Hu; lia |].
        exists q'. split; [exact I'|]. rewrite E'.
        replace (S k + m)%nat with (k + S m)%nat by lia. reflexivity. }
    destruct (valid _ && negb _).
    + rewrite srcs_ready_cases. cbn [andb] in U. rewrite U.
      apply Next; [now apply sched_idle_hold|].
      now rewrite (sched_idle_rob (sched_idle_hold Iq)).
    + apply Next; [exact Iq | reflexivity].
Qed.

Lemma sched_out_of_order_scan_none i p h (total : nat) :
  0 <= h < N -> (total <= Z.to_nat N)%nat ->
  tail_ptr (rob p) = (h + Z.of_nat total) mod N ->
  forall (m k fuel : nat) q,
    sched_idle i p q ->
    (k + m = total)%nat -> (1 <= m <= fuel)%nat ->
    (forall o, (k <= o < total)%nat ->
       unscheduled (entries (rob p) ((h + Z.of_nat o) mod N))
       && sources_ready (entries (rob p) ((h + Z.of_nat o) mod N)) = false) ->
    exists q',
      sched_out_of_order_scan cfg fuel i ((h + Z.of_nat k) mod N) q = Some q'
      /\ sched_idle i p q'.
Proof.
  intros Hh Ht Et m. induction m as [|m IH]; intros k fuel q Iq Hk Hm Hu; [lia|].
  destruct fuel as [|fuel]; [lia|]. cbn [sched_out_of_order_scan].
  pose proof (Hu k ltac:(lia)) as U. unfold unscheduled in U.
  rewrite (sched_idle_rob Iq).
  rewrite (next_slot n_range) by (apply slot_range; lia).
  rewrite (slot_succ n_range).
  replace (Z.of_nat k + 1) with (Z.of_nat (S k)) by lia.
  assert (Next : forall q1 t, sched_idle i p q1 -> t = tail_ptr (rob p) ->
            exists q',
              (if negb ((h + Z.of_nat (S k)) mod N =? t)
               then sched_out_of_order_scan cfg fuel i
                      ((h + Z.of_nat (S k)) mod N) q1
               else Some q1) = Some q'
              /\ sched_idle i p q').
  { intros q1 t I1 ->.
    destruct (Z.eqb_spec ((h + Z.of_nat (S k)) mod N) (tail_ptr (rob p)))
      as [E|E]; cbn [negb]; [eauto|].
    apply IH; try lia; try assumption.
    - destruct m; [|lia]. exfalso. apply E. rewrite Et. f_equal. lia.
    - intros o Ho. apply Hu. lia. }
  destruct (valid _ && negb _).
  - rewrite srcs_ready_cases. cbn [andb] in U. rewrite U.
    apply Next; [now apply sched_idle_hold|].
    now rewrite (sched_idle_rob (sched_idle_hold Iq)).
  - apply Next; [exact Iq | reflexivity].
Qed.

Lemma sched_lane_out_of_order_pick i p len k :
  rob_ring N (rob p) len ->
  0 <= k < len ->
  (forall k', 0 <= k' < k ->
     unscheduled (entries (rob p) (rob_slot N (rob p) k'))
     && sources_ready (entries (rob p) (rob_slot N (rob p) k')) = false) ->
  unscheduled (entries (rob p) (rob_slot N (rob p) k))
  && sources_ready (entries (rob p) (rob_slot N (rob p) k)) = true ->
  exists p',
    sched_lane_out_of_order cfg i p = Some p'
    /\ sched_sent i (rob_slot N (rob p) k) p p'.
Proof.
  intros R Hk Hold Hex.
  destruct (@ring_traversal cfg n_range _ _ R) as (Et & Tl & Hh).
  pose proof R as (Hl & _).
  assert (Tlen : traversal_length N len = Z.to_nat len).
  { unfold traversal_length. destruct (Z.eqb_spec len 0); [lia | reflexivity]. }
  unfold sched_lane_out_of_order, rob_slot in *.
  assert (E0 : (head_ptr (rob p) + Z.of_nat 0) mod N = head_ptr (rob p))
    by (cbn; rewrite Z.add_0_r; now apply Z.mod_small).
  replace (Z.to_nat N)
    with (Z.to_nat k + S (Z.to_nat N - Z.to_nat k - 1))%nat by lia.
  destruct (@sched_out_of_order_scan_skip i p (head_ptr (rob p))
              (traversal_length N len) Hh ltac:(lia) Et
              (Z.to_nat k) 0%nat (S (Z.to_nat N - Z.to_nat k - 1)) p
              (sched_idle_refl i p)) as (q & Iq & E).
  - lia.
  - intros o Ho. apply (Hold (Z.of_nat o)). lia.
  - rewrite E0 in E. rewrite E. cbn [Nat.add sched_out_of_order_scan]. rewrite Z2Nat.id by lia.
    rewrite (sched_idle_rob Iq).
    apply andb_prop in Hex. destruct Hex as [U S]. unfold unscheduled in U.
    rewrite U, srcs_ready_cases, S.
    eexists. split; [reflexivity|]. now apply sched_idle_send.
Qed.

Lemma sched_lane_out_of_order_none i p len :
  rob_ring N (rob p) len ->
  (forall k, 0 <= k < len ->
     unscheduled (entries (rob p) (rob_slot N (rob p) k))
     && sources_ready (entries (rob p) (rob_slot N (rob p) k)) = false) ->
  exists p',
    sched_lane_out_of_order cfg i p = Some p' /\ sched_idle i p p'.
Proof.
  intros R Hall.
  destruct (@ring_traversal cfg n_range _ _ R) as (Et & Tl & Hh).
  unfold sched_lane_out_of_order, rob_slot in *.
  assert (E0 : (head_ptr (rob p) + Z.of_nat 0) mod N = head_ptr (rob p))
    by (cbn; rewrite Z.add_0_r; now apply Z.mod_small).
  destruct (@sched_out_of_order_scan_none i p (head_ptr (rob p))
              (traversal_length N len) Hh ltac:(lia) Et
              (traversal_length N len) 0%nat (Z.to_nat N) p
              (sched_idle_refl i p)) as (q & E & Iq); try lia.
  - intros o Ho.
    destruct (Z_lt_le_dec (Z.of_nat o) len) as [Lt|Ge].
    + apply (Hall (Z.of_nat o)). lia.
    + unfold unscheduled. rewrite (ring_rest_invalid R Ge) by lia.
      reflexivity.
  - rewrite E0 in E. exists q. split; assumption.
Qed.

End Pick.






(** ** The single-cycle execute stage *)

Lemma pipe_cycle_exe_single (cfg : Config) (p : Pipeline) :
  LOAD_EXE_CYCLES cfg = 1 ->
  let p' := pipe_cycle_exe cfg p in
  (forall l, (l < PIPE_WIDTH cfg)%nat ->
     exe_lane_moved p p' l /\ lvalid (SC_latch p' l) = false)
  /\ (forall l, (PIPE_WIDTH cfg <= l)%nat ->
        EX_latch p' l = EX_latch p l /\ SC_latch p' l = SC_latch p l)
  /\ set_SC_latch (SC_latch p) (set_EX_latch (EX_latch p) p') = p.
Proof.
  intros HL p'. subst p'. unfold pipe_cycle_exe. rewrite HL. cbn [Z.eqb Pos.eqb].
  apply (@for_lanes_inv Pipeline
           (fun i q =>
              (forall l, (l < i)%nat ->
                 exe_lane_moved p q l /\ lvalid (SC_latch q l) = false)
              /\ (forall l, (i <= l)%nat ->
                    EX_latch q l = EX_latch p l /\ SC_latch q l = SC_latch p l)
              /\ set_SC_latch (SC_latch p) (set_EX_latch (EX_latch p) q) = p)).
  - split; [intros l Hl; lia|]. split; [auto|]. now destruct p.
  - intros i q Hi (Done & Rest & Fr).
    destruct (Rest i (Nat.le_refl i)) as [Ei Si].
    unfold exe_copy_lane. rewrite Si.
    destruct (lvalid (SC_latch p i)) eqn:V.
    + split; [|split].
      * intros l Hl. unfold exe_lane_moved. cbn -[updn].
        destruct (Nat.eq_dec l i) as [->|D].
        -- rewrite V, !updn_same. repeat split; reflexivity.
        -- destruct (Done l ltac:(lia)) as [M F].
           unfold exe_lane_moved in M. rewrite !updn_other by exact D.
           split; assumption.
      * intros l Hl. cbn -[updn]. rewrite !updn_other by lia.
        apply Rest. lia.
      * exact Fr.
    + split; [|split].
      * intros l Hl.
        destruct (Nat.eq_dec l i) as [->|D].
        -- unfold exe_lane_moved. rewrite V, Si. repeat split; auto.
        -- apply Done. lia.
      * intros l Hl. apply Rest. lia.
      * exact Fr.
Qed.

(** X11. Take [LOAD_EXE_CYCLES = 1] and a width within the latch arrays
    ([PIPE_WIDTH <= MAX_PIPE_WIDTH]; beyond it the loop would leave the
    [SC_latch] array).  The execute stage moves every instruction that the
    schedule stage left in one of the first [PIPE_WIDTH] SC latches into the
    EX latch of the same lane, unchanged, and empties that SC latch; lanes
    without a scheduled instruction keep their EX latch.  No SC latch of
    those lanes is valid afterwards.  Nothing else changes: in particular
    the EXEQ is not used and the halt flag is not touched. *)
Theorem exe_single_cycle_moves_lanes (cfg : Config) (p : Pipeline) :
  (PIPE_WIDTH cfg <= MAX_PIPE_WIDTH)%nat ->
  LOAD_EXE_CYCLES cfg = 1 ->
  let p' := pipe_cycle_exe cfg p in
  (forall l, (l < PIPE_WIDTH cfg)%nat ->
     exe_lane_moved p p' l /\ lvalid (SC_latch p' l) = false)
  /\ (forall l, (PIPE_WIDTH cfg <= l)%nat ->
        EX_latch p' l = EX_latch p l /\ SC_latch p' l = SC_latch p l)
  /\ set_SC_latch (SC_latch p) (set_EX_latch (EX_latch p) p') = p.
Proof. intros _. apply pipe_cycle_exe_single. Qed.

Lemma exe_single_cycle_moves_lanes_witness :
  EX_latch (pipe_cycle_exe cfg_scalar state_scheduled) 0%nat
  = mkLatch true false inst_I1
  /\ lvalid (SC_latch (pipe_cycle_exe cfg_scalar state_scheduled) 0%nat)
     = false.
Proof.
  destruct (@exe_single_cycle_moves_lanes cfg_scalar state_scheduled)
    as (A & _); [unfold MAX_PIPE_WIDTH; simpl; lia | reflexivity |].
  destruct (A 0%nat) as [M F]; [simpl; lia|].
  split; [apply M | exact F].
Defined.

(** ** What the back end keeps of an instruction *)

Lemma retired_insts_app a b :
  retired_insts (a ++ b) = retired_insts a ++ retired_insts b.
Proof. unfold retired_insts. apply flat_map_app. Qed.

Lemma cell_static_refl e : cell_static e e.
Proof. repeat split. Qed.

Lemma cell_static_trans e1 e2 e3 :
  cell_static e1 e2 -> cell_static e2 e3 -> cell_static e1 e3.
Proof.
  intros (a1 & a2 & a3) (b1 & b2 & b3). repeat split; congruence.
Qed.

Lemma cell_static_upd es t e j :
  cell_static (es t) e -> cell_static (es j) (upd es t e j).
Proof.
  intros H. unfold upd. destruct (Z.eqb_spec j t) as [E|E];
    [rewrite E; exact H | apply cell_static_refl].
Qed.

Lemma rob_wakeup_slot_static tag e : cell_static e (rob_wakeup_slot tag e).
Proof. rewrite rob_wakeup_slot_spec. repeat split. Qed.

Lemma rob_wakeup_loop_static n tail tag fuel :
  forall i es es' vis,
    rob_wakeup_loop n fuel tail tag i es = Some (es', vis) ->
    forall j, cell_static (es j) (es' j).
Proof.
  induction fuel as [|fuel IH]; intros i es es' vis E j; [discriminate|].
  cbn [rob_wakeup_loop] in E.
  assert (G1 : cell_static (es j) (upd es i (rob_wakeup_slot tag (es i)) j))
    by (apply cell_static_upd, rob_wakeup_slot_static).
  destruct (negb (u32 (i + 1) mod n =? tail)).
  - destruct (rob_wakeup_loop n fuel tail tag (u32 (i + 1) mod n)
                (upd es i (rob_wakeup_slot tag (es i)))) as [[es2 v2]|] eqn:E2;
      [|discriminate].
    cbn in E. inversion E; subst.
    eapply cell_static_trans; [exact G1|]. eapply IH; eauto.
  - inversion E; subst. exact G1.
Qed.

Lemma rob_wakeup_static n r r' tag :
  rob_wakeup n r tag = Some r' ->
  head_ptr r' = head_ptr r /\ tail_ptr r' = tail_ptr r
  /\ forall j, cell_static (entries r j) (entries r' j).
Proof.
  unfold rob_wakeup, rob_wakeup_visit. intros E.
  destruct (rob_wakeup_loop n (Z.to_nat n) (u32 (tail_ptr r)) tag
              (u32 (head_ptr r)) (entries r)) as [[es v]|] eqn:E1;
    [|discriminate].
  cbn in E. inversion E; subst. split; [reflexivity|].
  split; [reflexivity|]. cbn. eapply rob_wakeup_loop_static; eauto.
Qed.

Lemma back_frame_fields p p' :
  back_frame p p' ->
  FE_latch p' = FE_latch p /\ ID_latch p' = ID_latch p
  /\ rat p' = rat p /\ exeq p' = exeq p
  /\ stat_retired_inst p' = stat_retired_inst p
  /\ stat_num_cycle p' = stat_num_cycle p
  /\ trace_fd p' = trace_fd p
  /\ last_inst_num p' = last_inst_num p
  /\ halt_inst_num p' = halt_inst_num p
  /\ halt p' = halt p
  /\ next_inst_num p' = next_inst_num p.
Proof.
  unfold back_frame. intros E. rewrite <- E. repeat split.
Qed.

Lemma back_frame_refl p : back_frame p p.
Proof. unfold back_frame. now destruct p. Qed.

Lemma back_frame_trans p q r :
  back_frame p q -> back_frame q r -> back_frame p r.
Proof.
  unfold back_frame. intros E1 E2.
  destruct p, q, r. cbn in *. inversion E1. inversion E2. subst.
  reflexivity.
Qed.

Lemma back_keeps_refl p : back_keeps p p.
Proof.
  split; [apply back_frame_refl|]. repeat split; auto.
Qed.

Lemma back_keeps_trans p q r :
  back_keeps p q -> back_keeps q r -> back_keeps p r.
Proof.
  intros (a1 & a2 & a3 & a4 & a5) (b1 & b2 & b3 & b4 & b5).
  split; [eapply back_frame_trans; eauto|].
  split; [congruence|]. split; [congruence|].
  split; [|congruence].
  intros j. eapply cell_static_trans; eauto.
Qed.

Lemma writeback_lane_keeps cfg i p p' :
  writeback_lane cfg i p = Some p' -> back_keeps p p'.
Proof.
  unfold writeback_lane.
  destruct (negb (lstall (EX_latch p i)) && lvalid (EX_latch p i)).
  - destruct (rob_wakeup (NUM_ROB_ENTRIES cfg) (rob p)
                (dr_tag (linst (EX_latch p i)))) as [r1|] eqn:E1;
      [|discriminate].
    cbn [bind]. intros E. inversion E; subst.
    destruct (rob_wakeup_static _ _ _ E1) as (Hh & Ht & Hc).
    split; [unfold back_frame; now destruct p|].
    cbn. rewrite retired_insts_app. cbn. rewrite app_nil_r.
    split; [exact Hh|]. split; [exact Ht|]. split; [|reflexivity].
    intros j. eapply cell_static_trans; [apply Hc|].
    apply cell_static_upd. repeat split.
  - intros E. inversion E; subst. apply back_keeps_refl.
Qed.

Lemma sched_hold_keeps i p : back_keeps p (sched_hold i p).
Proof.
  split; [unfold back_frame; now destruct p|]. repeat split; auto.
Qed.

Lemma sched_send_keeps i j p : back_keeps p (sched_send i j p).
Proof.
  split; [unfold back_frame; now destruct p|].
  unfold sched_send. cbn. rewrite retired_insts_app. cbn.
  rewrite app_nil_r. split; [reflexivity|]. split; [reflexivity|].
  split; [|reflexivity].
  intros k. apply cell_static_upd. repeat split.
Qed.

Lemma sched_in_order_scan_keeps cfg fuel i :
  forall j p p',
    sched_in_order_scan cfg fuel i j p = Some p' -> back_keeps p p'.
Proof.
  induction fuel as [|fuel IH]; intros j p p' E; [discriminate|].
  cbn [sched_in_order_scan] in E.
  destruct (valid (entries (rob p) j) && negb (exec (entries (rob p) j))).
  - destruct (srcs_ready (entries (rob p) j)) as [s1 s2].
    destruct (negb s1 || negb s2); inversion E; subst.
    + apply sched_hold_keeps.
    + apply sched_send_keeps.
  - destruct (negb (u32 (j + 1) mod NUM_ROB_ENTRIES cfg =? tail_ptr (rob p))).
    + eapply IH; eauto.
    + inversion E; subst. apply back_keeps_refl.
Qed.

Lemma sched_out_of_order_scan_keeps cfg fuel i :
  forall j p p',
    sched_out_of_order_scan cfg fuel i j p = Some p' -> back_keeps p p'.
Proof.
  induction fuel as [|fuel IH]; intros j p p' E; [discriminate|].
  cbn [sched_out_of_order_scan] in E.
  destruct (valid (entries (rob p) j) && negb (exec (entries (rob p) j))).
  - destruct (srcs_ready (entries (rob p) j)) as [s1 s2].
    destruct (negb s1 || negb s2).
    + destruct (negb (u32 (j + 1) mod NUM_ROB_ENTRIES cfg
                      =? tail_ptr (rob (sched_hold i p)))).
      * eapply back_keeps_trans; [apply (sched_hold_keeps i)|].
        eapply IH; eauto.
      * inversion E; subst. apply sched_hold_keeps.
    + inversion E; subst. apply sched_send_keeps.
  - destruct (negb (u32 (j + 1) mod NUM_ROB_ENTRIES cfg =? tail_ptr (rob p))).
    + eapply IH; eauto.
    + inversion E; subst. apply back_keeps_refl.
Qed.

Lemma for_lanes_opt_keeps n body p p' :
  (forall i t t', body i t = Some t' -> back_keeps t t') ->
  for_lanes_opt n body p = Some p' -> back_keeps p p'.
Proof.
  intros Hb. revert p'. induction n as [|n IH]; intros p' E.
  - inversion E; subst. apply back_keeps_refl.
  - rewrite for_lanes_opt_S in E.
    destruct (for_lanes_opt n body p) as [p1|]; [|discriminate].
    cbn [bind] in E. eapply back_keeps_trans; [apply IH; reflexivity|].
    eapply Hb; eauto.
Qed.

Lemma pipe_cycle_writeback_keeps cfg p p' :
  pipe_cycle_writeback cfg p = Some p' -> back_keeps p p'.
Proof.
  apply for_lanes_opt_keeps. intros i t t'. apply writeback_lane_keeps.
Qed.

Lemma pipe_cycle_schedule_keeps cfg p p' :
  pipe_cycle_schedule cfg p = Some p' -> back_keeps p p'.
Proof.
  unfold pipe_cycle_schedule.
  destruct (SchedulingPolicy_eqb (SCHED_POLICY cfg) SCHED_IN_ORDER).
  - destruct (for_lanes_opt (PIPE_WIDTH cfg) (sched_lane_in_order cfg) p)
      as [p1|] eqn:E1; [|discriminate].
    cbn [bind].
    assert (B1 : back_keeps p p1).
    { eapply for_lanes_opt_keeps; [|exact E1]. intros i t t'.
      apply sched_in_order_scan_keeps. }
    destruct (SchedulingPolicy_eqb (SCHED_POLICY cfg) SCHED_OUT_OF_ORDER).
    + intros E2. eapply back_keeps_trans; [exact B1|].
      eapply for_lanes_opt_keeps; [|exact E2]. intros i t t'.
      apply sched_out_of_order_scan_keeps.
    + intros E2. inversion E2; subst. exact B1.
  - cbn [bind].
    destruct (SchedulingPolicy_eqb (SCHED_POLICY cfg) SCHED_OUT_OF_ORDER).
    + intros E2. eapply for_lanes_opt_keeps; [|exact E2]. intros i t t'.
      apply sched_out_of_order_scan_keeps.
    + intros E2. inversion E2; subst. apply back_keeps_refl.
Qed.

(** ** What one commit changes *)

Lemma no_schedule_commit c x l :
  rat_events l -> no_schedule (EvCommit c x :: l).
Proof.
  intros H c' x' [E|E]; [discriminate|].
  destruct (H _ E) as [a Ea]. discriminate.
Qed.

Lemma commit_lane_effect cfg junk i p :
  rob_check_head (rob p) = true ->
  commit_effect cfg junk p (commit_lane cfg junk i p).
Proof.
  intros Hh. unfold commit_effect.
  rewrite (commit_lane_ready cfg junk i p Hh).
  set (h := inst (entries (rob p) (head_ptr (rob p)))).
  unfold commit_rat, pipe_commit_inst.
  destruct (_ <=? inst_num h) eqn:E1; destruct (_ =? dr_tag h) eqn:E2;
    cbn in *; rewrite ?E1, ?E2, ?retired_insts_app; cbn;
    rewrite ?app_nil_r, ?orb_true_r, ?orb_false_r, <- ?app_assoc;
    (split; [reflexivity|]; split; [reflexivity|]; split; [reflexivity|];
     split; [reflexivity|]; split; [reflexivity|];
     split;
     [intros k; split;
      (unfold updn; destruct (Nat.eqb_spec k i) as [->|]; reflexivity)|];
     split; [now destruct p|];
     do 2 eexists; split; [reflexivity|];
     intros e He; cbn in He; intuition (subst; eauto)).
Qed.

(** ** What one iteration of the issue loop changes *)

Lemma rat_events_nil : rat_events [].
Proof. intros e []. Qed.

Lemma rat_events_one a : rat_events [EvRat a].
Proof. intros e [<-|[]]. now exists a. Qed.

Lemma rat_events_app l1 l2 :
  rat_events l1 -> rat_events l2 -> rat_events (l1 ++ l2).
Proof.
  intros H1 H2 e He. apply in_app_or in He. destruct He; auto.
Qed.

Lemma rat_events_retired l : rat_events l -> retired_insts l = [].
Proof.
  induction l as [|e l IH]; intros H; [reflexivity|].
  destruct (H e (or_introl eq_refl)) as [a ->]. cbn.
  apply IH. intros e' He'. apply H. now right.
Qed.

Lemma rename_effect_refl idx q : rename_effect idx q q.
Proof.
  unfold rename_effect. split; [now destruct q|].
  repeat (split; [auto|]).
  exists []. split; [now rewrite app_nil_r | apply rat_events_nil].
Qed.

Lemma rename_effect_trans idx p q r :
  rename_effect idx p q -> rename_effect idx q r -> rename_effect idx p r.
Proof.
  intros (a1 & a2 & a3 & a4 & a5 & a6 & a7 & a8 & a9 & (x1 & a10 & a11))
         (b1 & b2 & b3 & b4 & b5 & b6 & b7 & b8 & b9 & (x2 & b10 & b11)).
  split.
  - destruct p, q, r. cbn in *. inversion a1. inversion b1. subst.
    reflexivity.
  - split; [congruence|]. split; [congruence|]. split; [congruence|].
    split; [intros j Hj; rewrite b5, a5 by exact Hj; reflexivity|].
    split; [congruence|]. split; [congruence|]. split; [congruence|].
    split; [congruence|].
    exists (x1 ++ x2). split; [|now apply rat_events_app].
    rewrite b10, a10. now rewrite app_assoc.
Qed.

(** [rob_check_ready] after the tag of the entry at [idx] was written. *)
Lemma check_ready_after_tag r idx e tag :
  valid e = valid (entries r idx) -> ready e = ready (entries r idx) ->
  rob_check_ready (set_entries (upd (entries r) idx e) r) tag
  = valid (entries r tag) && ready (entries r tag).
Proof.
  intros V R. unfold rob_check_ready. cbn. unfold upd.
  destruct (Z.eqb_spec tag idx) as [E|E].
  - rewrite V, R, E. now destruct (valid _ && ready _).
  - now destruct (valid _ && ready _).
Qed.

Lemma rename_src1_effect idx q :
  let e := entries (rob q) idx in
  let e' := entries (rob (rename_src1 idx q)) idx in
  rename_effect idx q (rename_src1 idx q)
  /\ rat (rename_src1 idx q) = rat q
  /\ src2_tag (inst e') = src2_tag (inst e)
  /\ src2_ready (inst e') = src2_ready (inst e)
  /\ renamed_src (rat q) (rob q) (src1_reg (inst e))
       (src1_tag (inst e')) (src1_ready (inst e')).
Proof.
  intros e e'. subst e e'. unfold rename_src1, renamed_src.
  destruct (src1_reg (inst (entries (rob q) idx)) =? -1) eqn:C; cbn [negb].
  - split; [apply rename_effect_refl|]. repeat (split; [reflexivity|]).
    intros H. apply Z.eqb_neq in H. congruence.
  - cbn. rewrite !upd_same. cbn.
    rewrite check_ready_after_tag by reflexivity.
    split; [|repeat split; reflexivity].
    unfold rename_effect. cbn. rewrite retired_insts_app. cbn.
    rewrite app_nil_r, !upd_same.
    split; [now destruct q|]. split; [reflexivity|].
    split; [reflexivity|]. split; [reflexivity|].
    split; [intros j Hj; now rewrite !upd_other by exact Hj|].
    repeat (split; [reflexivity|]).
    eexists. split; [reflexivity | apply rat_events_one].
Qed.

Lemma rename_src2_effect idx q :
  let e := entries (rob q) idx in
  let e' := entries (rob (rename_src2 idx q)) idx in
  rename_effect idx q (rename_src2 idx q)
  /\ rat (rename_src2 idx q) = rat q
  /\ src1_tag (inst e') = src1_tag (inst e)
  /\ src1_ready (inst e') = src1_ready (inst e)
  /\ renamed_src (rat q) (rob q) (src2_reg (inst e))
       (src2_tag (inst e')) (src2_ready (inst e')).
Proof.
  intros e e'. subst e e'. unfold rename_src2, renamed_src.
  destruct (src2_reg (inst (entries (rob q) idx)) =? -1) eqn:C; cbn [negb].
  - split; [apply rename_effect_refl|]. repeat (split; [reflexivity|]).
    intros H. apply Z.eqb_neq in H. congruence.
  - cbn. rewrite !upd_same. cbn.
    rewrite check_ready_after_tag by reflexivity.
    split; [|repeat split; reflexivity].
    unfold rename_effect. cbn. rewrite retired_insts_app. cbn.
    rewrite app_nil_r, !upd_same.
    split; [now destruct q|]. split; [reflexivity|].
    split; [reflexivity|]. split; [reflexivity|].
    split; [intros j Hj; now rewrite !upd_other by exact Hj|].
    repeat (split; [reflexivity|]).
    eexists. split; [reflexivity | apply rat_events_one].
Qed.

Lemma rename_dest_effect idx q :
  let e := entries (rob q) idx in
  let e' := entries (rob (rename_dest idx q)) idx in
  rename_effect idx q (rename_dest idx q)
  /\ dr_tag (inst e') = idx
  /\ rat (rename_dest idx q)
     = (if dest_reg (inst e) =? -1 then rat q
        else rat_set_remap (rat q) (dest_reg (inst e)) idx)
  /\ src1_tag (inst e') = src1_tag (inst e)
  /\ src1_ready (inst e') = src1_ready (inst e)
  /\ src2_tag (inst e') = src2_tag (inst e)
  /\ src2_ready (inst e') = src2_ready (inst e).
Proof.
  intros e e'. subst e e'. unfold rename_dest. cbn.
  destruct (dest_reg (inst (entries (rob q) idx)) =? -1); cbn.
  - rewrite !upd_same. split; [|repeat split; reflexivity].
    unfold rename_effect. cbn. rewrite !upd_same.
    split; [now destruct q|]. split; [reflexivity|].
    split; [reflexivity|]. split; [reflexivity|].
    split; [intros j Hj; now rewrite !upd_other by exact Hj|].
    repeat (split; [reflexivity|]).
    exists []. split; [now rewrite app_nil_r | apply rat_events_nil].
  - rewrite !upd_same. split; [|repeat split; reflexivity].
    unfold rename_effect. cbn. rewrite retired_insts_app. cbn.
    rewrite app_nil_r, !upd_same.
    split; [now destruct q|]. split; [reflexivity|].
    split; [reflexivity|]. split; [reflexivity|].
    split; [intros j Hj; now rewrite !upd_other by exact Hj|].
    repeat (split; [reflexivity|]).
    eexists. split; [reflexivity | apply rat_events_one].
Qed.

(** A source renamed against the ROB before the later renames reads the
    same against the ROB after them. *)
Lemma renamed_src_later t r r' idx a tag rdy :
  (forall j, j <> idx -> entries r' j = entries r j) ->
  valid (entries r' idx) = valid (entries r idx) ->
  ready (entries r' idx) = ready (entries r idx) ->
  renamed_src t r a tag rdy -> renamed_src t r' a tag rdy.
Proof.
  intros Ho Hv Hr H Ha. destruct (H Ha) as [E1 E2]. split; [exact E1|].
  rewrite E2. f_equal.
  destruct (Z.eq_dec tag idx) as [E|E]; [rewrite E, Hv, Hr | rewrite Ho];
    auto.
Qed.

Lemma issue_lane_effect cfg i q b :
  tail_ptr (rob q) <> -1 ->
  issue_effect cfg i q (fst (issue_lane cfg i (q, b))).
Proof.
  intros T.
  assert (Idle : forall g,
            (forall l, linst (g l) = linst (ID_latch q l)
                       /\ (lvalid (g l) = true ->
                           lvalid (ID_latch q l) = true)) ->
            issue_effect cfg i q (set_ID_latch g q)).
  { intros g Hg. split; [now destruct q|]. split; [reflexivity|].
    split; [exact Hg|]. split; [left; split; reflexivity|].
    exists []. split; [cbn; now rewrite app_nil_r | apply rat_events_nil]. }
  assert (Stall : forall v l,
            linst (updn (ID_latch q) i (set_lstall v (ID_latch q i)) l)
            = linst (ID_latch q l)
            /\ (lvalid (updn (ID_latch q) i (set_lstall v (ID_latch q i)) l)
                = true -> lvalid (ID_latch q l) = true)).
  { intros v l. unfold updn. destruct (Nat.eqb_spec l i) as [->|]; auto. }
  destruct b.
  - unfold issue_lane. cbn. rewrite updn_same. cbn. apply Idle, Stall.
  - destruct (lvalid (ID_latch q i)) eqn:V.
    + destruct (rob_check_space (rob q)) eqn:S.
      * rewrite (@issue_lane_insert cfg i q V S T). cbn [fst].
        set (x := linst (ID_latch q i)).
        set (idx := tail_ptr (rob q)).
        set (p2 := set_ID_latch _ _).
        assert (Ex : entries (rob p2) idx = mkROBEntry true false false x).
        { subst p2. unfold rob_insert. rewrite S. cbn. apply upd_same. }
        destruct (rename_src1_effect idx p2) as (A1 & R1 & _ & _ & S1).
        cbv zeta in S1. rewrite Ex in S1. cbn [inst] in S1.
        set (p3 := rename_src1 idx p2) in *.
        destruct (rename_src2_effect idx p3) as (A2 & R2 & K1t & K1r & S2).
        cbv zeta in S2, K1t, K1r.
        set (p4 := rename_src2 idx p3) in *.
        destruct (rename_dest_effect idx p4)
          as (A3 & D3 & R3 & L1t & L1r & L2t & L2r).
        cbv zeta in D3, R3, L1t, L1r, L2t, L2r.
        set (p5 := rename_dest idx p4) in *.
        pose proof (rename_effect_trans A2 A3)
          as (_ & _ & _ & _ & Ho35 & Hv35 & _ & _ & Hr35 & _).
        pose proof A3 as (_ & _ & _ & _ & Ho45 & Hv45 & _ & _ & Hr45 & _).
        pose proof A1 as (_ & _ & _ & _ & Ho23 & Hv23 & Ha23 & _ & Hr23 & _).
        pose proof (rename_effect_trans A1 (rename_effect_trans A2 A3))
          as (F & Ev & Hh & Ht & Ho & Hv & Ha & He & Hr & Hx).
        assert (Ed : dest_reg (inst (entries (rob p4) idx)) = dest_reg x).
        { destruct (rename_effect_trans A1 A2)
            as (_ & _ & _ & _ & _ & _ & Ha4 & _).
          rewrite Ex in Ha4. cbn in Ha4. unfold arch_of in Ha4.
          congruence. }
        assert (Es2 : src2_reg (inst (entries (rob p3) idx)) = src2_reg x).
        { rewrite Ex in Ha23. cbn in Ha23. unfold arch_of in Ha23.
          congruence. }
        assert (Ra : rat p2 = rat q) by (subst p2; reflexivity).
        assert (Keep : forall j, j <> idx ->
                  entries (rob p5) j = entries (rob q) j).
        { intros j Hj. rewrite Ho by exact Hj. subst p2.
          unfold rob_insert. rewrite S. cbn. now apply upd_other. }
        split; [|split; [|split; [|split]]].
        -- assert (G : set_rob (rob q) (set_ID_latch (ID_latch q) p2) = q)
             by (subst p2; now destruct q).
           revert F G. generalize p5, p2. intros a c F G.
           rewrite <- G. rewrite <- F. now destruct a.
        -- rewrite Ev. reflexivity.
        -- intros l.
           assert (El : ID_latch p5 = ID_latch p2)
             by (rewrite <- F; reflexivity).
           rewrite El. subst p2. cbn. unfold updn.
           destruct (Nat.eqb_spec l i) as [->|]; cbn; auto.
        -- right. split; [exact V|]. split; [exact S|].
           unfold inserted_at. fold idx. fold x.
           split; [rewrite Hh; subst p2; unfold rob_insert; rewrite S;
                   reflexivity|].
           split; [rewrite Ht; subst p2; unfold rob_insert; rewrite S;
                   reflexivity|].
           split; [exact Keep|].
           split; [rewrite Hv, Ex; reflexivity|].
           split; [rewrite Ha, Ex; reflexivity|].
           split; [exact D3|].
           split; [rewrite R3, Ed, R2, R1; reflexivity|].
           split; [rewrite He, Ex; reflexivity|].
           split; [rewrite Hr, Ex; reflexivity|].
           split.
           ++ rewrite L1t, L1r, K1t, K1r. rewrite <- Ra.
              apply (@renamed_src_later (rat p2) (rob p2) (rob p5) idx);
                [exact Ho | exact Hv | exact Hr | exact S1].
           ++ rewrite L2t, L2r. rewrite <- Es2, <- Ra, <- R1.
              apply (@renamed_src_later (rat p3) (rob p3) (rob p5) idx);
                [exact Ho35 | exact Hv35 | exact Hr35 | exact S2].
        -- destruct Hx as (extra & Hx & Hrx). exists extra.
           split; [rewrite Hx; subst p2; reflexivity | exact Hrx].
      * unfold issue_lane. cbn -[updn]. rewrite !updn_same. cbn -[updn].
        rewrite V, S. cbn -[updn]. rewrite ?updn_same.
        split; [now destruct q|]. split; [reflexivity|].
        split; [|split; [left; split; reflexivity|]].
        -- intros l. cbn -[updn].
           destruct (Nat.eq_dec l i) as [->|D];
             [rewrite !updn_same | rewrite !updn_other by exact D];
             cbn; auto.
        -- exists []. split; [cbn; now rewrite app_nil_r
                             | apply rat_events_nil].
    + unfold issue_lane. cbn -[updn]. rewrite !updn_same. cbn -[updn].
      rewrite V. cbn -[updn]. apply Idle, Stall.
Qed.

(** ** Induction over the stages of a run *)

Lemma decode_find_effect count : forall j i p,
  lvalid (ID_latch p i) = false ->
  decode_effect i p (decode_find count j i p).
Proof.
  induction count as [|count IH]; intros j i p V; [now left|].
  cbn [decode_find].
  destruct (lvalid (FE_latch p j)
            && (inst_num (linst (FE_latch p j)) =? next_inst_num p)) eqn:C.
  - apply andb_prop in C. destruct C as [C1 C2]. apply Z.eqb_eq in C2.
    right. exists j. repeat split; assumption.
  - now apply IH.
Qed.

Lemma decode_lane_effect cfg i p :
  decode_effect i p (decode_lane cfg i p).
Proof.
  unfold decode_lane.
  destruct (negb (lstall (ID_latch p i)) && negb (lvalid (ID_latch p i)))
    eqn:C; [|now left].
  apply andb_prop in C. destruct C as [_ C]. apply negb_true_iff in C.
  now apply decode_find_effect.
Qed.

Section StageInduction.

Variable cfg : Config.
Variable junk : InstInfo.
Variable bound : Z.
Hypothesis cfg_ok : config_ok cfg.

(** A property of pipeline states that every step of every stage keeps. *)
Variable Q : Pipeline -> Prop.

Hypothesis Q_tick : forall p,
  Q p -> Q (set_stat_num_cycle (u64 (stat_num_cycle p + 1)) p).
Hypothesis Q_commit : forall i p,
  pipe_inv cfg bound p -> rob_check_head (rob p) = true ->
  Q p -> Q (commit_lane cfg junk i p).
Hypothesis Q_writeback : forall i p p',
  pipe_inv cfg bound p ->
  wb_active p i = true ->
  writeback_lane cfg i p = Some p' -> Q p -> Q p'.
Hypothesis Q_hold : forall i p, Q p -> Q (sched_hold i p).
Hypothesis Q_send : forall i j p,
  pipe_inv cfg bound p ->
  unscheduled (entries (rob p) j) = true ->
  sources_ready (entries (rob p) j) = true ->
  Q p -> Q (sched_send i j p).
Hypothesis Q_exe : forall p, Q p -> Q (pipe_cycle_exe cfg p).
Hypothesis Q_sort : forall p,
  Q p -> Q (set_ID_latch (issue_sort cfg (ID_latch p)) p).
Hypothesis Q_issue : forall i q q',
  (exists len len',
      rob_fifo (NUM_ROB_ENTRIES cfg) (rob q) (stat_retired_inst q) len
      /\ rob_fifo (NUM_ROB_ENTRIES cfg) (rob q') (stat_retired_inst q) len') ->
  issue_effect cfg i q q' -> Q q -> Q q'.
Hypothesis Q_decode : forall i q q', decode_effect i q q' -> Q q -> Q q'.
Hypothesis Q_fetch : forall i q,
  pipe_inv cfg bound q -> lvalid (FE_latch q i) = false ->
  Q q -> Q (pipe_fetch_inst cfg q i).

Lemma pipe_cycle_commit_ind p :
  pipe_inv cfg bound p -> Q p -> Q (pipe_cycle_commit cfg junk p).
Proof.
  intros Inv H. unfold pipe_cycle_commit.
  apply (@for_lanes_inv Pipeline (fun _ q => pipe_inv cfg bound q /\ Q q)).
  - split; assumption.
  - intros i t _ [It Qt]. split; [now apply commit_lane_inv|].
    destruct (rob_check_head (rob t)) eqn:Hh.
    + now apply Q_commit.
    + now rewrite commit_lane_idle.
Qed.

Lemma pipe_cycle_issue_ind p :
  pipe_inv cfg bound p -> Q p -> Q (pipe_cycle_issue cfg p).
Proof.
  intros (len & Fifo & R0 & Seq & Win & Nx & Fe & L0 & Lb & Bd) H.
  unfold pipe_cycle_issue.
  apply (@for_lanes_inv (Pipeline * bool)
           (fun i st => issue_inv cfg p i st /\ Q (fst st))).
  - split; [|now apply Q_sort].
    exists len. cbn.
    split; [exact Fifo|]. split; [now apply issue_sort_window|].
    split; [apply issue_sort_sorted|]. split; [intros _ k Hk; lia|].
    repeat split; auto.
  - intros i [q b] Hi [Ii Qq].
    pose proof (issue_lane_inv cfg_ok Hi Ii) as Ii'.
    split; [exact Ii'|].
    pose proof Ii as (len' & Fq & _ & _ & _ & _ & _ & _ & _ & (Sr & _) & _).
    destruct Ii' as (len'' & Fq' & _).
    pose proof Fq as (R & _). cbn [fst] in R, Fq, Qq, Sr.
    rewrite <- Sr in Fq, Fq'.
    apply (@Q_issue i q);
      [exists len', len''; split; assumption | | exact Qq].
    apply issue_lane_effect.
    destruct R as (_ & _ & Et & _). rewrite Et.
    pose proof (Z.mod_pos_bound (head_ptr (rob q) + len')
                  (NUM_ROB_ENTRIES cfg)) as B.
    destruct cfg_ok as (_ & Hn). lia.
Qed.

(** The property together with the invariant of the engine. *)
Local Abbreviation PQ := (fun p => pipe_inv cfg bound p /\ Q p).

Lemma pipe_cycle_writeback_ind p p' :
  pipe_cycle_writeback cfg p = Some p' -> PQ p -> PQ p'.
Proof.
  intros E H. revert E. unfold pipe_cycle_writeback.
  generalize MAX_WRITEBACKS. intros n. revert p'.
  induction n as [|n IH]; intros q E.
  - inversion E; subst. exact H.
  - rewrite for_lanes_opt_S in E.
    destruct (for_lanes_opt n (writeback_lane cfg) p) as [t|];
      [|discriminate].
    cbn [bind] in E. destruct (IH t eq_refl) as [It Qt].
    split.
    + eapply back_end_step_inv; [|exact It].
      apply (writeback_lane_step _ _ _ E).
    + destruct (wb_active t n) eqn:A.
      * apply (@Q_writeback n t q); assumption.
      * rewrite writeback_lane_idle in E by exact A.
        inversion E; subst. exact Qt.
Qed.

Lemma PQ_hold i p : PQ p -> PQ (sched_hold i p).
Proof.
  intros [I H]. split; [|now apply Q_hold].
  eapply back_end_step_inv; [apply sched_hold_step | exact I].
Qed.

Lemma PQ_send i j p :
  unscheduled (entries (rob p) j) = true ->
  sources_ready (entries (rob p) j) = true ->
  PQ p -> PQ (sched_send i j p).
Proof.
  intros U S [I H]. split; [|now apply Q_send].
  eapply back_end_step_inv; [apply sched_send_step | exact I].
Qed.

Lemma sched_in_order_scan_ind fuel i :
  forall j p p',
    sched_in_order_scan cfg fuel i j p = Some p' -> PQ p -> PQ p'.
Proof.
  induction fuel as [|fuel IH]; intros j p p' E H; [discriminate|].
  cbn [sched_in_order_scan] in E.
  destruct (valid (entries (rob p) j) && negb (exec (entries (rob p) j)))
    eqn:U.
  - rewrite srcs_ready_cases in E.
    destruct (sources_ready (entries (rob p) j)) eqn:S;
      inversion E; subst.
    + now apply PQ_send.
    + now apply PQ_hold.
  - destruct (negb (u32 (j + 1) mod NUM_ROB_ENTRIES cfg =? tail_ptr (rob p))).
    + eapply IH; eauto.
    + inversion E; subst. exact H.
Qed.

Lemma sched_out_of_order_scan_ind fuel i :
  forall j p p',
    sched_out_of_order_scan cfg fuel i j p = Some p' -> PQ p -> PQ p'.
Proof.
  induction fuel as [|fuel IH]; intros j p p' E H; [discriminate|].
  cbn [sched_out_of_order_scan] in E.
  destruct (valid (entries (rob p) j) && negb (exec (entries (rob p) j)))
    eqn:U.
  - rewrite srcs_ready_cases in E.
    destruct (sources_ready (entries (rob p) j)) eqn:S.
    + inversion E; subst. now apply PQ_send.
    + destruct (negb (u32 (j + 1) mod NUM_ROB_ENTRIES cfg
                      =? tail_ptr (rob (sched_hold i p)))).
      * eapply IH; [exact E|]. now apply PQ_hold.
      * inversion E; subst. now apply PQ_hold.
  - destruct (negb (u32 (j + 1) mod NUM_ROB_ENTRIES cfg =? tail_ptr (rob p))).
    + eapply IH; eauto.
    + inversion E; subst. exact H.
Qed.

Lemma for_lanes_opt_ind (P : Pipeline -> Prop) n
      (body : nat -> Pipeline -> option Pipeline) p p' :
  (forall i t t', body i t = Some t' -> P t -> P t') ->
  for_lanes_opt n body p = Some p' -> P p -> P p'.
Proof.
  intros Hb. revert p'. induction n as [|n IH]; intros p' E H.
  - inversion E; subst. exact H.
  - rewrite for_lanes_opt_S in E.
    destruct (for_lanes_opt n body p) as [p1|]; [|discriminate].
    cbn [bind] in E. eapply Hb; [exact E|]. now apply IH.
Qed.

Lemma pipe_cycle_schedule_ind p p' :
  pipe_cycle_schedule cfg p = Some p' -> PQ p -> PQ p'.
Proof.
  unfold pipe_cycle_schedule. intros E H.
  assert (First : forall p1,
            (if SchedulingPolicy_eqb (SCHED_POLICY cfg) SCHED_IN_ORDER
             then for_lanes_opt (PIPE_WIDTH cfg) (sched_lane_in_order cfg) p
             else Some p) = Some p1 -> PQ p1).
  { intros p1 E1.
    destruct (SchedulingPolicy_eqb (SCHED_POLICY cfg) SCHED_IN_ORDER).
    - eapply (@for_lanes_opt_ind PQ); [|exact E1|exact H].
      intros i t t'. apply sched_in_order_scan_ind.
    - inversion E1; subst. exact H. }
  destruct (if SchedulingPolicy_eqb (SCHED_POLICY cfg) SCHED_IN_ORDER
            then for_lanes_opt (PIPE_WIDTH cfg) (sched_lane_in_order cfg) p
            else Some p) as [p1|] eqn:E1; [|discriminate].
  cbn [bind] in E. pose proof (First p1 eq_refl) as Q1.
  destruct (SchedulingPolicy_eqb (SCHED_POLICY cfg) SCHED_OUT_OF_ORDER).
  - eapply (@for_lanes_opt_ind PQ); [|exact E|exact Q1].
    intros i t t'. apply sched_out_of_order_scan_ind.
  - inversion E; subst. exact Q1.
Qed.

Lemma pipe_cycle_decode_ind p :
  Q p -> Q (pipe_cycle_decode cfg p).
Proof.
  intros H. unfold pipe_cycle_decode.
  apply (@for_lanes_inv Pipeline (fun _ q => Q q)); [exact H|].
  intros i t _ Qt. apply (Q_decode (decode_lane_effect cfg i t) Qt).
Qed.

Lemma pipe_cycle_fetch_ind p :
  pipe_inv cfg bound p -> Q p -> Q (pipe_cycle_fetch cfg p).
Proof.
  intros Inv H. unfold pipe_cycle_fetch.
  apply (@for_lanes_inv Pipeline (fun _ q => pipe_inv cfg bound q /\ Q q)).
  - split; assumption.
  - intros i t _ [It Qt]. unfold fetch_lane.
    destruct (negb (lstall (FE_latch t i)) && negb (lvalid (FE_latch t i)))
      eqn:C; [|split; assumption].
    apply andb_prop in C. destruct C as [_ C]. apply negb_true_iff in C.
    split; [now apply pipe_fetch_inst_inv | now apply Q_fetch].
Qed.

Lemma pipe_cycle_ind p :
  pipe_inv cfg bound p -> Q p ->
  exists p', pipe_cycle cfg junk p = Some p' /\ pipe_inv cfg bound p' /\ Q p'.
Proof.
  intros Inv H.
  destruct (@pipe_cycle_inv cfg junk bound cfg_ok p Inv) as (p' & E & Inv' & _).
  exists p'. split; [exact E|]. split; [exact Inv'|].
  unfold pipe_cycle in E.
  set (p0 := set_stat_num_cycle (u64 (stat_num_cycle p + 1)) p) in E.
  assert (Inv1 : pipe_inv cfg bound (pipe_cycle_commit cfg junk p0))
    by (apply pipe_cycle_commit_inv; [exact cfg_ok | exact Inv]).
  assert (Q1 : Q (pipe_cycle_commit cfg junk p0))
    by (apply pipe_cycle_commit_ind; [exact Inv | now apply Q_tick]).
  set (p1 := pipe_cycle_commit cfg junk p0) in *.
  destruct (pipe_cycle_writeback cfg p1) as [p2|] eqn:E2; [|discriminate].
  cbn [bind] in E.
  assert (Inv2 : pipe_inv cfg bound p2).
  { eapply back_end_step_inv; [|exact Inv1].
    now apply pipe_cycle_writeback_step with (cfg := cfg). }
  assert (Q2 : Q p2)
    by (apply (pipe_cycle_writeback_ind E2 (conj Inv1 Q1))).
  assert (Inv3 : pipe_inv cfg bound (pipe_cycle_exe cfg p2))
    by (eapply exe_step_inv; [apply pipe_cycle_exe_step | exact Inv2]).
  pose proof (Q_exe Q2) as Q3.
  set (p3 := pipe_cycle_exe cfg p2) in *.
  destruct (pipe_cycle_schedule cfg p3) as [p4|] eqn:E4; [|discriminate].
  cbn [bind] in E.
  assert (Q4 : Q p4)
    by (apply (pipe_cycle_schedule_ind E4 (conj Inv3 Q3))).
  assert (Inv4 : pipe_inv cfg bound p4).
  { pose proof Inv3 as (len3 & (R3 & _) & _).
    destruct (@pipe_cycle_schedule_spec cfg (proj2 cfg_ok) p3 len3 R3)
      as (p4' & E4' & B4 & _).
    rewrite E4 in E4'. inversion E4'; subst p4'.
    eapply back_end_step_inv; eauto. }
  destruct (@pipe_cycle_issue_inv cfg bound cfg_ok p4 Inv4) as [Inv5 _].
  pose proof (pipe_cycle_issue_ind Inv4 Q4) as Q5.
  set (p5 := pipe_cycle_issue cfg p4) in *.
  assert (Inv6 : pipe_inv cfg bound (pipe_cycle_decode cfg p5))
    by (apply pipe_cycle_decode_inv; assumption).
  pose proof (pipe_cycle_decode_ind Q5) as Q6.
  inversion E; subst p'.
  now apply pipe_cycle_fetch_ind.
Qed.

Lemma cycles_ind n :
  forall p, pipe_inv cfg bound p -> Q p ->
  exists p', cycles cfg junk n p = Some p' /\ pipe_inv cfg bound p' /\ Q p'.
Proof.
  induction n as [|n IH]; intros p Inv H.
  - exists p. split; [reflexivity|]. split; assumption.
  - cbn [cycles].
    destruct (pipe_cycle_ind Inv H) as (p1 & E1 & Inv1 & Q1).
    rewrite E1. cbn [bind]. now apply IH.
Qed.

End StageInduction.

(** ** The instructions of a run are those of the trace *)

Lemma from_trace_arch recs x y :
  arch_of y = arch_of x -> from_trace recs x -> from_trace recs y.
Proof.
  intros E (k & r & Hn & Ha). exists k, r. split; [exact Hn | congruence].
Qed.

Lemma skipn_cons {A} (k : nat) : forall (l : list A) a m,
  skipn k l = a :: m ->
  nth_error l k = Some a /\ skipn (S k) l = m /\ (k < length l)%nat.
Proof.
  induction k as [|k IH]; intros l a m E.
  - destruct l as [|b l]; [discriminate|]. cbn in E. inversion E; subst.
    cbn. repeat split. lia.
  - destruct l as [|b l]; [discriminate|]. cbn [skipn] in E.
    destruct (IH l a m E) as (A1 & A2 & A3). cbn [nth_error length].
    repeat split; [exact A1 | exact A2 | lia].
Qed.

Lemma nth_error_decoded_from recs : forall k0 l r,
  nth_error recs l = Some r ->
  nth_error (decoded_from k0 recs) l = Some (arch_of_rec (k0 + l) r).
Proof.
  induction recs as [|a recs IH]; intros k0 l r E.
  - destruct l; discriminate.
  - destruct l as [|l]; cbn in *.
    + inversion E; subst. now rewrite Nat.add_0_r.
    + rewrite (IH (S k0) l r E). do 2 f_equal. lia.
Qed.

Lemma firstn_snoc {A} (l : list A) : forall k a,
  nth_error l k = Some a -> firstn (S k) l = firstn k l ++ [a].
Proof.
  induction l as [|b l IH]; intros k a E.
  - destruct k; discriminate.
  - destruct k as [|k]; cbn in *.
    + inversion E; subst. reflexivity.
    + f_equal. now apply IH.
Qed.

(** A list of instructions numbered 1, 2, ... that all come from the stream
    is the stream's prefix. *)
Lemma numbered_stream recs (l : list InstInfo) :
  map inst_num l = count_up (length l) ->
  Forall (from_trace recs) l ->
  map arch_of l = firstn (length l) (decoded_stream recs).
Proof.
  induction l as [|x l IH] using rev_ind; intros Hn Hf; [reflexivity|].
  rewrite length_app in *. cbn [length] in *.
  rewrite Nat.add_1_r in *.
  rewrite map_app in *. cbn [map] in *. rewrite count_up_S in Hn.
  apply app_inj_tail in Hn. destruct Hn as [Hn Hx].
  apply Forall_app in Hf. destruct Hf as [Hf Hx'].
  inversion Hx' as [|? ? (k & r & Hk & Ha) _]; subst.
  assert (k = length l).
  { unfold arch_of, arch_of_rec in Ha. inversion Ha. lia. }
  subst k. rewrite (IH Hn Hf).
  rewrite (@firstn_snoc _ (decoded_stream recs) (length l) (arch_of_rec (length l) r)).
  - now rewrite Ha.
  - unfold decoded_stream. now rewrite (nth_error_decoded_from _ 0 _ Hk).
Qed.

Lemma retired_insts_nums evs :
  map inst_num (retired_insts evs) = retired_seq evs.
Proof.
  unfold retired_insts, retired_seq.
  induction evs as [|e l IH]; [reflexivity|].
  cbn. rewrite map_app, IH. now destruct e.
Qed.

Section Traced.

Variable cfg : Config.
Variable junk : InstInfo.
Variable recs : list TraceRec.
Hypothesis recs_short : Z.of_nat (length recs) + 1 < 2 ^ 64.

Lemma traced_tick p :
  traced cfg recs p ->
  traced cfg recs (set_stat_num_cycle (u64 (stat_num_cycle p + 1)) p).
Proof. intros H. exact H. Qed.

Lemma traced_commit i p :
  rob_check_head (rob p) = true ->
  traced cfg recs p -> traced cfg recs (commit_lane cfg junk i p).
Proof.
  intros Hh (Tf & Ti & Tr & Te & L0 & Sk).
  destruct (commit_lane_effect cfg junk i p Hh)
    as (Er & _ & Ev & _ & _ & Eid & Fr & _).
  set (p' := commit_lane cfg junk i p) in *. cbv zeta in Er, Ev.
  assert (Ef : FE_latch p' = FE_latch p) by (rewrite <- Fr; reflexivity).
  assert (Et : trace_fd p' = trace_fd p) by (rewrite <- Fr; reflexivity).
  assert (El : last_inst_num p' = last_inst_num p)
    by (rewrite <- Fr; reflexivity).
  apply rob_check_head_true in Hh.
  rewrite (rob_remove_head_ready _ _ _ Hh) in Er. cbn [snd] in Er.
  unfold traced. rewrite Ef, Et, El, Er, Ev.
  split; [exact Tf|]. split; [|split; [|split; [|split; assumption]]].
  - intros k V. destruct (Eid k) as [A B]. rewrite B. apply Ti. congruence.
  - intros j V. cbn in V |- *. unfold upd in *.
    destruct (j =? head_ptr (rob p)); [discriminate | now apply Tr].
  - apply Forall_app. split; [exact Te|]. constructor; [|constructor].
    apply Tr. apply andb_prop in Hh. tauto.
Qed.

Lemma traced_back p p' :
  back_keeps p p' -> traced cfg recs p -> traced cfg recs p'.
Proof.
  intros (Fr & _ & _ & Hc & Ev) (Tf & Ti & Tr & Te & L0 & Sk).
  destruct (back_frame_fields Fr)
    as (Ef & Ei & _ & _ & _ & _ & Et & El & _).
  unfold traced. rewrite Ef, Ei, Et, El, Ev.
  repeat (split; [assumption|]). split; [|repeat split; assumption].
  intros j V. destruct (Hc j) as (A & B & _).
  apply (from_trace_arch B). apply Tr. congruence.
Qed.

Lemma traced_exe p :
  traced cfg recs p -> traced cfg recs (pipe_cycle_exe cfg p).
Proof.
  intros (Tf & Ti & Tr & Te & L0 & Sk).
  destruct (pipe_cycle_exe_step cfg p)
    as ((Ef & Ei & Et & El & _) & _ & Er & _ & Ev & _).
  unfold traced. rewrite Ef, Ei, Et, El, Er, Ev. repeat split; assumption.
Qed.

Lemma traced_sort p :
  traced cfg recs p ->
  traced cfg recs (set_ID_latch (issue_sort cfg (ID_latch p)) p).
Proof.
  intros (Tf & Ti & Tr & Te & L0 & Sk).
  split; [exact Tf|]. split; [|repeat split; assumption].
  destruct (issue_sort_perm cfg (ID_latch p)) as (s & t & _ & Hs & Ho).
  intros k V. cbn in V |- *.
  destruct (Nat.lt_ge_cases k (PIPE_WIDTH cfg)) as [Lt|Ge].
  - rewrite Hs in V |- * by exact Lt. now apply Ti.
  - rewrite Ho in V |- * by exact Ge. now apply Ti.
Qed.

Lemma traced_issue i q q' :
  issue_effect cfg i q q' -> traced cfg recs q -> traced cfg recs q'.
Proof.
  intros (Fr & Ev & Eid & Cases & _) (Tf & Ti & Tr & Te & L0 & Sk).
  assert (Ef : FE_latch q' = FE_latch q) by (rewrite <- Fr; reflexivity).
  assert (Et : trace_fd q' = trace_fd q) by (rewrite <- Fr; reflexivity).
  assert (El : last_inst_num q' = last_inst_num q)
    by (rewrite <- Fr; reflexivity).
  unfold traced. rewrite Ef, Et, El, Ev.
  split; [exact Tf|]. split; [|split; [|repeat split; assumption]].
  - intros k V. destruct (Eid k) as [A B]. rewrite A. apply Ti. now apply B.
  - destruct Cases as [[Er _]|(V & _ & Ins)].
    + rewrite Er. exact Tr.
    + destruct Ins as (_ & _ & Ho & Hv & Ha & _).
      intros j Vj.
      destruct (Z.eq_dec j (tail_ptr (rob q))) as [E|D].
      * rewrite E. apply (from_trace_arch Ha). now apply Ti.
      * rewrite Ho in Vj |- * by exact D. now apply Tr.
Qed.

Lemma traced_decode i q q' :
  decode_effect i q q' -> traced cfg recs q -> traced cfg recs q'.
Proof.
  intros [->|(j & Vj & _ & _ & ->)] T; [exact T|].
  destruct T as (Tf & Ti & Tr & Te & L0 & Sk).
  split; [|split; [|repeat split; assumption]].
  - intros k V. cbn in V |- *. unfold updn in *.
    destruct (Nat.eqb k j); [discriminate | now apply Tf].
  - intros k V. cbn in V |- *. unfold updn in *.
    destruct (Nat.eqb k i); [now apply Tf | now apply Ti].
Qed.

Lemma traced_fetch_error rest i p :
  accepted cfg rest = accepted cfg (trace_fd p) ->
  traced cfg recs p -> traced cfg recs (fetch_error rest i p).
Proof.
  intros Ea (Tf & Ti & Tr & Te & L0 & Sk). unfold fetch_error.
  match goal with |- context [if ?c then _ else _] => destruct c end;
    (split; [|cbn -[accepted]; rewrite Ea; repeat split; assumption]);
    intros k V; cbn in V |- *; unfold updn in *;
    (destruct (Nat.eqb k i); [discriminate | now apply Tf]).
Qed.

Lemma traced_fetch i p :
  traced cfg recs p -> traced cfg recs (pipe_fetch_inst cfg p i).
Proof.
  intros T. unfold pipe_fetch_inst.
  destruct (trace_fd p) as [|r rest] eqn:Et.
  - apply traced_fetch_error; [now rewrite Et | exact T].
  - destruct (NUM_OP_TYPES cfg <=? tr_op_type r) eqn:Op.
    + apply traced_fetch_error; [|exact T].
      rewrite Et. cbn. now rewrite Op.
    + destruct T as (Tf & Ti & Tr & Te & L0 & Sk).
      rewrite Et in Sk. cbn in Sk. rewrite Op in Sk. cbn in Sk.
      symmetry in Sk. apply skipn_cons in Sk. destruct Sk as (Hn & Hs & Hl).
      assert (En : u64 (last_inst_num p + 1) = last_inst_num p + 1)
        by (apply u64_small; lia).
      unfold traced. cbn -[u64 accepted skipn Z.to_nat]. rewrite En.
      split; [|split; [exact Ti|split; [exact Tr|split; [exact Te|]]]].
      * intros k V. unfold updn in *.
        destruct (Nat.eqb k i); [|now apply Tf].
        exists (Z.to_nat (last_inst_num p)), r. split; [exact Hn|].
        unfold arch_of, arch_of_rec. cbn -[u64 Z.to_nat].
        rewrite Z2Nat.id by exact L0. reflexivity.
      * split; [lia|]. unfold accepted. rewrite <- Hs. f_equal. lia.
Qed.

Lemma traced_init around trace :
  recs = accepted cfg trace -> traced cfg recs (pipe_init around trace).
Proof.
  intros E. unfold traced, pipe_init. cbn.
  split; [discriminate|]. split; [discriminate|]. split; [discriminate|].
  split; [constructor|]. split; [lia | now symmetry].
Qed.

End Traced.

(** X12. The committed instruction stream is the trace.  At every cycle
    boundary of a run from [pipe_init], the instructions committed so far
    are, in commit order, exactly the first [stat_retired_inst] instructions
    of the trace: the [k]-th committed instruction has number [k] and the op
    type and the destination and source registers of the [k]-th accepted
    record (a register that the record does not need reads -1).  No
    instruction is dropped, duplicated, reordered or altered on its way
    through fetch, decode, issue and the ROB.  Records whose op type is
    outside the enumeration are not part of the stream. *)
Theorem retired_stream_is_trace
        (cfg : Config) (junk : InstInfo) (around : Z -> RATEntry)
        (trace : list TraceRec) (n : nat) :
  config_ok cfg ->
  Z.of_nat (length trace) + 1 < 2 ^ 64 ->
  exists p,
    cycles cfg junk n (pipe_init around trace) = Some p
    /\ map arch_of (retired_insts (events p))
       = firstn (Z.to_nat (stat_retired_inst p))
                (decoded_stream (accepted cfg trace)).
Proof.
  intros Hc Hb.
  assert (Hs : Z.of_nat (length (accepted cfg trace)) + 1 < 2 ^ 64).
  { pose proof (filter_length_le
                  (fun r => negb (NUM_OP_TYPES cfg <=? tr_op_type r)) trace).
    unfold accepted. lia. }
  destruct (@cycles_ind cfg junk (Z.of_nat (length trace)) Hc
              (traced cfg (accepted cfg trace))) with
      (n := n) (p := pipe_init around trace) as (p & E & Inv & T).
  - intros p H. exact H.
  - intros i p _ Hh. now apply traced_commit.
  - intros i p p' _ _ E. apply traced_back.
    now apply writeback_lane_keeps with (cfg := cfg) (i := i).
  - intros i p. apply traced_back, sched_hold_keeps.
  - intros i j p _ _ _. apply traced_back, sched_send_keeps.
  - intros p. apply traced_exe.
  - intros p. apply traced_sort.
  - intros i q q' _. apply traced_issue.
  - intros i q q'. apply traced_decode.
  - intros i q _ _. now apply traced_fetch.
  - now apply pipe_init_inv.
  - now apply traced_init.
  - exists p. split; [exact E|].
    destruct Inv as (len & _ & R0 & Seq & _).
    destruct T as (_ & _ & _ & Te & _).
    pose proof (retired_insts_nums (events p)) as Em.
    assert (El : length (retired_insts (events p))
                 = Z.to_nat (stat_retired_inst p)).
    { rewrite <- (length_map inst_num), Em, Seq. unfold count_up.
      now rewrite length_map, length_seq. }
    rewrite <- El. apply numbered_stream; [|exact Te].
    rewrite Em, Seq, El. reflexivity.
Qed.

Lemma retired_stream_is_trace_witness :
  exists p,
    cycles cfg_scalar inst_zero 9 (pipe_init around_clear trace_raw) = Some p
    /\ map arch_of (retired_insts (events p))
       = firstn (Z.to_nat (stat_retired_inst p))
                (decoded_stream (accepted cfg_scalar trace_raw)).
Proof.
  apply (@retired_stream_is_trace cfg_scalar inst_zero around_clear
           trace_raw 9).
  - unfold config_ok, MAX_PIPE_WIDTH, MAX_ROB_ENTRIES. simpl. lia.
  - vm_compute. reflexivity.
Defined.

(** ** When the halt flag is raised *)

Lemma halt_inv_same cfg total p p' :
  trace_fd p' = trace_fd p ->
  last_inst_num p' = last_inst_num p ->
  halt_inst_num p' = halt_inst_num p ->
  halt p' = halt p ->
  stat_retired_inst p' = stat_retired_inst p ->
  halt_inv cfg total p -> halt_inv cfg total p'.
Proof.
  intros Et El Eh Ef Er. unfold halt_inv. rewrite Et, El, Eh, Ef, Er. auto.
Qed.

Lemma accepted_all cfg trace :
  Forall (fun r => (NUM_OP_TYPES cfg <=? tr_op_type r) = false) trace ->
  accepted cfg trace = trace.
Proof.
  intros H. unfold accepted. induction H as [|r l Hr _ IH]; [reflexivity|].
  cbn. rewrite Hr. cbn. now rewrite IH.
Qed.

Lemma length_decoded_from recs : forall k,
  length (decoded_from k recs) = length recs.
Proof.
  induction recs as [|r recs IH]; intros k; [reflexivity|].
  cbn. now rewrite IH.
Qed.

Section HaltInv.

Variable cfg : Config.
Variable junk : InstInfo.
Variable total : Z.
Hypothesis cfg_ok : config_ok cfg.
Hypothesis single_cycle : LOAD_EXE_CYCLES cfg = 1.
Hypothesis total_small : total + 4 < 2 ^ 64.

Lemma halt_inv_commit i p :
  pipe_inv cfg total p -> rob_check_head (rob p) = true ->
  halt_inv cfg total p -> halt_inv cfg total (commit_lane cfg junk i p).
Proof.
  intros Inv Hh (Fa & Cases).
  destruct (commit_lane_effect cfg junk i p Hh)
    as (_ & Es & _ & Eh & _ & _ & Fr & _).
  set (p' := commit_lane cfg junk i p) in *. cbv zeta in Eh.
  assert (Et : trace_fd p' = trace_fd p) by (rewrite <- Fr; reflexivity).
  assert (El : last_inst_num p' = last_inst_num p)
    by (rewrite <- Fr; reflexivity).
  assert (Ehi : halt_inst_num p' = halt_inst_num p)
    by (rewrite <- Fr; reflexivity).
  destruct Inv as (len & Fifo & R0 & _ & (Hw & _) & Nx & _ & L0 & Lb & Bd).
  apply rob_check_head_true in Hh.
  destruct (rob_remove_head_fifo (proj2 cfg_ok) junk Fifo Hh)
    as (Hpos & Hnum & _).
  rewrite (rob_remove_head_ready _ _ _ Hh) in Hnum. cbn [fst] in Hnum.
  rewrite u64_small in Es by lia.
  unfold halt_inv. rewrite Et, El, Ehi, Es, Eh, Hnum.
  split; [exact Fa|].
  destruct Cases as [(A & B & C)|(A & B & C & D)].
  - left. rewrite A, B. split; [reflexivity|]. split; [|exact C].
    cbn [orb]. apply Z.leb_gt. unfold u64. cbn. lia.
  - right. rewrite C. split; [exact A|]. split; [exact B|].
    split; [reflexivity|].
    destruct (halt p) eqn:Hp.
    + exfalso. destruct D as [D _]. specialize (D eq_refl). lia.
    + cbn [orb]. rewrite Z.leb_le. split; lia.
Qed.

Lemma halt_inv_back p p' :
  back_keeps p p' -> halt_inv cfg total p -> halt_inv cfg total p'.
Proof.
  intros (Fr & _).
  destruct (back_frame_fields Fr)
    as (_ & _ & _ & _ & Er & _ & Et & El & Eh & Ef & _).
  now apply halt_inv_same.
Qed.

Lemma halt_inv_exe p :
  halt_inv cfg total p -> halt_inv cfg total (pipe_cycle_exe cfg p).
Proof.
  destruct (@pipe_cycle_exe_single cfg p single_cycle) as (_ & _ & Fr).
  cbv zeta in Fr. revert Fr. generalize (pipe_cycle_exe cfg p).
  intros p' Fr. apply halt_inv_same; rewrite <- Fr; reflexivity.
Qed.

Lemma halt_inv_issue i q q' :
  issue_effect cfg i q q' -> halt_inv cfg total q -> halt_inv cfg total q'.
Proof.
  intros (Fr & _). apply halt_inv_same; rewrite <- Fr; reflexivity.
Qed.

Lemma halt_inv_decode i q q' :
  decode_effect i q q' -> halt_inv cfg total q -> halt_inv cfg total q'.
Proof.
  intros [->|(j & _ & _ & _ & ->)] H; exact H.
Qed.

Lemma halt_inv_fetch i p :
  pipe_inv cfg total p ->
  halt_inv cfg total p -> halt_inv cfg total (pipe_fetch_inst cfg p i).
Proof.
  intros Inv (Fa & Cases).
  destruct (pipe_inv_retired_small Inv) as (R0 & _ & Rl & Lt).
  destruct Inv as (_ & _ & _ & _ & _ & _ & _ & L0 & _).
  unfold pipe_fetch_inst.
  destruct (trace_fd p) as [|r rest] eqn:Et.
  - assert (El : last_inst_num p = total).
    { destruct Cases as [(_ & _ & C)|(_ & B & _)]; [cbn in C; lia | exact B]. }
    assert (Hf : halt p = true -> stat_retired_inst p = total).
    { destruct Cases as [(_ & B & _)|(_ & _ & _ & D)];
        [congruence | apply D]. }
    unfold fetch_error. cbn.
    destruct (last_inst_num p <=? stat_retired_inst p) eqn:C;
      (split; [cbn; constructor|]); right; cbn;
      (split; [reflexivity|]); (split; [exact El|]);
      (split; [exact El|]).
    + apply Z.leb_le in C. split; [lia | reflexivity].
    + apply Z.leb_gt in C. split; [exact Hf | lia].
  - inversion Fa as [|? ? Hr Hrest]; subst. rewrite Hr.
    destruct Cases as [(A & B & C)|(A & _)]; [|discriminate].
    cbn [length] in C.
    split; [exact Hrest|]. left. cbn -[u64].
    split; [exact A|]. split; [exact B|].
    rewrite u64_small by lia. lia.
Qed.

Lemma halt_inv_init around trace :
  total = Z.of_nat (length trace) ->
  Forall (fun r => (NUM_OP_TYPES cfg <=? tr_op_type r) = false) trace ->
  halt_inv cfg total (pipe_init around trace).
Proof.
  intros E Fa. split; [exact Fa|]. left. cbn -[u64]. repeat split. lia.
Qed.

End HaltInv.

(** X13. The halt flag and the end of the trace.  Take a trace whose records
    all have an op type inside the enumeration, with single-cycle execution
    ([LOAD_EXE_CYCLES = 1]).  At every cycle boundary of the run the halt
    flag is set if and only if the fetch stage has met the end of the trace
    ([halt_inst_num] is the number of the last instruction) and as many
    instructions as the trace has records have been retired.  When the flag
    is set, nothing is left to fetch and the committed instructions are, in
    order, exactly the instructions of the whole trace: the simulator never
    halts early and never loses an instruction at the end. *)
Theorem halt_means_trace_retired
        (cfg : Config) (junk : InstInfo) (around : Z -> RATEntry)
        (trace : list TraceRec) (n : nat) :
  config_ok cfg ->
  LOAD_EXE_CYCLES cfg = 1 ->
  Forall (fun r => (NUM_OP_TYPES cfg <=? tr_op_type r) = false) trace ->
  Z.of_nat (length trace) + 4 < 2 ^ 64 ->
  exists p,
    cycles cfg junk n (pipe_init around trace) = Some p
    /\ (halt p = true <->
        halt_inst_num p = Z.of_nat (length trace)
        /\ stat_retired_inst p = Z.of_nat (length trace))
    /\ (halt p = true ->
        trace_fd p = []
        /\ map arch_of (retired_insts (events p)) = decoded_stream trace).
Proof.
  intros Hc HL Fa Hb.
  assert (Ea : accepted cfg trace = trace) by now apply accepted_all.
  assert (Hs : Z.of_nat (length trace) + 1 < 2 ^ 64) by lia.
  destruct (@cycles_ind cfg junk (Z.of_nat (length trace)) Hc
              (fun p => traced cfg trace p
                        /\ halt_inv cfg (Z.of_nat (length trace)) p)) with
      (n := n) (p := pipe_init around trace) as (p & E & Inv & T & H).
  - intros p H. exact H.
  - intros i p Inv Hh [T H].
    split; [now apply traced_commit | now apply halt_inv_commit].
  - intros i p p' _ _ E [T H].
    pose proof (writeback_lane_keeps cfg i p E) as B.
    split; [now apply (traced_back B) | now apply (halt_inv_back B)].
  - intros i p [T H]. pose proof (sched_hold_keeps i p) as B.
    split; [now apply (traced_back B) | now apply (halt_inv_back B)].
  - intros i j p _ _ _ [T H]. pose proof (sched_send_keeps i j p) as B.
    split; [now apply (traced_back B) | now apply (halt_inv_back B)].
  - intros p [T H]. split; [now apply traced_exe | now apply halt_inv_exe].
  - intros p [T H]. split; [now apply traced_sort | exact H].
  - intros i q q' _ I [T H].
    split; [now apply (traced_issue I) | now apply (halt_inv_issue I)].
  - intros i q q' D [T H].
    split; [now apply (traced_decode D) | now apply (halt_inv_decode D)].
  - intros i q Inv _ [T H].
    split; [now apply traced_fetch | now apply halt_inv_fetch].
  - now apply pipe_init_inv.
  - split; [apply traced_init; now symmetry | now apply halt_inv_init].
  - exists p. split; [exact E|].
    destruct H as (_ & Cases).
    assert (Iff : halt p = true <->
                  halt_inst_num p = Z.of_nat (length trace)
                  /\ stat_retired_inst p = Z.of_nat (length trace)).
    { destruct Cases as [(A & B & _)|(_ & _ & C & D)].
      - rewrite A, B. unfold u64. cbn. split; [discriminate | lia].
      - rewrite D. tauto. }
    split; [exact Iff|]. intros Hh.
    destruct Cases as [(_ & B & _)|(A & _ & _ & D)]; [congruence|].
    split; [exact A|].
    destruct Inv as (len & _ & R0 & Seq & _).
    destruct T as (_ & _ & _ & Te & _).
    pose proof (retired_insts_nums (events p)) as Em.
    assert (El : length (retired_insts (events p)) = length trace).
    { rewrite <- (length_map inst_num), Em, Seq. unfold count_up.
      rewrite length_map, length_seq. apply D in Hh. lia. }
    rewrite (@numbered_stream trace (retired_insts (events p))).
    + rewrite El. apply firstn_all2. unfold decoded_stream.
      now rewrite length_decoded_from.
    + rewrite Em, Seq. f_equal. apply D in Hh. lia.
    + exact Te.
Qed.

Lemma halt_means_trace_retired_witness :
  exists p,
    cycles cfg_scalar inst_zero 9 (pipe_init around_clear trace_raw) = Some p
    /\ (halt p = true <-> halt_inst_num p = 2 /\ stat_retired_inst p = 2)
    /\ (halt p = true ->
        trace_fd p = []
        /\ map arch_of (retired_insts (events p)) = decoded_stream trace_raw).
Proof.
  apply (@halt_means_trace_retired cfg_scalar inst_zero around_clear
           trace_raw 9).
  - unfold config_ok, MAX_PIPE_WIDTH, MAX_ROB_ENTRIES. simpl. lia.
  - reflexivity.
  - repeat constructor.
  - vm_compute. reflexivity.
Defined.

(** ** The RAT names the youngest writer in flight *)

Lemma arch_of_fields x y :
  arch_of y = arch_of x ->
  inst_num y = inst_num x /\ dest_reg y = dest_reg x.
Proof. unfold arch_of. intros E. inversion E. auto. Qed.

Section RatInv.

Variable cfg : Config.
Variable junk : InstInfo.
Variable bound : Z.
Hypothesis cfg_ok : config_ok cfg.

Local Abbreviation N := (NUM_ROB_ENTRIES cfg).

(** In a FIFO ring the instruction number of a valid slot is given by its
    offset from the head. *)
Lemma fifo_slot r retired len j :
  rob_fifo N r retired len ->
  valid (entries r j) = true ->
  exists k, 0 <= k < len /\ j = (head_ptr r + k) mod N
            /\ inst_num (inst (entries r j)) = retired + 1 + k.
Proof.
  intros ((_ & _ & _ & _ & Hi) & Hn) V.
  destruct (Hi j V) as (k & Hk & E). exists k.
  split; [exact Hk|]. split; [exact E|]. rewrite E. now apply Hn.
Qed.

Lemma rat_inv_commit i p :
  pipe_inv cfg bound p -> rob_check_head (rob p) = true ->
  rat_inv p -> rat_inv (commit_lane cfg junk i p).
Proof.
  intros (len & Fifo & _) Hh (D & R1 & R2).
  destruct (commit_lane_effect cfg junk i p Hh)
    as (Er & _ & _ & _ & Ea & _ & _).
  set (p' := commit_lane cfg junk i p) in *. cbv zeta in Ea.
  apply rob_check_head_true in Hh.
  rewrite (rob_remove_head_ready _ _ _ Hh) in Er. cbn [snd] in Er.
  apply andb_prop in Hh. destruct Hh as [Vh _].
  set (h := head_ptr (rob p)) in *.
  set (x := inst (entries (rob p) h)) in *.
  assert (Dx : dr_tag x = h) by (apply D; exact Vh).
  rewrite Dx in Ea.
  (* the head is the oldest entry *)
  assert (Old : forall j, valid (entries (rob p) j) = true -> j <> h ->
                  inst_num x < inst_num (inst (entries (rob p) j))).
  { intros j Vj Hj.
    destruct (fifo_slot j Fifo Vj) as (k & Hk & Ej & Nj).
    destruct (fifo_slot h Fifo Vh) as (k0 & Hk0 & Eh & Nh).
    fold x in Nh. rewrite Nj, Nh.
    pose proof Fifo as ((Hl & Hhd & _) & _).
    assert (k0 = 0).
    { apply (slot_inj (proj2 cfg_ok) (head_ptr (rob p))); [lia | lia |].
      rewrite <- Eh. rewrite Z.add_0_r. symmetry. now apply Z.mod_small. }
    assert (k <> 0).
    { intros ->. apply Hj. rewrite Ej, Z.add_0_r. now apply Z.mod_small. }
    lia. }
  (* slots other than the head are as before *)
  assert (Keep : forall j, j <> h -> entries (rob p') j = entries (rob p) j).
  { intros j Hj. rewrite Er. cbn. now apply upd_other. }
  assert (Was : forall j, valid (entries (rob p') j) = true ->
                  j <> h /\ valid (entries (rob p) j) = true).
  { intros j Vj. rewrite Er in Vj. cbn in Vj. unfold upd in Vj.
    destruct (Z.eqb_spec j h) as [E|E]; [discriminate | auto]. }
  (* an alias of another register is untouched *)
  assert (Rat : forall a, a <> dest_reg x ->
                  rat_entries (rat p') a = rat_entries (rat p) a).
  { intros a Ha. rewrite Ea.
    destruct (_ =? h); [|reflexivity]. cbn. now apply upd_other. }
  split; [|split].
  - intros j Vj. destruct (Was j Vj) as [Hj Vj0].
    rewrite Keep by exact Hj. now apply D.
  - intros a Ha Va.
    assert (Same : rat_entries (rat p') a = rat_entries (rat p) a
                   /\ prf_id (rat_entries (rat p) a) <> h).
    { destruct (Z.eq_dec a (dest_reg x)) as [E|E].
      - rewrite Ea in Va |- *. unfold rat_get_remap in *.
        destruct (rat_valid (rat_entries (rat p) (dest_reg x))) eqn:Vd.
        + destruct (Z.eqb_spec (prf_id (rat_entries (rat p) (dest_reg x))) h)
            as [E2|E2].
          * cbn in Va. rewrite E, upd_same in Va. discriminate.
          * rewrite E. split; [reflexivity | exact E2].
        + destruct (-1 =? h); cbn in Va.
          * rewrite E, upd_same in Va. discriminate.
          * rewrite E, Vd in Va. discriminate.
      - split; [now apply Rat|]. intros Et.
        rewrite Rat in Va by exact E.
        destruct (R1 a Ha Va) as [_ Dt]. rewrite Et in Dt. fold x in Dt.
        congruence. }
    destruct Same as [Es Ht]. rewrite Es in Va |- *.
    rewrite Keep by exact Ht. now apply R1.
  - intros a j Ha Vj Dj. destruct (Was j Vj) as [Hj Vj0].
    rewrite Keep in Dj |- * by exact Hj.
    destruct (R2 a j Ha Vj0 Dj) as [Va Le].
    destruct (R1 a Ha Va) as [Vt Dt].
    assert (Ht : prf_id (rat_entries (rat p) a) <> h).
    { intros Et. rewrite Et in Le. fold x in Le.
      pose proof (Old j Vj0 Hj). lia. }
    assert (Es : rat_entries (rat p') a = rat_entries (rat p) a).
    { destruct (Z.eq_dec a (dest_reg x)) as [E|E]; [|now apply Rat].
      rewrite Ea. unfold rat_get_remap. rewrite <- E, Va.
      destruct (Z.eqb_spec (prf_id (rat_entries (rat p) a)) h);
        [contradiction | reflexivity]. }
    rewrite Es, Keep by exact Ht. split; assumption.
Qed.

Lemma rat_inv_back p p' :
  back_keeps p p' -> rat_inv p -> rat_inv p'.
Proof.
  intros (Fr & _ & _ & Hc & _) (D & R1 & R2).
  destruct (back_frame_fields Fr) as (_ & _ & Ea & _).
  assert (V : forall j, valid (entries (rob p') j) = valid (entries (rob p) j))
    by (intros j; apply (Hc j)).
  assert (A : forall j,
            inst_num (inst (entries (rob p') j))
            = inst_num (inst (entries (rob p) j))
            /\ dest_reg (inst (entries (rob p') j))
               = dest_reg (inst (entries (rob p) j))).
  { intros j. destruct (Hc j) as (_ & B & _). now apply arch_of_fields. }
  unfold rat_inv. rewrite Ea. split; [|split].
  - intros j Vj. destruct (Hc j) as (_ & _ & T). rewrite T. apply D.
    now rewrite <- V.
  - intros a Ha Va. rewrite V. destruct (A (prf_id (rat_entries (rat p) a)))
      as [_ ->]. now apply R1.
  - intros a j Ha Vj Dj. rewrite V in Vj.
    destruct (A j) as [Nj Dj']. rewrite Dj' in Dj. rewrite Nj.
    destruct (A (prf_id (rat_entries (rat p) a))) as [-> _].
    now apply R2.
Qed.

Lemma rat_inv_same p p' :
  rob p' = rob p -> rat p' = rat p -> rat_inv p -> rat_inv p'.
Proof. intros Er Ea. unfold rat_inv. now rewrite Er, Ea. Qed.

Lemma rat_inv_issue i q q' :
  (exists len len',
      rob_fifo N (rob q) (stat_retired_inst q) len
      /\ rob_fifo N (rob q') (stat_retired_inst q) len') ->
  issue_effect cfg i q q' -> rat_inv q -> rat_inv q'.
Proof.
  intros (len & len' & Fq & Fq') (_ & _ & _ & Cases & _) H.
  destruct Cases as [[Er Ea]|(Vi & S & Ins)];
    [now apply (@rat_inv_same q q' Er Ea)|].
  destruct H as (D & R1 & R2).
  destruct Ins as (Hh & Ht & Ho & Hv & Ha & Hd & Hr & _).
  set (idx := tail_ptr (rob q)) in *.
  set (x := linst (ID_latch q i)) in *.
  destruct (arch_of_fields Ha) as [Nx Dx].
  pose proof (proj2 cfg_ok) as Hn.
  pose proof Fq as (Rq & _).
  assert (Hlen : len < N) by (now apply (check_space_ring Hn Rq)).
  assert (Eidx : idx = (head_ptr (rob q) + len) mod N)
    by (destruct Rq as (_ & _ & Et & _); exact Et).
  (* the tail slot was free *)
  assert (Free : valid (entries (rob q) idx) = false).
  { destruct (valid (entries (rob q) idx)) eqn:V; [|reflexivity].
    destruct (fifo_slot idx Fq V) as (k & Hk & Ek & _).
    rewrite Eidx in Ek. apply (slot_inj Hn) in Ek; lia. }
  (* the inserted instruction is the youngest *)
  assert (Young : forall j, valid (entries (rob q) j) = true ->
                    inst_num (inst (entries (rob q) j))
                    <= inst_num (inst (entries (rob q') idx))).
  { intros j Vj.
    destruct (fifo_slot j Fq Vj) as (k & Hk & _ & Nj).
    destruct (fifo_slot idx Fq' Hv) as (k' & Hk' & Ek' & Ni).
    rewrite Hh, Eidx in Ek'. pose proof Fq' as ((Hl' & _) & _).
    apply (slot_inj Hn) in Ek'; lia. }
  assert (Keep : forall j, valid (entries (rob q) j) = true ->
                   entries (rob q') j = entries (rob q) j).
  { intros j Vj. apply Ho. intros E. rewrite E in Vj. congruence. }
  assert (Rat : forall a, a <> dest_reg x ->
                  rat_entries (rat q') a = rat_entries (rat q) a).
  { intros a Hne. rewrite Hr. destruct (dest_reg x =? -1); [reflexivity|].
    cbn. now apply upd_other. }
  assert (New : forall a, 0 <= a < MAX_ARF_REGS -> a = dest_reg x ->
                  rat_entries (rat q') a = mkRATEntry true idx).
  { intros a Hrange E. rewrite Hr.
    destruct (Z.eqb_spec (dest_reg x) (-1)) as [E1|E1]; [lia|].
    cbn. rewrite E. apply upd_same. }
  split; [|split].
  - intros j Vj. destruct (Z.eq_dec j idx) as [E|E]; [now rewrite E|].
    rewrite Ho in Vj |- * by exact E. now apply D.
  - intros a Hrange Va.
    destruct (Z.eq_dec a (dest_reg x)) as [E|E].
    + rewrite (New a Hrange E). cbn. split; [exact Hv | congruence].
    + rewrite Rat in Va |- * by exact E.
      destruct (R1 a Hrange Va) as [Vt Dt].
      rewrite Keep by exact Vt. split; assumption.
  - intros a j Hrange Vj Dj.
    destruct (Z.eq_dec j idx) as [Ej|Ej].
    + rewrite Ej in Dj |- *. rewrite Dx in Dj.
      rewrite (New a Hrange (eq_sym Dj)). cbn. split; [reflexivity | lia].
    + rewrite Ho in Vj, Dj |- * by exact Ej.
      destruct (Z.eq_dec a (dest_reg x)) as [E|E].
      * rewrite (New a Hrange E). cbn. split; [reflexivity|].
        now apply Young.
      * rewrite Rat by exact E.
        destruct (R2 a j Hrange Vj Dj) as [Va Le].
        destruct (R1 a Hrange Va) as [Vt _].
        rewrite Keep by exact Vt. split; assumption.
Qed.

Lemma rat_inv_decode i q q' :
  decode_effect i q q' -> rat_inv q -> rat_inv q'.
Proof.
  intros [->|(j & _ & _ & _ & ->)] H; exact H.
Qed.

Lemma rat_inv_fetch i p : rat_inv p -> rat_inv (pipe_fetch_inst cfg p i).
Proof.
  apply rat_inv_same; unfold pipe_fetch_inst, fetch_error;
    destruct (trace_fd p) as [|r rest]; cbn;
    repeat match goal with
           | |- context [if ?c then _ else _] => destruct c; cbn
           end; reflexivity.
Qed.

Lemma rat_inv_exe p : rat_inv p -> rat_inv (pipe_cycle_exe cfg p).
Proof.
  destruct (pipe_cycle_exe_step cfg p) as (_ & _ & Er & Ea & _).
  now apply rat_inv_same.
Qed.

Lemma rat_inv_init around trace : rat_inv (pipe_init around trace).
Proof.
  unfold rat_inv, pipe_init. cbn. split; [discriminate|].
  split.
  - intros a Ha. unfold MAX_ARF_REGS in *.
    destruct (Z.leb_spec 0 a); [|lia]. destruct (Z.ltb_spec a 32); [|lia].
    discriminate.
  - discriminate.
Qed.

End RatInv.

(** X14. Renaming is consistent with the ROB.  At every cycle boundary of a
    run from [pipe_init], for every architectural register [a] (0 to 31):
    if the RAT aliases [a] to a tag, that tag is the slot of a valid ROB
    entry whose destination register is [a] and whose destination tag is the
    slot itself; and if some valid ROB entry writes [a], then [a] is aliased,
    to an entry that is at least as young as any writer of [a] in the ROB.
    So the RAT never dangles, and a register with a writer in flight always
    names the youngest of them; a register that is not aliased has no
    writer in flight. *)
Theorem rat_names_youngest_writer
        (cfg : Config) (junk : InstInfo) (around : Z -> RATEntry)
        (trace : list TraceRec) (n : nat) :
  config_ok cfg ->
  Z.of_nat (length trace) + 1 < 2 ^ 64 ->
  exists p,
    cycles cfg junk n (pipe_init around trace) = Some p
    /\ forall a, 0 <= a < MAX_ARF_REGS ->
         (forall t, aliased_to (rat p) a t ->
            valid (entries (rob p) t) = true
            /\ dest_reg (inst (entries (rob p) t)) = a
            /\ dr_tag (inst (entries (rob p) t)) = t)
         /\ (forall j, valid (entries (rob p) j) = true ->
               dest_reg (inst (entries (rob p) j)) = a ->
               exists t, aliased_to (rat p) a t
                         /\ inst_num (inst (entries (rob p) j))
                            <= inst_num (inst (entries (rob p) t))).
Proof.
  intros Hc Hb.
  destruct (@cycles_ind cfg junk (Z.of_nat (length trace)) Hc rat_inv) with
      (n := n) (p := pipe_init around trace) as (p & E & _ & D & R1 & R2).
  - intros p H. exact H.
  - intros i p. now apply rat_inv_commit.
  - intros i p p' _ _ E. apply rat_inv_back.
    now apply writeback_lane_keeps with (cfg := cfg) (i := i).
  - intros i p. apply rat_inv_back, sched_hold_keeps.
  - intros i j p _ _ _. apply rat_inv_back, sched_send_keeps.
  - intros p. apply rat_inv_exe.
  - intros p. now apply rat_inv_same.
  - intros i q q'. now apply rat_inv_issue.
  - intros i q q'. apply rat_inv_decode.
  - intros i q _ _. apply rat_inv_fetch.
  - now apply pipe_init_inv.
  - apply rat_inv_init.
  - exists p. split; [exact E|]. intros a Ha. split.
    + intros t [Va Et]. destruct (R1 a Ha Va) as [Vt Dt]. rewrite Et in *.
      split; [exact Vt|]. split; [exact Dt | now apply D].
    + intros j Vj Dj. destruct (R2 a j Ha Vj Dj) as [Va Le].
      exists (prf_id (rat_entries (rat p) a)). split; [|exact Le].
      split; [exact Va | reflexivity].
Qed.

Lemma rat_names_youngest_writer_witness :
  exists p,
    cycles cfg_scalar inst_zero 5 (pipe_init around_clear trace_raw) = Some p
    /\ forall a, 0 <= a < MAX_ARF_REGS ->
         (forall t, aliased_to (rat p) a t ->
            valid (entries (rob p) t) = true
            /\ dest_reg (inst (entries (rob p) t)) = a
            /\ dr_tag (inst (entries (rob p) t)) = t)
         /\ (forall j, valid (entries (rob p) j) = true ->
               dest_reg (inst (entries (rob p) j)) = a ->
               exists t, aliased_to (rat p) a t
                         /\ inst_num (inst (entries (rob p) j))
                            <= inst_num (inst (entries (rob p) t))).
Proof.
  apply (@rat_names_youngest_writer cfg_scalar inst_zero around_clear
           trace_raw 5).
  - unfold config_ok, MAX_PIPE_WIDTH, MAX_ROB_ENTRIES. simpl. lia.
  - vm_compute. reflexivity.
Defined.

(** ** What the writeback stage completes *)

Section WritebackFlags.

Variable cfg : Config.
Hypothesis n_range : 1 <= NUM_ROB_ENTRIES cfg <= MAX_ROB_ENTRIES.

Local Abbreviation N := (NUM_ROB_ENTRIES cfg).

Lemma writeback_lane_flags i p len :
  rob_ring N (rob p) len ->
  wb_active p i = true ->
  exists p',
    writeback_lane cfg i p = Some p'
    /\ rob_ring N (rob p') len
    /\ EX_latch p' = updn (EX_latch p) i (set_lvalid false (EX_latch p i))
    /\ (forall j, exec (entries (rob p') j) = exec (entries (rob p) j))
    /\ (forall j, ready (entries (rob p') j)
                  = ready (entries (rob p) j)
                    || (j =? dr_tag (linst (EX_latch p i)))).
Proof.
  intros R A. unfold wb_active in A. unfold writeback_lane. rewrite A.
  set (tag := dr_tag (linst (EX_latch p i))).
  destruct (rob_wakeup_spec n_range tag R) as (r1 & E1 & Hh & Ht & Hv & Hi).
  rewrite E1. cbn [bind].
  assert (Fl : forall j, exec (entries r1 j) = exec (entries (rob p) j)
                         /\ ready (entries r1 j) = ready (entries (rob p) j)).
  { intros j. destruct (valid (entries (rob p) j)) eqn:V.
    - rewrite Hv by exact V. split; reflexivity.
    - rewrite Hi by exact V. split; reflexivity. }
  eexists. split; [reflexivity|]. cbn. fold tag.
  split; [|split; [reflexivity|split]].
  - apply (@rob_grows_ring N (rob p)); [|exact R].
    eapply rob_grows_trans;
      [apply (@rob_wakeup_some_grows cfg _ _ _ E1) | apply rob_mark_ready_grows].
  - intros j. unfold upd.
    destruct (Z.eqb_spec j tag) as [Ej|Ej]; [rewrite Ej; cbn|]; apply Fl.
  - intros j. unfold upd. destruct (j =? tag); cbn.
    + now rewrite orb_true_r.
    + rewrite orb_false_r. apply Fl.
Qed.

Lemma pipe_cycle_writeback_flags p len :
  rob_ring N (rob p) len ->
  exists p',
    pipe_cycle_writeback cfg p = Some p'
    /\ (forall i, (i < MAX_WRITEBACKS)%nat ->
          EX_latch p' i
          = if wb_active p i then set_lvalid false (EX_latch p i)
            else EX_latch p i)
    /\ (forall i, (i < MAX_WRITEBACKS)%nat -> wb_active p i = true ->
          ready (entries (rob p') (dr_tag (linst (EX_latch p i)))) = true)
    /\ (forall j, ready (entries (rob p') j) = true ->
          ready (entries (rob p) j) = true
          \/ exists i, (i < MAX_WRITEBACKS)%nat /\ wb_active p i = true
                       /\ dr_tag (linst (EX_latch p i)) = j)
    /\ (forall j, exec (entries (rob p') j) = exec (entries (rob p) j)).
Proof.
  intros R. unfold pipe_cycle_writeback. generalize MAX_WRITEBACKS. intros n.
  destruct (@for_lanes_opt_inv Pipeline
              (fun i q =>
                 rob_ring N (rob q) len
                 /\ (forall k, (i <= k)%nat -> EX_latch q k = EX_latch p k)
                 /\ (forall k, (k < i)%nat ->
                       EX_latch q k
                       = if wb_active p k then set_lvalid false (EX_latch p k)
                         else EX_latch p k)
                 /\ (forall k, (k < i)%nat -> wb_active p k = true ->
                       ready (entries (rob q) (dr_tag (linst (EX_latch p k))))
                       = true)
                 /\ (forall j, ready (entries (rob q) j) = true ->
                       ready (entries (rob p) j) = true
                       \/ exists k, (k < i)%nat /\ wb_active p k = true
                                    /\ dr_tag (linst (EX_latch p k)) = j)
                 /\ (forall j, exec (entries (rob q) j)
                               = exec (entries (rob p) j)))
              n (writeback_lane cfg) p)
    as (p' & E & _ & _ & Hex & Hrd & Hfrom & Hexec).
  - split; [exact R|]. split; [reflexivity|].
    split; [intros k Hk; lia|]. split; [intros k Hk; lia|].
    split; [intros j Hj; now left | reflexivity].
  - intros i q Hi (Rq & Same & Done & Rd & From & Ex).
    assert (Ai : wb_active q i = wb_active p i)
      by (unfold wb_active; now rewrite (Same i (Nat.le_refl i))).
    destruct (wb_active p i) eqn:A.
    + destruct (@writeback_lane_flags i q len Rq Ai)
        as (q' & E & Rq' & EX' & Ex' & Rd').
      rewrite (Same i (Nat.le_refl i)) in EX', Rd'.
      exists q'. split; [exact E|]. split; [exact Rq'|].
      split; [|split; [|split; [|split]]].
      * intros k Hk. rewrite EX', updn_other by lia. apply Same. lia.
      * intros k Hk. rewrite EX'.
        destruct (Nat.eq_dec k i) as [->|D].
        -- now rewrite updn_same, A.
        -- rewrite updn_other by exact D. apply Done. lia.
      * intros k Hk Ak. rewrite Rd'.
        destruct (Nat.eq_dec k i) as [->|D].
        -- rewrite Z.eqb_refl. apply orb_true_r.
        -- rewrite Rd by (try lia; exact Ak). reflexivity.
      * intros j Hj. rewrite Rd' in Hj. apply orb_prop in Hj.
        destruct Hj as [Hj|Hj].
        -- destruct (From j Hj) as [F|(k & Hk & Ak & Ek)]; [now left|].
           right. exists k. split; [lia|]. split; assumption.
        -- right. exists i. split; [lia|]. split; [exact A|].
           apply Z.eqb_eq in Hj. now symmetry.
      * intros j. rewrite Ex'. apply Ex.
    + exists q. split.
      { apply writeback_lane_idle. exact Ai. }
      split; [exact Rq|]. split; [|split; [|split; [|split]]].
      * intros k Hk. apply Same. lia.
      * intros k Hk. destruct (Nat.eq_dec k i) as [->|D].
        -- rewrite A. apply Same. lia.
        -- apply Done. lia.
      * intros k Hk Ak. destruct (Nat.eq_dec k i) as [->|D]; [congruence|].
        apply Rd; [lia | exact Ak].
      * intros j Hj. destruct (From j Hj) as [F|(k & Hk & Ak & Ek)];
          [now left|].
        right. exists k. split; [lia|]. split; assumption.
      * exact Ex.
  - exists p'. split; [exact E|]. repeat split; assumption.
Qed.

End WritebackFlags.

(** X15. The writeback stage, on a well-formed ROB, terminates and completes
    every instruction it finds in a valid, unstalled EX latch: the latch is
    made invalid (and otherwise untouched) and the ROB entry named by the
    instruction's destination tag is marked ready.  No other entry becomes
    ready, no entry's executing flag changes, and latches that are invalid or
    stalled are left as they are.  Apart from the EX latches, the ROB and
    the event log the pipeline is unchanged, and in the ROB the pointers, the
    validity of every slot and each slot's instruction number, op type,
    registers and destination tag are kept. *)
Theorem writeback_completes_instructions
        (cfg : Config) (p : Pipeline) (len : Z) :
  1 <= NUM_ROB_ENTRIES cfg <= MAX_ROB_ENTRIES ->
  rob_ring (NUM_ROB_ENTRIES cfg) (rob p) len ->
  exists p',
    pipe_cycle_writeback cfg p = Some p'
    /\ (forall i, (i < MAX_WRITEBACKS)%nat ->
          EX_latch p' i
          = if wb_active p i then set_lvalid false (EX_latch p i)
            else EX_latch p i)
    /\ (forall i, (i < MAX_WRITEBACKS)%nat -> wb_active p i = true ->
          ready (entries (rob p') (dr_tag (linst (EX_latch p i)))) = true)
    /\ (forall j, ready (entries (rob p') j) = true ->
          ready (entries (rob p) j) = true
          \/ exists i, (i < MAX_WRITEBACKS)%nat /\ wb_active p i = true
                       /\ dr_tag (linst (EX_latch p i)) = j)
    /\ (forall j, exec (entries (rob p') j) = exec (entries (rob p) j))
    /\ back_keeps p p'.
Proof.
  intros Hn R.
  destruct (@pipe_cycle_writeback_flags cfg Hn p len R)
    as (p' & E & A & B & C & D).
  exists p'. repeat (split; [assumption|]).
  now apply pipe_cycle_writeback_keeps with (cfg := cfg).
Qed.

Lemma writeback_completes_instructions_witness :
  exists p',
    pipe_cycle_writeback cfg_scalar state_writeback = Some p'
    /\ lvalid (EX_latch p' 0%nat) = false
    /\ ready (entries (rob p') 0) = true.
Proof.
  destruct (@writeback_completes_instructions cfg_scalar state_writeback 2)
    as (p' & E & A & B & _).
  - unfold MAX_ROB_ENTRIES. simpl. lia.
  - exact rob_two_ring.
  - exists p'. split; [exact E|]. split.
    + rewrite (A 0%nat) by (unfold MAX_WRITEBACKS; lia). reflexivity.
    + apply (B 0%nat); [unfold MAX_WRITEBACKS; lia | reflexivity].
Defined.

(** ** Dependence tracking *)

Lemma written_back_app evs l m :
  written_back evs m -> written_back (evs ++ l) m.
Proof.
  intros (c & x & Hin & E). exists c, x. split; [|exact E].
  apply in_or_app. now left.
Qed.

Lemma raw_respected_app recs evs extra :
  no_schedule extra ->
  raw_respected recs evs -> raw_respected recs (evs ++ extra).
Proof.
  intros Hq H i c x Hn a m Ha Hs Hp.
  destruct (Nat.lt_ge_cases i (length evs)) as [Lt|Ge].
  - rewrite nth_error_app1 in Hn by exact Lt.
    rewrite firstn_app. replace (i - length evs)%nat with 0%nat by lia.
    cbn. rewrite app_nil_r. now apply (H i c x Hn a m).
  - rewrite nth_error_app2 in Hn by exact Ge.
    apply nth_error_In in Hn. exfalso. now apply (Hq c x).
Qed.

Lemma raw_respected_schedule recs evs c x :
  raw_respected recs evs ->
  (forall a m, a <> -1 -> src1_reg x = a \/ src2_reg x = a ->
     is_producer recs (inst_num x) a m -> written_back evs m) ->
  raw_respected recs (evs ++ [EvSchedule c x]).
Proof.
  intros H Hx i c' x' Hn a m Ha Hs Hp.
  destruct (Nat.lt_ge_cases i (length evs)) as [Lt|Ge].
  - rewrite nth_error_app1 in Hn by exact Lt.
    rewrite firstn_app. replace (i - length evs)%nat with 0%nat by lia.
    cbn. rewrite app_nil_r. now apply (H i c' x' Hn a m).
  - rewrite nth_error_app2 in Hn by exact Ge.
    destruct (i - length evs)%nat as [|k] eqn:Ek;
      [|destruct k; discriminate].
    cbn in Hn. inversion Hn; subst c' x'.
    assert (i = length evs) by lia. subst i.
    rewrite firstn_app, firstn_all, Nat.sub_diag. cbn.
    rewrite app_nil_r. now apply (Hx a m).
Qed.

Lemma is_producer_unique recs n a m m' :
  is_producer recs n a m -> is_producer recs n a m' -> m = m'.
Proof.
  intros (L1 & W1 & N1) (L2 & W2 & N2).
  destruct (Z.lt_trichotomy m m') as [H|[H|H]]; [|exact H|].
  - exfalso. apply (N1 m'); [lia | exact W2].
  - exfalso. apply (N2 m); [lia | exact W1].
Qed.

(** A source's state survives a step that adds events and leaves the flags
    and the number of a producer's entry that is not written back alone. *)
Lemma src_state_keep recs p p' n a tag rdy :
  (forall m, written_back (events p) m -> written_back (events p') m) ->
  (valid (entries (rob p) tag) = true ->
   ready (entries (rob p) tag) = false ->
   valid (entries (rob p') tag) = true
   /\ ready (entries (rob p') tag) = false
   /\ inst_num (inst (entries (rob p') tag))
      = inst_num (inst (entries (rob p) tag))) ->
  src_state recs p n a tag rdy -> src_state recs p' n a tag rdy.
Proof.
  intros Hev Hrob H Ha. specialize (H Ha). destruct rdy.
  - intros m Hm. apply Hev. now apply H.
  - destruct H as (V & R & P). destruct (Hrob V R) as (V' & R' & N').
    split; [exact V'|]. split; [exact R'|]. rewrite N'. exact P.
Qed.

Lemma latch_ok_keep p p' x :
  (valid (entries (rob p) (dr_tag x)) = true ->
   ready (entries (rob p) (dr_tag x)) = false ->
   valid (entries (rob p') (dr_tag x)) = true
   /\ ready (entries (rob p') (dr_tag x)) = false
   /\ inst_num (inst (entries (rob p') (dr_tag x)))
      = inst_num (inst (entries (rob p) (dr_tag x)))
   /\ (exec (entries (rob p) (dr_tag x)) = true ->
       exec (entries (rob p') (dr_tag x)) = true)) ->
  latch_ok p x -> latch_ok p' x.
Proof.
  intros H (V & N & E & R). destruct (H V R) as (V' & R' & N' & E').
  unfold latch_ok. rewrite N'. repeat split; auto.
Qed.

Lemma dep_inv_same recs p p' :
  rob p' = rob p -> events p' = events p ->
  SC_latch p' = SC_latch p -> EX_latch p' = EX_latch p ->
  stat_retired_inst p' = stat_retired_inst p ->
  dep_inv recs p -> dep_inv recs p'.
Proof.
  intros Er Ee Es Ex Et.
  unfold dep_inv, src_state, latch_ok, latches_distinct.
  rewrite Er, Ee, Es, Ex, Et. auto.
Qed.

Section DepInv.

Variable cfg : Config.
Variable junk : InstInfo.
Variable bound : Z.
Variable recs : list TraceRec.
Hypothesis cfg_ok : config_ok cfg.

Local Abbreviation N := (NUM_ROB_ENTRIES cfg).

Lemma dep_inv_commit i p :
  pipe_inv cfg bound p -> rob_check_head (rob p) = true ->
  dep_inv recs p -> dep_inv recs (commit_lane cfg junk i p).
Proof.
  intros Inv Hh (D & E & F & Gs & Ge & U & S).
  destruct (commit_lane_effect cfg junk i p Hh)
    as (Er & Es & _ & _ & _ & _ & Fr & (c0 & rest & Ev & Hrest)).
  pose proof (@no_schedule_commit c0
                (inst (entries (rob p) (head_ptr (rob p)))) rest Hrest) as Hq.
  set (p' := commit_lane cfg junk i p) in *.
  assert (Esc : SC_latch p' = SC_latch p) by (rewrite <- Fr; reflexivity).
  assert (Eex : EX_latch p' = EX_latch p) by (rewrite <- Fr; reflexivity).
  apply rob_check_head_true in Hh.
  rewrite (rob_remove_head_ready _ _ _ Hh) in Er. cbn [snd] in Er.
  destruct (pipe_inv_retired_small Inv) as (R0 & Rs & _).
  rewrite u64_small in Es by lia.
  destruct Inv as (len & Fifo & _).
  destruct (rob_remove_head_fifo (proj2 cfg_ok) junk Fifo Hh)
    as (_ & Hnum & _).
  rewrite (rob_remove_head_ready _ _ _ Hh) in Hnum. cbn [fst] in Hnum.
  apply andb_prop in Hh. destruct Hh as [Vh Rh].
  set (h := head_ptr (rob p)) in *.
  assert (Mono : forall m, written_back (events p) m ->
                   written_back (events p') m).
  { intros m Hm. rewrite Ev. now apply written_back_app. }
  assert (Keep : forall j, j <> h -> entries (rob p') j = entries (rob p) j).
  { intros j Hj. rewrite Er. cbn. now apply upd_other. }
  assert (Was : forall j, valid (entries (rob p') j) = true ->
                  j <> h /\ valid (entries (rob p) j) = true).
  { intros j Vj. rewrite Er in Vj. cbn in Vj. unfold upd in Vj.
    destruct (Z.eqb_spec j h) as [E0|E0]; [discriminate | auto]. }
  assert (Unready : forall t, valid (entries (rob p) t) = true ->
            ready (entries (rob p) t) = false ->
            valid (entries (rob p') t) = true
            /\ ready (entries (rob p') t) = false
            /\ inst_num (inst (entries (rob p') t))
               = inst_num (inst (entries (rob p) t))
            /\ (exec (entries (rob p) t) = true ->
                exec (entries (rob p') t) = true)).
  { intros t Vt Rt. assert (t <> h) by (intros ->; congruence).
    rewrite Keep by assumption. auto. }
  split; [|split; [|split; [|split; [|split; [|split]]]]].
  - intros m Hm. rewrite Es in Hm.
    destruct (Z.eq_dec m (stat_retired_inst p + 1)) as [->|Hne].
    + apply Mono. rewrite <- Hnum. now apply (E h).
    + apply Mono, D. lia.
  - intros j Vj Rj. destruct (Was j Vj) as [Hj Vj0].
    rewrite Keep in Rj |- * by exact Hj.
    destruct (E j Vj0 Rj) as [A B]. split; [exact A | now apply Mono].
  - intros j Vj. destruct (Was j Vj) as [Hj Vj0].
    rewrite Keep by exact Hj. destruct (F j Vj0) as [F1 F2].
    split; (eapply src_state_keep; [exact Mono | | eassumption]);
      intros V R; destruct (Unready _ V R) as (A & B & C & _); auto.
  - intros k Vk. rewrite Esc in Vk |- *.
    apply (@latch_ok_keep p); [apply Unready | now apply Gs].
  - intros k Vk. rewrite Eex in Vk |- *.
    apply (@latch_ok_keep p); [apply Unready | now apply Ge].
  - unfold latches_distinct. rewrite Esc, Eex. exact U.
  - rewrite Ev. now apply raw_respected_app.
Qed.

Lemma writeback_lane_cells i p len :
  rob_ring N (rob p) len ->
  wb_active p i = true ->
  exists p',
    writeback_lane cfg i p = Some p'
    /\ events p'
       = events p ++ [EvWriteback (stat_num_cycle p) (linst (EX_latch p i))]
    /\ EX_latch p' = updn (EX_latch p) i (set_lvalid false (EX_latch p i))
    /\ SC_latch p' = SC_latch p
    /\ stat_retired_inst p' = stat_retired_inst p
    /\ forall j,
         cell_woken (dr_tag (linst (EX_latch p i)))
           (entries (rob p) j) (entries (rob p') j)
           (j =? dr_tag (linst (EX_latch p i))).
Proof.
  intros R A. unfold wb_active in A. unfold writeback_lane. rewrite A.
  set (t := dr_tag (linst (EX_latch p i))).
  destruct (rob_wakeup_spec (proj2 cfg_ok) t R)
    as (r1 & E1 & Hh & Ht & Hv & Hi).
  rewrite E1. cbn [bind]. eexists. split; [reflexivity|]. cbn. fold t.
  repeat (split; [reflexivity|]).
  assert (W : forall j, cell_woken t (entries (rob p) j) (entries r1 j) false).
  { intros j. destruct (valid (entries (rob p) j)) eqn:V.
    - rewrite Hv by exact V. unfold cell_woken, woken_slot. cbn.
      rewrite V, orb_false_r. repeat split; reflexivity.
    - rewrite Hi by exact V. unfold cell_woken. rewrite V. cbn.
      rewrite !orb_false_r. repeat split; reflexivity. }
  intros j. unfold upd. destruct (Z.eqb_spec j t) as [E|E].
  - rewrite E. destruct (W t) as (a1 & a2 & a3 & a4 & a5 & a6 & a7 & a8 & a9 & a10).
    unfold cell_woken. cbn. rewrite orb_true_r.
    repeat split; assumption.
  - apply W.
Qed.

Lemma dep_inv_writeback i p p' :
  (exists len, rob_ring N (rob p) len) ->
  wb_active p i = true ->
  writeback_lane cfg i p = Some p' ->
  dep_inv recs p -> dep_inv recs p'.
Proof.
  intros (len & R) A E0 (D & E & F & Gs & Ge & U & S).
  destruct (@writeback_lane_cells i p len R A)
    as (p2 & E2 & Ev & Eex & Esc & Est & C).
  rewrite E0 in E2. inversion E2; subst p2. clear E2.
  set (x := linst (EX_latch p i)) in *.
  set (t := dr_tag x) in *.
  assert (Vx : lvalid (EX_latch p i) = true).
  { unfold wb_active in A. apply andb_prop in A. tauto. }
  destruct (Ge i Vx) as (Lv & Ln & Le & Lr). fold x in Lv, Ln, Le, Lr.
  fold t in Lv, Ln, Le, Lr.
  assert (Mono : forall m, written_back (events p) m ->
                   written_back (events p') m).
  { intros m Hm. rewrite Ev. now apply written_back_app. }
  assert (New : written_back (events p') (inst_num x)).
  { exists (stat_num_cycle p), x. split; [|reflexivity].
    rewrite Ev. apply in_or_app. right. now left. }
  assert (Other : forall tk, tk <> t ->
            valid (entries (rob p) tk) = true ->
            ready (entries (rob p) tk) = false ->
            valid (entries (rob p') tk) = true
            /\ ready (entries (rob p') tk) = false
            /\ inst_num (inst (entries (rob p') tk))
               = inst_num (inst (entries (rob p) tk))
            /\ (exec (entries (rob p) tk) = true ->
                exec (entries (rob p') tk) = true)).
  { intros tk Hne V Rd.
    destruct (C tk) as (c1 & c2 & c3 & c4 & _).
    rewrite c1, c2, c3, c4, Rd.
    destruct (Z.eqb_spec tk t); [contradiction|]. auto. }
  destruct U as (U1 & U2 & U3).
  split; [|split; [|split; [|split; [|split; [|split]]]]].
  - intros m Hm. rewrite Est in Hm. now apply Mono, D.
  - intros j Vj Rj.
    destruct (C j) as (c1 & c2 & c3 & c4 & _).
    rewrite c1 in Vj. rewrite c2, c4. rewrite c3 in Rj.
    destruct (Z.eqb_spec j t) as [Ej|Ej].
    + rewrite Ej. split; [exact Le|]. now rewrite Ln.
    + rewrite orb_false_r in Rj. destruct (E j Vj Rj) as [a b].
      split; [exact a | now apply Mono].
  - intros j Vj.
    destruct (C j) as (c1 & c2 & c3 & c4 & c5 & c6 & c7 & c8 & c9 & c10).
    rewrite c1 in Vj. rewrite c4, c5, c6, c7, c8, c9, c10, Vj.
    cbn [andb]. destruct (F j Vj) as [F1 F2].
    assert (Src : forall a tag rdy,
              src_state recs p (inst_num (inst (entries (rob p) j)))
                a tag rdy ->
              src_state recs p' (inst_num (inst (entries (rob p) j)))
                a tag (rdy || (tag =? t))).
    { intros a tag rdy H Ha. specialize (H Ha). destruct rdy; cbn [orb].
      - intros m Hm. now apply Mono, H.
      - destruct H as (V & Rd & P).
        destruct (Z.eqb_spec tag t) as [Et|Et].
        + intros m Hm. rewrite (is_producer_unique Hm P), Et, Ln.
          exact New.
        + destruct (Other tag Et V Rd) as (V' & R' & N' & _).
          rewrite N'. auto. }
    split; apply Src; assumption.
  - intros k Vk. rewrite Esc in Vk |- *.
    apply (@latch_ok_keep p); [|now apply Gs].
    apply Other. apply (U3 k i Vk Vx).
  - intros k Vk. rewrite Eex in Vk |- *.
    destruct (Nat.eq_dec k i) as [->|Hk];
      [rewrite updn_same in Vk; discriminate|].
    rewrite updn_other in Vk |- * by exact Hk.
    apply (@latch_ok_keep p); [|now apply Ge].
    apply Other. intros Et. apply Hk. now apply (U2 k i Vk Vx).
  - unfold latches_distinct. rewrite Esc, Eex.
    split; [exact U1|]. split.
    + intros k k' Vk Vk' Et.
      destruct (Nat.eq_dec k i) as [->|Hk];
        [rewrite updn_same in Vk; discriminate|].
      destruct (Nat.eq_dec k' i) as [->|Hk'];
        [rewrite updn_same in Vk'; discriminate|].
      rewrite (updn_other _ _ Hk) in Vk, Et.
      rewrite (updn_other _ _ Hk') in Vk', Et. now apply U2.
    + intros k k' Vk Vk'.
      destruct (Nat.eq_dec k' i) as [->|Hk'];
        [rewrite updn_same in Vk'; discriminate|].
      rewrite updn_other in Vk' |- * by assumption. now apply U3.
  - rewrite Ev. apply raw_respected_app; [|exact S].
    intros c0 x0 [H|[]]. discriminate.
Qed.

Lemma dep_inv_exe p :
  LOAD_EXE_CYCLES cfg = 1 ->
  dep_inv recs p -> dep_inv recs (pipe_cycle_exe cfg p).
Proof.
  intros HL (D & E & F & Gs & Ge & (U1 & U2 & U3) & S).
  destruct (@pipe_cycle_exe_single cfg p HL) as (In & Out & Fr).
  cbv zeta in In, Out, Fr.
  set (p' := pipe_cycle_exe cfg p) in *. clearbody p'.
  assert (Er : rob p' = rob p) by (rewrite <- Fr; reflexivity).
  assert (Ee : events p' = events p) by (rewrite <- Fr; reflexivity).
  assert (Et : stat_retired_inst p' = stat_retired_inst p)
    by (rewrite <- Fr; reflexivity).
  (* a valid SC latch afterwards is an old SC latch beyond the width *)
  assert (Sc : forall k, lvalid (SC_latch p' k) = true ->
            (PIPE_WIDTH cfg <= k)%nat /\ SC_latch p' k = SC_latch p k
            /\ lvalid (SC_latch p k) = true).
  { intros k Vk. destruct (Nat.lt_ge_cases k (PIPE_WIDTH cfg)) as [Lt|Ge0].
    - destruct (In k Lt) as [_ Vf]. congruence.
    - destruct (Out k Ge0) as [_ Es]. rewrite Es in Vk. auto. }
  (* a valid EX latch afterwards is an old SC latch of the lane, or the
     old EX latch of a lane without a valid SC latch *)
  assert (Exl : forall k, lvalid (EX_latch p' k) = true ->
            ((k < PIPE_WIDTH cfg)%nat /\ lvalid (SC_latch p k) = true
             /\ EX_latch p' k = SC_latch p k)
            \/ (((PIPE_WIDTH cfg <= k)%nat \/ lvalid (SC_latch p k) = false)
                /\ lvalid (EX_latch p k) = true
                /\ EX_latch p' k = EX_latch p k)).
  { intros k Vk. destruct (Nat.lt_ge_cases k (PIPE_WIDTH cfg)) as [Lt|Ge0].
    - destruct (In k Lt) as [M _]. unfold exe_lane_moved in M.
      destruct (lvalid (SC_latch p k)) eqn:Vs.
      + left. destruct M as [M _]. auto.
      + right. destruct M as [M _]. rewrite M in Vk. auto.
    - right. destruct (Out k Ge0) as [M _]. rewrite M in Vk. auto. }
  unfold dep_inv, src_state, latch_ok, latches_distinct.
  rewrite Er, Ee, Et.
  split; [exact D|]. split; [exact E|]. split; [exact F|].
  split; [|split; [|split; [|exact S]]].
  - intros k Vk. destruct (Sc k Vk) as (_ & Es & Vs). rewrite Es.
    now apply Gs.
  - intros k Vk.
    destruct (Exl k Vk) as [(_ & Vs & Es)|(_ & Ve & Es)]; rewrite Es.
    + now apply Gs.
    + now apply Ge.
  - split; [|split].
    + intros k k' Vk Vk'.
      destruct (Sc k Vk) as (_ & Es & Vs).
      destruct (Sc k' Vk') as (_ & Es' & Vs'). rewrite Es, Es'.
      now apply U1.
    + intros k k' Vk Vk'.
      destruct (Exl k Vk) as [(Lt & Vs & Es)|(Or & Ve & Es)];
        destruct (Exl k' Vk') as [(Lt' & Vs' & Es')|(Or' & Ve' & Es')];
        rewrite Es, Es'; intros Etag.
      * now apply U1.
      * exfalso. now apply (U3 k k' Vs Ve').
      * exfalso. symmetry in Etag. now apply (U3 k' k Vs' Ve).
      * now apply U2.
    + intros k k' Vk Vk'.
      destruct (Sc k Vk) as (Ge0 & Es & Vs).
      destruct (Exl k' Vk') as [(Lt' & Vs' & Es')|(Or' & Ve' & Es')];
        rewrite Es, Es'.
      * intros Etag. pose proof (U1 k k' Vs Vs' Etag). lia.
      * now apply U3.
Qed.

Lemma dep_inv_hold i p : dep_inv recs p -> dep_inv recs (sched_hold i p).
Proof.
  intros (D & E & F & Gs & Ge & (U1 & U2 & U3) & S).
  assert (Sc : forall k, lvalid (SC_latch (sched_hold i p) k) = true ->
            SC_latch (sched_hold i p) k = SC_latch p k
            /\ lvalid (SC_latch p k) = true).
  { intros k Vk. unfold sched_hold in *. cbn in *. unfold updn in *.
    destruct (Nat.eqb k i); [discriminate | auto]. }
  split; [exact D|]. split; [exact E|]. split; [exact F|].
  split; [|split; [exact Ge|split; [|exact S]]].
  - intros k Vk. destruct (Sc k Vk) as [Es Vs]. rewrite Es.
    now apply Gs.
  - split; [|split; [exact U2|]].
    + intros k k' Vk Vk'. destruct (Sc k Vk) as [Es Vs].
      destruct (Sc k' Vk') as [Es' Vs']. rewrite Es, Es'. now apply U1.
    + intros k k' Vk Vk'. destruct (Sc k Vk) as [Es Vs]. rewrite Es.
      now apply U3.
Qed.

Lemma dep_inv_send i j p :
  rat_inv p ->
  unscheduled (entries (rob p) j) = true ->
  sources_ready (entries (rob p) j) = true ->
  dep_inv recs p -> dep_inv recs (sched_send i j p).
Proof.
  intros (Dt & _) Un Sr (D & E & F & Gs & Ge & (U1 & U2 & U3) & S).
  unfold unscheduled in Un. apply andb_prop in Un. destruct Un as [Vj Xj].
  apply negb_true_iff in Xj.
  set (x := inst (entries (rob p) j)) in *.
  assert (Dx : dr_tag x = j) by (now apply Dt).
  assert (Rj : ready (entries (rob p) j) = false).
  { destruct (ready (entries (rob p) j)) eqn:Rd; [|reflexivity].
    destruct (E j Vj Rd) as [Ex _]. congruence. }
  set (p' := sched_send i j p).
  assert (Er : entries (rob p')
               = upd (entries (rob p)) j (set_exec true (entries (rob p) j))).
  { subst p'. unfold sched_send, rob_mark_exec. cbn. fold x.
    now rewrite Dx. }
  assert (Es : SC_latch p'
               = updn (SC_latch p) i
                   (mkLatch true (lstall (SC_latch p i)) x)).
  { subst p'. unfold sched_send. cbn.
    rewrite inst_after_mark_exec. reflexivity. }
  assert (Ev : events p' = events p ++ [EvSchedule (stat_num_cycle p) x]).
  { subst p'. unfold sched_send. cbn.
    rewrite inst_after_mark_exec. reflexivity. }
  assert (Eex : EX_latch p' = EX_latch p) by reflexivity.
  assert (Et : stat_retired_inst p' = stat_retired_inst p) by reflexivity.
  clearbody p'.
  assert (Cell : forall k,
            valid (entries (rob p') k) = valid (entries (rob p) k)
            /\ ready (entries (rob p') k) = ready (entries (rob p) k)
            /\ inst (entries (rob p') k) = inst (entries (rob p) k)
            /\ (exec (entries (rob p) k) = true ->
                exec (entries (rob p') k) = true)).
  { intros k. rewrite Er. unfold upd.
    destruct (Z.eqb_spec k j) as [->|]; cbn; auto. }
  assert (Mono : forall m, written_back (events p) m ->
                   written_back (events p') m).
  { intros m Hm. rewrite Ev. now apply written_back_app. }
  assert (Lk : forall y, latch_ok p y -> latch_ok p' y).
  { intros y. apply latch_ok_keep. intros V R.
    destruct (Cell (dr_tag y)) as (c1 & c2 & c3 & c4).
    rewrite c1, c2, c3. auto. }
  assert (Busy : forall y, latch_ok p y -> dr_tag y <> j).
  { intros y (_ & _ & Ey & _) Ey'. rewrite Ey' in Ey. congruence. }
  assert (Lx : latch_ok p' x).
  { unfold latch_ok. rewrite Dx, Er, upd_same. cbn. auto. }
  split; [|split; [|split; [|split; [|split; [|split]]]]].
  - intros m Hm. rewrite Et in Hm. now apply Mono, D.
  - intros k Vk Rk. destruct (Cell k) as (c1 & c2 & c3 & c4).
    rewrite c1 in Vk. rewrite c2 in Rk. rewrite c3.
    destruct (E k Vk Rk) as [a b]. split; [now apply c4 | now apply Mono].
  - intros k Vk. destruct (Cell k) as (c1 & c2 & c3 & c4).
    rewrite c1 in Vk. rewrite c3. destruct (F k Vk) as [F1 F2].
    split; (eapply src_state_keep; [exact Mono | | eassumption]);
      intros V R; destruct (Cell (src1_tag (inst (entries (rob p) k))))
        as (d1 & d2 & d3 & _);
      destruct (Cell (src2_tag (inst (entries (rob p) k))))
        as (e1 & e2 & e3 & _);
      rewrite ?d1, ?d2, ?d3, ?e1, ?e2, ?e3; auto.
  - intros k Vk. rewrite Es in Vk |- *. unfold updn in *.
    destruct (Nat.eqb k i); cbn; [exact Lx | now apply Lk, Gs].
  - intros k Vk. rewrite Eex in Vk |- *. now apply Lk, Ge.
  - unfold latches_distinct. rewrite Es, Eex. split; [|split; [exact U2|]].
    + intros k k' Vk Vk' Etag. unfold updn in *.
      destruct (Nat.eqb_spec k i) as [Hk|Hk];
        destruct (Nat.eqb_spec k' i) as [Hk'|Hk']; cbn in *.
      * congruence.
      * exfalso. apply (Busy _ (Gs k' Vk')). congruence.
      * exfalso. apply (Busy _ (Gs k Vk)). congruence.
      * now apply U1.
    + intros k k' Vk Vk'. unfold updn in *.
      destruct (Nat.eqb_spec k i) as [Hk|Hk]; cbn in *.
      * intros Etag. apply (Busy _ (Ge k' Vk')). congruence.
      * now apply U3.
  - rewrite Ev. apply raw_respected_schedule; [exact S|].
    intros a m Ha Hs Hp. destruct (F j Vj) as [F1 F2]. fold x in F1, F2.
    unfold sources_ready, srcs_ready in Sr. cbn in Sr. fold x in Sr.
    apply andb_prop in Sr. destruct Sr as [S1 S2].
    destruct Hs as [Hs|Hs].
    + rewrite Hs in S1, F1.
      destruct (Z.eqb_spec a (-1)) as [|_]; [contradiction|].
      cbn in S1. rewrite S1 in F1. now apply (F1 Ha).
    + rewrite Hs in S2, F2.
      destruct (Z.eqb_spec a (-1)) as [|_]; [contradiction|].
      cbn in S2. rewrite S2 in F2. now apply (F2 Ha).
Qed.

(** *** The issue stage *)

Lemma from_trace_writes x a :
  from_trace recs x -> (writes recs (inst_num x) a <-> dest_reg x = a).
Proof.
  intros (k & r & Hk & Ha). unfold arch_of, arch_of_rec in Ha.
  assert (A1 : inst_num x = Z.of_nat k + 1) by congruence.
  assert (A3 : dest_reg x = if tr_dest_needed r then tr_dest_reg r else -1)
    by congruence.
  split.
  - intros (k' & r' & Hk' & Em & Ed).
    assert (k' = k) by lia. subst k'. rewrite Hk in Hk'.
    inversion Hk'; subst r'. now rewrite A3.
  - intros Ed. exists k, r. split; [exact Hk|]. split; [exact A1|].
    now rewrite <- A3.
Qed.

Lemma from_trace_src_range x :
  Forall regs_ok recs -> from_trace recs x ->
  (src1_reg x = -1 \/ 0 <= src1_reg x < MAX_ARF_REGS)
  /\ (src2_reg x = -1 \/ 0 <= src2_reg x < MAX_ARF_REGS).
Proof.
  intros Hf (k & r & Hk & Ha). unfold arch_of, arch_of_rec in Ha.
  assert (A4 : src1_reg x = if tr_src1_needed r then tr_src1_reg r else -1)
    by congruence.
  assert (A5 : src2_reg x = if tr_src2_needed r then tr_src2_reg r else -1)
    by congruence.
  apply nth_error_In in Hk.
  rewrite Forall_forall in Hf. destruct (Hf r Hk) as (_ & R1 & R2).
  rewrite A4, A5. split.
  - destruct (tr_src1_needed r); [right; now apply R1 | now left].
  - destruct (tr_src2_needed r); [right; now apply R2 | now left].
Qed.

(** The state of a source renamed by the issue stage, for the instruction
    [n] inserted at the free tail slot [idx]. *)
Lemma renamed_src_state q q' idx len n a tag rdy :
  traced cfg recs q -> rat_inv q -> dep_inv recs q ->
  rob_fifo N (rob q) (stat_retired_inst q) len ->
  n = stat_retired_inst q + 1 + len ->
  valid (entries (rob q) idx) = false ->
  (forall j, j <> idx -> entries (rob q') j = entries (rob q) j) ->
  (forall m, written_back (events q) m -> written_back (events q') m) ->
  a = -1 \/ 0 <= a < MAX_ARF_REGS ->
  renamed_src (rat q) (rob q') a tag rdy ->
  src_state recs q' n a tag rdy.
Proof.
  intros (_ & _ & Tr & _) (_ & R1 & R2) (D & E & _) Fifo En Free Keep Mono
         Hrange Hren Ha.
  destruct Hrange as [|Hrange]; [contradiction|].
  destruct (Hren Ha) as [Etag Erdy].
  pose proof (proj2 cfg_ok) as Hn.
  (* every instruction between the retired ones and [n] is in the ROB *)
  assert (InRob : forall m, stat_retired_inst q < m < n ->
            exists j, valid (entries (rob q) j) = true
                      /\ inst_num (inst (entries (rob q) j)) = m).
  { intros m Hm. destruct Fifo as ((_ & _ & _ & Hv & _) & Hnum).
    exists ((head_ptr (rob q) + (m - stat_retired_inst q - 1)) mod N).
    split; [apply Hv; lia | rewrite Hnum; lia]. }
  assert (Writer : forall j, valid (entries (rob q) j) = true ->
            writes recs (inst_num (inst (entries (rob q) j))) a ->
            rat_valid (rat_entries (rat q) a) = true
            /\ inst_num (inst (entries (rob q) j))
               <= inst_num (inst (entries (rob q)
                                    (prf_id (rat_entries (rat q) a))))).
  { intros j Vj Wj. apply (R2 a j Hrange Vj).
    now apply (from_trace_writes a (Tr j Vj)). }
  unfold rat_get_remap in Etag.
  destruct (rat_valid (rat_entries (rat q) a)) eqn:Va.
  - (* aliased: the tag names the youngest writer in the ROB *)
    set (t := prf_id (rat_entries (rat q) a)) in *.
    destruct (R1 a Hrange Va) as [Vt Dt]. fold t in Vt, Dt.
    destruct (fifo_slot cfg t Fifo Vt) as (k & Hk & Et & Nt).
    assert (Ht : t <> idx) by (intros ->; congruence).
    assert (Hpos : 0 <= t) by (rewrite Et; apply Z.mod_pos_bound; lia).
    assert (P : is_producer recs n a (inst_num (inst (entries (rob q) t)))).
    { split; [lia|]. split.
      - apply (from_trace_writes a (Tr t Vt)). exact Dt.
      - intros m' Hm' Wm'.
        destruct (InRob m') as (j' & Vj' & Nj'); [lia|].
        rewrite <- Nj' in Wm'. destruct (Writer j' Vj' Wm') as [_ Le].
        fold t in Le. lia. }
    subst tag. rewrite Keep in Erdy by exact Ht. rewrite Vt in Erdy.
    destruct (Z.eqb_spec t (-1)) as [|_]; [lia|]. cbn in Erdy.
    subst rdy. destruct (ready (entries (rob q) t)) eqn:Rt.
    + intros m Hm. rewrite (is_producer_unique Hm P).
      apply Mono. now apply (E t Vt Rt).
    + rewrite Keep by exact Ht. repeat split; try assumption.
      all: apply P.
  - (* not aliased: no writer is in the ROB, the producer has retired *)
    subst tag. cbn in Erdy. subst rdy.
    intros m (Lt & Wm & _). apply Mono.
    destruct (Z_le_gt_dec m (stat_retired_inst q)) as [Le|Gt].
    + apply D. destruct Wm as (k & _ & _ & Em & _). lia.
    + destruct (InRob m) as (j & Vj & Nj); [lia|].
      rewrite <- Nj in Wm. destruct (Writer j Vj Wm) as [Va' _].
      congruence.
Qed.

Lemma dep_inv_issue i q q' :
  Forall regs_ok recs ->
  traced cfg recs q -> rat_inv q ->
  (exists len len',
      rob_fifo N (rob q) (stat_retired_inst q) len
      /\ rob_fifo N (rob q') (stat_retired_inst q) len') ->
  issue_effect cfg i q q' ->
  dep_inv recs q -> dep_inv recs q'.
Proof.
  intros Hregs T Hrat (len & len' & Fq & Fq')
         (Fr & _ & _ & Cases & (extra & Ev & Hre)) Hdep.
  pose proof Hdep as (D & E & F & Gs & Ge & U & S).
  assert (Esc : SC_latch q' = SC_latch q) by (rewrite <- Fr; reflexivity).
  assert (Eex : EX_latch q' = EX_latch q) by (rewrite <- Fr; reflexivity).
  assert (Est : stat_retired_inst q' = stat_retired_inst q)
    by (rewrite <- Fr; reflexivity).
  assert (Mono : forall m, written_back (events q) m ->
                   written_back (events q') m).
  { intros m Hm. rewrite Ev. now apply written_back_app. }
  assert (Quiet : no_schedule extra).
  { intros c x Hin. destruct (Hre _ Hin) as [a Ea]. discriminate. }
  (* what is new in the ROB, if anything, is one entry in a free slot *)
  assert (New : exists idx,
            (forall j, j <> idx -> entries (rob q') j = entries (rob q) j)
            /\ (valid (entries (rob q) idx) = true ->
                entries (rob q') idx = entries (rob q) idx)
            /\ (valid (entries (rob q) idx) = false ->
                valid (entries (rob q') idx) = true ->
                ready (entries (rob q') idx) = false
                /\ src_state recs q'
                     (inst_num (inst (entries (rob q') idx)))
                     (src1_reg (inst (entries (rob q') idx)))
                     (src1_tag (inst (entries (rob q') idx)))
                     (src1_ready (inst (entries (rob q') idx)))
                /\ src_state recs q'
                     (inst_num (inst (entries (rob q') idx)))
                     (src2_reg (inst (entries (rob q') idx)))
                     (src2_tag (inst (entries (rob q') idx)))
                     (src2_ready (inst (entries (rob q') idx))))).
  { destruct Cases as [[Er _]|(Vi & Sp & Ins)].
    - exists 0. rewrite Er. split; [reflexivity|]. split; [reflexivity|].
      intros V V'. congruence.
    - destruct Ins as (Hh & Ht & Ho & Hv & Ha & Hd & Hr & Hx & Hrd & S1 & S2).
      set (idx := tail_ptr (rob q)) in *.
      set (x := linst (ID_latch q i)) in *.
      pose proof (proj2 cfg_ok) as Hn.
      pose proof Fq as (Rq & _).
      pose proof Rq as (Hl0 & _).
      assert (Hlen : len < N) by (now apply (check_space_ring Hn Rq)).
      assert (Eidx : idx = (head_ptr (rob q) + len) mod N)
        by (destruct Rq as (_ & _ & Et & _); exact Et).
      assert (Free : valid (entries (rob q) idx) = false).
      { destruct (valid (entries (rob q) idx)) eqn:V; [|reflexivity].
        destruct (fifo_slot cfg idx Fq V) as (k & Hk & Ek & _).
        rewrite Eidx in Ek. apply (slot_inj Hn) in Ek; lia. }
      assert (Enum : inst_num (inst (entries (rob q') idx))
                     = stat_retired_inst q + 1 + len).
      { destruct (fifo_slot cfg idx Fq' Hv) as (k' & Hk' & Ek' & Ni).
        rewrite Hh, Eidx in Ek'. pose proof Fq' as ((Hl' & _) & _).
        apply (slot_inj Hn) in Ek'; lia. }
      assert (Tx : from_trace recs x).
      { destruct T as (_ & Ti & _). now apply Ti. }
      destruct (from_trace_src_range Hregs Tx) as [Rg1 Rg2].
      unfold arch_of in Ha.
      assert (A4 : src1_reg (inst (entries (rob q') idx)) = src1_reg x)
        by congruence.
      assert (A5 : src2_reg (inst (entries (rob q') idx)) = src2_reg x)
        by congruence.
      exists idx. split; [exact Ho|]. split; [congruence|].
      intros _ _. split; [exact Hrd|]. rewrite A4, A5.
      split; eapply renamed_src_state; eauto. }
  destruct New as (idx & Keep & Same & Fresh).
  assert (Old : forall j, valid (entries (rob q) j) = true ->
                  entries (rob q') j = entries (rob q) j).
  { intros j Vj. destruct (Z.eq_dec j idx) as [->|Hj];
      [now apply Same | now apply Keep]. }
  assert (Lk : forall y, latch_ok q y -> latch_ok q' y).
  { intros y Ly. pose proof Ly as (V & _).
    unfold latch_ok in *. now rewrite (Old _ V). }
  assert (Src : forall n a tag rdy,
            src_state recs q n a tag rdy -> src_state recs q' n a tag rdy).
  { intros n a tag rdy. apply src_state_keep; [exact Mono|].
    intros V R. rewrite (Old _ V). auto. }
  split; [|split; [|split; [|split; [|split; [|split]]]]].
  - intros m Hm. rewrite Est in Hm. now apply Mono, D.
  - intros j Vj Rj.
    destruct (valid (entries (rob q) j)) eqn:V0.
    + rewrite (Old j V0) in Rj |- *. destruct (E j V0 Rj) as [a b].
      split; [exact a | now apply Mono].
    + destruct (Z.eq_dec j idx) as [->|Hj].
      * destruct (Fresh V0 Vj) as (Rd & _). congruence.
      * rewrite Keep in Vj by exact Hj. congruence.
  - intros j Vj.
    destruct (valid (entries (rob q) j)) eqn:V0.
    + rewrite (Old j V0). destruct (F j V0) as [F1 F2].
      split; now apply Src.
    + destruct (Z.eq_dec j idx) as [->|Hj].
      * destruct (Fresh V0 Vj) as (_ & F1 & F2). split; assumption.
      * rewrite Keep in Vj by exact Hj. congruence.
  - intros k Vk. rewrite Esc in Vk |- *. now apply Lk, Gs.
  - intros k Vk. rewrite Eex in Vk |- *. now apply Lk, Ge.
  - unfold latches_distinct. rewrite Esc, Eex. exact U.
  - rewrite Ev. now apply raw_respected_app.
Qed.

Lemma dep_inv_init around trace : dep_inv recs (pipe_init around trace).
Proof.
  unfold dep_inv, pipe_init, latches_distinct. cbn.
  split; [intros m Hm; lia|]. split; [discriminate|].
  split; [discriminate|]. split; [discriminate|]. split; [discriminate|].
  split; [repeat split; discriminate|].
  intros i c x Hn. destruct i; discriminate.
Qed.

End DepInv.

Lemma dep_inv_fetch cfg recs i p :
  dep_inv recs p -> dep_inv recs (pipe_fetch_inst cfg p i).
Proof.
  apply dep_inv_same; unfold pipe_fetch_inst, fetch_error;
    destruct (trace_fd p) as [|r rest]; cbn;
    repeat match goal with
           | |- context [if ?c then _ else _] => destruct c; cbn
           end; reflexivity.
Qed.

Lemma dep_inv_decode recs i q q' :
  decode_effect i q q' -> dep_inv recs q -> dep_inv recs q'.
Proof.
  intros [->|(j & _ & _ & _ & ->)] H; exact H.
Qed.

Lemma regs_ok_accepted cfg trace :
  Forall regs_ok trace -> Forall regs_ok (accepted cfg trace).
Proof.
  intros H. rewrite Forall_forall in *. intros r Hr.
  apply H. unfold accepted in Hr. apply filter_In in Hr. tauto.
Qed.

(** X16. The scheduler respects data dependences.  Take single-cycle
    execution ([LOAD_EXE_CYCLES = 1]) and a trace whose needed registers are
    architectural registers (0 to 31).  In a run from [pipe_init], under
    either scheduling policy, whenever an instruction is scheduled, then for
    each source register it reads, the producer of that register (the last
    instruction before it in program order that writes the register, if
    there is one) has been written back before: its writeback event is
    earlier in the log than the schedule event.  No instruction starts to
    execute before the values it reads have been produced. *)
Theorem schedule_respects_dependences
        (cfg : Config) (junk : InstInfo) (around : Z -> RATEntry)
        (trace : list TraceRec) (n : nat) :
  config_ok cfg ->
  LOAD_EXE_CYCLES cfg = 1 ->
  Forall regs_ok trace ->
  Z.of_nat (length trace) + 1 < 2 ^ 64 ->
  exists p,
    cycles cfg junk n (pipe_init around trace) = Some p
    /\ raw_respected (accepted cfg trace) (events p).
Proof.
  intros Hc HL Hregs Hb.
  set (recs := accepted cfg trace).
  assert (Hs : Z.of_nat (length recs) + 1 < 2 ^ 64).
  { pose proof (filter_length_le
                  (fun r => negb (NUM_OP_TYPES cfg <=? tr_op_type r)) trace).
    subst recs. unfold accepted. lia. }
  assert (Hr : Forall regs_ok recs) by now apply regs_ok_accepted.
  destruct (@cycles_ind cfg junk (Z.of_nat (length trace)) Hc
              (fun p => traced cfg recs p /\ rat_inv p /\ dep_inv recs p))
    with (n := n) (p := pipe_init around trace)
    as (p & E & _ & _ & _ & D).
  - intros p H. exact H.
  - intros i p Inv Hh (T & R & D).
    split; [now apply traced_commit|].
    split; [eapply rat_inv_commit; eauto|].
    eapply dep_inv_commit; eauto.
  - intros i p p' Inv A E (T & R & D).
    pose proof (writeback_lane_keeps cfg i p E) as B.
    pose proof Inv as (len & (Hring & _) & _).
    split; [now apply (traced_back B)|].
    split; [now apply (rat_inv_back B)|].
    eapply dep_inv_writeback; eauto.
  - intros i p (T & R & D). pose proof (sched_hold_keeps i p) as B.
    split; [now apply (traced_back B)|].
    split; [now apply (rat_inv_back B) | now apply dep_inv_hold].
  - intros i j p _ U S (T & R & D). pose proof (sched_send_keeps i j p) as B.
    split; [now apply (traced_back B)|].
    split; [now apply (rat_inv_back B) | now apply dep_inv_send].
  - intros p (T & R & D).
    split; [now apply traced_exe|].
    split; [now apply rat_inv_exe | now apply dep_inv_exe].
  - intros p (T & R & D).
    split; [now apply traced_sort|]. split; [exact R|exact D].
  - intros i q q' Hf I (T & R & D).
    split; [now apply (traced_issue I)|].
    split; [eapply rat_inv_issue; eauto|].
    eapply dep_inv_issue; eauto.
  - intros i q q' De (T & R & D).
    split; [now apply (traced_decode De)|].
    split; [now apply (rat_inv_decode De) | now apply (dep_inv_decode De)].
  - intros i q Inv _ (T & R & D).
    split; [now apply traced_fetch|].
    split; [now apply rat_inv_fetch | now apply dep_inv_fetch].
  - now apply pipe_init_inv.
  - split; [now apply traced_init|].
    split; [apply rat_inv_init | apply dep_inv_init].
  - exists p. split; [exact E|]. apply D.
Qed.

Lemma schedule_respects_dependences_witness :
  written_back (firstn 4 (events (after cfg_scalar 9 trace_raw))) 1.
Proof.
  destruct (@schedule_respects_dependences cfg_scalar inst_zero around_clear
              trace_raw 9) as (p & E & R).
  - unfold config_ok, MAX_PIPE_WIDTH, MAX_ROB_ENTRIES. simpl. lia.
  - reflexivity.
  - unfold trace_raw, regs_ok, MAX_ARF_REGS.
    repeat constructor; cbn; intros; try discriminate; lia.
  - vm_compute. reflexivity.
  - assert (Ep : p = after cfg_scalar 9 trace_raw)
      by (unfold after; rewrite E; reflexivity).
    rewrite Ep in R.
    eapply (R 4%nat) with (a := 1).
    + vm_compute. reflexivity.
    + lia.
    + left. reflexivity.
    + split; [cbn; lia|]. split.
      * exists 0%nat. eexists. split; [reflexivity|]. split; reflexivity.
      * intros m' Hm'. cbn in Hm'. lia.
Defined.
(** ** The life of an instruction *)

Lemma scheduled_app evs l m : scheduled evs m -> scheduled (evs ++ l) m.
Proof.
  intros (c & x & Hin & E). exists c, x. split; [|exact E].
  apply in_or_app. now left.
Qed.

Lemma scheduled_quiet evs l m :
  quiet l -> scheduled (evs ++ l) m -> scheduled evs m.
Proof.
  intros Hq (c & x & Hin & E). exists c, x. split; [|exact E].
  apply in_app_or in Hin. destruct Hin as [H|H]; [exact H|].
  exfalso. exact (Hq _ H).
Qed.

Lemma written_back_quiet evs l m :
  quiet l -> written_back (evs ++ l) m -> written_back evs m.
Proof.
  intros Hq (c & x & Hin & E). exists c, x. split; [|exact E].
  apply in_app_or in Hin. destruct Hin as [H|H]; [exact H|].
  exfalso. exact (Hq _ H).
Qed.

Lemma scheduled_snoc evs e m :
  (forall c x, e <> EvSchedule c x) ->
  scheduled (evs ++ [e]) m -> scheduled evs m.
Proof.
  intros He (c & x & Hin & E). exists c, x. split; [|exact E].
  apply in_app_or in Hin. destruct Hin as [H|[H|[]]]; [exact H|].
  exfalso. now apply (He c x).
Qed.

Lemma written_back_snoc evs e m :
  (forall c x, e <> EvWriteback c x) ->
  written_back (evs ++ [e]) m -> written_back evs m.
Proof.
  intros He (c & x & Hin & E). exists c, x. split; [|exact E].
  apply in_app_or in Hin. destruct Hin as [H|[H|[]]]; [exact H|].
  exfalso. now apply (He c x).
Qed.

Lemma quiet_rat l : rat_events l -> quiet l.
Proof.
  intros H e He. destruct (H _ He) as [a ->]. exact I.
Qed.

Lemma quiet_commit c x l : rat_events l -> quiet (EvCommit c x :: l).
Proof.
  intros H e [<-|He]; [exact I|]. now apply (quiet_rat H).
Qed.

Lemma lifecycle_snoc evs e :
  lifecycle_ordered evs -> event_ok evs e -> lifecycle_ordered (evs ++ [e]).
Proof.
  intros H He i e' Hn.
  destruct (Nat.lt_ge_cases i (length evs)) as [Lt|Ge].
  - rewrite nth_error_app1 in Hn by exact Lt.
    rewrite firstn_app. replace (i - length evs)%nat with 0%nat by lia.
    cbn. rewrite app_nil_r. now apply H.
  - rewrite nth_error_app2 in Hn by exact Ge.
    destruct (i - length evs)%nat as [|k] eqn:Ek;
      [|destruct k; discriminate].
    cbn in Hn. inversion Hn; subst e'.
    assert (i = length evs) by lia. subst i.
    rewrite firstn_app, firstn_all, Nat.sub_diag. cbn.
    rewrite app_nil_r. exact He.
Qed.

Lemma lifecycle_rat l : forall evs,
  rat_events l -> lifecycle_ordered evs -> lifecycle_ordered (evs ++ l).
Proof.
  induction l as [|a l IH]; intros evs Hr H.
  - now rewrite app_nil_r.
  - replace (evs ++ a :: l) with ((evs ++ [a]) ++ l)
      by (rewrite <- app_assoc; reflexivity).
    apply IH.
    + intros e He. apply Hr. now right.
    + apply lifecycle_snoc; [exact H|].
      destruct (Hr a (or_introl eq_refl)) as [r ->]. exact I.
Qed.

Lemma life_inv_same p p' :
  rob p' = rob p -> events p' = events p ->
  SC_latch p' = SC_latch p -> EX_latch p' = EX_latch p ->
  stat_retired_inst p' = stat_retired_inst p ->
  life_inv p -> life_inv p'.
Proof.
  intros Er Ee Es Ex Et. unfold life_inv.
  rewrite Er, Ee, Es, Ex, Et. auto.
Qed.

Section LifeInv.

Variable cfg : Config.
Variable junk : InstInfo.
Variable bound : Z.
Variable recs : list TraceRec.
Hypothesis cfg_ok : config_ok cfg.

Local Abbreviation N := (NUM_ROB_ENTRIES cfg).

(** In a FIFO ring an instruction number names at most one valid slot, and
    is beyond the retired ones. *)
Lemma fifo_num_unique r retired len j j' :
  rob_fifo N r retired len ->
  valid (entries r j) = true -> valid (entries r j') = true ->
  inst_num (inst (entries r j)) = inst_num (inst (entries r j')) ->
  j = j'.
Proof.
  intros F V V' E.
  destruct (fifo_slot cfg j F V) as (k & Hk & Ek & Nk).
  destruct (fifo_slot cfg j' F V') as (k' & Hk' & Ek' & Nk').
  assert (k = k') by lia. congruence.
Qed.

Lemma fifo_num_above r retired len j :
  rob_fifo N r retired len ->
  valid (entries r j) = true ->
  retired < inst_num (inst (entries r j)).
Proof.
  intros F V. destruct (fifo_slot cfg j F V) as (k & Hk & Ek & Nk). lia.
Qed.

Lemma life_inv_commit i p :
  pipe_inv cfg bound p -> rob_check_head (rob p) = true ->
  dep_inv recs p -> life_inv p -> life_inv (commit_lane cfg junk i p).
Proof.
  intros Inv Hh (_ & E & _) (A1 & A2 & A3 & A4 & A5).
  destruct (commit_lane_effect cfg junk i p Hh)
    as (Er & Es & _ & _ & _ & _ & Fr & (c0 & rest & Ev & Hrest)).
  set (p' := commit_lane cfg junk i p) in *.
  assert (Esc : SC_latch p' = SC_latch p) by (rewrite <- Fr; reflexivity).
  assert (Eex : EX_latch p' = EX_latch p) by (rewrite <- Fr; reflexivity).
  apply rob_check_head_true in Hh.
  rewrite (rob_remove_head_ready _ _ _ Hh) in Er. cbn [snd] in Er.
  destruct (pipe_inv_retired_small Inv) as (R0 & Rs & _).
  rewrite u64_small in Es by lia.
  destruct Inv as (len & Fifo & _).
  destruct (rob_remove_head_fifo (proj2 cfg_ok) junk Fifo Hh)
    as (_ & Hnum & _).
  rewrite (rob_remove_head_ready _ _ _ Hh) in Hnum. cbn [fst] in Hnum.
  apply andb_prop in Hh. destruct Hh as [Vh Rh].
  set (h := head_ptr (rob p)) in *.
  pose proof (@quiet_commit c0 (inst (entries (rob p) h)) rest Hrest) as Hq.
  assert (Stay : forall m j,
            valid (entries (rob p) j) = true ->
            inst_num (inst (entries (rob p) j)) = m ->
            m <= stat_retired_inst p'
            \/ (valid (entries (rob p') j) = true
                /\ entries (rob p') j = entries (rob p) j)).
  { intros m j V Nm. destruct (Z.eq_dec j h) as [->|Hj].
    - left. rewrite Es, <- Nm, Hnum. lia.
    - right. rewrite Er. cbn. rewrite upd_other by exact Hj. auto. }
  split; [|split; [|split; [|split]]].
  - intros m Hm. rewrite Ev in Hm. apply scheduled_quiet in Hm; [|exact Hq].
    destruct (A1 m Hm) as [Le|(j & V & Nm & X)]; [left; lia|].
    destruct (Stay m j V Nm) as [Le|(V' & Ec)]; [left; exact Le|].
    right. exists j. rewrite Ec. auto.
  - intros m Hm. rewrite Ev in Hm. apply written_back_quiet in Hm; [|exact Hq].
    destruct (A2 m Hm) as [Le|(j & V & Nm & X)]; [left; lia|].
    destruct (Stay m j V Nm) as [Le|(V' & Ec)]; [left; exact Le|].
    right. exists j. rewrite Ec. auto.
  - intros k Vk. rewrite Esc in Vk |- *. rewrite Ev.
    now apply scheduled_app, A3.
  - intros k Vk. rewrite Eex in Vk |- *. rewrite Ev.
    now apply scheduled_app, A4.
  - rewrite Ev.
    replace (events p ++ EvCommit c0 (inst (entries (rob p) h)) :: rest)
      with ((events p ++ [EvCommit c0 (inst (entries (rob p) h))]) ++ rest)
      by (rewrite <- app_assoc; reflexivity).
    apply lifecycle_rat; [exact Hrest|].
    apply lifecycle_snoc; [exact A5|]. cbn. now apply (E h).
Qed.

Lemma life_inv_writeback i p p' :
  pipe_inv cfg bound p ->
  wb_active p i = true ->
  writeback_lane cfg i p = Some p' ->
  dep_inv recs p -> life_inv p -> life_inv p'.
Proof.
  intros (len & Fifo & _) A E0 (_ & E & _ & _ & Ge & _)
         (A1 & A2 & A3 & A4 & A5).
  pose proof Fifo as (R & _).
  destruct (@writeback_lane_cells cfg cfg_ok i p len R A)
    as (p2 & E2 & Ev & Eex & Esc & Est & C).
  rewrite E0 in E2. inversion E2; subst p2. clear E2.
  set (x := linst (EX_latch p i)) in *.
  set (t := dr_tag x) in *.
  assert (Vx : lvalid (EX_latch p i) = true).
  { unfold wb_active in A. apply andb_prop in A. tauto. }
  destruct (Ge i Vx) as (Lv & Ln & Le & Lr). fold x in Lv, Ln, Le, Lr.
  fold t in Lv, Ln, Le, Lr.
  split; [|split; [|split; [|split]]].
  - intros m Hm. rewrite Ev in Hm.
    apply scheduled_snoc in Hm; [|discriminate].
    rewrite Est.
    destruct (A1 m Hm) as [Le0|(j & V & Nm & X)]; [left; exact Le0|].
    right. exists j. destruct (C j) as (c1 & c2 & c3 & c4 & _).
    rewrite c1, c2, c4. auto.
  - intros m Hm. rewrite Est.
    assert (Old : written_back (events p) m \/ m = inst_num x).
    { destruct Hm as (c & y & Hin & Ey). rewrite Ev in Hin.
      apply in_app_or in Hin. destruct Hin as [H|[H|[]]].
      - left. now exists c, y.
      - right. inversion H. congruence. }
    destruct Old as [Hm0| ->].
    + destruct (A2 m Hm0) as [Le0|(j & V & Nm & X)]; [left; exact Le0|].
      right. exists j. destruct (C j) as (c1 & c2 & c3 & c4 & _).
      rewrite c1, c3, c4, X. auto.
    + right. exists t. destruct (C t) as (c1 & c2 & c3 & c4 & _).
      rewrite c1, c3, c4, Z.eqb_refl, orb_true_r. auto.
  - intros k Vk. rewrite Esc in Vk |- *. rewrite Ev.
    now apply scheduled_app, A3.
  - intros k Vk. rewrite Eex in Vk |- *. rewrite Ev.
    apply scheduled_app.
    destruct (Nat.eq_dec k i) as [->|Hk];
      [rewrite updn_same in Vk; discriminate|].
    rewrite updn_other in Vk |- * by exact Hk. now apply A4.
  - rewrite Ev. apply lifecycle_snoc; [exact A5|]. cbn. split.
    + now apply A4.
    + intros Hw. destruct (A2 _ Hw) as [Le0|(j & V & Nm & X)].
      * pose proof (fifo_num_above t Fifo Lv). lia.
      * assert (j = t).
        { apply (fifo_num_unique j t Fifo V Lv). congruence. }
        subst j. congruence.
Qed.

Lemma life_inv_exe p :
  LOAD_EXE_CYCLES cfg = 1 ->
  life_inv p -> life_inv (pipe_cycle_exe cfg p).
Proof.
  intros HL (A1 & A2 & A3 & A4 & A5).
  destruct (@pipe_cycle_exe_single cfg p HL) as (In & Out & Fr).
  cbv zeta in In, Out, Fr.
  set (p' := pipe_cycle_exe cfg p) in *. clearbody p'.
  assert (Er : rob p' = rob p) by (rewrite <- Fr; reflexivity).
  assert (Ee : events p' = events p) by (rewrite <- Fr; reflexivity).
  assert (Et : stat_retired_inst p' = stat_retired_inst p)
    by (rewrite <- Fr; reflexivity).
  unfold life_inv. rewrite Er, Ee, Et.
  split; [exact A1|]. split; [exact A2|]. split; [|split; [|exact A5]].
  - intros k Vk. destruct (Nat.lt_ge_cases k (PIPE_WIDTH cfg)) as [Lt|Ge0].
    + destruct (In k Lt) as [_ Vf]. congruence.
    + destruct (Out k Ge0) as [_ Es]. rewrite Es in Vk |- *. now apply A3.
  - intros k Vk. destruct (Nat.lt_ge_cases k (PIPE_WIDTH cfg)) as [Lt|Ge0].
    + destruct (In k Lt) as [M _]. unfold exe_lane_moved in M.
      destruct (lvalid (SC_latch p k)) eqn:Vs.
      * destruct M as [M _]. rewrite M. now apply A3.
      * destruct M as [M _]. rewrite M in Vk |- *. now apply A4.
    + destruct (Out k Ge0) as [M _]. rewrite M in Vk |- *. now apply A4.
Qed.

Lemma life_inv_hold i p : life_inv p -> life_inv (sched_hold i p).
Proof.
  intros (A1 & A2 & A3 & A4 & A5).
  split; [exact A1|]. split; [exact A2|]. split; [|split; [exact A4|exact A5]].
  intros k Vk. unfold sched_hold in *. cbn in *. unfold updn in *.
  destruct (Nat.eqb k i); [discriminate | now apply A3].
Qed.

Lemma life_inv_send i j p :
  pipe_inv cfg bound p -> rat_inv p ->
  unscheduled (entries (rob p) j) = true ->
  life_inv p -> life_inv (sched_send i j p).
Proof.
  intros (len & Fifo & _) (Dt & _) Un (A1 & A2 & A3 & A4 & A5).
  unfold unscheduled in Un. apply andb_prop in Un. destruct Un as [Vj Xj].
  apply negb_true_iff in Xj.
  set (x := inst (entries (rob p) j)) in *.
  assert (Dx : dr_tag x = j) by (now apply Dt).
  set (p' := sched_send i j p).
  assert (Er : entries (rob p')
               = upd (entries (rob p)) j (set_exec true (entries (rob p) j))).
  { subst p'. unfold sched_send, rob_mark_exec. cbn. fold x.
    now rewrite Dx. }
  assert (Es : SC_latch p'
               = updn (SC_latch p) i
                   (mkLatch true (lstall (SC_latch p i)) x)).
  { subst p'. unfold sched_send. cbn.
    rewrite inst_after_mark_exec. reflexivity. }
  assert (Ev : events p' = events p ++ [EvSchedule (stat_num_cycle p) x]).
  { subst p'. unfold sched_send. cbn.
    rewrite inst_after_mark_exec. reflexivity. }
  assert (Eex : EX_latch p' = EX_latch p) by reflexivity.
  assert (Et : stat_retired_inst p' = stat_retired_inst p) by reflexivity.
  clearbody p'.
  assert (Cell : forall k,
            valid (entries (rob p') k) = valid (entries (rob p) k)
            /\ ready (entries (rob p') k) = ready (entries (rob p) k)
            /\ inst (entries (rob p') k) = inst (entries (rob p) k)
            /\ (exec (entries (rob p) k) = true ->
                exec (entries (rob p') k) = true)).
  { intros k. rewrite Er. unfold upd.
    destruct (Z.eqb_spec k j) as [->|]; cbn; auto. }
  assert (New : scheduled (events p') (inst_num x)).
  { exists (stat_num_cycle p), x. split; [|reflexivity].
    rewrite Ev. apply in_or_app. right. now left. }
  split; [|split; [|split; [|split]]].
  - intros m Hm. rewrite Et.
    assert (Old : scheduled (events p) m \/ m = inst_num x).
    { destruct Hm as (c & y & Hin & Ey). rewrite Ev in Hin.
      apply in_app_or in Hin. destruct Hin as [H|[H|[]]].
      - left. now exists c, y.
      - right. inversion H. congruence. }
    destruct Old as [Hm0| ->].
    + destruct (A1 m Hm0) as [Le0|(k & V & Nm & X)]; [left; exact Le0|].
      right. exists k. destruct (Cell k) as (c1 & c2 & c3 & c4).
      rewrite c1, c3. auto.
    + right. exists j. destruct (Cell j) as (c1 & c2 & c3 & c4).
      rewrite c1, c3. split; [exact Vj|]. split; [reflexivity|].
      rewrite Er. unfold upd. now rewrite Z.eqb_refl.
  - intros m Hm. rewrite Ev in Hm.
    apply written_back_snoc in Hm; [|discriminate].
    rewrite Et.
    destruct (A2 m Hm) as [Le0|(k & V & Nm & X)]; [left; exact Le0|].
    right. exists k. destruct (Cell k) as (c1 & c2 & c3 & c4).
    rewrite c1, c2, c3. auto.
  - intros k Vk. rewrite Es in Vk |- *.
    destruct (Nat.eq_dec k i) as [->|Hk].
    + rewrite updn_same. exact New.
    + rewrite updn_other in Vk |- * by exact Hk. rewrite Ev.
      now apply scheduled_app, A3.
  - intros k Vk. rewrite Eex in Vk |- *. rewrite Ev.
    now apply scheduled_app, A4.
  - rewrite Ev. apply lifecycle_snoc; [exact A5|]. cbn.
    intros Hs. destruct (A1 _ Hs) as [Le0|(k & V & Nm & X)].
    + pose proof (fifo_num_above j Fifo Vj). fold x in H. lia.
    + assert (k = j) by (apply (fifo_num_unique k j Fifo V Vj); exact Nm).
      subst k. congruence.
Qed.

Lemma life_inv_issue i q q' :
  (exists len len',
      rob_fifo N (rob q) (stat_retired_inst q) len
      /\ rob_fifo N (rob q') (stat_retired_inst q) len') ->
  issue_effect cfg i q q' ->
  life_inv q -> life_inv q'.
Proof.
  intros (len & len' & Fq & Fq')
         (Fr & _ & _ & Cases & (extra & Ev & Hre)) (A1 & A2 & A3 & A4 & A5).
  assert (Esc : SC_latch q' = SC_latch q) by (rewrite <- Fr; reflexivity).
  assert (Eex : EX_latch q' = EX_latch q) by (rewrite <- Fr; reflexivity).
  assert (Est : stat_retired_inst q' = stat_retired_inst q)
    by (rewrite <- Fr; reflexivity).
  pose proof (quiet_rat Hre) as Hq.
  assert (Keep : forall j, valid (entries (rob q) j) = true ->
                   entries (rob q') j = entries (rob q) j).
  { destruct Cases as [[Er _]|(Vi & Sp & Ins)].
    - intros j _. now rewrite Er.
    - destruct Ins as (Hh & Ht & Ho & _).
      intros j V. apply Ho. intros ->.
      pose proof (proj2 cfg_ok) as Hn.
      pose proof Fq as (Rq & _).
      pose proof Rq as (Hl0 & _).
      assert (Hlen : len < N) by (now apply (check_space_ring Hn Rq)).
      assert (Eidx : tail_ptr (rob q) = (head_ptr (rob q) + len) mod N)
        by (destruct Rq as (_ & _ & Et & _); exact Et).
      destruct (fifo_slot cfg (tail_ptr (rob q)) Fq V) as (k & Hk & Ek & _).
      rewrite Eidx in Ek at 1. apply (slot_inj Hn) in Ek; lia. }
  split; [|split; [|split; [|split]]].
  - intros m Hm. rewrite Ev in Hm. apply scheduled_quiet in Hm; [|exact Hq].
    rewrite Est.
    destruct (A1 m Hm) as [Le0|(j & V & Nm & X)]; [left; exact Le0|].
    right. exists j. rewrite (Keep j V). auto.
  - intros m Hm. rewrite Ev in Hm. apply written_back_quiet in Hm; [|exact Hq].
    rewrite Est.
    destruct (A2 m Hm) as [Le0|(j & V & Nm & X)]; [left; exact Le0|].
    right. exists j. rewrite (Keep j V). auto.
  - intros k Vk. rewrite Esc in Vk |- *. rewrite Ev.
    now apply scheduled_app, A3.
  - intros k Vk. rewrite Eex in Vk |- *. rewrite Ev.
    now apply scheduled_app, A4.
  - rewrite Ev. now apply lifecycle_rat.
Qed.

Lemma life_inv_init around trace : life_inv (pipe_init around trace).
Proof.
  unfold life_inv, pipe_init. cbn.
  split; [intros m (c & x & [] & _)|].
  split; [intros m (c & x & [] & _)|].
  split; [discriminate|]. split; [discriminate|].
  intros i e Hn. destruct i; discriminate.
Qed.

End LifeInv.

Lemma life_inv_fetch cfg i p :
  life_inv p -> life_inv (pipe_fetch_inst cfg p i).
Proof.
  apply life_inv_same; unfold pipe_fetch_inst, fetch_error;
    destruct (trace_fd p) as [|r rest]; cbn;
    repeat match goal with
           | |- context [if ?c then _ else _] => destruct c; cbn
           end; reflexivity.
Qed.

Lemma life_inv_decode i q q' :
  decode_effect i q q' -> life_inv q -> life_inv q'.
Proof.
  intros [->|(j & _ & _ & _ & ->)] H; exact H.
Qed.

(** The invariants of renaming, dependence tracking and instruction life
    hold together at every cycle boundary of a run from [pipe_init]. *)
Lemma run_invariants
      (cfg : Config) (junk : InstInfo) (around : Z -> RATEntry)
      (trace : list TraceRec) (n : nat) :
  config_ok cfg ->
  LOAD_EXE_CYCLES cfg = 1 ->
  Forall regs_ok trace ->
  Z.of_nat (length trace) + 1 < 2 ^ 64 ->
  exists p,
    cycles cfg junk n (pipe_init around trace) = Some p
    /\ pipe_inv cfg (Z.of_nat (length trace)) p
    /\ traced cfg (accepted cfg trace) p
    /\ rat_inv p
    /\ dep_inv (accepted cfg trace) p
    /\ life_inv p.
Proof.
  intros Hc HL Hregs Hb.
  set (recs := accepted cfg trace).
  assert (Hs : Z.of_nat (length recs) + 1 < 2 ^ 64).
  { pose proof (filter_length_le
                  (fun r => negb (NUM_OP_TYPES cfg <=? tr_op_type r)) trace).
    subst recs. unfold accepted. lia. }
  assert (Hr : Forall regs_ok recs) by now apply regs_ok_accepted.
  destruct (@cycles_ind cfg junk (Z.of_nat (length trace)) Hc
              (fun p => traced cfg recs p /\ rat_inv p /\ dep_inv recs p
                        /\ life_inv p))
    with (n := n) (p := pipe_init around trace)
    as (p & E & Inv & T & R & D & L).
  - intros p H. exact H.
  - intros i p Inv Hh (T & R & D & L).
    split; [now apply traced_commit|].
    split; [eapply rat_inv_commit; eauto|].
    split; [eapply dep_inv_commit; eauto|].
    eapply life_inv_commit; eauto.
  - intros i p p' Inv A E (T & R & D & L).
    pose proof (writeback_lane_keeps cfg i p E) as B.
    pose proof Inv as (len & (Hring & _) & _).
    split; [now apply (traced_back B)|].
    split; [now apply (rat_inv_back B)|].
    split; [eapply dep_inv_writeback; eauto|].
    eapply life_inv_writeback; eauto.
  - intros i p (T & R & D & L). pose proof (sched_hold_keeps i p) as B.
    split; [now apply (traced_back B)|].
    split; [now apply (rat_inv_back B)|].
    split; [now apply dep_inv_hold | now apply life_inv_hold].
  - intros i j p Inv U S (T & R & D & L).
    pose proof (sched_send_keeps i j p) as B.
    split; [now apply (traced_back B)|].
    split; [now apply (rat_inv_back B)|].
    split; [now apply dep_inv_send|].
    eapply life_inv_send; eauto.
  - intros p (T & R & D & L).
    split; [now apply traced_exe|].
    split; [now apply rat_inv_exe|].
    split; [now apply dep_inv_exe | now apply life_inv_exe].
  - intros p (T & R & D & L).
    split; [now apply traced_sort|]. split; [exact R|]. split; [exact D|].
    exact L.
  - intros i q q' Hf I (T & R & D & L).
    split; [now apply (traced_issue I)|].
    split; [eapply rat_inv_issue; eauto|].
    split; [eapply dep_inv_issue; eauto|].
    eapply life_inv_issue; eauto.
  - intros i q q' De (T & R & D & L).
    split; [now apply (traced_decode De)|].
    split; [now apply (rat_inv_decode De)|].
    split; [now apply (dep_inv_decode De) | now apply (life_inv_decode De)].
  - intros i q Inv _ (T & R & D & L).
    split; [now apply traced_fetch|].
    split; [now apply rat_inv_fetch|].
    split; [now apply dep_inv_fetch | now apply life_inv_fetch].
  - now apply pipe_init_inv.
  - split; [now apply traced_init|].
    split; [apply rat_inv_init|].
    split; [apply dep_inv_init | apply life_inv_init].
  - exists p. exact (conj E (conj Inv (conj T (conj R (conj D L))))).
Qed.

(** X17. Every instruction goes through the stages in order, once.  Take
    single-cycle execution ([LOAD_EXE_CYCLES = 1]) and a trace whose needed
    registers are architectural registers.  In the log of a run from
    [pipe_init], under either scheduling policy: an instruction is scheduled
    at most once; it is written back only after it was scheduled, and at
    most once; and it is committed only after it was written back. *)
Theorem instruction_lifecycle_order
        (cfg : Config) (junk : InstInfo) (around : Z -> RATEntry)
        (trace : list TraceRec) (n : nat) :
  config_ok cfg ->
  LOAD_EXE_CYCLES cfg = 1 ->
  Forall regs_ok trace ->
  Z.of_nat (length trace) + 1 < 2 ^ 64 ->
  exists p,
    cycles cfg junk n (pipe_init around trace) = Some p
    /\ lifecycle_ordered (events p).
Proof.
  intros Hc HL Hregs Hb.
  destruct (@run_invariants cfg junk around trace n Hc HL Hregs Hb)
    as (p & E & _ & _ & _ & _ & L).
  exists p. split; [exact E|]. apply L.
Qed.

Lemma instruction_lifecycle_order_witness :
  scheduled (firstn 8 (events (after cfg_scalar 9 trace_raw))) 2
  /\ ~ written_back (firstn 8 (events (after cfg_scalar 9 trace_raw))) 2.
Proof.
  destruct (@instruction_lifecycle_order cfg_scalar inst_zero around_clear
              trace_raw 9) as (p & E & L).
  - unfold config_ok, MAX_PIPE_WIDTH, MAX_ROB_ENTRIES. simpl. lia.
  - reflexivity.
  - unfold trace_raw, regs_ok, MAX_ARF_REGS.
    repeat constructor; cbn; intros; try discriminate; lia.
  - vm_compute. reflexivity.
  - assert (Ep : p = after cfg_scalar 9 trace_raw)
      by (unfold after; rewrite E; reflexivity).
    rewrite Ep in L. pose proof (L 8%nat) as H.
    vm_compute in H. vm_compute. exact (H _ eq_refl).
Defined.
(** ** What holds between the stages *)

Lemma front_inv_same cfg p p' :
  FE_latch p' = FE_latch p ->
  next_inst_num p' = next_inst_num p ->
  last_inst_num p' = last_inst_num p ->
  (forall i, lstall (SC_latch p' i) = false) ->
  (forall i, lstall (EX_latch p' i) = false) ->
  front_inv cfg p -> front_inv cfg p'.
Proof.
  intros Ef En El Hs He (S & Wn). split.
  - intros i. rewrite Ef. destruct (S i) as (A & _). auto.
  - unfold fe_window. now rewrite Ef, En, El.
Qed.

Section Live.

Variable cfg : Config.
Variable junk : InstInfo.
Variable total : Z.
Variable recs : list TraceRec.
Hypothesis cfg_ok : config_ok cfg.
Hypothesis single_cycle : LOAD_EXE_CYCLES cfg = 1.
Hypothesis total_small : total + 4 < 2 ^ 64.
Hypothesis recs_regs : Forall regs_ok recs.
Hypothesis recs_short : Z.of_nat (length recs) + 1 < 2 ^ 64.

Local Abbreviation W := (PIPE_WIDTH cfg).
Local Abbreviation N := (NUM_ROB_ENTRIES cfg).

(** The part of the invariant that every lane step of the back end keeps. *)
Local Abbreviation core := (fun p =>
  traced cfg recs p /\ rat_inv p /\ dep_inv recs p /\ halt_inv cfg total p
  /\ front_inv cfg p).

Lemma front_inv_commit i p :
  rob_check_head (rob p) = true ->
  front_inv cfg p -> front_inv cfg (commit_lane cfg junk i p).
Proof.
  intros Hh F.
  destruct (commit_lane_effect cfg junk i p Hh)
    as (_ & _ & _ & _ & _ & _ & Fr & _).
  set (p' := commit_lane cfg junk i p) in *. clearbody p'.
  pose proof F as (S & _).
  apply front_inv_same with (p := p); try (rewrite <- Fr; reflexivity);
    [| |exact F].
  - intros k. replace (SC_latch p') with (SC_latch p)
      by (rewrite <- Fr; reflexivity). apply S.
  - intros k. replace (EX_latch p') with (EX_latch p)
      by (rewrite <- Fr; reflexivity). apply S.
Qed.

Lemma front_inv_writeback i p p' :
  writeback_lane cfg i p = Some p' ->
  front_inv cfg p -> front_inv cfg p'.
Proof.
  intros E F. pose proof F as (S & _). unfold writeback_lane in E.
  destruct (negb (lstall (EX_latch p i)) && lvalid (EX_latch p i));
    [|inversion E; subst; exact F].
  destruct (rob_wakeup N (rob p) (dr_tag (linst (EX_latch p i))));
    [|discriminate].
  cbn [bind] in E. inversion E; subst p'. clear E.
  apply front_inv_same with (p := p); try reflexivity; [| |exact F].
  - intros k. apply S.
  - intros k. cbn. unfold updn. destruct (Nat.eqb k i); cbn; apply S.
Qed.

Lemma front_inv_hold i p : front_inv cfg p -> front_inv cfg (sched_hold i p).
Proof.
  intros F. pose proof F as (S & _).
  apply front_inv_same with (p := p); try reflexivity; [| |exact F].
  - intros k. cbn. unfold updn. destruct (Nat.eqb k i); cbn; apply S.
  - intros k. apply S.
Qed.

Lemma front_inv_send i j p :
  front_inv cfg p -> front_inv cfg (sched_send i j p).
Proof.
  intros F. pose proof F as (S & _).
  apply front_inv_same with (p := p); try reflexivity; [| |exact F].
  - intros k. cbn. unfold updn. destruct (Nat.eqb k i); cbn; apply S.
  - intros k. apply S.
Qed.

Lemma front_inv_exe p :
  front_inv cfg p -> front_inv cfg (pipe_cycle_exe cfg p).
Proof.
  intros F. pose proof F as (S & _).
  destruct (@pipe_cycle_exe_single cfg p single_cycle) as (In & Out & Fr).
  cbv zeta in In, Out, Fr.
  set (p' := pipe_cycle_exe cfg p) in *. clearbody p'.
  apply front_inv_same with (p := p); try (rewrite <- Fr; reflexivity);
    [| |exact F].
  - intros k. destruct (Nat.lt_ge_cases k W) as [Lt|Ge0].
    + destruct (In k Lt) as [M _]. unfold exe_lane_moved in M.
      destruct (lvalid (SC_latch p k)); destruct M as [_ M]; rewrite M;
        cbn; apply S.
    + destruct (Out k Ge0) as [_ M]. rewrite M. apply S.
  - intros k. destruct (Nat.lt_ge_cases k W) as [Lt|Ge0].
    + destruct (In k Lt) as [M _]. unfold exe_lane_moved in M.
      destruct (lvalid (SC_latch p k)); destruct M as [M _]; rewrite M;
        apply S.
    + destruct (Out k Ge0) as [M _]. rewrite M. apply S.
Qed.

Lemma front_inv_issue i q q' :
  issue_effect cfg i q q' -> front_inv cfg q -> front_inv cfg q'.
Proof.
  intros (Fr & _) F. pose proof F as (S & _).
  apply front_inv_same with (p := q); try (rewrite <- Fr; reflexivity);
    [| |exact F].
  - intros k. replace (SC_latch q') with (SC_latch q)
      by (rewrite <- Fr; reflexivity). apply S.
  - intros k. replace (EX_latch q') with (EX_latch q)
      by (rewrite <- Fr; reflexivity). apply S.
Qed.

(** *** Decode and fetch *)

Lemma decode_find_front count :
  forall j i p,
    (j + count <= W)%nat ->
    pipe_inv cfg total p -> front_inv cfg p ->
    front_inv cfg (decode_find count j i p).
Proof.
  induction count as [|count IH]; intros j i p Hj Inv F; [exact F|].
  cbn [decode_find].
  destruct (lvalid (FE_latch p j)
            && (inst_num (linst (FE_latch p j)) =? next_inst_num p)) eqn:Found.
  - apply andb_true_iff in Found. destruct Found as [Vj Ej].
    apply Z.eqb_eq in Ej.
    destruct F as (S & Wn).
    destruct Inv as (len & Fifo & R0 & Seq & Win & Nx & Fe & L0 & Lb & Bd).
    pose proof (Fe j ltac:(lia) Vj) as Hle.
    assert (Hnext : u64 (next_inst_num p + 1) = next_inst_num p + 1).
    { apply u64_small. destruct Win as (Hw & _).
      destruct Fifo as [(Hlen & _) _]. lia. }
    split.
    + intros k. cbn. unfold updn.
      destruct (Nat.eqb k j); cbn; repeat split; apply S.
    + unfold fe_window. cbn. rewrite Hnext.
      replace (next_inst_num p + 1 - 1) with (next_inst_num p - 1 + 1)
        by lia.
      apply (@window_pop W (FE_latch p) _ _ _ j); try assumption.
      * lia.
      * lia.
      * now rewrite updn_same.
      * intros k Hk D. rewrite updn_other by exact D. auto.
  - apply IH; auto. lia.
Qed.

Lemma pipe_cycle_decode_front p :
  pipe_inv cfg total p -> front_inv cfg p ->
  front_inv cfg (pipe_cycle_decode cfg p).
Proof.
  intros Inv F. unfold pipe_cycle_decode.
  apply (@for_lanes_inv Pipeline
           (fun _ q => pipe_inv cfg total q /\ front_inv cfg q));
    [split; assumption|].
  intros i t Hi (It & Ft).
  split; [now apply decode_lane_inv|].
  unfold decode_lane.
  destruct (negb (lstall (ID_latch t i)) && negb (lvalid (ID_latch t i)));
    [|exact Ft].
  apply decode_find_front; auto.
Qed.

Lemma fetch_lane_front i p :
  (i < W)%nat ->
  pipe_inv cfg total p -> front_inv cfg p ->
  front_inv cfg (fetch_lane cfg i p).
Proof.
  intros Hi Inv F. unfold fetch_lane.
  destruct (negb (lstall (FE_latch p i)) && negb (lvalid (FE_latch p i)))
    eqn:C; [|exact F].
  apply andb_true_iff in C. destruct C as [_ C]. apply negb_true_iff in C.
  pose proof F as (S & Wn).
  assert (Err : forall rest, front_inv cfg (fetch_error rest i p)).
  { intros rest. unfold fetch_error.
    match goal with
    | |- context [if ?c then _ else _] => destruct c
    end; (split;
      [ intros k; cbn; unfold updn; destruct (Nat.eqb k i); cbn;
        repeat split; apply S
      | unfold fe_window; cbn;
        apply (@id_window_ext _ (FE_latch p)); [|exact Wn];
        intros k _; unfold updn;
        destruct (Nat.eqb_spec k i) as [->|D]; cbn; auto ]). }
  unfold pipe_fetch_inst.
  destruct (trace_fd p) as [|trace_rec rest] eqn:Et; [apply Err|].
  destruct (NUM_OP_TYPES cfg <=? tr_op_type trace_rec); [apply Err|].
  destruct Inv as (len & Fifo & R0 & Seq & Win & Nx & Fe & L0 & Lb & Bd).
  rewrite Et in Lb. simpl length in Lb.
  assert (Hl : u64 (last_inst_num p + 1) = last_inst_num p + 1)
    by (apply u64_small; lia).
  split.
  - intros k. cbn. unfold updn.
    destruct (Nat.eqb k i); cbn; repeat split; try reflexivity; apply S.
  - unfold fe_window. cbn. rewrite Hl.
    apply window_push; auto.
Qed.

Lemma pipe_cycle_fetch_front p :
  pipe_inv cfg total p -> front_inv cfg p ->
  front_inv cfg (pipe_cycle_fetch cfg p).
Proof.
  intros Inv F. unfold pipe_cycle_fetch.
  apply (@for_lanes_inv Pipeline
           (fun _ q => pipe_inv cfg total q /\ front_inv cfg q));
    [split; assumption|].
  intros i t Hi (It & Ft). split; [|now apply fetch_lane_front].
  unfold fetch_lane.
  destruct (_ && _); [now apply pipe_fetch_inst_inv | exact It].
Qed.

(** *** The stages *)

Lemma live_tick p :
  live_inv cfg total recs p ->
  live_inv cfg total recs (set_stat_num_cycle (u64 (stat_num_cycle p + 1)) p).
Proof.
  intros (Inv & T & R & D & H & F).
  split; [exact Inv|]. split; [now apply traced_tick|].
  split; [exact R|]. split; [exact D|]. split; [exact H|exact F].
Qed.

Lemma live_commit p :
  live_inv cfg total recs p ->
  live_inv cfg total recs (pipe_cycle_commit cfg junk p).
Proof.
  intros (Inv & C).
  split; [now apply pipe_cycle_commit_inv|].
  apply (@pipe_cycle_commit_ind cfg junk total cfg_ok core); auto.
  intros i q Iq Hh (T & R & D & H & F).
  split; [now apply traced_commit|].
  split; [eapply rat_inv_commit; eauto|].
  split; [eapply dep_inv_commit; eauto|].
  split; [eapply halt_inv_commit; eauto|].
  now apply front_inv_commit.
Qed.

Lemma live_writeback p :
  live_inv cfg total recs p ->
  exists p', pipe_cycle_writeback cfg p = Some p'
             /\ live_inv cfg total recs p'.
Proof.
  intros (Inv & C).
  pose proof Inv as (len & (Ring & _) & _).
  destruct (@pipe_cycle_writeback_spec cfg (proj2 cfg_ok) p len Ring)
    as (p' & E & _).
  exists p'. split; [exact E|].
  apply (@pipe_cycle_writeback_ind cfg total core) with (p := p);
    [|exact E|split; assumption].
  intros i q q' Iq A Eq (T & R & D & H & F).
  pose proof (writeback_lane_keeps cfg i q Eq) as B.
  pose proof Iq as (len' & (Hring & _) & _).
  split; [now apply (traced_back B)|].
  split; [now apply (rat_inv_back B)|].
  split; [eapply dep_inv_writeback; eauto|].
  split; [now apply (halt_inv_back B)|].
  eapply front_inv_writeback; eauto.
Qed.

Lemma live_exe p :
  live_inv cfg total recs p ->
  live_inv cfg total recs (pipe_cycle_exe cfg p).
Proof.
  intros (Inv & T & R & D & H & F).
  split; [eapply exe_step_inv; [apply pipe_cycle_exe_step | exact Inv]|].
  split; [now apply traced_exe|].
  split; [now apply rat_inv_exe|].
  split; [now apply dep_inv_exe|].
  split; [now apply halt_inv_exe | now apply front_inv_exe].
Qed.

Lemma live_schedule p :
  live_inv cfg total recs p ->
  exists p', pipe_cycle_schedule cfg p = Some p'
             /\ live_inv cfg total recs p'.
Proof.
  intros (Inv & C).
  pose proof Inv as (len & (Ring & _) & _).
  destruct (@pipe_cycle_schedule_spec cfg (proj2 cfg_ok) p len Ring)
    as (p' & E & _).
  exists p'. split; [exact E|].
  apply (@pipe_cycle_schedule_ind cfg total core) with (p := p);
    [| |exact E|split; assumption].
  - intros i q (T & R & D & H & F). pose proof (sched_hold_keeps i q) as B.
    split; [now apply (traced_back B)|].
    split; [now apply (rat_inv_back B)|].
    split; [now apply dep_inv_hold|].
    split; [now apply (halt_inv_back B) | now apply front_inv_hold].
  - intros i j q _ U S (T & R & D & H & F).
    pose proof (sched_send_keeps i j q) as B.
    split; [now apply (traced_back B)|].
    split; [now apply (rat_inv_back B)|].
    split; [now apply dep_inv_send|].
    split; [now apply (halt_inv_back B) | now apply front_inv_send].
Qed.

Lemma live_issue p :
  live_inv cfg total recs p ->
  live_inv cfg total recs (pipe_cycle_issue cfg p).
Proof.
  intros (Inv & C).
  split; [now apply pipe_cycle_issue_inv|].
  apply (@pipe_cycle_issue_ind cfg total cfg_ok core); auto.
  - intros q (T & R & D & H & F).
    split; [now apply traced_sort|]. split; [exact R|]. split; [exact D|].
    split; [exact H|exact F].
  - intros i q q' Hf I (T & R & D & H & F).
    split; [now apply (traced_issue I)|].
    split; [eapply rat_inv_issue; eauto|].
    split; [eapply dep_inv_issue; eauto|].
    split; [now apply (halt_inv_issue I) | now apply (front_inv_issue I)].
Qed.

Lemma live_decode p :
  live_inv cfg total recs p ->
  live_inv cfg total recs (pipe_cycle_decode cfg p).
Proof.
  intros (Inv & T & R & D & H & F).
  split; [now apply pipe_cycle_decode_inv|].
  assert (Q : traced cfg recs (pipe_cycle_decode cfg p)
              /\ rat_inv (pipe_cycle_decode cfg p)
              /\ dep_inv recs (pipe_cycle_decode cfg p)
              /\ halt_inv cfg total (pipe_cycle_decode cfg p)).
  { apply (@pipe_cycle_decode_ind cfg
             (fun q => traced cfg recs q /\ rat_inv q /\ dep_inv recs q
                       /\ halt_inv cfg total q)); auto.
    intros i q q' De (T' & R' & D' & H').
    split; [now apply (traced_decode De)|].
    split; [now apply (rat_inv_decode De)|].
    split; [now apply (dep_inv_decode De) | now apply (halt_inv_decode De)]. }
  destruct Q as (T' & R' & D' & H').
  repeat (split; [assumption|]). now apply pipe_cycle_decode_front.
Qed.

Lemma live_fetch p :
  live_inv cfg total recs p ->
  live_inv cfg total recs (pipe_cycle_fetch cfg p).
Proof.
  intros (Inv & T & R & D & H & F).
  split; [now apply pipe_cycle_fetch_inv|].
  assert (Q : traced cfg recs (pipe_cycle_fetch cfg p)
              /\ rat_inv (pipe_cycle_fetch cfg p)
              /\ dep_inv recs (pipe_cycle_fetch cfg p)
              /\ halt_inv cfg total (pipe_cycle_fetch cfg p)).
  { apply (@pipe_cycle_fetch_ind cfg total
             (fun q => traced cfg recs q /\ rat_inv q /\ dep_inv recs q
                       /\ halt_inv cfg total q)); auto.
    intros i q Iq _ (T' & R' & D' & H').
    split; [now apply traced_fetch|].
    split; [now apply rat_inv_fetch|].
    split; [now apply dep_inv_fetch | now apply halt_inv_fetch]. }
  destruct Q as (T' & R' & D' & H').
  repeat (split; [assumption|]). now apply pipe_cycle_fetch_front.
Qed.

End Live.
(** ** Where the executing instructions are *)

Lemma rob_kept_refl q : rob_kept q q.
Proof. split; [reflexivity|]. intros j V. auto. Qed.

Lemma rob_kept_trans p q r : rob_kept p q -> rob_kept q r -> rob_kept p r.
Proof.
  intros (H1 & K1) (H2 & K2). split; [congruence|].
  intros j V. destruct (K1 j V) as (V1 & E1 & R1).
  destruct (K2 j V1) as (V2 & E2 & R2). auto.
Qed.

Lemma rob_kept_same q q' : rob q' = rob q -> rob_kept q q'.
Proof. intros E. unfold rob_kept. rewrite E. split; auto. Qed.

Section Located.

Variable cfg : Config.
Variable junk : InstInfo.
Variable total : Z.
Variable recs : list TraceRec.
Hypothesis cfg_ok : config_ok cfg.
Hypothesis single_cycle : LOAD_EXE_CYCLES cfg = 1.

Local Abbreviation W := (PIPE_WIDTH cfg).
Local Abbreviation N := (NUM_ROB_ENTRIES cfg).

Lemma width_writebacks i : (i < W)%nat -> (i < MAX_WRITEBACKS)%nat.
Proof.
  destruct cfg_ok as ((_ & Hw) & _). unfold MAX_PIPE_WIDTH in Hw.
  unfold MAX_WRITEBACKS. lia.
Qed.

(** *** Commit *)

Lemma located_commit p :
  pipe_inv cfg total p -> located cfg p ->
  located cfg (pipe_cycle_commit cfg junk p).
Proof.
  intros Inv L.
  apply (@pipe_cycle_commit_ind cfg junk total cfg_ok (located cfg)); auto.
  clear p Inv L. intros i p Inv Hh L.
  destruct (commit_lane_effect cfg junk i p Hh)
    as (Er & _ & _ & _ & _ & _ & Fr & _).
  set (p' := commit_lane cfg junk i p) in *. clearbody p'.
  assert (Esc : SC_latch p' = SC_latch p) by (rewrite <- Fr; reflexivity).
  assert (Eex : EX_latch p' = EX_latch p) by (rewrite <- Fr; reflexivity).
  apply rob_check_head_true in Hh.
  rewrite (rob_remove_head_ready _ _ _ Hh) in Er. cbn [snd] in Er.
  intros j V X R. rewrite Esc, Eex. rewrite Er in V, X, R. cbn in V, X, R.
  unfold upd in V, X, R.
  destruct (Z.eqb_spec j (head_ptr (rob p))); [discriminate|].
  now apply L.
Qed.

(** *** Writeback *)

Lemma pipe_cycle_writeback_rest p p' :
  pipe_inv cfg total p ->
  pipe_cycle_writeback cfg p = Some p' ->
  SC_latch p' = SC_latch p
  /\ forall j, ready (entries (rob p) j) = true ->
               ready (entries (rob p') j) = true.
Proof.
  intros Inv E.
  apply (@pipe_cycle_writeback_ind cfg total
           (fun q => SC_latch q = SC_latch p
                     /\ forall j, ready (entries (rob p) j) = true ->
                                  ready (entries (rob q) j) = true))
    with (p := p) (p' := p'); [|exact E|auto].
  clear E. intros i q q' (len & (Ring & _) & _) A E (Es & Hr).
  destruct (@writeback_lane_cells cfg cfg_ok i q len Ring A)
    as (q2 & E2 & _ & _ & Esc & _ & C).
  rewrite E in E2. inversion E2; subst q2. clear E2.
  split; [congruence|].
  intros j Rj. destruct (C j) as (_ & _ & c3 & _).
  rewrite c3, (Hr j Rj). reflexivity.
Qed.

Lemma located_writeback p p' :
  pipe_inv cfg total p -> no_stall p -> located cfg p ->
  pipe_cycle_writeback cfg p = Some p' ->
  located_sc cfg p' /\ ex_free cfg p'.
Proof.
  intros Inv S L E.
  pose proof Inv as (len & (Ring & _) & _).
  destruct (@pipe_cycle_writeback_flags cfg (proj2 cfg_ok) p len Ring)
    as (p2 & E2 & Hex & Hrd & _ & Hx).
  rewrite E in E2. inversion E2; subst p2. clear E2.
  destruct (pipe_cycle_writeback_rest Inv E) as (Esc & Hmono).
  destruct (pipe_cycle_writeback_keeps cfg p E) as (_ & _ & _ & Hc & _).
  assert (Act : forall i, wb_active p i = lvalid (EX_latch p i)).
  { intros i. unfold wb_active. destruct (S i) as (_ & _ & Se).
    now rewrite Se. }
  split.
  - intros j V X R.
    destruct (Hc j) as (Hv & _). rewrite Hv in V. rewrite Hx in X.
    assert (R0 : ready (entries (rob p) j) = false).
    { destruct (ready (entries (rob p) j)) eqn:Rd; [|reflexivity].
      rewrite (Hmono j Rd) in R. discriminate. }
    destruct (L j V X R0) as (i & Hi & [(Vi & Ti)|(Vi & Ti)]).
    + exists i. rewrite Esc. auto.
    + exfalso. pose proof (Hrd i (width_writebacks Hi)) as Hr.
      rewrite Act, Ti in Hr. rewrite (Hr Vi) in R. discriminate.
  - intros i Hi. rewrite (Hex i (width_writebacks Hi)), Act.
    destruct (lvalid (EX_latch p i)) eqn:V; [reflexivity | exact V].
Qed.

(** *** Execute *)

Lemma located_exe p :
  located_sc cfg p ->
  located_ex cfg (pipe_cycle_exe cfg p) /\ sc_free cfg (pipe_cycle_exe cfg p).
Proof.
  intros L.
  destruct (@pipe_cycle_exe_single cfg p single_cycle) as (In & Out & Fr).
  cbv zeta in In, Out, Fr.
  set (p' := pipe_cycle_exe cfg p) in *. clearbody p'.
  assert (Er : rob p' = rob p) by (rewrite <- Fr; reflexivity).
  split.
  - intros j V X R. rewrite Er in V, X, R.
    destruct (L j V X R) as (i & Hi & Vi & Ti).
    exists i. split; [exact Hi|].
    destruct (In i Hi) as [M _]. unfold exe_lane_moved in M.
    rewrite Vi in M. destruct M as [M _]. rewrite M. auto.
  - intros i Hi. now destruct (In i Hi).
Qed.

End Located.
(** ** The schedule stage, lane by lane *)

Lemma first_false (P : Z -> bool) len :
  0 <= len ->
  (forall k, 0 <= k < len -> P k = true)
  \/ exists k, 0 <= k < len /\ P k = false
               /\ forall k', 0 <= k' < k -> P k' = true.
Proof.
  intros H. pattern len. apply natlike_ind; [| |exact H].
  - left. intros k Hk. lia.
  - intros x Hx [All|(k & Hk & Pk & Before)].
    + destruct (P x) eqn:Px.
      * left. intros k Hk. destruct (Z.eq_dec k x) as [->|];
          [exact Px | apply All; lia].
      * right. exists x. split; [lia|]. split; [exact Px|].
        intros k' Hk'. apply All. lia.
    + right. exists k. split; [lia|]. auto.
Qed.

Section SchedStage.

Variable cfg : Config.
Hypothesis cfg_ok : config_ok cfg.

Local Abbreviation W := (PIPE_WIDTH cfg).
Local Abbreviation N := (NUM_ROB_ENTRIES cfg).

Lemma head_slot r len :
  rob_ring N r len -> rob_slot N r 0 = head_ptr r.
Proof.
  intros (_ & Hh & _). unfold rob_slot. rewrite Z.add_0_r.
  apply Z.mod_small. lia.
Qed.

Lemma ring_head_pos r len :
  rob_ring N r len -> valid (entries r (head_ptr r)) = true -> 0 < len.
Proof.
  intros (_ & _ & _ & _ & Hi) V. destruct (Hi _ V) as (k & Hk & _). lia.
Qed.

(** What a lane of the in-order scheduler does. *)
Lemma sched_lane_in_order_full i q len :
  rob_ring N (rob q) len ->
  exists q',
    sched_lane_in_order cfg i q = Some q'
    /\ rob_ring N (rob q') len
    /\ back_keeps q q'
    /\ (sched_idle i q q'
        \/ exists j, unscheduled (entries (rob q) j) = true
                     /\ sched_sent i j q q')
    /\ (unscheduled (entries (rob q) (head_ptr (rob q))) = true ->
        sources_ready (entries (rob q) (head_ptr (rob q))) = true ->
        sched_sent i (head_ptr (rob q)) q q').
Proof.
  intros R. pose proof (proj2 cfg_ok) as n_range.
  destruct (@sched_lane_in_order_spec cfg n_range i q len R)
    as (q' & E & _ & R').
  exists q'. split; [exact E|]. split; [exact R'|].
  split; [unfold sched_lane_in_order in E;
          eapply sched_in_order_scan_keeps; eauto|].
  pose proof R as (Hl & Hh & _ & Hv & _).
  pose proof (head_slot R) as Slot0.
  split.
  - destruct (@first_false
                (fun k => exec (entries (rob q) (rob_slot N (rob q) k)))
                len (proj1 Hl)) as [All|(k & Hk & Pk & Before)].
    + left. rewrite (@sched_lane_in_order_none cfg n_range i q len R All) in E.
      inversion E; subst. apply sched_idle_refl.
    + rewrite (@sched_lane_in_order_pick cfg n_range i q len k R Hk Before Pk)
        in E.
      destruct (sources_ready (entries (rob q) (rob_slot N (rob q) k)));
        inversion E; subst q'.
      * right. exists (rob_slot N (rob q) k). split.
        { unfold unscheduled, rob_slot in *. rewrite (Hv k Hk), Pk.
          reflexivity. }
        apply sched_idle_send, sched_idle_refl.
      * left. apply sched_idle_hold, sched_idle_refl.
  - intros U S. unfold unscheduled in U. apply andb_prop in U.
    destruct U as [V X]. apply negb_true_iff in X.
    pose proof (ring_head_pos R V) as Hpos.
    rewrite (@sched_lane_in_order_pick cfg n_range i q len 0 R) in E.
    + rewrite Slot0, S in E. inversion E; subst.
      apply sched_idle_send, sched_idle_refl.
    + lia.
    + intros k' Hk'. lia.
    + rewrite Slot0. exact X.
Qed.

(** What a lane of the out-of-order scheduler does. *)
Lemma sched_lane_out_of_order_full i q len :
  rob_ring N (rob q) len ->
  exists q',
    sched_lane_out_of_order cfg i q = Some q'
    /\ rob_ring N (rob q') len
    /\ back_keeps q q'
    /\ (sched_idle i q q'
        \/ exists j, unscheduled (entries (rob q) j) = true
                     /\ sched_sent i j q q')
    /\ (unscheduled (entries (rob q) (head_ptr (rob q))) = true ->
        sources_ready (entries (rob q) (head_ptr (rob q))) = true ->
        sched_sent i (head_ptr (rob q)) q q').
Proof.
  intros R. pose proof (proj2 cfg_ok) as n_range.
  destruct (@sched_lane_out_of_order_spec cfg n_range i q len R)
    as (q' & E & _ & R').
  exists q'. split; [exact E|]. split; [exact R'|].
  split; [unfold sched_lane_out_of_order in E;
          eapply sched_out_of_order_scan_keeps; eauto|].
  pose proof R as (Hl & Hh & _ & Hv & _).
  pose proof (head_slot R) as Slot0.
  split.
  - destruct (@first_false
                (fun k =>
                   negb (unscheduled
                           (entries (rob q) (rob_slot N (rob q) k))
                         && sources_ready
                              (entries (rob q) (rob_slot N (rob q) k))))
                len (proj1 Hl)) as [All|(k & Hk & Pk & Before)].
    + left.
      destruct (@sched_lane_out_of_order_none cfg n_range i q len R)
        as (q2 & E2 & I2).
      { intros k Hk. apply negb_true_iff. now apply All. }
      rewrite E in E2. inversion E2; subst. exact I2.
    + right. apply negb_false_iff in Pk.
      destruct (@sched_lane_out_of_order_pick cfg n_range i q len k R Hk)
        as (q2 & E2 & S2).
      { intros k' Hk'. apply negb_true_iff. now apply Before. }
      { exact Pk. }
      rewrite E in E2. inversion E2; subst.
      exists (rob_slot N (rob q) k). split; [|exact S2].
      apply andb_prop in Pk. tauto.
  - intros U S.
    assert (V : valid (entries (rob q) (head_ptr (rob q))) = true).
    { unfold unscheduled in U. apply andb_prop in U. tauto. }
    pose proof (ring_head_pos R V) as Hpos.
    destruct (@sched_lane_out_of_order_pick cfg n_range i q len 0 R)
      as (q2 & E2 & S2).
    + lia.
    + intros k' Hk'. lia.
    + rewrite Slot0, U, S. reflexivity.
    + rewrite E in E2. inversion E2; subst. rewrite Slot0 in S2. exact S2.
Qed.

(** *** What a lane does to the located instructions *)

Lemma sched_idle_fields i q q' :
  sched_idle i q q' ->
  rob q' = rob q /\ EX_latch q' = EX_latch q
  /\ (forall l, lvalid (SC_latch q l) = false ->
                lvalid (SC_latch q' l) = false).
Proof.
  intros (Fr & Ho & _ & _ & Hv).
  split; [rewrite <- Fr; reflexivity|].
  split; [rewrite <- Fr; reflexivity|].
  intros l Vl. destruct (Nat.eq_dec l i) as [->|D].
  - destruct (lvalid (SC_latch q' i)) eqn:V'; [|reflexivity].
    rewrite (Hv eq_refl) in Vl. discriminate.
  - now rewrite (Ho l D).
Qed.

Lemma sched_idle_located i q q' :
  sched_idle i q q' -> lvalid (SC_latch q i) = false ->
  located cfg q -> located cfg q'.
Proof.
  intros I Vi L. destruct (sched_idle_fields I) as (Er & Ee & _).
  destruct I as (_ & Ho & _).
  intros j V X R. rewrite Er in V, X, R.
  destruct (L j V X R) as (l & Hl & [(Vl & Tl)|(Vl & Tl)]).
  - exists l. split; [exact Hl|]. left.
    assert (D : l <> i) by (intros ->; congruence).
    rewrite (Ho l D). auto.
  - exists l. split; [exact Hl|]. right. rewrite Ee. auto.
Qed.

Lemma sched_sent_fields i j q q' :
  sched_sent i j q q' ->
  dr_tag (inst (entries (rob q) j)) = j ->
  rob_kept q q' /\ EX_latch q' = EX_latch q
  /\ exec (entries (rob q') j) = true
  /\ (forall k, k <> j -> entries (rob q') k = entries (rob q) k)
  /\ (forall l, l <> i -> SC_latch q' l = SC_latch q l)
  /\ lvalid (SC_latch q' i) = true
  /\ dr_tag (linst (SC_latch q' i)) = j.
Proof.
  intros (Er & Ei & Ho & _ & Fr) Dj. cbv zeta in Er, Ei.
  unfold rob_mark_exec in Er. rewrite Dj in Er.
  split; [|split; [|split; [|split; [|split; [|split]]]]].
  - split; [now rewrite Er|].
    intros k V. rewrite Er. cbn. unfold upd.
    destruct (Z.eqb_spec k j) as [->|]; cbn; auto.
  - rewrite <- Fr. reflexivity.
  - rewrite Er. cbn. unfold upd. now rewrite Z.eqb_refl.
  - intros k D. rewrite Er. cbn. now apply upd_other.
  - exact Ho.
  - now rewrite Ei.
  - now rewrite Ei.
Qed.

Lemma sched_sent_located i j q q' :
  (i < W)%nat ->
  sched_sent i j q q' ->
  dr_tag (inst (entries (rob q) j)) = j ->
  lvalid (SC_latch q i) = false ->
  located cfg q -> located cfg q'.
Proof.
  intros Hi S Dj Vi L.
  destruct (sched_sent_fields S Dj) as (_ & Ee & _ & Ek & Ho & Vn & Tn).
  intros k V X R. destruct (Z.eq_dec k j) as [->|D].
  - exists i. split; [exact Hi|]. left. auto.
  - rewrite (Ek k D) in V, X, R.
    destruct (L k V X R) as (l & Hl & [(Vl & Tl)|(Vl & Tl)]).
    + exists l. split; [exact Hl|]. left.
      assert (Dl : l <> i) by (intros ->; congruence).
      rewrite (Ho l Dl). auto.
    + exists l. split; [exact Hl|]. right. rewrite Ee. auto.
Qed.

(** *** The loop over the lanes *)

Section Loop.

Variable body : nat -> Pipeline -> option Pipeline.
Hypothesis body_full : forall i q len,
  rob_ring N (rob q) len ->
  exists q',
    body i q = Some q'
    /\ rob_ring N (rob q') len
    /\ back_keeps q q'
    /\ (sched_idle i q q'
        \/ exists j, unscheduled (entries (rob q) j) = true
                     /\ sched_sent i j q q')
    /\ (unscheduled (entries (rob q) (head_ptr (rob q))) = true ->
        sources_ready (entries (rob q) (head_ptr (rob q))) = true ->
        sched_sent i (head_ptr (rob q)) q q').

Lemma sched_loop p len :
  rob_ring N (rob p) len -> rat_inv p -> sc_free cfg p -> located cfg p ->
  exists p',
    for_lanes_opt W body p = Some p'
    /\ located cfg p'
    /\ rob_kept p p'
    /\ EX_latch p' = EX_latch p
    /\ (unscheduled (entries (rob p) (head_ptr (rob p))) = true ->
        sources_ready (entries (rob p) (head_ptr (rob p))) = true ->
        exec (entries (rob p') (head_ptr (rob p))) = true).
Proof.
  intros R0 Rat0 Free L0.
  destruct (@for_lanes_opt_inv Pipeline
              (fun i q =>
                 rob_ring N (rob q) len
                 /\ rat_inv q
                 /\ (forall l, (i <= l)%nat -> (l < W)%nat ->
                               lvalid (SC_latch q l) = false)
                 /\ located cfg q
                 /\ rob_kept p q
                 /\ EX_latch q = EX_latch p
                 /\ (i = 0%nat -> q = p)
                 /\ ((1 <= i)%nat ->
                     unscheduled (entries (rob p) (head_ptr (rob p))) = true ->
                     sources_ready (entries (rob p) (head_ptr (rob p)))
                     = true ->
                     exec (entries (rob q) (head_ptr (rob p))) = true))
              W body p) as (p' & E & J).
  - split; [exact R0|]. split; [exact Rat0|].
    split; [intros l _ Hl; now apply Free|]. split; [exact L0|].
    split; [apply rob_kept_refl|]. split; [reflexivity|].
    split; [reflexivity|]. intros H. lia.
  - intros i q Hi (R & Rat & Lanes & L & K & Ee & Start & Goal).
    destruct (body_full i q R) as (q' & E & R' & B & Cases & Pick).
    exists q'. split; [exact E|].
    pose proof (Lanes i (Nat.le_refl i) Hi) as Vi.
    pose proof Rat as (Dt & _).
    assert (Step : (forall l, (S i <= l)%nat -> (l < W)%nat ->
                      lvalid (SC_latch q' l) = false)
                   /\ located cfg q' /\ rob_kept q q'
                   /\ EX_latch q' = EX_latch q).
    { destruct Cases as [I|(j & U & S)].
      - destruct (sched_idle_fields I) as (Er & Eex & Hv).
        split; [intros l Hl Hw; apply Hv, Lanes; lia|].
        split; [now apply (sched_idle_located I)|].
        split; [now apply rob_kept_same | exact Eex].
      - assert (Dj : dr_tag (inst (entries (rob q) j)) = j).
        { apply Dt. unfold unscheduled in U. apply andb_prop in U. tauto. }
        destruct (sched_sent_fields S Dj) as (Kq & Eex & _ & _ & Ho & _).
        split; [intros l Hl Hw; rewrite Ho by lia; apply Lanes; lia|].
        split; [now apply (sched_sent_located Hi S)|].
        split; [exact Kq | exact Eex]. }
    destruct Step as (Lanes' & L' & Kq & Eex).
    split; [exact R'|]. split; [now apply (rat_inv_back B)|].
    split; [exact Lanes'|]. split; [exact L'|].
    split; [now apply (rob_kept_trans K)|]. split; [congruence|].
    split; [intros H; lia|].
    intros _ Up Sp.
    assert (Vp : valid (entries (rob p) (head_ptr (rob p))) = true).
    { unfold unscheduled in Up. apply andb_prop in Up. tauto. }
    destruct i as [|i].
    + rewrite (Start eq_refl) in *.
      pose proof (Pick Up Sp) as S.
      destruct (sched_sent_fields S (Dt _ Vp)) as (_ & _ & X & _). exact X.
    + destruct K as (_ & Kp). destruct (Kp _ Vp) as (Vq & _).
      destruct Kq as (_ & Kq). destruct (Kq _ Vq) as (_ & Xq & _).
      apply Xq, Goal; [lia | exact Up | exact Sp].
  - exists p'. split; [exact E|].
    destruct J as (_ & _ & _ & L & K & Ee & _ & Goal).
    split; [exact L|]. split; [exact K|]. split; [exact Ee|].
    apply Goal. destruct cfg_ok as ((Hw & _) & _). exact Hw.
Qed.

End Loop.

Lemma located_schedule p len :
  SCHED_POLICY cfg = SCHED_IN_ORDER \/ SCHED_POLICY cfg = SCHED_OUT_OF_ORDER ->
  rob_ring N (rob p) len -> rat_inv p -> sc_free cfg p -> located cfg p ->
  exists p',
    pipe_cycle_schedule cfg p = Some p'
    /\ located cfg p'
    /\ rob_kept p p'
    /\ EX_latch p' = EX_latch p
    /\ (unscheduled (entries (rob p) (head_ptr (rob p))) = true ->
        sources_ready (entries (rob p) (head_ptr (rob p))) = true ->
        exec (entries (rob p') (head_ptr (rob p))) = true).
Proof.
  intros Pol R Rat Free L. unfold pipe_cycle_schedule.
  destruct Pol as [Ep|Ep]; rewrite Ep; cbn [SchedulingPolicy_eqb].
  - destruct (@sched_loop (sched_lane_in_order cfg)
                (fun i q len => @sched_lane_in_order_full i q len)
                p len R Rat Free L) as (p' & E & H).
    rewrite E. cbn [bind]. exists p'. split; [reflexivity | exact H].
  - cbn [bind].
    apply (@sched_loop (sched_lane_out_of_order cfg)
             (fun i q len => @sched_lane_out_of_order_full i q len)
             p len R Rat Free L).
Qed.

End SchedStage.
(** ** The issue stage and the oldest instruction *)

Section IssueStage.

Variable cfg : Config.
Variable total : Z.
Hypothesis cfg_ok : config_ok cfg.

Local Abbreviation W := (PIPE_WIDTH cfg).
Local Abbreviation N := (NUM_ROB_ENTRIES cfg).

(** In a FIFO ring the slot behind the tail is free when there is space. *)
Lemma issue_keeps_entries i q q' :
  (exists len len',
      rob_fifo N (rob q) (stat_retired_inst q) len
      /\ rob_fifo N (rob q') (stat_retired_inst q) len') ->
  issue_effect cfg i q q' ->
  head_ptr (rob q') = head_ptr (rob q)
  /\ (forall j, valid (entries (rob q) j) = true ->
                entries (rob q') j = entries (rob q) j)
  /\ (forall j, valid (entries (rob q') j) = true ->
                valid (entries (rob q) j) = false ->
                exec (entries (rob q') j) = false).
Proof.
  intros (len & len' & Fq & Fq') (Fr & _ & _ & Cases & _).
  destruct Cases as [[Er _]|(Vi & Sp & Ins)].
  - rewrite Er. split; [reflexivity|]. split; [reflexivity|].
    intros j V V'. congruence.
  - destruct Ins as (Hh & Ht & Ho & Hv & _ & _ & _ & Hx & _).
    split; [exact Hh|]. split.
    + intros j V. apply Ho. intros ->.
      pose proof (proj2 cfg_ok) as Hn.
      pose proof Fq as (Rq & _).
      pose proof Rq as (Hl0 & _).
      assert (Hlen : len < N) by (now apply (check_space_ring Hn Rq)).
      assert (Eidx : tail_ptr (rob q) = (head_ptr (rob q) + len) mod N)
        by (destruct Rq as (_ & _ & Et & _); exact Et).
      destruct (fifo_slot cfg (tail_ptr (rob q)) Fq V) as (k & Hk & Ek & _).
      rewrite Eidx in Ek at 1. apply (slot_inj Hn) in Ek; lia.
    + intros j V' V. destruct (Z.eq_dec j (tail_ptr (rob q))) as [->|D];
        [exact Hx|].
      rewrite (Ho j D) in V'. congruence.
Qed.

Lemma located_issue p :
  pipe_inv cfg total p -> located cfg p ->
  located cfg (pipe_cycle_issue cfg p).
Proof.
  intros Inv L.
  apply (@pipe_cycle_issue_ind cfg total cfg_ok (located cfg)); auto.
  clear p Inv L. intros i q q' Hf I L.
  destruct (issue_keeps_entries Hf I) as (_ & Keep & New).
  destruct I as (Fr & _).
  assert (Esc : SC_latch q' = SC_latch q) by (rewrite <- Fr; reflexivity).
  assert (Eex : EX_latch q' = EX_latch q) by (rewrite <- Fr; reflexivity).
  intros j V X R. rewrite Esc, Eex.
  destruct (valid (entries (rob q) j)) eqn:Vq.
  - rewrite (Keep j Vq) in X, R. now apply L.
  - rewrite (New j V Vq) in X. discriminate.
Qed.

(** What the issue stage leaves alone. *)
Lemma pipe_cycle_issue_kept p :
  pipe_inv cfg total p ->
  let q := pipe_cycle_issue cfg p in
  rob_kept p q
  /\ EX_latch q = EX_latch p
  /\ stat_retired_inst q = stat_retired_inst p
  /\ FE_latch q = FE_latch p
  /\ next_inst_num q = next_inst_num p
  /\ last_inst_num q = last_inst_num p.
Proof.
  intros Inv q. subst q.
  apply (@pipe_cycle_issue_ind cfg total cfg_ok
           (fun q => rob_kept p q
                     /\ EX_latch q = EX_latch p
                     /\ stat_retired_inst q = stat_retired_inst p
                     /\ FE_latch q = FE_latch p
                     /\ next_inst_num q = next_inst_num p
                     /\ last_inst_num q = last_inst_num p)).
  - intros q H. exact H.
  - intros i q q' Hf I (K & Ee & Er & Ef & En & El).
    destruct (issue_keeps_entries Hf I) as (Hh & Keep & _).
    destruct I as (Fr & _).
    split.
    { eapply rob_kept_trans; [exact K|]. split; [exact Hh|].
      intros j V. rewrite (Keep j V). auto. }
    split; [rewrite <- Ee, <- Fr; reflexivity|].
    split; [rewrite <- Er, <- Fr; reflexivity|].
    split; [rewrite <- Ef, <- Fr; reflexivity|].
    split; [rewrite <- En, <- Fr; reflexivity|].
    rewrite <- El, <- Fr; reflexivity.
  - exact Inv.
  - split; [apply rob_kept_refl|]. auto.
Qed.

(** The local stall flag is raised only when the ROB is full, and the lanes
    passed without a stall are left unstalled. *)
Lemma issue_lane_stall p i st :
  (i < W)%nat ->
  issue_inv cfg p i st ->
  (snd st = true ->
   valid (entries (rob (fst st)) (head_ptr (rob (fst st)))) = true) ->
  (snd st = false ->
   forall k, (k < i)%nat -> lstall (ID_latch (fst st) k) = false) ->
  (snd (issue_lane cfg i st) = true ->
   valid (entries (rob (fst (issue_lane cfg i st)))
                  (head_ptr (rob (fst (issue_lane cfg i st))))) = true)
  /\ (snd (issue_lane cfg i st) = false ->
      forall k, (k < S i)%nat ->
                lstall (ID_latch (fst (issue_lane cfg i st)) k) = false).
Proof.
  intros Hi Inv Hfull Hclear. destruct st as [q prev].
  cbn [fst snd] in Hfull, Hclear.
  destruct prev.
  { unfold issue_lane. simpl. rewrite updn_same. simpl.
    split; [intros _; now apply Hfull | discriminate]. }
  destruct (lvalid (ID_latch q i)) eqn:V.
  2: { unfold issue_lane. simpl. rewrite !updn_same. simpl. rewrite V. simpl.
       split; [discriminate|]. intros _ k Hk. unfold updn.
       destruct (Nat.eqb_spec k i) as [->|D]; [reflexivity|].
       apply Hclear; [reflexivity | lia]. }
  destruct (rob_check_space (rob q)) eqn:S.
  2: { unfold issue_lane. simpl. rewrite !updn_same. simpl. rewrite V, S.
       simpl. rewrite updn_same. simpl.
       split; [|discriminate]. intros _.
       unfold rob_check_space in S.
       destruct (u32 (tail_ptr (rob q)) =? u32 (head_ptr (rob q)));
         [|discriminate].
       destruct (valid (entries (rob q) (head_ptr (rob q))));
         [reflexivity | discriminate]. }
  destruct Inv as (len & Fifo & _). simpl fst in Fifo.
  pose proof (ring_ptrs (proj2 cfg_ok) (proj1 Fifo)) as [_ Ht].
  rewrite issue_lane_insert by (auto; lia).
  cbn [fst snd]. split; [discriminate|]. intros _ k Hk.
  match goal with
  | |- context [rename_dest ?idx (rename_src2 _ (rename_src1 _ ?p2))] =>
      destruct (rename_all_step idx p2) as (_ & (_ & F2 & _) & _)
  end.
  rewrite F2. cbn. unfold updn.
  destruct (Nat.eqb_spec k i) as [->|D]; [reflexivity|].
  apply Hclear; [reflexivity | lia].
Qed.

Lemma pipe_cycle_issue_front p :
  pipe_inv cfg total p ->
  let q := pipe_cycle_issue cfg p in
  ((exists l, (l < W)%nat /\ lvalid (ID_latch p l) = true) ->
   valid (entries (rob q) (head_ptr (rob q))) = true)
  /\ (valid (entries (rob p) (head_ptr (rob p))) = false ->
      (forall l, (l < W)%nat -> lvalid (ID_latch p l) = false) ->
      forall l, (l < W)%nat ->
        lvalid (ID_latch q l) = false /\ lstall (ID_latch q l) = false).
Proof.
  intros (len & Fifo & R0 & Seq & Win & Nx & Fe & L0 & Lb & Bd) q.
  subst q. unfold pipe_cycle_issue.
  destruct (@for_lanes_inv (Pipeline * bool)
              (fun i st =>
                 issue_inv cfg p i st
                 /\ (snd st = true ->
                     valid (entries (rob (fst st))
                                    (head_ptr (rob (fst st)))) = true)
                 /\ (snd st = false ->
                     forall k, (k < i)%nat ->
                               lstall (ID_latch (fst st) k) = false))
              W (issue_lane cfg)
              (set_ID_latch (issue_sort cfg (ID_latch p)) p, false))
    as (Inv & Hfull & Hclear).
  - split; [|split; [discriminate | intros _ k Hk; lia]].
    exists len. simpl.
    split; [exact Fifo|]. split; [now apply issue_sort_window|].
    split; [apply issue_sort_sorted|]. split; [intros _ k Hk; lia|].
    repeat split; auto.
  - intros i t Hi (Inv & Hfull & Hclear).
    split; [now apply issue_lane_inv|].
    eapply issue_lane_stall; eauto.
  - set (st := for_lanes W (issue_lane cfg)
                 (set_ID_latch (issue_sort cfg (ID_latch p)) p, false)) in *.
    destruct Inv as (len' & Fifo' & Win' & _ & Before & _ & _ & _ & Enx & _).
    pose proof (ring_head_valid (proj1 Fifo')) as Hv'.
    pose proof (ring_head_valid (proj1 Fifo)) as Hv.
    destruct Win as (Hlt & Hin & Hall & _).
    destruct Win' as (Hlt' & Hin' & Hall' & _).
    pose proof Fifo as ((Hl & _) & _). pose proof Fifo' as ((Hl' & _) & _).
    split.
    + intros (l & Hl1 & Vl).
      destruct (snd st) eqn:B; [now apply Hfull|].
      apply Hv'. pose proof (Hin l Hl1 Vl) as Hr.
      destruct (Z_lt_le_dec 0 len') as [Pos|Neg]; [exact Pos|].
      exfalso.
      destruct (Hall' (stat_retired_inst p + len' + 1)) as (k & Hk & Vk & _);
        [lia|].
      rewrite (Before eq_refl k Hk) in Vk. discriminate.
    + intros Vh Hnone l Hl1.
      assert (Elen : len = 0).
      { destruct (Z_lt_le_dec 0 len) as [Pos|Neg]; [|lia].
        apply Hv in Pos. congruence. }
      assert (Enext : next_inst_num p = stat_retired_inst p + 1).
      { destruct (Z.eq_dec (next_inst_num p) (stat_retired_inst p + 1))
          as [E|D]; [exact E|]. exfalso.
        destruct (Hall (stat_retired_inst p + len + 1)) as (k & Hk & Vk & _);
          [lia|].
        rewrite (Hnone k Hk) in Vk. discriminate. }
      assert (Elen' : len' = 0) by lia.
      assert (B : snd st = false).
      { destruct (snd st) eqn:B; [|reflexivity].
        pose proof (Hfull eq_refl) as V. apply Hv' in V. lia. }
      split; [|now apply (Hclear B)].
      destruct (lvalid (ID_latch (fst st) l)) eqn:V; [|reflexivity].
      pose proof (Hin' l Hl1 V). lia.
Qed.

End IssueStage.
(** ** Decode, fetch and the oldest instruction *)

Section FrontStage.

Variable cfg : Config.
Variable total : Z.
Hypothesis cfg_ok : config_ok cfg.

Local Abbreviation W := (PIPE_WIDTH cfg).

(** What the decode stage leaves alone. *)
Lemma pipe_cycle_decode_kept p :
  let q := pipe_cycle_decode cfg p in
  rob q = rob p /\ SC_latch q = SC_latch p /\ EX_latch q = EX_latch p
  /\ stat_retired_inst q = stat_retired_inst p
  /\ last_inst_num q = last_inst_num p
  /\ trace_fd q = trace_fd p
  /\ halt q = halt p
  /\ (forall j, lvalid (FE_latch p j) = false ->
                lvalid (FE_latch q j) = false).
Proof.
  intros q. subst q.
  apply (@pipe_cycle_decode_ind cfg
           (fun q => rob q = rob p /\ SC_latch q = SC_latch p
                     /\ EX_latch q = EX_latch p
                     /\ stat_retired_inst q = stat_retired_inst p
                     /\ last_inst_num q = last_inst_num p
                     /\ trace_fd q = trace_fd p
                     /\ halt q = halt p
                     /\ (forall j, lvalid (FE_latch p j) = false ->
                                   lvalid (FE_latch q j) = false))).
  - intros i q q' [->|(j & _ & _ & _ & ->)] H; [exact H|].
    destruct H as (A & B & C & D & E & F & G & H).
    cbn. repeat (split; [assumption|]).
    intros k Vk. unfold updn. destruct (Nat.eqb k j); [reflexivity|].
    now apply H.
  - repeat split; auto.
Qed.

Lemma decode_find_moves count : forall j i p,
  (exists k, (j <= k < j + count)%nat
             /\ lvalid (FE_latch p k) = true
             /\ inst_num (linst (FE_latch p k)) = next_inst_num p) ->
  lvalid (ID_latch (decode_find count j i p) i) = true
  /\ inst_num (linst (ID_latch (decode_find count j i p) i))
     = next_inst_num p.
Proof.
  induction count as [|count IH]; intros j i p (k & Hk & Vk & Ek); [lia|].
  cbn [decode_find].
  destruct (lvalid (FE_latch p j)
            && (inst_num (linst (FE_latch p j)) =? next_inst_num p)) eqn:C.
  - apply andb_prop in C. destruct C as [C1 C2]. apply Z.eqb_eq in C2.
    cbn -[updn]. rewrite updn_same. auto.
  - apply IH. exists k. split; [|auto].
    destruct (Nat.eq_dec k j) as [->|D]; [|lia].
    rewrite Vk, Ek, Z.eqb_refl in C. discriminate.
Qed.

(** When the ID latches are free and the next instruction to decode waits
    in an FE latch, the decode stage moves it into ID latch 0. *)
Lemma pipe_cycle_decode_moves p :
  (forall l, (l < W)%nat ->
     lvalid (ID_latch p l) = false /\ lstall (ID_latch p l) = false) ->
  (exists k, (k < W)%nat
             /\ lvalid (FE_latch p k) = true
             /\ inst_num (linst (FE_latch p k)) = next_inst_num p) ->
  let q := pipe_cycle_decode cfg p in
  lvalid (ID_latch q 0) = true
  /\ inst_num (linst (ID_latch q 0)) = next_inst_num p.
Proof.
  intros Free (k & Hk & Vk & Ek) q. subst q. unfold pipe_cycle_decode.
  destruct (@for_lanes_inv Pipeline
              (fun i q =>
                 (i = 0%nat -> q = p)
                 /\ ((1 <= i)%nat ->
                     lvalid (ID_latch q 0) = true
                     /\ inst_num (linst (ID_latch q 0)) = next_inst_num p))
              W (decode_lane cfg) p) as (_ & Goal).
  - split; [reflexivity | lia].
  - intros i t Hi (Start & Goal). split; [lia|]. intros _.
    destruct i as [|i].
    + rewrite (Start eq_refl). unfold decode_lane.
      destruct (Free 0%nat Hi) as (V0 & S0). rewrite V0, S0. cbn [negb andb].
      apply decode_find_moves. exists k. split; [lia | auto].
    + destruct (Goal ltac:(lia)) as (V0 & E0).
      destruct (decode_lane_effect cfg (S i) t) as [->|(j & _ & _ & _ & ->)];
        [auto|].
      cbn -[updn]. rewrite updn_other by lia. auto.
  - apply Goal. destruct cfg_ok as ((Hw & _) & _). exact Hw.
Qed.

(** What the fetch stage leaves alone. *)
Lemma fetch_lane_kept i p :
  let q := fetch_lane cfg i p in
  rob q = rob p /\ SC_latch q = SC_latch p /\ EX_latch q = EX_latch p
  /\ ID_latch q = ID_latch p
  /\ stat_retired_inst q = stat_retired_inst p
  /\ next_inst_num q = next_inst_num p
  /\ (forall l, l <> i -> FE_latch q l = FE_latch p l).
Proof.
  intros q. subst q. unfold fetch_lane.
  destruct (_ && _); [|repeat split; auto].
  unfold pipe_fetch_inst, fetch_error.
  destruct (trace_fd p) as [|r rest]; cbn;
    repeat match goal with
           | |- context [if ?c then _ else _] => destruct c; cbn
           end;
    repeat split; auto; intros l D; now rewrite updn_other.
Qed.

Lemma pipe_cycle_fetch_kept p :
  let q := pipe_cycle_fetch cfg p in
  rob q = rob p /\ SC_latch q = SC_latch p /\ EX_latch q = EX_latch p
  /\ ID_latch q = ID_latch p
  /\ stat_retired_inst q = stat_retired_inst p
  /\ next_inst_num q = next_inst_num p.
Proof.
  intros q. subst q. unfold pipe_cycle_fetch.
  apply (@for_lanes_inv Pipeline
           (fun _ q => rob q = rob p /\ SC_latch q = SC_latch p
                       /\ EX_latch q = EX_latch p
                       /\ ID_latch q = ID_latch p
                       /\ stat_retired_inst q = stat_retired_inst p
                       /\ next_inst_num q = next_inst_num p)).
  - repeat split; auto.
  - intros i t _ (A & B & C & D & E & F).
    destruct (fetch_lane_kept i t) as (A' & B' & C' & D' & E' & F' & _).
    cbv zeta in A', B', C', D', E', F'.
    repeat split; congruence.
Qed.

(** With nothing in flight the fetch stage fetches the next instruction
    into FE latch 0, or, at the end of the trace, raises the halt flag. *)
Lemma pipe_cycle_fetch_starts p :
  pipe_inv cfg total p -> halt_inv cfg total p ->
  lvalid (FE_latch p 0) = false -> lstall (FE_latch p 0) = false ->
  last_inst_num p = stat_retired_inst p ->
  let q := pipe_cycle_fetch cfg p in
  halt q = true
  \/ (lvalid (FE_latch q 0) = true
      /\ inst_num (linst (FE_latch q 0)) = stat_retired_inst p + 1).
Proof.
  intros Inv (Ops & Cases) V0 S0 El q. subst q. unfold pipe_cycle_fetch.
  destruct (@for_lanes_inv Pipeline
              (fun i q =>
                 (i = 0%nat -> q = p)
                 /\ ((1 <= i)%nat ->
                     halt q = true
                     \/ (lvalid (FE_latch q 0) = true
                         /\ inst_num (linst (FE_latch q 0))
                            = stat_retired_inst p + 1)))
              W (fetch_lane cfg) p) as (_ & Goal).
  - split; [reflexivity | lia].
  - intros i t Hi (Start & Goal). split; [lia|]. intros _.
    destruct i as [|i].
    + rewrite (Start eq_refl). unfold fetch_lane. rewrite V0, S0.
      cbn [negb andb]. unfold pipe_fetch_inst.
      destruct (trace_fd p) as [|r rest] eqn:Et.
      * left. unfold fetch_error. cbn. rewrite El.
        rewrite Z.leb_refl. reflexivity.
      * inversion Ops as [|r' rest' Hr Hrest]; subst. rewrite Hr.
        right. cbn -[updn u64]. rewrite updn_same. cbn -[u64].
        split; [reflexivity|].
        destruct Inv as (len & Fifo & R0 & Seq & Win & Nx & Fe & L0 & Lb
                         & Bd).
        rewrite Et in Lb. simpl length in Lb.
        rewrite u64_small by lia. lia.
    + destruct (Goal ltac:(lia)) as [H|(V & E)].
      * left. now apply fetch_lane_halt.
      * right.
        destruct (fetch_lane_kept (S i) t) as (_ & _ & _ & _ & _ & _ & Fo).
        cbv zeta in Fo. rewrite Fo by lia. auto.
  - apply Goal. destruct cfg_ok as ((Hw & _) & _). exact Hw.
Qed.

End FrontStage.
(** ** Every cycle makes progress *)

Lemma lane_has_intro w f test l :
  (l < w)%nat -> lvalid (f l) = true -> test (linst (f l)) = true ->
  lane_has w f test = true.
Proof.
  intros Hl V T. unfold lane_has. apply existsb_exists. exists l.
  split; [apply in_seq; lia|]. now rewrite V, T.
Qed.

Lemma lane_has_elim w f test :
  lane_has w f test = true ->
  exists l, (l < w)%nat /\ lvalid (f l) = true /\ test (linst (f l)) = true.
Proof.
  unfold lane_has. intros H. apply existsb_exists in H.
  destruct H as (l & Hin & H). apply in_seq in Hin.
  apply andb_prop in H. exists l. split; [lia | exact H].
Qed.

Lemma lane_has_none w f test l :
  lane_has w f test = false ->
  (l < w)%nat -> lvalid (f l) = true -> test (linst (f l)) = false.
Proof.
  intros H Hl V. destruct (test (linst (f l))) eqn:T; [|reflexivity].
  rewrite (lane_has_intro f test Hl V T) in H. discriminate.
Qed.

Lemma progress_stage_range cfg p : 0 <= progress_stage cfg p <= 6.
Proof.
  unfold progress_stage.
  repeat match goal with
         | |- context [if ?c then _ else _] => destruct c
         end; lia.
Qed.

Lemma progress_stage_6 cfg p :
  valid (entries (rob p) (head_ptr (rob p))) = true ->
  ready (entries (rob p) (head_ptr (rob p))) = true ->
  progress_stage cfg p = 6.
Proof. intros V R. unfold progress_stage. now rewrite V, R. Qed.

Lemma progress_stage_5 cfg p l :
  valid (entries (rob p) (head_ptr (rob p))) = true ->
  exec (entries (rob p) (head_ptr (rob p))) = true ->
  (l < PIPE_WIDTH cfg)%nat ->
  lvalid (EX_latch p l) = true ->
  dr_tag (linst (EX_latch p l)) = head_ptr (rob p) ->
  5 <= progress_stage cfg p.
Proof.
  intros V X Hl Vl Tl. unfold progress_stage. rewrite V, X.
  rewrite (@lane_has_intro _ (EX_latch p) _ l Hl Vl)
    by (now apply Z.eqb_eq).
  destruct (ready _); lia.
Qed.

Lemma progress_stage_4 cfg p :
  valid (entries (rob p) (head_ptr (rob p))) = true ->
  exec (entries (rob p) (head_ptr (rob p))) = true ->
  4 <= progress_stage cfg p.
Proof.
  intros V X. unfold progress_stage. rewrite V, X.
  destruct (ready _); [lia|]. destruct (lane_has _ _ _); lia.
Qed.

Lemma progress_stage_3 cfg p :
  valid (entries (rob p) (head_ptr (rob p))) = true ->
  3 <= progress_stage cfg p.
Proof.
  intros V. unfold progress_stage. rewrite V.
  destruct (ready _); [lia|]. destruct (exec _); [|lia].
  destruct (lane_has _ _ _); lia.
Qed.

Lemma progress_stage_2 cfg p l :
  (l < PIPE_WIDTH cfg)%nat ->
  lvalid (ID_latch p l) = true ->
  inst_num (linst (ID_latch p l)) = stat_retired_inst p + 1 ->
  2 <= progress_stage cfg p.
Proof.
  intros Hl Vl El.
  destruct (valid (entries (rob p) (head_ptr (rob p)))) eqn:V.
  - pose proof (progress_stage_3 cfg p V). lia.
  - unfold progress_stage. rewrite V.
    rewrite (@lane_has_intro _ (ID_latch p) _ l Hl Vl)
      by (now apply Z.eqb_eq).
    lia.
Qed.

Lemma progress_stage_1 cfg p l :
  (l < PIPE_WIDTH cfg)%nat ->
  lvalid (FE_latch p l) = true ->
  inst_num (linst (FE_latch p l)) = stat_retired_inst p + 1 ->
  1 <= progress_stage cfg p.
Proof.
  intros Hl Vl El.
  destruct (valid (entries (rob p) (head_ptr (rob p)))) eqn:V.
  - pose proof (progress_stage_3 cfg p V). lia.
  - unfold progress_stage. rewrite V.
    destruct (lane_has _ (ID_latch p) _); [lia|].
    rewrite (@lane_has_intro _ (FE_latch p) _ l Hl Vl)
      by (now apply Z.eqb_eq).
    lia.
Qed.

Section CommitStage.

Variable cfg : Config.
Variable junk : InstInfo.
Variable total : Z.
Hypothesis cfg_ok : config_ok cfg.

Local Abbreviation W := (PIPE_WIDTH cfg).

(** *** Commit *)

Lemma pipe_cycle_commit_idle p :
  rob_check_head (rob p) = false -> pipe_cycle_commit cfg junk p = p.
Proof.
  intros H. unfold pipe_cycle_commit.
  apply (@for_lanes_inv Pipeline (fun _ q => q = p)); [reflexivity|].
  intros i t _ ->. now apply commit_lane_idle.
Qed.

Lemma pipe_cycle_commit_retires p :
  pipe_inv cfg total p -> rob_check_head (rob p) = true ->
  stat_retired_inst p + 1
  <= stat_retired_inst (pipe_cycle_commit cfg junk p).
Proof.
  intros Inv Hh. unfold pipe_cycle_commit.
  destruct (@for_lanes_inv Pipeline
              (fun i q =>
                 pipe_inv cfg total q
                 /\ (i = 0%nat -> q = p)
                 /\ ((1 <= i)%nat ->
                     stat_retired_inst p + 1 <= stat_retired_inst q))
              W (commit_lane cfg junk) p) as (_ & _ & Goal).
  - split; [exact Inv|]. split; [reflexivity | lia].
  - intros i t Hi (It & Start & Goal).
    split; [now apply commit_lane_inv|]. split; [lia|]. intros _.
    assert (Step : rob_check_head (rob t) = true ->
                   stat_retired_inst (commit_lane cfg junk i t)
                   = stat_retired_inst t + 1).
    { intros Ht.
      destruct (commit_lane_fields cfg junk i t Ht) as (_ & Es & _).
      cbv zeta in Es. destruct (pipe_inv_retired_small It) as (A & B & _).
      rewrite u64_small in Es by lia. exact Es. }
    destruct i as [|i].
    + rewrite (Start eq_refl) in *. rewrite (Step Hh). lia.
    + pose proof (Goal ltac:(lia)) as G.
      destruct (rob_check_head (rob t)) eqn:Ht.
      * rewrite (Step eq_refl). lia.
      * now rewrite commit_lane_idle.
  - apply Goal. destruct cfg_ok as ((Hw & _) & _). exact Hw.
Qed.

End CommitStage.

Section Progress.

Variable cfg : Config.
Variable junk : InstInfo.
Variable total : Z.
Variable recs : list TraceRec.
Hypothesis cfg_ok : config_ok cfg.
Hypothesis single_cycle : LOAD_EXE_CYCLES cfg = 1.
Hypothesis policy_ok :
  SCHED_POLICY cfg = SCHED_IN_ORDER \/ SCHED_POLICY cfg = SCHED_OUT_OF_ORDER.
Hypothesis total_small : total + 4 < 2 ^ 64.
Hypothesis recs_regs : Forall regs_ok recs.
Hypothesis recs_short : Z.of_nat (length recs) + 1 < 2 ^ 64.

Local Abbreviation W := (PIPE_WIDTH cfg).
Local Abbreviation N := (NUM_ROB_ENTRIES cfg).

(** *** The head of the ROB can always be scheduled *)

Lemma head_sources_ready p :
  live_inv cfg total recs p ->
  valid (entries (rob p) (head_ptr (rob p))) = true ->
  sources_ready (entries (rob p) (head_ptr (rob p))) = true.
Proof.
  intros ((len & Fifo & _) & _ & _ & (_ & _ & F & _) & _) V.
  set (h := head_ptr (rob p)) in *.
  destruct (fifo_slot cfg h Fifo V) as (k & Hk & Ek & Nk).
  assert (k = 0).
  { pose proof Fifo as ((Hl & Hh & _) & _).
    replace h with ((h + 0) mod N) in Ek at 1
      by (rewrite Z.add_0_r; apply Z.mod_small; exact Hh).
    apply (slot_inj (proj2 cfg_ok)) in Ek; lia. }
  subst k.
  assert (Src : forall a tag rdy,
            src_state recs p (inst_num (inst (entries (rob p) h))) a tag rdy ->
            (a =? -1) || rdy = true).
  { intros a tag rdy H. destruct (Z.eqb_spec a (-1)) as [|Ha]; [reflexivity|].
    cbn [orb]. destruct rdy; [reflexivity|]. exfalso.
    destruct (H Ha) as (Vt & _ & (Lt & _)).
    pose proof (fifo_num_above cfg tag Fifo Vt). lia. }
  destruct (F h V) as (F1 & F2).
  unfold sources_ready, srcs_ready. cbn [fst snd].
  now rewrite (Src _ _ _ F1), (Src _ _ _ F2).
Qed.

(** *** One cycle *)

(** From a state between two cycles the next cycle runs through, keeps what
    holds between cycles, and either raises the halt flag or brings the
    oldest instruction that is not retired one stage further. *)
Lemma cycle_progress p :
  live_inv cfg total recs p -> located cfg p ->
  exists p',
    pipe_cycle cfg junk p = Some p'
    /\ live_inv cfg total recs p' /\ located cfg p'
    /\ (halt p' = true \/ remaining cfg total p' < remaining cfg total p).
Proof.
  intros L Loc.
  pose (p0 := set_stat_num_cycle (u64 (stat_num_cycle p + 1)) p).
  assert (L0 : live_inv cfg total recs p0) by (now apply live_tick).
  assert (Loc0 : located cfg p0) by exact Loc.
  pose (p1 := pipe_cycle_commit cfg junk p0).
  assert (L1 : live_inv cfg total recs p1) by (now apply live_commit).
  assert (Loc1 : located cfg p1)
    by (apply (@located_commit cfg junk total cfg_ok); [apply L0|exact Loc0]).
  destruct (@live_writeback cfg total recs cfg_ok p1 L1) as (p2 & E2 & L2).
  destruct (@located_writeback cfg total cfg_ok p1 p2 (proj1 L1))
    as (Lsc2 & _); [apply L1 | exact Loc1 | exact E2 |].
  pose (p3 := pipe_cycle_exe cfg p2).
  assert (L3 : live_inv cfg total recs p3) by (now apply live_exe).
  destruct (@located_exe cfg single_cycle p2 Lsc2) as (Lex3 & Sf3).
  fold p3 in Lex3, Sf3.
  assert (Loc3 : located cfg p3).
  { intros j V X R. destruct (Lex3 j V X R) as (i & Hi & H).
    exists i. split; [exact Hi | now right]. }
  pose proof (proj1 L3) as (len3 & (Ring3 & _) & _).
  destruct (@located_schedule cfg cfg_ok p3 len3 policy_ok Ring3)
    as (p4 & E4 & Loc4 & K4 & Ex4 & Goal4);
    [apply L3 | exact Sf3 | exact Loc3 |].
  destruct (@live_schedule cfg total recs cfg_ok p3 L3) as (p4' & E4' & L4).
  rewrite E4 in E4'. inversion E4'; subst p4'. clear E4'.
  pose (p5 := pipe_cycle_issue cfg p4).
  assert (L5 : live_inv cfg total recs p5) by (now apply live_issue).
  assert (Loc5 : located cfg p5)
    by (apply (@located_issue cfg total cfg_ok); [apply L4 | exact Loc4]).
  pose (p6 := pipe_cycle_decode cfg p5).
  assert (L6 : live_inv cfg total recs p6) by (now apply live_decode).
  pose (p7 := pipe_cycle_fetch cfg p6).
  assert (L7 : live_inv cfg total recs p7) by (now apply live_fetch).
  destruct (@pipe_cycle_issue_kept cfg total cfg_ok p4 (proj1 L4))
    as (K5 & Ex5 & Rt5 & Fe5 & Nx5 & La5).
  fold p5 in K5, Ex5, Rt5, Fe5, Nx5, La5.
  destruct (pipe_cycle_decode_kept cfg p5)
    as (Rb6 & Sc6 & Ex6 & Rt6 & La6 & Tr6 & Ha6 & Fi6).
  fold p6 in Rb6, Sc6, Ex6, Rt6, La6, Tr6, Ha6, Fi6.
  destruct (pipe_cycle_fetch_kept cfg p6)
    as (Rb7 & Sc7 & Ex7 & Id7 & Rt7 & Nx7).
  fold p7 in Rb7, Sc7, Ex7, Id7, Rt7, Nx7.
  assert (Loc7 : located cfg p7).
  { unfold located. rewrite Rb7, Sc7, Ex7, Rb6, Sc6, Ex6. exact Loc5. }
  exists p7.
  split.
  { unfold pipe_cycle. fold p0. fold p1. rewrite E2. cbn [bind].
    fold p3. rewrite E4. reflexivity. }
  split; [exact L7|]. split; [exact Loc7|].
  (* what the stages after commit keep *)
  destruct (pipe_cycle_writeback_keeps cfg p1 E2)
    as (Fr2 & Hd2 & _ & Cells2 & _).
  destruct (back_frame_fields Fr2)
    as (Fe2 & Id2 & _ & _ & Rt2 & _ & _ & La2 & _ & _ & Nx2).
  destruct (@pipe_cycle_writeback_rest cfg total cfg_ok p1 p2 (proj1 L1) E2)
    as (Sc2 & _).
  pose proof (proj1 L1) as (len1 & (Ring1 & _) & _).
  destruct (@pipe_cycle_writeback_flags cfg (proj2 cfg_ok) p1 len1 Ring1)
    as (p2' & E2' & _ & Rdy2 & _ & Xc2).
  rewrite E2 in E2'. inversion E2'; subst p2'. clear E2'.
  destruct (pipe_cycle_exe_step cfg p2)
    as ((Fe3 & Id3 & _ & La3 & Nx3) & (Rt3 & _) & Rb3 & _).
  fold p3 in Fe3, Id3, La3, Nx3, Rt3, Rb3.
  destruct (@pipe_cycle_exe_single cfg p2 single_cycle) as (In3 & _).
  cbv zeta in In3. fold p3 in In3.
  destruct (pipe_cycle_schedule_keeps cfg p3 E4)
    as (Fr4 & Hd4 & _ & Cells4 & _).
  destruct (back_frame_fields Fr4)
    as (Fe4 & Id4 & _ & _ & Rt4 & _ & _ & La4 & _ & _ & Nx4).
  assert (K57 : rob_kept p5 p7)
    by (apply rob_kept_same; now rewrite Rb7, Rb6).
  assert (K47 : rob_kept p4 p7) by (now apply (rob_kept_trans K5)).
  assert (K37 : rob_kept p3 p7) by (now apply (rob_kept_trans K4)).
  assert (Ex37 : EX_latch p7 = EX_latch p3) by congruence.
  assert (Rt71 : stat_retired_inst p7 = stat_retired_inst p1) by congruence.
  pose proof (progress_stage_range cfg p) as Rg.
  pose proof (progress_stage_range cfg p7) as Rg7.
  destruct (rob_check_head (rob p0)) eqn:Hh.
  { (* the head retires *)
    right.
    pose proof (@pipe_cycle_commit_retires cfg junk total cfg_ok p0
                  (proj1 L0) Hh) as Hr.
    fold p1 in Hr. unfold remaining. rewrite Rt71.
    change (stat_retired_inst p0) with (stat_retired_inst p) in Hr. lia. }
  assert (E1 : p1 = p0) by (now apply pipe_cycle_commit_idle).
  set (h := head_ptr (rob p)) in *.
  set (r := stat_retired_inst p) in *.
  assert (P1 : rob p1 = rob p /\ SC_latch p1 = SC_latch p
               /\ EX_latch p1 = EX_latch p /\ ID_latch p1 = ID_latch p
               /\ FE_latch p1 = FE_latch p
               /\ stat_retired_inst p1 = r
               /\ next_inst_num p1 = next_inst_num p
               /\ last_inst_num p1 = last_inst_num p)
    by (rewrite E1; repeat split; reflexivity).
  destruct P1 as (Rb1 & Sc1 & Ex1 & Id1 & Fe1 & Rt1 & Nx1 & La1).
  assert (Ret7 : stat_retired_inst p7 = r) by congruence.
  assert (Hd3 : head_ptr (rob p3) = h) by (rewrite Rb3, Hd2, Rb1; reflexivity).
  assert (Hd7 : head_ptr (rob p7) = h) by (destruct K37 as (H & _); congruence).
  assert (V3 : forall j, valid (entries (rob p3) j) = valid (entries (rob p) j)).
  { intros j. rewrite Rb3. destruct (Cells2 j) as (Hv & _).
    now rewrite Hv, Rb1. }
  assert (X3 : forall j, exec (entries (rob p3) j) = exec (entries (rob p) j)).
  { intros j. now rewrite Rb3, Xc2, Rb1. }
  assert (Id4p : ID_latch p4 = ID_latch p) by congruence.
  assert (Fe5p : FE_latch p5 = FE_latch p) by congruence.
  assert (Nx5p : next_inst_num p5 = next_inst_num p) by congruence.
  assert (V4 : forall j, valid (entries (rob p4) j) = valid (entries (rob p) j)).
  { intros j. destruct (Cells4 j) as (Hv & _). now rewrite Hv, V3. }
  assert (Hd4p : head_ptr (rob p4) = h) by congruence.
  assert (Width : (0 < W)%nat).
  { destruct cfg_ok as ((Hw & _) & _). lia. }
  assert (Goal : progress_stage cfg p < progress_stage cfg p7
                 \/ halt p7 = true).
  { unfold progress_stage at 1. fold h. fold r.
    unfold rob_check_head, rob_check_ready in Hh.
    change (rob p0) with (rob p) in Hh. fold h in Hh.
    destruct (valid (entries (rob p) h)) eqn:V.
    - destruct (ready (entries (rob p) h)) eqn:R; [discriminate|].
      clear Hh.
      assert (Vp3 : valid (entries (rob p3) h) = true) by now rewrite V3.
      destruct (exec (entries (rob p) h)) eqn:X.
      + assert (Xp3 : exec (entries (rob p3) h) = true) by now rewrite X3.
        destruct (lane_has W (EX_latch p) (fun x => dr_tag x =? h)) eqn:InEx.
        * (* in an EX latch: written back *)
          left. apply lane_has_elim in InEx.
          destruct InEx as (l & Hl & Vl & Tl). apply Z.eqb_eq in Tl.
          assert (A : wb_active p1 l = true).
          { unfold wb_active. rewrite Ex1, Vl.
            destruct L as (_ & _ & _ & _ & _ & (S & _)).
            destruct (S l) as (_ & _ & Se). now rewrite Se. }
          pose proof (Rdy2 l (width_writebacks cfg_ok Hl) A) as Rd.
          rewrite Ex1, Tl in Rd.
          destruct K37 as (_ & K). destruct (K h Vp3) as (V7 & _ & R7).
          rewrite Rb3 in R7. specialize (R7 Rd).
          rewrite (@progress_stage_6 cfg p7); [lia | |];
            rewrite Hd7; assumption.
        * (* in an SC latch: moved to the EX latch *)
          left. destruct (Loc h V X R) as (l & Hl & [(Vl & Tl)|(Vl & Tl)]).
          2: { pose proof (lane_has_none _ _ InEx Hl Vl) as Hn.
               cbv beta in Hn. rewrite Tl, Z.eqb_refl in Hn. discriminate. }
          destruct (In3 l Hl) as [M _]. unfold exe_lane_moved in M.
          rewrite Sc2, Sc1, Vl in M. destruct M as [M _].
          destruct K37 as (_ & K). destruct (K h Vp3) as (V7 & X7 & _).
          specialize (X7 Xp3).
          pose proof (@progress_stage_5 cfg p7 l) as H5.
          rewrite Hd7, Ex37, M in H5. specialize (H5 V7 X7 Hl Vl Tl). lia.
      + (* waiting in the ROB: scheduled *)
        left.
        assert (Xp3 : exec (entries (rob p3) h) = false) by now rewrite X3.
        assert (U3 : unscheduled (entries (rob p3) (head_ptr (rob p3)))
                     = true).
        { unfold unscheduled. now rewrite Hd3, Vp3, Xp3. }
        assert (S3 : sources_ready (entries (rob p3) (head_ptr (rob p3)))
                     = true).
        { apply head_sources_ready; [exact L3|]. now rewrite Hd3. }
        pose proof (Goal4 U3 S3) as X4. rewrite Hd3 in X4.
        destruct K4 as (_ & K4). destruct (K4 h Vp3) as (V4' & _).
        destruct K47 as (_ & K). destruct (K h V4') as (V7 & X7 & _).
        specialize (X7 X4).
        pose proof (@progress_stage_4 cfg p7) as H4.
        rewrite Hd7 in H4. specialize (H4 V7 X7). lia.
    - clear Hh.
      destruct (proj1 L) as (len & Fifo & R0 & Seq & Win & Nx & Fe & L0' & Lb
                             & Bd).
      assert (Elen : len = 0).
      { pose proof (ring_head_valid (proj1 Fifo)) as Hv.
        pose proof Fifo as ((Hl & _) & _).
        destruct (Z_lt_le_dec 0 len) as [Pos|Neg]; [|lia].
        apply Hv in Pos. fold h in Pos. congruence. }
      subst len. fold r in Win. rewrite Z.add_0_r in Win.
      destruct Win as (Hlt & Hin & Hall & _).
      destruct (lane_has W (ID_latch p) (fun x => inst_num x =? r + 1))
        eqn:InId.
      + (* in an ID latch: inserted into the ROB *)
        left. apply lane_has_elim in InId.
        destruct InId as (l & Hl & Vl & _).
        destruct (@pipe_cycle_issue_front cfg total cfg_ok p4 (proj1 L4))
          as (Ins & _).
        fold p5 in Ins.
        assert (V5 : valid (entries (rob p5) (head_ptr (rob p5))) = true).
        { apply Ins. exists l. rewrite Id4p. auto. }
        pose proof (@progress_stage_3 cfg p7) as H3.
        rewrite Rb7, Rb6 in H3. specialize (H3 V5). lia.
      + assert (Enext : next_inst_num p = r + 1).
        { destruct (Z.eq_dec (next_inst_num p) (r + 1)) as [E|D]; [exact E|].
          exfalso. destruct (Hall (r + 1)) as (k & Hk & Vk & Ek); [lia|].
          pose proof (lane_has_none _ _ InId Hk Vk) as Hn. cbv beta in Hn.
          rewrite Ek, Z.eqb_refl in Hn. discriminate. }
        assert (NoId : forall l, (l < W)%nat ->
                         lvalid (ID_latch p4 l) = false).
        { intros l Hl. rewrite Id4p.
          destruct (lvalid (ID_latch p l)) eqn:Vl; [|reflexivity].
          pose proof (Hin l Hl Vl). lia. }
        assert (Vh4 : valid (entries (rob p4) (head_ptr (rob p4))) = false)
          by (now rewrite Hd4p, V4).
        destruct (@pipe_cycle_issue_front cfg total cfg_ok p4 (proj1 L4))
          as (_ & Free).
        fold p5 in Free. specialize (Free Vh4 NoId).
        destruct (lane_has W (FE_latch p) (fun x => inst_num x =? r + 1))
          eqn:InFe.
        * (* in an FE latch: decoded *)
          left. apply lane_has_elim in InFe.
          destruct InFe as (k & Hk & Vk & Ek). apply Z.eqb_eq in Ek.
          destruct (@pipe_cycle_decode_moves cfg cfg_ok p5 Free)
            as (V6 & E6).
          { exists k. rewrite Fe5p, Nx5p. split; [exact Hk|].
            split; [exact Vk | congruence]. }
          fold p6 in V6, E6.
          pose proof (@progress_stage_2 cfg p7 0%nat Width) as H2.
          rewrite Id7, Ret7 in H2. specialize (H2 V6). 
          assert (E6' : inst_num (linst (ID_latch p6 0)) = r + 1)
            by congruence.
          specialize (H2 E6'). lia.
        * (* not fetched: fetched now, or the trace is at its end *)
          destruct L as (InvL & _ & _ & _ & _ & (_ & Wf)).
          destruct Wf as (Flt & Fin & Fall & _).
          destruct (pipe_inv_retired_small InvL) as (_ & _ & Hrl & _).
          fold r in Hrl.
          assert (Elast : last_inst_num p = r).
          { destruct (Z_le_gt_dec (last_inst_num p) r) as [Le|Gt]; [lia|].
            exfalso. destruct (Fall (r + 1)) as (k & Hk & Vk & Ek); [lia|].
            pose proof (lane_has_none _ _ InFe Hk Vk) as Hn. cbv beta in Hn.
            rewrite Ek, Z.eqb_refl in Hn. discriminate. }
          assert (NoFe : lvalid (FE_latch p6 0) = false).
          { apply Fi6. rewrite Fe5p.
            destruct (lvalid (FE_latch p 0)) eqn:V0; [|reflexivity].
            pose proof (Fin 0%nat Width V0). lia. }
          assert (St6 : lstall (FE_latch p6 0) = false).
          { destruct L6 as (_ & _ & _ & _ & _ & (S & _)).
            now destruct (S 0%nat). }
          assert (La6p : last_inst_num p6 = stat_retired_inst p6)
            by congruence.
          destruct (@pipe_cycle_fetch_starts cfg total cfg_ok p6 (proj1 L6))
            as [H|(V7 & E7)]; try assumption.
          { apply L6. }
          { right. exact H. }
          left. fold p7 in V7, E7.
          pose proof (@progress_stage_1 cfg p7 0%nat Width V7) as H1.
          rewrite Ret7 in H1.
          assert (E7' : inst_num (linst (FE_latch p7 0)) = r + 1)
            by congruence.
          specialize (H1 E7'). lia. }
  destruct Goal as [G|G]; [right|left; exact G].
  unfold remaining. rewrite Ret7. fold r. lia.
Qed.

End Progress.

Section Runs.

Variable cfg : Config.
Variable junk : InstInfo.
Variable total : Z.
Variable recs : list TraceRec.
Hypothesis cfg_ok : config_ok cfg.
Hypothesis single_cycle : LOAD_EXE_CYCLES cfg = 1.
Hypothesis policy_ok :
  SCHED_POLICY cfg = SCHED_IN_ORDER \/ SCHED_POLICY cfg = SCHED_OUT_OF_ORDER.
Hypothesis total_small : total + 4 < 2 ^ 64.
Hypothesis recs_regs : Forall regs_ok recs.
Hypothesis recs_short : Z.of_nat (length recs) + 1 < 2 ^ 64.

(** [n] cycles bring the measure down by [n], unless the run halts. *)
Lemma cycles_progress n : forall p,
  live_inv cfg total recs p -> located cfg p ->
  exists p',
    cycles cfg junk n p = Some p'
    /\ live_inv cfg total recs p' /\ located cfg p'
    /\ (halt p = true -> halt p' = true)
    /\ (halt p' = true
        \/ remaining cfg total p' + Z.of_nat n <= remaining cfg total p).
Proof.
  induction n as [|n IH]; intros p L Loc.
  - exists p. split; [reflexivity|]. split; [exact L|]. split; [exact Loc|].
    split; [auto|]. right. cbn. lia.
  - destruct (@cycle_progress cfg junk total recs cfg_ok single_cycle
                policy_ok total_small recs_regs recs_short p L Loc)
      as (p1 & E1 & L1 & Loc1 & G1).
    destruct (IH p1 L1 Loc1) as (p' & E' & L' & Loc' & Hs & G').
    exists p'. cbn [cycles]. rewrite E1. cbn [bind].
    split; [exact E'|]. split; [exact L'|]. split; [exact Loc'|].
    split.
    + intros H. apply Hs. eapply pipe_cycle_keeps_halt; eauto.
    + destruct G1 as [H1|Lt]; [left; now apply Hs|].
      destruct G' as [H'|Le]; [left; exact H'|]. right. lia.
Qed.

End Runs.

Lemma live_inv_init cfg around trace :
  config_ok cfg ->
  Forall (fun r => (NUM_OP_TYPES cfg <=? tr_op_type r) = false) trace ->
  Z.of_nat (length trace) + 1 < 2 ^ 64 ->
  live_inv cfg (Z.of_nat (length trace)) trace (pipe_init around trace)
  /\ located cfg (pipe_init around trace).
Proof.
  intros Hc Hops Hb. split.
  - split; [now apply pipe_init_inv|].
    split; [apply traced_init; symmetry; now apply accepted_all|].
    split; [apply rat_inv_init|]. split; [apply dep_inv_init|].
    split; [now apply halt_inv_init|].
    split.
    + intros i. unfold pipe_init. cbn. auto.
    + unfold fe_window, pipe_init. cbn.
      split; [lia|]. split; [discriminate|].
      split; [intros m Hm; lia | discriminate].
  - intros j V. unfold pipe_init in V. cbn in V. discriminate.
Qed.

(** X18. Every run halts.  Take single-cycle execution, one of the two
    scheduling policies, and a trace of [n] records whose op types are in
    the enumeration and whose needed registers are architectural registers.
    Then [7 n + 7] calls of [pipe_cycle] from [pipe_init] all return, and
    after them the halt flag is set and all [n] instructions are retired:
    the pipeline cannot deadlock, whatever the width, the ROB size and the
    dependences of the trace. *)
Theorem run_halts
        (cfg : Config) (junk : InstInfo) (around : Z -> RATEntry)
        (trace : list TraceRec) :
  config_ok cfg ->
  LOAD_EXE_CYCLES cfg = 1 ->
  SCHED_POLICY cfg = SCHED_IN_ORDER \/ SCHED_POLICY cfg = SCHED_OUT_OF_ORDER ->
  Forall (fun r => (NUM_OP_TYPES cfg <=? tr_op_type r) = false) trace ->
  Forall regs_ok trace ->
  Z.of_nat (length trace) + 4 < 2 ^ 64 ->
  exists p,
    cycles cfg junk (7 * length trace + 7) (pipe_init around trace) = Some p
    /\ halt p = true
    /\ stat_retired_inst p = Z.of_nat (length trace).
Proof.
  intros Hc HL Hpol Hops Hregs Hb.
  destruct (@live_inv_init cfg around trace Hc Hops ltac:(lia)) as (L & Loc).
  destruct (@cycles_progress cfg junk (Z.of_nat (length trace)) trace
              Hc HL Hpol Hb Hregs ltac:(lia)
              (7 * length trace + 7) (pipe_init around trace) L Loc)
    as (p & E & Lp & _ & _ & G).
  exists p. split; [exact E|].
  assert (H : halt p = true).
  { destruct G as [H|Le]; [exact H|]. exfalso.
    pose proof (progress_stage_range cfg p) as Rp.
    pose proof (progress_stage_range cfg (pipe_init around trace)) as Ri.
    destruct (pipe_inv_retired_small (proj1 Lp)) as (_ & _ & Hr1 & Hr2).
    unfold remaining in Le.
    change (stat_retired_inst (pipe_init around trace)) with 0 in Le.
    lia. }
  split; [exact H|].
  destruct Lp as (_ & _ & _ & _ & (_ & Cases) & _).
  destruct Cases as [(_ & Hf & _)|(_ & _ & _ & Hiff)]; [congruence|].
  now apply Hiff.
Qed.

Lemma run_halts_witness : halt (after cfg_scalar 21 trace_raw) = true.
Proof.
  destruct (@run_halts cfg_scalar inst_zero around_clear trace_raw)
    as (p & E & H & _).
  - unfold config_ok, MAX_PIPE_WIDTH, MAX_ROB_ENTRIES. simpl. lia.
  - reflexivity.
  - left. reflexivity.
  - unfold trace_raw. repeat constructor.
  - unfold trace_raw, regs_ok, MAX_ARF_REGS.
    repeat constructor; cbn; intros; try discriminate; lia.
  - vm_compute. reflexivity.
  - assert (Ep : p = after cfg_scalar 21 trace_raw).
    { unfold after.
      change 21%nat with (7 * length trace_raw + 7)%nat.
      rewrite E. reflexivity. }
    rewrite <- Ep. exact H.
Defined.
